(** * WXF codec: a shallow embedding of [wxf_parser.h]

    The development follows the header file top to bottom: the tag
    enumeration, the primitive codec (varints and fixed-width scalars), the
    [Encoder], the [Token] accessors, the [Parser], the tree builder
    [MakeExprTree], and the [FullForm] templates (lexer, parser and
    [fullform_to_wxf]).

    Conventions of the embedding.
    - A byte, a [size_t], a [uint64_t] and an [int64_t] are all integers of
      [Z]; every C++ operation that can wrap is followed by the explicit
      reduction ([u64], [sint]).
    - A byte buffer is a [list Z]; a pointer into the input buffer is the
      offset from its first byte.
    - Scalars are copied with [memcpy]: the host is little-endian and signed
      integers are two's complement.
    - Diagnostics written to [std::cerr] are collected as a list of events.
    - An allocation whose size is a field read from the input (the vector
      of the dimensions of an array, the block of an array token, the child
      array of a node) is served or refused by the allocator, the parameter
      [heap] of the functions that allocate; a refusal is the exception or
      the null pointer of the source. The containers that grow with what
      has been read or written (the token vector, the stacks, the byte
      buffers and the strings) always find room.
    - The sizes are those of the LP64 host with libstdc++: [sizeof(size_t)]
      is 8, [sizeof(ExprNode)] is 32, an array of nodes is preceded by a
      cookie of 8 bytes, and no block exceeds [PTRDIFF_MAX] bytes. *)

From Stdlib Require Import ZArith List Bool Lia Arith.
From Equations Require Import Equations.
Import ListNotations.

Local Open Scope Z_scope.

(** ** Machine integers *)

Definition u64 (z : Z) : Z := z mod 2 ^ 64.

(** Conversion to a signed integer of [w] bits (two's complement). *)
Definition sint (w : Z) (z : Z) : Z :=
  let m := z mod 2 ^ w in
  if m <? 2 ^ (w - 1) then m else m - 2 ^ w.

Definition INT8_MIN : Z := - 2 ^ 7.
Definition INT8_MAX : Z := 2 ^ 7 - 1.
Definition INT16_MIN : Z := - 2 ^ 15.
Definition INT16_MAX : Z := 2 ^ 15 - 1.
Definition INT32_MIN : Z := - 2 ^ 31.
Definition INT32_MAX : Z := 2 ^ 31 - 1.
Definition INT64_MIN : Z := - 2 ^ 63.
Definition INT64_MAX : Z := 2 ^ 63 - 1.

(** ** Outcomes of a run

    The C++ code can read outside a vector or through a dangling pointer,
    throw, or loop; the embedding makes each of them a result. *)

Inductive undefined : Type :=
| OutOfBounds      (* indexing a buffer or a vector outside its extent *)
| EmptyBack        (* [back()] of an empty vector *)
| NullChildren     (* [children[i]] outside the allocated child array *)
| Dangling         (* access through a pointer to a destroyed node *)
| IntOverflow      (* overflow of an [int] addition *)
| BadBlock.        (* a write through the pointer [malloc] returned, when it
                      is null or the block is shorter than the write *)

(** [BadAlloc] is [std::bad_alloc] (and [std::bad_array_new_length], which
    derives from it); [LengthError] is [std::length_error]. No function of
    the file catches either. *)
Inductive outcome (A : Type) : Type :=
| Ok (a : A)
| Undefined (u : undefined)
| BadAlloc
| LengthError
| OutOfFuel.

Arguments Ok {A} a.
Arguments Undefined {A} u.
Arguments BadAlloc {A}.
Arguments LengthError {A}.
Arguments OutOfFuel {A}.

Definition bind {A B : Type} (m : outcome A) (k : A -> outcome B) : outcome B :=
  match m with
  | Ok a => k a
  | Undefined u => Undefined u
  | BadAlloc => BadAlloc
  | LengthError => LengthError
  | OutOfFuel => OutOfFuel
  end.

Notation "x <- m ;; k" := (bind m (fun x => k))
  (at level 61, m at next level, right associativity).
Notation "' p <- m ;; k" := (bind m (fun p => k))
  (at level 61, p pattern, m at next level, right associativity).

(** ** The allocator

    [heap n] tells whether the allocator has a block of [n] bytes to give
    when it is asked. *)

Definition PTRDIFF_MAX : Z := 2 ^ 63 - 1.

(** A request of [n] bytes is served: no block exceeds [PTRDIFF_MAX]
    bytes. *)
Definition served (heap : Z -> bool) (n : Z) : bool :=
  (n <=? PTRDIFF_MAX) && heap n.

(** [max_size()] of a [std::vector<size_t>]. *)
Definition vector_max_size : Z := PTRDIFF_MAX / 8.

(** [std::vector<size_t> v(n)]: the constructor checks [n] against
    [max_size()] and then allocates the [n] elements. *)
Definition new_vector (heap : Z -> bool) (n : Z) : outcome unit :=
  if n >? vector_max_size then LengthError
  else if (n =? 0) || served heap (8 * n) then Ok tt
  else BadAlloc.

(** Events written to [std::cerr]. *)
Inductive diag : Type :=
| InvalidWXFFile
| UnknownHeadType (type pos : Z)
| NotAllNodesParsed
| DataSizeMismatch.

(** ** Type tags *)

Inductive WXF_HEAD : Type :=
| func | association | delay_rule | rule
| symbol | string | binary_string | bigint | bigreal
| i8 | i16 | i32 | i64 | f64
| array | narray.

Definition WXF_HEAD_eqb (a b : WXF_HEAD) : bool :=
  match a, b with
  | func, func | association, association | delay_rule, delay_rule
  | rule, rule | symbol, symbol | string, string
  | binary_string, binary_string | bigint, bigint | bigreal, bigreal
  | i8, i8 | i16, i16 | i32, i32 | i64, i64 | f64, f64
  | array, array | narray, narray => true
  | _, _ => false
  end.

(** The enumerator values. *)
Definition head_value (h : WXF_HEAD) : Z :=
  match h with
  | func => 102 | association => 65 | delay_rule => 58 | rule => 45
  | symbol => 115 | string => 83 | binary_string => 66
  | bigint => 73 | bigreal => 82
  | i8 => 67 | i16 => 106 | i32 => 105 | i64 => 76 | f64 => 114
  | array => 193 | narray => 194
  end.

(** [(WXF_HEAD)(byte)]: the enumerator with that value, if there is one; the
    other bytes reach the [default] label of a [switch]. *)
Definition head_of_byte (b : Z) : option WXF_HEAD :=
  match b with
  | 102 => Some func | 65 => Some association | 58 => Some delay_rule
  | 45 => Some rule | 115 => Some symbol | 83 => Some string
  | 66 => Some binary_string | 73 => Some bigint | 82 => Some bigreal
  | 67 => Some i8 | 106 => Some i16 | 105 => Some i32 | 76 => Some i64
  | 114 => Some f64 | 193 => Some array | 194 => Some narray
  | _ => None
  end.

Definition size_of_head_num_type (head : WXF_HEAD) : Z :=
  match head with
  | i8 => 1
  | i16 => 2
  | i32 => 4
  | i64 => 8
  | f64 => 8
  | _ => 0
  end.

(** Only the last 3 bits are used to indicate the size. *)
Definition size_of_arr_num_type (num_type : Z) : Z :=
  u64 (Z.shiftl 1 (Z.land num_type 7)).

Definition minimal_signed_bits (x : Z) : Z :=
  if (INT8_MIN <=? x) && (x <=? INT8_MAX) then 0
  else if (INT16_MIN <=? x) && (x <=? INT16_MAX) then 1
  else if (INT32_MIN <=? x) && (x <=? INT32_MAX) then 2
  else 3.

(** For positive signed/unsigned integer. *)
Definition minimal_pos_signed_bits (x : Z) : Z :=
  if x <=? INT8_MAX then 0
  else if x <=? INT16_MAX then 1
  else if x <=? INT32_MAX then 2
  else if x <=? INT64_MAX then 3
  else 4.

Definition UINT8_MAX : Z := 2 ^ 8 - 1.
Definition UINT16_MAX : Z := 2 ^ 16 - 1.
Definition UINT32_MAX : Z := 2 ^ 32 - 1.
Definition UINT64_MAX : Z := 2 ^ 64 - 1.

Definition minimal_unsigned_bits (x : Z) : Z :=
  if x <=? UINT8_MAX then 0
  else if x <=? UINT16_MAX then 1
  else if x <=? UINT32_MAX then 2
  else 3.

(** ** Primitive codec *)

(** The [do ... while (val != 0)] loop of [serialize_varint]; [val] is
    unsigned, so [val != 0] is [0 < val]. The result is [temp[0..i)]. *)
Equations? varint_groups (val : Z) : list Z by wf (Z.to_nat (Z.log2 val)) lt :=
  varint_groups val with Z_lt_dec 0 (Z.shiftr val 7) => {
    | left _ => Z.lor (Z.land val 127) 128 :: varint_groups (Z.shiftr val 7)
    | right _ => [Z.land val 127] }.
Proof.
  assert (Hpos : 0 < val).
  { destruct (Z_lt_dec 0 val) as [|Hn]; [assumption | exfalso].
    rewrite Z.shiftr_div_pow2 in l by lia.
    assert (val / 2 ^ 7 <= 0) by (apply Z.div_le_upper_bound; lia). lia. }
  assert (Hlog : Z.log2 (Z.shiftr val 7) = Z.max 0 (Z.log2 val - 7))
    by (apply Z.log2_shiftr; assumption).
  assert (Hge : 7 <= Z.log2 val).
  { apply Z.log2_le_pow2; [assumption |].
    rewrite Z.shiftr_div_pow2 in l by lia.
    assert (2 ^ 7 * (val / 2 ^ 7) <= val) by (apply Z.mul_div_le; lia). lia. }
  lia.
Qed.

Definition serialize_varint (buffer : list Z) (val : Z) : list Z :=
  buffer ++ varint_groups (u64 val).

(** The object representation of an integer on [n] bytes. *)
Fixpoint le_bytes (n : nat) (v : Z) : list Z :=
  match n with
  | O => []
  | S n' => Z.land v 255 :: le_bytes n' (Z.shiftr v 8)
  end.

(** [serialize_binary(buffer, (intN_t) value)] with [sizeof(T) = n]. *)
Definition serialize_binary (buffer : list Z) (n : nat) (value : Z) : list Z :=
  buffer ++ le_bytes n (sint (8 * Z.of_nat n) value).

(** ** Element types of arrays

    The types [T] at which the array functions of the encoder are
    instantiated. A value of [T] is carried as the integer whose
    little-endian bytes are its object representation (the bit pattern, for
    the floating-point and complex types). *)

Inductive elem_type : Type :=
| int8_t | int16_t | int32_t | int64_t
| uint8_t | uint16_t | uint32_t | uint64_t
| float | double
| complex_float_t | complex_double_t.

(** [sizeof(T)] *)
Definition sizeof (ty : elem_type) : nat :=
  match ty with
  | int8_t | uint8_t => 1
  | int16_t | uint16_t => 2
  | int32_t | uint32_t | float => 4
  | int64_t | uint64_t | double | complex_float_t => 8
  | complex_double_t => 16
  end.

(** [std::numeric_limits<T>::max()] of the integral types. *)
Definition numeric_max (ty : elem_type) : Z :=
  match ty with
  | int8_t => INT8_MAX
  | int16_t => INT16_MAX
  | int32_t => INT32_MAX
  | int64_t => INT64_MAX
  | uint8_t => UINT8_MAX
  | uint16_t => UINT16_MAX
  | uint32_t => UINT32_MAX
  | uint64_t => UINT64_MAX
  | _ => 0
  end.

(** The bytes of a value of type [ty]. *)
Definition elem_repr (ty : elem_type) (v : Z) : list Z := le_bytes (sizeof ty) v.

(** ** Encoder *)

Module Encoder.

Record t : Type := mk { buffer : list Z }.

Definition push_back (e : t) (b : Z) : t := mk (buffer e ++ [b]).

(** [buffer.resize(n)]: shrink to the first [n] bytes, or pad with zeros. *)
Definition resize (e : t) (n : Z) : t :=
  mk (firstn (Z.to_nat n) (buffer e)
      ++ repeat 0 (Z.to_nat n - length (buffer e))).

(** Push ustr directly. *)
Definition push_ustr (e : t) (str : list Z) : t := mk (buffer e ++ str).

Definition push_integer (e : t) (val : Z) : t :=
  let num_type := minimal_signed_bits val in
  match num_type with
  | 0 => mk (serialize_binary (buffer (push_back e (head_value i8))) 1 val)
  | 1 => mk (serialize_binary (buffer (push_back e (head_value i16))) 2 val)
  | 2 => mk (serialize_binary (buffer (push_back e (head_value i32))) 4 val)
  | 3 => mk (serialize_binary (buffer (push_back e (head_value i64))) 8 val)
  | _ => e
  end.

(** Push string type struct: string/symbol/bigint/bigreal. *)
Definition push_string (e : t) (str : list Z) (type : WXF_HEAD) : t :=
  let e := push_back e (head_value type) in
  let e := mk (serialize_varint (buffer e) (Z.of_nat (length str))) in
  push_ustr e str.

Definition push_symbol (e : t) (sym : list Z) : t := push_string e sym symbol.

Definition push_function (e : t) (head : list Z) (num_vars : Z) : t :=
  let e := push_back e (head_value func) in
  let e := mk (serialize_varint (buffer e) num_vars) in
  push_string e head symbol.

Definition push_association (e : t) (num_rules : Z) : t :=
  let e := push_back e (head_value association) in
  mk (serialize_varint (buffer e) num_rules).

Definition push_rule (e : t) : t := push_back e (head_value rule).
Definition push_delay_rule (e : t) : t := push_back e (head_value delay_rule).

(** Emits [array_type, num_type, rank, dimensions...] and returns the total
    length of the array, a [size_t] product. *)
Definition push_array_info (e : t) (dimension_array : list Z)
    (type : WXF_HEAD) (num_type : Z) : t * Z :=
  let all_len := 1 in
  let e := push_back e (head_value type) in
  let e := push_back e num_type in
  let e := mk (serialize_varint (buffer e) (Z.of_nat (length dimension_array))) in
  fold_left
    (fun '(e, all_len) dim =>
       (mk (serialize_varint (buffer e) dim), u64 (all_len * dim)))
    dimension_array (e, all_len).

Section PushArray.
(** The element type [T] of the span and the object representation of
    its values ([sizeof(T)] bytes each). *)
Variable T : Type.
Variable repr : T -> list Z.

Definition push_array (e : t) (dimension_array : list Z) (data : list T)
    (type : WXF_HEAD) (num_type : Z) (cerr : list diag) : t * list diag :=
  (* backup current size *)
  let old_size := Z.of_nat (length (buffer e)) in
  let '(e, all_len) := push_array_info e dimension_array type num_type in
  if negb (all_len =? Z.of_nat (length data)) then
    (* restore buffer *)
    (resize e old_size, cerr ++ [DataSizeMismatch])
  else
    (* push data *)
    (push_ustr e (concat (map repr data)), cerr).
End PushArray.

Definition clear (e : t) : t := mk [].

(** A [double] is passed as its binary64 bit pattern. *)
Definition push_real (e : t) (val : Z) : t :=
  mk (serialize_binary (buffer (push_back e (head_value f64))) 8 val).

Definition push_bigint (e : t) (bigint_str : list Z) : t :=
  push_string e bigint_str bigint.
Definition push_bigreal (e : t) (bigreal_str : list Z) : t :=
  push_string e bigreal_str bigreal.
Definition push_binary_string (e : t) (bin_str : list Z) : t :=
  push_string e bin_str binary_string.

(** The overloads of [push_packed_array]: signed integers, [float],
    [double] and the two complex types; there is none for the unsigned
    integers ([None]). *)
Definition push_packed_array (ty : elem_type) (e : t) (dimension_array : list Z)
    (data : list Z) (cerr : list diag) : option (t * list diag) :=
  match ty with
  | int8_t | int16_t | int32_t | int64_t =>
      let num_type := minimal_signed_bits (numeric_max ty) in
      Some (push_array Z (elem_repr ty) e dimension_array data array num_type cerr)
  | float =>
      Some (push_array Z (elem_repr ty) e dimension_array data array 34 cerr)
  | double =>
      Some (push_array Z (elem_repr ty) e dimension_array data array 35 cerr)
  | complex_float_t =>
      Some (push_array Z (elem_repr ty) e dimension_array data array 51 cerr)
  | complex_double_t =>
      Some (push_array Z (elem_repr ty) e dimension_array data array 52 cerr)
  | uint8_t | uint16_t | uint32_t | uint64_t => None
  end.

(** The overloads of [push_numeric_array]: [float], [double] and the two
    complex types. The template for the integral types is ill-formed at
    every one of them ([None]): under a plain [if] its body calls both
    [minimal_signed_bits], which requires a signed [T], and
    [minimal_unsigned_bits], which requires an unsigned one. *)
Definition push_numeric_array (ty : elem_type) (e : t) (dimension_array : list Z)
    (data : list Z) (cerr : list diag) : option (t * list diag) :=
  match ty with
  | int8_t | int16_t | int32_t | int64_t
  | uint8_t | uint16_t | uint32_t | uint64_t => None
  | float =>
      Some (push_array Z (elem_repr ty) e dimension_array data narray 34 cerr)
  | double =>
      Some (push_array Z (elem_repr ty) e dimension_array data narray 35 cerr)
  | complex_float_t =>
      Some (push_array Z (elem_repr ty) e dimension_array data narray 51 cerr)
  | complex_double_t =>
      Some (push_array Z (elem_repr ty) e dimension_array data narray 52 cerr)
  end.

End Encoder.

(** ** Tokens *)

Module Token.

(** The anonymous union of the struct: [length] for numbers, strings and
    composites; [dimensions] for arrays, where [dimensions[0]] is the
    element type, [dimensions[1]] the flattened length and the rest the
    dimension sizes. *)
Inductive payload : Type :=
| Length (length : Z)
| Dimensions (dimensions : list Z).

(** [data] is the offset of the viewed bytes in the original buffer;
    [None] is [nullptr]. *)
Record t : Type := mk {
  type : WXF_HEAD;
  rank : Z;
  content : payload;
  data : option Z
}.

(** [Token()] *)
Definition default : t := mk i8 0 (Length 0) None.

(** [Token(t, len, d)] *)
Definition make (ty : WXF_HEAD) (len : Z) (d : Z) : t :=
  mk ty 0 (Length len) (Some d).

(** [Token(t, dims, num_type, len, d)]. The number of dimensions is
    narrowed to the [int r]; [r + 2] is an [int] addition; the block of
    [(r + 2) * sizeof(size_t)] bytes comes from [malloc], whose result is
    written through unchecked: [dimensions[0]] and [dimensions[1]] need a
    block of 16 bytes; the loop copies the first [r] dimensions. *)
Definition make_array (heap : Z -> bool) (ty : WXF_HEAD) (dims : list Z)
    (num_type : Z) (len : Z) (d : Z) : outcome t :=
  let r := sint 32 (Z.of_nat (List.length dims)) in
  if r + 2 >? INT32_MAX then Undefined IntOverflow
  else
    let bytes := u64 ((r + 2) * 8) in
    if served heap bytes && (16 <=? bytes) then
      Ok (mk ty r (Dimensions (u64 num_type :: len :: firstn (Z.to_nat r) dims))
            (Some d))
    else Undefined BadBlock.

(** The [length] member; it is only read on tokens built with [make]. *)
Definition length (tk : t) : Z :=
  match content tk with
  | Length l => l
  | Dimensions _ => 0
  end.

(** Reading [n] bytes at offset [off] of the buffer the token views. *)
Fixpoint read_bytes (buf : list Z) (off : Z) (n : nat) : outcome (list Z) :=
  match n with
  | O => Ok []
  | S n' =>
      if off <? 0 then Undefined OutOfBounds
      else match nth_error buf (Z.to_nat off) with
           | None => Undefined OutOfBounds
           | Some b => bs <- read_bytes buf (off + 1) n' ;; Ok (b :: bs)
           end
  end.

(** The unsigned value of a little-endian byte sequence. *)
Fixpoint le_value (bs : list Z) : Z :=
  match bs with
  | [] => 0
  | b :: bs' => b + 256 * le_value bs'
  end.

(** [*(intN_t* )data] *)
Definition deref_int (buf : list Z) (d : option Z) (n : nat) : outcome Z :=
  match d with
  | None => Undefined OutOfBounds
  | Some off =>
      bs <- read_bytes buf off n ;; Ok (sint (8 * Z.of_nat n) (le_value bs))
  end.

Definition get_integer (buf : list Z) (tk : t) : outcome Z :=
  if WXF_HEAD_eqb (type tk) i8 then deref_int buf (data tk) 1
  else if WXF_HEAD_eqb (type tk) i16 then deref_int buf (data tk) 2
  else if WXF_HEAD_eqb (type tk) i32 then deref_int buf (data tk) 4
  else if WXF_HEAD_eqb (type tk) i64 then deref_int buf (data tk) 8
  else Ok 0.

(** A [double] is carried as its binary64 bit pattern; [0] is [+0.0]. *)
Definition double : Type := Z.

Definition get_real (buf : list Z) (tk : t) : outcome double :=
  if WXF_HEAD_eqb (type tk) f64 then
    match data tk with
    | None => Undefined OutOfBounds
    | Some off => bs <- read_bytes buf off 8 ;; Ok (le_value bs)
    end
  else Ok 0.

(** A [std::string_view]: the start pointer and the byte count. *)
Definition string_view : Type := (option Z * Z)%type.

(** [std::string_view()] *)
Definition empty_view : string_view := (None, 0).

Definition get_string_view (tk : t) : string_view :=
  if WXF_HEAD_eqb (type tk) symbol
     || WXF_HEAD_eqb (type tk) bigint
     || WXF_HEAD_eqb (type tk) bigreal
     || WXF_HEAD_eqb (type tk) string
     || WXF_HEAD_eqb (type tk) binary_string
  then (data tk, length tk)
  else empty_view.

(** What [dim] can return: a stored value; or, for an array token of rank
    0, the bits of the [dimensions] pointer, which shares its storage with
    [length]. *)
Inductive dim_result : Type :=
| DimValue (v : Z)
| DimPointerBits.

Definition dim (tk : t) (i : Z) : outcome dim_result :=
  if rank tk >? 0 then
    match content tk with
    | Dimensions ds =>
        match nth_error ds (Z.to_nat (u64 (i + 2))) with
        | Some d => Ok (DimValue d)
        | None => Undefined OutOfBounds
        end
    | Length _ => Undefined OutOfBounds
    end
  else
    match content tk with
    | Length l => Ok (DimValue l)
    | Dimensions _ => Ok DimPointerBits
    end.

(** A [std::span<const T>]: the start pointer and the element count. *)
Definition span : Type := (option Z * Z)%type.

(** [std::span<const T>()] *)
Definition empty_span : span := (None, 0).

Definition get_arr_span (tk : t) : outcome span :=
  if negb (WXF_HEAD_eqb (type tk) array) && negb (WXF_HEAD_eqb (type tk) narray)
  then Ok empty_span
  else
    match content tk with
    | Dimensions (_ :: len :: _) => Ok (data tk, len)
    | _ => Undefined OutOfBounds
    end.

End Token.

(** ** Parser *)

Module Parser.

Record t : Type := mk {
  buffer : list Z;        (* the buffer to read *)
  pos : Z;
  size : Z;               (* the size of the buffer *)
  err : Z;                (* 0 is ok, otherwise error *)
  tokens : list Token.t
}.

(** [Parser(buf)] for a vector [buf]. *)
Definition make (buf : list Z) : t :=
  mk buf 0 (Z.of_nat (length buf)) 0 [].

Definition set_pos (p : t) (n : Z) : t :=
  mk (buffer p) n (size p) (err p) (tokens p).
Definition set_err (p : t) (e : Z) : t :=
  mk (buffer p) (pos p) (size p) e (tokens p).
Definition emplace_back (p : t) (tk : Token.t) : t :=
  mk (buffer p) (pos p) (size p) (err p) (tokens p ++ [tk]).

(** [buffer[i]], a read of the caller's memory. *)
Definition byte_at (buf : list Z) (i : Z) : outcome Z :=
  if i <? 0 then Undefined OutOfBounds
  else match nth_error buf (Z.to_nat i) with
       | Some b => Ok b
       | None => Undefined OutOfBounds
       end.

(** The shift of each of the ten unrolled lines of [read_varint]. *)
Definition varint_shifts : list Z := [0; 7; 14; 21; 28; 35; 42; 49; 56; 63].

(** One line of [read_varint] per shift: read a byte, or its low seven
    bits into [result], and leave at [done] when the continuation bit is
    clear or the end of the buffer is reached; the last line has no test. *)
Fixpoint read_groups (buf : list Z) (end_ : Z) (shifts : list Z)
    (ptr result : Z) : outcome (Z * Z) :=
  match shifts with
  | [] => Ok (result, ptr)
  | s :: rest =>
      b <- byte_at buf ptr ;;
      let ptr := ptr + 1 in
      let result := Z.lor result (u64 (Z.shiftl (Z.land b 127) s)) in
      match rest with
      | [] => Ok (result, ptr)
      | _ :: _ =>
          if (Z.land b 128 =? 0) || (ptr >=? end_) then Ok (result, ptr)
          else read_groups buf end_ rest ptr result
      end
  end.

Definition read_varint (p : t) : outcome (Z * t) :=
  let ptr := pos p in
  let end_ := size p in
  if ptr >=? end_ then Ok (0, p)
  else
    '(result, ptr) <- read_groups (buffer p) end_ varint_shifts ptr 0 ;;
    Ok (result, set_pos p ptr).

(** The loop reading the [r] dimensions of an array. *)
Fixpoint read_dims (r : nat) (p : t) (dims : list Z) (all_len : Z)
    : outcome (list Z * Z * t) :=
  match r with
  | O => Ok (dims, all_len, p)
  | S r' =>
      '(d, p) <- read_varint p ;;
      read_dims r' p (dims ++ [d]) (u64 (all_len * d))
  end.

Section Allocating.
(** The allocator that serves [parse]. *)
Variable heap : Z -> bool.

(** The [switch (type)] of the loop body, [type] being the tag byte. *)
Definition parse_switch (type : Z) (p : t) (cerr : list diag)
    : outcome (t * list diag) :=
  match head_of_byte type with
  | Some ((i8 | i16 | i32 | i64 | f64) as h) =>
      let length := size_of_head_num_type h in
      let p := emplace_back p (Token.make h length (pos p)) in
      Ok (set_pos p (u64 (pos p + length)), cerr)
  | Some ((symbol | bigint | bigreal | string | binary_string) as h) =>
      '(length, p) <- read_varint p ;;
      let p := emplace_back p (Token.make h length (pos p)) in
      Ok (set_pos p (u64 (pos p + length)), cerr)
  | Some ((func | association) as h) =>
      '(length, p) <- read_varint p ;;
      Ok (emplace_back p (Token.make h length (pos p)), cerr)
  | Some ((delay_rule | rule) as h) =>
      Ok (emplace_back p (Token.make h 2 (pos p)), cerr)
  | Some ((array | narray) as h) =>
      '(nt, p) <- read_varint p ;;
      let num_type := sint 32 nt in
      '(r, p) <- read_varint p ;;
      _ <- new_vector heap r ;;             (* std::vector<size_t> dims(r) *)
      '(dims, all_len, p) <- read_dims (Z.to_nat r) p [] 1 ;;
      tk <- Token.make_array heap h dims num_type all_len (pos p) ;;
      let p := emplace_back p tk in
      Ok (set_pos p (u64 (pos p + u64 (all_len * size_of_arr_num_type num_type))),
          cerr)
  | None =>
      Ok (set_err p 2, cerr ++ [UnknownHeadType type (pos p)])
  end.

(** [while (pos < size) { ... }]; one unit of fuel per iteration. *)
Fixpoint parse_loop (fuel : nat) (p : t) (cerr : list diag)
    : outcome (t * list diag) :=
  if pos p <? size p then
    match fuel with
    | O => OutOfFuel
    | S fuel' =>
        type <- byte_at (buffer p) (pos p) ;;
        let p := set_pos p (u64 (pos p + 1)) in
        if pos p =? size p then Ok (p, cerr)
        else
          '(p, cerr) <- parse_switch type p cerr ;;
          parse_loop fuel' p cerr
    end
  else Ok (p, cerr).

(** [size < 2 || buffer[0] != 56 || buffer[1] != 58], left to right. *)
Definition bad_header (p : t) : outcome bool :=
  if size p <? 2 then Ok true
  else
    b0 <- byte_at (buffer p) 0 ;;
    if negb (b0 =? 56) then Ok true
    else b1 <- byte_at (buffer p) 1 ;; Ok (negb (b1 =? 58)).

Definition parse (fuel : nat) (p : t) (cerr : list diag)
    : outcome (t * list diag) :=
  (* check the file head *)
  r <- (if pos p =? 0 then
          bad <- bad_header p ;;
          if bad then Ok (inl (set_err p 1, cerr ++ [InvalidWXFFile]))
          else Ok (inr (set_pos p 2))
        else Ok (inr p)) ;;
  match r with
  | inl ret => Ok ret
  | inr p =>
      '(p, cerr) <- parse_loop fuel p cerr ;;
      Ok (set_err p 0, cerr)
  end.

End Allocating.

End Parser.

(** ** Expression nodes and trees *)

(** [children] is the owned array of [size] nodes, or [[]] for [nullptr]. *)
#[warnings="-register-all"]
Inductive ExprNode : Type :=
| mkExprNode (index : Z)            (* the index of the token in the tokens vector *)
             (size : Z)             (* the size of the children *)
             (children : list ExprNode)
             (type : WXF_HEAD).

Definition node_index (n : ExprNode) : Z := let (i, _, _, _) := n in i.
Definition node_size (n : ExprNode) : Z := let (_, s, _, _) := n in s.
Definition node_children (n : ExprNode) : list ExprNode := let (_, _, c, _) := n in c.
Definition node_type (n : ExprNode) : WXF_HEAD := let (_, _, _, t) := n in t.

(** [ExprNode()], also the state a node is left in by [clear()]. *)
Definition default_node : ExprNode := mkExprNode 0 0 [] i8.

Definition MAX_ALLOC : Z := INT64_MAX.

(** The bytes that [new ExprNode[sz]] asks for: [sz] nodes and the cookie
    of the array. *)
Definition node_bytes (sz : Z) : Z := 32 * sz + 8.

(** [ExprNode(idx, sz, t)]; [std::make_unique<ExprNode[]>(size)] throws
    when the allocator refuses the array. *)
Definition new_node (heap : Z -> bool) (idx sz : Z) (t : WXF_HEAD)
    : outcome ExprNode :=
  if sz >? MAX_ALLOC then BadAlloc
  else if sz >? 0 then
    if served heap (node_bytes sz) then
      Ok (mkExprNode idx sz (repeat default_node (Z.to_nat sz)) t)
    else BadAlloc
  else Ok (mkExprNode idx sz [] t).

Record ExprTree : Type := mkExprTree {
  tree_tokens : list Token.t;
  root : ExprNode
}.

(** [ExprTree()] *)
Definition empty_tree : ExprTree := mkExprTree [] default_node.

(** *** Pointers to nodes

    An [ExprNode*] held by the builder points into the tree under
    construction. It is modelled by the path from the root: [[]] is
    [&tree.root], and [p ++ [i]] is [&q->children[i]] when [p] is [q]. *)

Definition node_ptr : Type := list nat.

Fixpoint list_set {A : Type} (l : list A) (i : nat) (x : A) : list A :=
  match l, i with
  | [], _ => []
  | _ :: l', O => x :: l'
  | y :: l', S i' => y :: list_set l' i' x
  end.

(** [*p], when [p] still points to a live node of the tree rooted at [t]. *)
Fixpoint node_at (t : ExprNode) (p : node_ptr) : option ExprNode :=
  match p with
  | [] => Some t
  | i :: q =>
      match nth_error (node_children t) i with
      | Some c => node_at c q
      | None => None
      end
  end.

(** [*p = n] (move assignment: the old node and its children are dropped). *)
Fixpoint assign_at (t : ExprNode) (p : node_ptr) (n : ExprNode) : option ExprNode :=
  match p with
  | [] => Some n
  | i :: q =>
      match nth_error (node_children t) i with
      | Some c =>
          match assign_at c q n with
          | Some c' =>
              Some (mkExprNode (node_index t) (node_size t)
                      (list_set (node_children t) i c') (node_type t))
          | None => None
          end
      | None => None
      end
  end.

(** ** The tree builder *)

(** The local state of [MakeExprTree]: the cursor, the tree and the two
    stacks. The head of a list is the [back()] of the vector. *)
Record builder : Type := mkBuilder {
  b_pos : Z;
  b_root : ExprNode;
  expr_stack : list node_ptr;   (* the stack to store the current father nodes *)
  node_stack : list Z           (* the vector to store the node index *)
}.

(** The recursive lambda [move_to_next_node]; it recurses once per popped
    frame. *)
Fixpoint move_to_next_node (rt : ExprNode) (es : list node_ptr) (ns : list Z)
    : outcome (list node_ptr * list Z) :=
  match ns with
  | [] => Ok (es, ns)
  | c :: ns' =>
      let c := u64 (c + 1) in               (* move to the next node *)
      match es with
      | [] => Undefined EmptyBack
      | p :: es' =>
          match node_at rt p with
          | None => Undefined Dangling
          | Some parent =>
              if c >=? node_size parent then
                move_to_next_node rt es' ns'  (* pop the current node *)
              else Ok (p :: es', c :: ns')
          end
      end
  end.

(** [parent->children[node_pos]] for the frame on top of the stacks: the
    pointer to that child slot. *)
Definition child_slot (b : builder) : outcome node_ptr :=
  match node_stack b, expr_stack b with
  | node_pos :: _, p :: _ =>
      match node_at (b_root b) p with
      | None => Undefined Dangling
      | Some parent =>
          match nth_error (node_children parent) (Z.to_nat node_pos) with
          | None => Undefined NullChildren
          | Some _ => Ok (p ++ [Z.to_nat node_pos])
          end
      end
  | _, _ => Undefined EmptyBack
  end.

Definition store (rt : ExprNode) (p : node_ptr) (n : ExprNode) : outcome ExprNode :=
  match assign_at rt p n with
  | Some rt' => Ok rt'
  | None => Undefined Dangling
  end.

Definition token_at (tokens : list Token.t) (pos : Z) : outcome Token.t :=
  if pos <? 0 then Undefined OutOfBounds
  else match nth_error tokens (Z.to_nat pos) with
       | Some tk => Ok tk
       | None => Undefined OutOfBounds
       end.

Definition is_func_or_assoc (h : WXF_HEAD) : bool :=
  WXF_HEAD_eqb h func || WXF_HEAD_eqb h association.
Definition is_rule (h : WXF_HEAD) : bool :=
  WXF_HEAD_eqb h delay_rule || WXF_HEAD_eqb h rule.

Section Building.
(** The allocator that serves [MakeExprTree]. *)
Variable heap : Z -> bool.

(** The body of the [for] loop, followed by its [pos++]. *)
Definition loop_body (tokens : list Token.t) (b : builder) : outcome builder :=
  let pos := b_pos b in
  token <- token_at tokens pos ;;
  if is_func_or_assoc (Token.type token) then
    (* a function type: create a new node *)
    slot <- child_slot b ;;
    '(node, pos) <-
      (if WXF_HEAD_eqb (Token.type token) func then
         n <- new_node heap (u64 (pos + 1)) (Token.length token) (Token.type token) ;;
         Ok (n, u64 (pos + 1))                        (* skip the head *)
       else
         n <- new_node heap pos (Token.length token) (Token.type token) ;;
         Ok (n, pos)) ;;
    rt <- store (b_root b) slot node ;;
    Ok (mkBuilder (u64 (pos + 1)) rt (slot :: expr_stack b) (0 :: node_stack b))
  else if is_rule (Token.type token) then
    (* a rule type: create a new node *)
    slot <- child_slot b ;;
    node <- new_node heap pos 2 (Token.type token) ;;
    rt <- store (b_root b) slot node ;;
    Ok (mkBuilder (u64 (pos + 1)) rt (slot :: expr_stack b) (0 :: node_stack b))
  else
    (* not a function type: move to the next node *)
    slot <- child_slot b ;;
    node <- new_node heap pos 0 (Token.type token) ;;
    rt <- store (b_root b) slot node ;;
    '(es, ns) <- move_to_next_node rt (expr_stack b) (node_stack b) ;;
    Ok (mkBuilder (u64 (pos + 1)) rt es ns).

(** [for (; pos < total_len; pos++)]; one unit of fuel per iteration. *)
Fixpoint loop (tokens : list Token.t) (fuel : nat) (b : builder) : outcome builder :=
  if b_pos b <? Z.of_nat (length tokens) then
    match fuel with
    | O => OutOfFuel
    | S fuel' => b' <- loop_body tokens b ;; loop tokens fuel' b'
    end
  else Ok b.

(** [node->clear()] *)
Definition clear_at (rt : ExprNode) (p : node_ptr) : outcome ExprNode :=
  match node_at rt p with
  | None => Undefined Dangling
  | Some _ => store rt p default_node
  end.

(** [for (auto& node : expr_stack) node->clear();], from the bottom of the
    stack. *)
Fixpoint clear_all (rt : ExprNode) (ptrs : list node_ptr) : outcome ExprNode :=
  match ptrs with
  | [] => Ok rt
  | p :: rest => rt' <- clear_at rt p ;; clear_all rt' rest
  end.

(** The root node, from the first token: the root and the position of the
    next token, or the finished tree. *)
Definition find_root (tokens : list Token.t) : outcome (ExprNode * option Z) :=
  let pos := 0 in
  token <- token_at tokens pos ;;
  if WXF_HEAD_eqb (Token.type token) func then
    (* pos + 1 is the head of the function (a symbol) *)
    n <- new_node heap (pos + 1) (Token.length token) (Token.type token) ;;
    Ok (n, Some (pos + 2))
  else if WXF_HEAD_eqb (Token.type token) association then
    (* association does not have a head *)
    n <- new_node heap (pos + 1) (Token.length token) (Token.type token) ;;
    Ok (n, Some (pos + 1))
  else
    (* not a function type: only one token is allowed *)
    n <- new_node heap pos 0 (Token.type token) ;;
    Ok (n, None).

(** [MakeExprTree] up to the end of its [for] loop: the tree and the stacks
    as the loop leaves them (a leaf root returns before the loop, with
    nothing on the stacks). *)
Definition run_loop (tokens : list Token.t) : outcome builder :=
  '(rt, next) <- find_root tokens ;;
  match next with
  | None => Ok (mkBuilder 0 rt [] [])
  | Some pos => loop tokens (length tokens) (mkBuilder pos rt [[]] [0])
  end.

Definition MakeExprTree (parser : Parser.t) (cerr : list diag)
    : outcome (ExprTree * list diag) :=
  if negb (Parser.err parser =? 0) then Ok (empty_tree, cerr)
  else
    let tokens := Parser.tokens parser in
    b <- run_loop tokens ;;
    match node_stack b with
    | [] => Ok (mkExprTree tokens (b_root b), cerr)
    | _ :: _ =>
        rt <- clear_all (b_root b) (rev (expr_stack b)) ;;
        Ok (mkExprTree tokens rt, cerr ++ [NotAllNodesParsed])
    end.

(** [MakeExprTree(str)] for a byte vector. *)
Definition MakeExprTree_bytes (fuel : nat) (str : list Z) (cerr : list diag)
    : outcome (ExprTree * list diag) :=
  '(parser, cerr) <- Parser.parse heap fuel (Parser.make str) cerr ;;
  MakeExprTree parser cerr.

End Building.

(** ** FullForm templates

    The expressions of the [FullForm] namespace and their encoding by
    [fullform_to_wxf]. A [std::string] is the list of its bytes. *)

Module FullForm.

Inductive atom_type : Type :=
| Integer
| Real
| String
| Symbol
| Expression
| Null.

Record atom_expression : Type := mk_atom {
  type_ : atom_type;
  value_ : list Z
}.

#[warnings="-register-all"]
Inductive expression : Type :=
| mk_expression (head : atom_expression) (args : list expression).

Definition head_ (e : expression) : atom_expression := let (h, _) := e in h.
Definition args_ (e : expression) : list expression := let (_, a) := e in a.

Definition is_atom (e : expression) : bool := (length (args_ e) =? 0)%nat.

End FullForm.

(** The exceptions of [std::stoll] and [std::stod]. *)
Inductive exception : Type :=
| invalid_argument
| out_of_range.

(** [std::isspace] and [std::isdigit] in the "C" locale. *)
Definition isspace (c : Z) : bool := (c =? 32) || ((9 <=? c) && (c <=? 13)).
Definition isdigit (c : Z) : bool := (48 <=? c) && (c <=? 57).

Fixpoint skip_space (s : list Z) : list Z :=
  match s with
  | c :: s' => if isspace c then skip_space s' else s
  | [] => []
  end.

(** The longest prefix of decimal digits. *)
Fixpoint digits (s : list Z) : list Z :=
  match s with
  | c :: s' => if isdigit c then c :: digits s' else []
  | [] => []
  end.

Definition decimal (ds : list Z) : Z :=
  fold_left (fun acc c => 10 * acc + (c - 48)) ds 0.

(** [std::stoll(str)]: [strtoll] in base 10 on the characters of the
    string. White space is skipped, then an optional sign and the longest
    run of digits are read; no digit is [std::invalid_argument], a value
    outside [long long] is [std::out_of_range]. *)
Definition stoll (str : list Z) : exception + Z :=
  let s := skip_space str in
  let '(neg, s) :=
    match s with
    | 45 :: s' => (true, s')
    | 43 :: s' => (false, s')
    | _ => (false, s)
    end in
  match digits s with
  | [] => inl invalid_argument
  | ds =>
      let v := if neg then - decimal ds else decimal ds in
      if (INT64_MIN <=? v) && (v <=? INT64_MAX) then inr v
      else inl out_of_range
  end.

(** The lines that the template code writes to [std::cerr]. *)
Inductive ff_diag : Type :=
| ExpressionIdNotFound (id : list Z)
| InvalidScientificNotation (position : nat)
| UnterminatedString (position : nat)
| UnknownCharacter (ch : Z) (position : nat)
| UnexpectedToken (value : list Z) (expected : nat) (position : nat)
| UnexpectedAtomToken (value : list Z) (position : nat)
| UnexpectedTokenAtEnd (value : list Z).

(** [std::isalpha] and [std::isalnum] in the "C" locale. A character is
    the value of its byte; where the source passes a plain [char] to these
    functions, a byte above 127 is taken as that value, which is no
    letter, digit or space. *)
Definition isalpha (c : Z) : bool :=
  ((65 <=? c) && (c <=? 90)) || ((97 <=? c) && (c <=? 122)).
Definition isalnum (c : Z) : bool := isalpha c || isdigit c.

(** *** The lexer

    The state of the lexer is [position_] and the characters of [input_]
    from [position_] on; [position_ < length_] holds when characters are
    left. *)

Module lexer.

Inductive token_type : Type :=
| IDENTIFIER
| EXPRESSION    (* start with #, a label of subexpression *)
| INTEGER
| REAL
| STRING
| LBRACKET      (* [ *)
| RBRACKET      (* ] *)
| COMMA         (* , *)
| END.

(** [static_cast<int>(type)] *)
Definition code (ty : token_type) : nat :=
  match ty with
  | IDENTIFIER => 0
  | EXPRESSION => 1
  | INTEGER => 2
  | REAL => 3
  | STRING => 4
  | LBRACKET => 5
  | RBRACKET => 6
  | COMMA => 7
  | END => 8
  end.

Definition token_type_eqb (a b : token_type) : bool := (code a =? code b)%nat.

Record token : Type := mk_token {
  type : token_type;
  value : list Z;
  position : nat
}.

Record t : Type := mk {
  position_ : nat;
  rest_ : list Z
}.

(** [lexer(input)] *)
Definition make (input : list Z) : t := mk 0 input.

(** [position_ >= length_] *)
Definition at_end (lx : t) : bool :=
  match rest_ lx with
  | [] => true
  | _ :: _ => false
  end.

Definition current_char (lx : t) : Z :=
  match rest_ lx with
  | c :: _ => c
  | [] => 0
  end.

Definition advance (lx : t) : t :=
  match rest_ lx with
  | _ :: r => mk (S (position_ lx)) r
  | [] => lx
  end.

(** [while (position_ < length_ && isspace(current_char())) advance();] *)
Fixpoint skip_ws_from (rest : list Z) (pos : nat) : t :=
  match rest with
  | c :: rest' => if isspace c then skip_ws_from rest' (S pos) else mk pos rest
  | [] => mk pos []
  end.

Definition skip_ws (lx : t) : t := skip_ws_from (rest_ lx) (position_ lx).

(** [while (position_ < length_ && p(current_char()))
      { value += current_char(); advance(); }] *)
Fixpoint scan_from (p : Z -> bool) (rest : list Z) (pos : nat) (value : list Z)
    : t * list Z :=
  match rest with
  | c :: rest' =>
      if p c then scan_from p rest' (S pos) (value ++ [c])
      else (mk pos rest, value)
  | [] => (mk pos [], value)
  end.

Definition scan (p : Z -> bool) (lx : t) (value : list Z) : t * list Z :=
  scan_from p (rest_ lx) (position_ lx) value.

(** The characters of an identifier after the first. *)
Definition ident_char (c : Z) : bool := isalnum c || (c =? 36).

(** The characters that an escape sequence adds to the value. *)
Definition unescape (next : Z) : list Z :=
  if next =? 110 then [10]              (* n: line feed *)
  else if next =? 116 then [9]          (* t: tab *)
  else if next =? 114 then [13]         (* r: carriage return *)
  else if next =? 34 then [34]          (* a double quote *)
  else if next =? 92 then [92]          (* a backslash *)
  else [92; next].

(** The loop over the characters of a string literal, up to the closing
    quote or the end of the input. *)
Fixpoint scan_string_from (rest : list Z) (pos : nat) (value : list Z)
    : t * list Z :=
  match rest with
  | [] => (mk pos [], value)
  | c :: rest' =>
      if c =? 34 then (mk pos rest, value)
      else
        match rest' with
        | next :: rest'' =>
            if c =? 92 then
              scan_string_from rest'' (S (S pos)) (value ++ unescape next)
            else scan_string_from rest' (S pos) (value ++ [c])
        | [] => scan_string_from rest' (S pos) (value ++ [c])
        end
  end.

Definition scan_string (lx : t) (value : list Z) : t * list Z :=
  scan_string_from (rest_ lx) (position_ lx) value.

(** The branch of [nextToken] for a number, its last block: the exponent
    of the scientific notation, and the token returned. *)
Definition number_exponent (lx : t) (cerr : list ff_diag) (startPos : nat)
    (hasDot : bool) (value : list Z) : token * t * list ff_diag :=
  if negb (at_end lx)
     && ((current_char lx =? 101) || (current_char lx =? 69)) then
    let value := value ++ [current_char lx] in
    let lx := advance lx in
    let '(lx, value) :=
      if negb (at_end lx)
         && ((current_char lx =? 43) || (current_char lx =? 45))
      then (advance lx, value ++ [current_char lx])
      else (lx, value) in
    if at_end lx || negb (isdigit (current_char lx)) then
      (mk_token END [] startPos, lx,
       cerr ++ [InvalidScientificNotation (position_ lx)])
    else
      let '(lx, value) := scan isdigit lx value in
      (mk_token REAL value startPos, lx, cerr)          (* hasE *)
  else
    (mk_token (if hasDot then REAL else INTEGER) value startPos, lx, cerr).

(** The blocks after the sign: the integer part, the decimal part, and
    then the exponent. *)
Definition number_digits (lx : t) (cerr : list ff_diag) (startPos : nat)
    (value : list Z) : token * t * list ff_diag :=
  (* integer part *)
  let '(lx, value) := scan isdigit lx value in
  (* decimal part *)
  let '(hasDot, lx, value) :=
    if negb (at_end lx) && (current_char lx =? 46) then
      let '(lx, value) := scan isdigit (advance lx) (value ++ [46]) in
      (true, lx, value)
    else (false, lx, value) in
  (* scientific notation *)
  number_exponent lx cerr startPos hasDot value.

(** The branch of [nextToken] for a number; [ch] is the current character,
    a digit, a dot or a minus sign. *)
Definition number (lx : t) (cerr : list ff_diag) (startPos : nat) (ch : Z)
    : token * t * list ff_diag :=
  let value := [] in
  (* minus sign *)
  if ch =? 45 then
    let value := value ++ [ch] in
    let lx := advance lx in
    if at_end lx || negb (isdigit (current_char lx)) then
      (* single minus sign, return as IDENTIFIER *)
      (mk_token IDENTIFIER value startPos, lx, cerr)
    else number_digits lx cerr startPos value
  else number_digits lx cerr startPos value.

Definition nextToken (lx : t) (cerr : list ff_diag) : token * t * list ff_diag :=
  let lx := skip_ws lx in
  if at_end lx then (mk_token END [] (position_ lx), lx, cerr)
  else
    let startPos := position_ lx in
    let ch := current_char lx in
    if isalpha ch || (ch =? 36) then
      let '(lx, value) := scan ident_char lx [] in
      (mk_token IDENTIFIER value startPos, lx, cerr)
    else if ch =? 35 then
      (* expression starting with # *)
      let '(lx, value) := scan ident_char (advance lx) [ch] in
      (mk_token EXPRESSION value startPos, lx, cerr)
    else if isdigit ch || (ch =? 46) || (ch =? 45) then
      number lx cerr startPos ch
    else if ch =? 34 then
      let '(lx, value) := scan_string (advance lx) [] in
      if at_end lx || negb (current_char lx =? 34) then
        (mk_token END [] startPos, lx, cerr ++ [UnterminatedString startPos])
      else (mk_token STRING value startPos, advance lx, cerr)
    else if ch =? 91 then (mk_token LBRACKET [91] startPos, advance lx, cerr)
    else if ch =? 93 then (mk_token RBRACKET [93] startPos, advance lx, cerr)
    else if ch =? 44 then (mk_token COMMA [44] startPos, advance lx, cerr)
    else
      (mk_token END [] (position_ lx), lx,
       cerr ++ [UnknownCharacter ch (position_ lx)]).

End lexer.

(** [atom_expression::to_FullForm] *)
Definition atom_to_FullForm (a : FullForm.atom_expression) : list Z :=
  match FullForm.type_ a with
  | FullForm.String => [34] ++ FullForm.value_ a ++ [34]
  | _ => FullForm.value_ a
  end.

(** [expression::to_FullForm] *)
Fixpoint to_FullForm (e : FullForm.expression) : list Z :=
  match e with
  | FullForm.mk_expression head args =>
      match args with
      | [] => atom_to_FullForm head                      (* is_atom() *)
      | _ :: _ =>
          atom_to_FullForm head ++ [91]
          ++ (fix join (l : list FullForm.expression) : list Z :=
                match l with
                | [] => []
                | a :: l' =>
                    to_FullForm a
                    ++ match l' with
                       | [] => []
                       | _ :: _ => [44; 32]
                       end
                    ++ join l'
                end) args
          ++ [93]
      end
  end.

(** *** The recursive-descent parser *)

Module parser.

Record t : Type := mk {
  lexer_ : lexer.t;
  currentToken_ : lexer.token
}.

Definition current_type (ps : t) : lexer.token_type :=
  lexer.type (currentToken_ ps).

Definition consume (expected : lexer.token_type) (ps : t) (cerr : list ff_diag)
    : t * list ff_diag :=
  if lexer.token_type_eqb (current_type ps) expected then
    let '(tok, lx, cerr) := lexer.nextToken (lexer_ ps) cerr in
    (mk lx tok, cerr)
  else
    (ps, cerr ++ [UnexpectedToken (lexer.value (currentToken_ ps))
                    (lexer.code expected)
                    (lexer.position (currentToken_ ps))]).

Definition parse_atom (ps : t) (cerr : list ff_diag)
    : FullForm.atom_expression * t * list ff_diag :=
  let value := lexer.value (currentToken_ ps) in
  match current_type ps with
  | lexer.IDENTIFIER =>
      let '(ps, cerr) := consume lexer.IDENTIFIER ps cerr in
      (FullForm.mk_atom FullForm.Symbol value, ps, cerr)
  | lexer.EXPRESSION =>
      let '(ps, cerr) := consume lexer.EXPRESSION ps cerr in
      (FullForm.mk_atom FullForm.Expression value, ps, cerr)
  | lexer.INTEGER =>
      let '(ps, cerr) := consume lexer.INTEGER ps cerr in
      (FullForm.mk_atom FullForm.Integer value, ps, cerr)
  | lexer.REAL =>
      let '(ps, cerr) := consume lexer.REAL ps cerr in
      (FullForm.mk_atom FullForm.Real value, ps, cerr)
  | lexer.STRING =>
      let '(ps, cerr) := consume lexer.STRING ps cerr in
      (FullForm.mk_atom FullForm.String value, ps, cerr)
  | _ =>
      (FullForm.mk_atom FullForm.Null [], ps,
       cerr ++ [UnexpectedAtomToken (lexer.value (currentToken_ ps))
                  (lexer.position (currentToken_ ps))])
  end.

(** [parse_expression], and the [while] loop over the arguments that
    follow the first; one unit of fuel per call and per iteration. *)
Fixpoint parse_expression (fuel : nat) (ps : t) (cerr : list ff_diag)
    : outcome (FullForm.expression * t * list ff_diag) :=
  match fuel with
  | O => OutOfFuel
  | S fuel' =>
      let '(head, ps, cerr) := parse_atom ps cerr in
      if lexer.token_type_eqb (current_type ps) lexer.LBRACKET then
        let '(ps, cerr) := consume lexer.LBRACKET ps cerr in
        '(args, ps, cerr) <-
          (if negb (lexer.token_type_eqb (current_type ps) lexer.RBRACKET) then
             '(a, ps, cerr) <- parse_expression fuel' ps cerr ;;
             parse_arguments fuel' [a] ps cerr
           else Ok ([], ps, cerr)) ;;
        (* if we meet expr like f[], we use a null atom as argument *)
        let args :=
          if (length args =? 0)%nat then
            [FullForm.mk_expression (FullForm.mk_atom FullForm.Null []) []]
          else args in
        let '(ps, cerr) := consume lexer.RBRACKET ps cerr in
        Ok (FullForm.mk_expression head args, ps, cerr)
      else Ok (FullForm.mk_expression head [], ps, cerr)
  end
with parse_arguments (fuel : nat) (args : list FullForm.expression) (ps : t)
    (cerr : list ff_diag)
    : outcome (list FullForm.expression * t * list ff_diag) :=
  if lexer.token_type_eqb (current_type ps) lexer.COMMA then
    match fuel with
    | O => OutOfFuel
    | S fuel' =>
        let '(ps, cerr) := consume lexer.COMMA ps cerr in
        '(a, ps, cerr) <- parse_expression fuel' ps cerr ;;
        parse_arguments fuel' (args ++ [a]) ps cerr
    end
  else Ok (args, ps, cerr).

(** [parser(input)] *)
Definition make (input : list Z) (cerr : list ff_diag) : t * list ff_diag :=
  let '(tok, lx, cerr) := lexer.nextToken (lexer.make input) cerr in
  (mk lx tok, cerr).

Definition parse (fuel : nat) (ps : t) (cerr : list ff_diag)
    : outcome (FullForm.expression * t * list ff_diag) :=
  '(result, ps, cerr) <- parse_expression fuel ps cerr ;;
  if negb (lexer.token_type_eqb (current_type ps) lexer.END) then
    Ok (result, ps,
        cerr ++ [UnexpectedTokenAtEnd (lexer.value (currentToken_ ps))])
  else Ok (result, ps, cerr).

End parser.

(** We allow use { }, so we need to convert { } to List[ ]. *)
Definition convert_braces (str : list Z) : list Z :=
  flat_map (fun c => if c =? 123 then [76; 105; 115; 116; 91]
                     else if c =? 125 then [93]
                     else [c]) str.

Definition parse_FullForm (fuel : nat) (str : list Z) (cerr : list ff_diag)
    : outcome (FullForm.expression * list ff_diag) :=
  let mod_str := convert_braces str in
  let '(ps, cerr) := parser.make mod_str cerr in
  '(result, _, cerr) <- parser.parse fuel ps cerr ;;
  Ok (result, cerr).

(** ["Rule"] and ["RuleDelayed"] *)
Definition Rule : list Z := [82; 117; 108; 101].
Definition RuleDelayed : list Z :=
  [82; 117; 108; 101; 68; 101; 108; 97; 121; 101; 100].

(** A [for] loop whose body can throw: the exception leaves the loop with
    the state as the throwing call left it. *)
Definition for_each {A S : Type} (body : A -> S -> S * option exception)
    : list A -> S -> S * option exception :=
  fix loop (l : list A) (st : S) : S * option exception :=
    match l with
    | [] => (st, None)
    | a :: l' =>
        match body a st with
        | (st', None) => loop l' st'
        | r => r
        end
    end.

Section FullFormToWxf.

(** [std::stod], which gives the bit pattern of the [double] or throws. *)
Variable stod : list Z -> exception + Z.

(** The map from expression ids to the functions generating the
    sub-expressions; a function acts on the encoder it is given. *)
Variable map : list Z -> option (Encoder.t -> Encoder.t).

(** The state is the encoder (passed by reference) and [std::cerr]; an
    exception of [std::stoll] or [std::stod] is not caught. *)
Fixpoint fullform_to_wxf (expr : FullForm.expression)
    (st : Encoder.t * list ff_diag) {struct expr}
    : (Encoder.t * list ff_diag) * option exception :=
  let '(encoder, cerr) := st in
  match expr with
  | FullForm.mk_expression head args =>
      let value := FullForm.value_ head in
      match args with
      | [] =>                                          (* expr.is_atom() *)
          match FullForm.type_ head with
          | FullForm.Integer =>
              match stoll value with
              | inr v => ((Encoder.push_integer encoder v, cerr), None)
              | inl x => (st, Some x)
              end
          | FullForm.Real =>
              match stod value with
              | inr v => ((Encoder.push_real encoder v, cerr), None)
              | inl x => (st, Some x)
              end
          | FullForm.String =>
              ((Encoder.push_string encoder value string, cerr), None)
          | FullForm.Symbol => ((Encoder.push_symbol encoder value, cerr), None)
          | FullForm.Null => (st, None)
          | FullForm.Expression =>
              match map value with
              | Some f => ((f encoder, cerr), None)
              | None => ((encoder, cerr ++ [ExpressionIdNotFound value]), None)
              end
          end
      | arg0 :: _ =>
          let null0 :=
            FullForm.is_atom arg0
            && match FullForm.type_ (FullForm.head_ arg0) with
               | FullForm.Null => true
               | _ => false
               end in
          let len := if null0 then 0 else Z.of_nat (length args) in
          let name := value in
          (* rule is special, its length is always 2 and omitted by the
             encoder *)
          let encoder :=
            if list_eq_dec Z.eq_dec name Rule then Encoder.push_rule encoder
            else if list_eq_dec Z.eq_dec name RuleDelayed
                 then Encoder.push_delay_rule encoder
                 else Encoder.push_function encoder name len in
          if null0 then ((encoder, cerr), None)
          else for_each fullform_to_wxf args (encoder, cerr)
      end
  end.

End FullFormToWxf.

(** The overload that takes a map from expression ids to encoders: the
    buffer of the encoder found is appended as it is. *)
Definition fullform_to_wxf_encoders (stod : list Z -> exception + Z)
    (map : list Z -> option Encoder.t) (expr : FullForm.expression)
    (st : Encoder.t * list ff_diag)
    : (Encoder.t * list ff_diag) * option exception :=
  fullform_to_wxf stod
    (fun key =>
       match map key with
       | Some value => Some (fun enc => Encoder.push_ustr enc (Encoder.buffer value))
       | None => None
       end)
    expr st.

(** [fullform_to_wxf(ff_template, map, include_head)]: the template is
    parsed and encoded into a fresh encoder. *)
Definition fullform_to_wxf_template (fuel : nat)
    (stod : list Z -> exception + Z)
    (map : list Z -> option (Encoder.t -> Encoder.t))
    (ff_template : list Z) (include_head : bool) (cerr : list ff_diag)
    : outcome ((Encoder.t * list ff_diag) * option exception) :=
  let encoder := Encoder.mk [] in
  let encoder :=
    if include_head then
      Encoder.push_back (Encoder.push_back encoder 56) 58   (* WXF head *)
    else encoder in
  '(expr, cerr) <- parse_FullForm fuel ff_template cerr ;;
  Ok (fullform_to_wxf stod map expr (encoder, cerr)).

(** * Vocabulary of the statements *)

(** The allocator serves every request of at most [bound] bytes. *)
Definition serves (heap : Z -> bool) (bound : Z) : Prop :=
  forall n : Z, 0 <= n <= bound -> served heap n = true.

(** An allocator that has one mebibyte to give. *)
Definition small_heap : Z -> bool := fun n => n <=? 2 ^ 20.

(** The array token of the dimensions [dims]: the rank, and the element
    type, the flattened length and the dimensions in the block. *)
Definition array_token (ty : WXF_HEAD) (dims : list Z) (num_type : Z)
    (len : Z) (d : Z) : Token.t :=
  Token.mk ty (Z.of_nat (length dims))
    (Token.Dimensions (u64 num_type :: len :: dims)) (Some d).

(** The signed integers of [n] bytes. *)
Definition fits (n : nat) (v : Z) : Prop :=
  - 2 ^ (8 * Z.of_nat n - 1) <= v < 2 ^ (8 * Z.of_nat n - 1).

(** The tag of the signed integer of [n] bytes. *)
Definition int_head (n : nat) : WXF_HEAD :=
  match n with
  | 1%nat => i8
  | 2%nat => i16
  | 4%nat => i32
  | _ => i64
  end.

(** The four signed-integer tags. *)
Definition is_integer_head (h : WXF_HEAD) : bool :=
  match h with
  | i8 | i16 | i32 | i64 => true
  | _ => false
  end.

(** The five textual tags. *)
Definition is_textual_head (h : WXF_HEAD) : bool :=
  match h with
  | symbol | string | binary_string | bigint | bigreal => true
  | _ => false
  end.

(** The shifts of [k] consecutive lines of [read_varint], from [s]. *)
Fixpoint shifts_from (s : Z) (k : nat) : list Z :=
  match k with
  | O => []
  | S k' => s :: shifts_from (s + 7) k'
  end.

(** The product of the dimensions, as an integer. *)
Definition product (d : list Z) : Z := fold_right Z.mul 1 d.

(** [array_type, num_type, rank, dimensions...] *)
Definition array_info (d : list Z) (type : WXF_HEAD) (num_type : Z) : list Z :=
  [head_value type; num_type]
  ++ varint_groups (u64 (Z.of_nat (length d)))
  ++ concat (map (fun dim => varint_groups (u64 dim)) d).

(** The header of a buffer is the two bytes 0x38 0x3A. *)
Definition valid_header (buf : list Z) : bool :=
  match buf with
  | b0 :: b1 :: _ => (b0 =? 56) && (b1 =? 58)
  | _ => false
  end.

(** The parser views the whole of its buffer and its cursor is inside. *)
Definition in_buffer (p : Parser.t) : Prop :=
  Parser.size p = Z.of_nat (length (Parser.buffer p))
  /\ 0 <= Parser.pos p <= Parser.size p.




(** Well-formed sub-expressions. The wire grammar of the format, on tokens: a sub-expression is a leaf
    token; or a function token, its head token and as many sub-expressions
    as it declares; or an association token and as many sub-expressions as
    it declares; or a rule token and two sub-expressions. Functions and
    associations declare at least one child here. [subexpr i toks nd] reads:
    [toks], placed at index [i] of the token vector, is one sub-expression,
    and [nd] is its node (each node carries the index of its token, the
    head token for a function). *)

(** A token that opens no frame. *)
Definition is_leaf (h : WXF_HEAD) : bool :=
  negb (is_func_or_assoc h) && negb (is_rule h).

Inductive subexpr : Z -> list Token.t -> ExprNode -> Prop :=
| sub_leaf (i : Z) (tk : Token.t) :
    is_leaf (Token.type tk) = true ->
    subexpr i [tk] (mkExprNode i 0 [] (Token.type tk))
| sub_func (i : Z) (tk hd : Token.t) (toks : list Token.t) (nds : list ExprNode) :
    Token.type tk = func ->
    Token.length tk = Z.of_nat (length nds) ->
    nds <> [] ->
    subexprs (i + 2) toks nds ->
    subexpr i (tk :: hd :: toks)
      (mkExprNode (i + 1) (Z.of_nat (length nds)) nds func)
| sub_assoc (i : Z) (tk : Token.t) (toks : list Token.t) (nds : list ExprNode) :
    Token.type tk = association ->
    Token.length tk = Z.of_nat (length nds) ->
    nds <> [] ->
    subexprs (i + 1) toks nds ->
    subexpr i (tk :: toks)
      (mkExprNode i (Z.of_nat (length nds)) nds association)
| sub_rule (i : Z) (tk : Token.t) (toks : list Token.t) (nds : list ExprNode) :
    is_rule (Token.type tk) = true ->
    length nds = 2%nat ->
    subexprs (i + 1) toks nds ->
    subexpr i (tk :: toks) (mkExprNode i 2 nds (Token.type tk))
with subexprs : Z -> list Token.t -> list ExprNode -> Prop :=
| subs_nil (i : Z) : subexprs i [] []
| subs_cons (i : Z) (toks toks' : list Token.t) (nd : ExprNode)
    (nds : list ExprNode) :
    subexpr i toks nd ->
    subexprs (i + Z.of_nat (length toks)) toks' nds ->
    subexprs i (toks ++ toks') (nd :: nds).

Scheme subexpr_mut := Minimality for subexpr Sort Prop
  with subexprs_mut := Minimality for subexprs Sort Prop.
Combined Scheme subexpr_subexprs_ind from subexpr_mut, subexprs_mut.

(** The state after [k] iterations of the loop body. *)
Fixpoint steps (heap : Z -> bool) (tokens : list Token.t) (k : nat)
    (b : builder) : outcome builder :=
  match k with
  | O => Ok b
  | S k' => b' <- loop_body heap tokens b ;; steps heap tokens k' b'
  end.

(** What the loop does on the tokens [toks] of one sub-expression, from a
    state whose top frame has its slot [c] free: after at most
    [length toks] iterations, the node [nd] has been stored in that slot
    and [move_to_next_node] has run once on the stacks as they were. *)
Definition sub_sim (heap : Z -> bool) (tokens : list Token.t) (i : Z)
    (toks : list Token.t) (nd : ExprNode) : Prop :=
  forall (pre post : list Token.t) (rt : ExprNode) (p : node_ptr)
         (es : list node_ptr) (c : nat) (ns : list Z) (parent : ExprNode),
    tokens = pre ++ toks ++ post ->
    i = Z.of_nat (length pre) ->
    node_at rt p = Some parent ->
    (c < length (node_children parent))%nat ->
    exists (rt' : ExprNode) (m : nat),
      assign_at rt (p ++ [c]) nd = Some rt'
      /\ (m <= length toks)%nat
      /\ forall f : nat,
          loop heap tokens (m + f) (mkBuilder i rt (p :: es) (Z.of_nat c :: ns))
          = ('(es', ns') <- move_to_next_node rt' (p :: es) (Z.of_nat c :: ns) ;;
             loop heap tokens f
               (mkBuilder (i + Z.of_nat (length toks)) rt' es' ns')).

(** The same for the children of a node of [n] slots that follow the
    children [done] already stored: the frame stays on top while a slot is
    left, and is popped by the last child. *)
Definition subs_sim (heap : Z -> bool) (tokens : list Token.t) (i : Z)
    (toks : list Token.t) (nds : list ExprNode) : Prop :=
  forall (pre post : list Token.t) (rt : ExprNode) (q : node_ptr)
         (es0 : list node_ptr) (ns0 : list Z) (idx : Z) (n : nat)
         (t : WXF_HEAD) (done : list ExprNode),
    tokens = pre ++ toks ++ post ->
    i = Z.of_nat (length pre) ->
    Z.of_nat n <= MAX_ALLOC ->
    node_at rt q
    = Some (mkExprNode idx (Z.of_nat n)
              (done ++ repeat default_node (n - length done)) t) ->
    (length done < n)%nat ->
    (length done + length nds <= n)%nat ->
    exists (rt' : ExprNode) (m : nat),
      assign_at rt q
        (mkExprNode idx (Z.of_nat n)
           ((done ++ nds)
            ++ repeat default_node (n - length done - length nds)) t)
      = Some rt'
      /\ (m <= length toks)%nat
      /\ forall f : nat,
          loop heap tokens (m + f)
            (mkBuilder i rt (q :: es0) (Z.of_nat (length done) :: ns0))
          = ('(es', ns') <-
               (if (length done + length nds <? n)%nat
                then Ok (q :: es0, Z.of_nat (length done + length nds) :: ns0)
                else move_to_next_node rt' es0 ns0) ;;
             loop heap tokens f
               (mkBuilder (i + Z.of_nat (length toks)) rt' es' ns')).

(** The iteration on the token that opens a composite node: the node is
    stored with [n] empty slots and a frame is pushed for it; [front] is
    that token, with the head token for a function. *)
Definition opens (heap : Z -> bool) (tokens : list Token.t) (i : Z)
    (front : list Token.t) (idx : Z) (n : nat) (t : WXF_HEAD) : Prop :=
  forall (pre post : list Token.t) (rt rt1 : ExprNode) (p : node_ptr)
         (es : list node_ptr) (c : nat) (ns : list Z) (parent : ExprNode)
         (f : nat),
    tokens = pre ++ front ++ post ->
    i = Z.of_nat (length pre) ->
    (0 < n)%nat -> Z.of_nat n <= MAX_ALLOC ->
    served heap (node_bytes (Z.of_nat n)) = true ->
    node_at rt p = Some parent ->
    (c < length (node_children parent))%nat ->
    assign_at rt (p ++ [c]) (mkExprNode idx (Z.of_nat n) (repeat default_node n) t)
    = Some rt1 ->
    loop heap tokens (S f) (mkBuilder i rt (p :: es) (Z.of_nat c :: ns))
    = loop heap tokens f
        (mkBuilder (i + Z.of_nat (length front)) rt1
           ((p ++ [c]) :: p :: es) (0 :: Z.of_nat c :: ns)).

(** The element type tag that [push_packed_array] and [push_numeric_array]
    pass to [push_array] for the element types they accept. *)
Definition array_num_type (ty : elem_type) : Z :=
  match ty with
  | int8_t | int16_t | int32_t | int64_t => minimal_signed_bits (numeric_max ty)
  | float => 34
  | double => 35
  | complex_float_t => 51
  | complex_double_t => 52
  | uint8_t | uint16_t | uint32_t | uint64_t => 0
  end.

Definition is_unsigned (ty : elem_type) : bool :=
  match ty with
  | uint8_t | uint16_t | uint32_t | uint64_t => true
  | _ => false
  end.

Definition is_integral (ty : elem_type) : bool :=
  match ty with
  | int8_t | int16_t | int32_t | int64_t
  | uint8_t | uint16_t | uint32_t | uint64_t => true
  | _ => false
  end.

(** The element types for which the array call compiles:
    [push_numeric_array] ([numeric = true]) has them all but the integral
    ones, [push_packed_array] ([numeric = false]) all but the unsigned
    ones. *)
Definition has_overload (numeric : bool) (ty : elem_type) : bool :=
  if numeric then negb (is_integral ty) else negb (is_unsigned ty).

(** One call of a push function of the encoder. *)
Inductive item : Type :=
| PushInteger (val : Z)
| PushReal (val : Z)
| PushString (type : WXF_HEAD) (str : list Z)
| PushFunction (head : list Z) (num_vars : Z)
| PushAssociation (num_rules : Z)
| PushRule
| PushDelayRule
| PushPackedArray (ty : elem_type) (dims : list Z) (data : list Z)
| PushNumericArray (ty : elem_type) (dims : list Z) (data : list Z).

(** The call, on the encoder and the [std::cerr] log. An array of an
    element type that has no overload is no call. *)
Definition push_item (st : Encoder.t * list diag) (it : item)
    : Encoder.t * list diag :=
  let '(e, cerr) := st in
  match it with
  | PushInteger val => (Encoder.push_integer e val, cerr)
  | PushReal val => (Encoder.push_real e val, cerr)
  | PushString type str => (Encoder.push_string e str type, cerr)
  | PushFunction head num_vars => (Encoder.push_function e head num_vars, cerr)
  | PushAssociation num_rules => (Encoder.push_association e num_rules, cerr)
  | PushRule => (Encoder.push_rule e, cerr)
  | PushDelayRule => (Encoder.push_delay_rule e, cerr)
  | PushPackedArray ty dims data =>
      match Encoder.push_packed_array ty e dims data cerr with
      | Some r => r
      | None => (e, cerr)
      end
  | PushNumericArray ty dims data =>
      match Encoder.push_numeric_array ty e dims data cerr with
      | Some r => r
      | None => (e, cerr)
      end
  end.

(** A sequence of calls, from left to right. *)
Definition push_items (st : Encoder.t * list diag) (its : list item)
    : Encoder.t * list diag :=
  fold_left push_item its st.

(** The bytes a call appends to an empty encoder. *)
Definition item_bytes (it : item) : list Z :=
  Encoder.buffer (fst (push_item (Encoder.mk [], []) it)).

(** The calls whose arguments are in the range of their C++ types, with a
    textual tag for [push_string], and arrays of an element type that has
    the overload, whose data have the length that the dimensions announce
    and whose rank leaves the [int] arithmetic of the [Token] constructor
    in range. *)
Definition valid_item (it : item) : Prop :=
  match it with
  | PushInteger val => INT64_MIN <= val <= INT64_MAX
  | PushReal val => 0 <= val < 2 ^ 64
  | PushString type _ => is_textual_head type = true
  | PushFunction _ num_vars => 0 <= num_vars < 2 ^ 64
  | PushAssociation num_rules => 0 <= num_rules < 2 ^ 64
  | PushRule | PushDelayRule => True
  | PushPackedArray ty dims data =>
      has_overload false ty = true
      /\ Z.of_nat (length dims) <= INT32_MAX - 2
      /\ Forall (fun d => 0 <= d < 2 ^ 64) dims
      /\ Z.of_nat (length data) < 2 ^ 64
      /\ product dims = Z.of_nat (length data)
  | PushNumericArray ty dims data =>
      has_overload true ty = true
      /\ Z.of_nat (length dims) <= INT32_MAX - 2
      /\ Forall (fun d => 0 <= d < 2 ^ 64) dims
      /\ Z.of_nat (length data) < 2 ^ 64
      /\ product dims = Z.of_nat (length data)
  end.

(** The allocator serves what [parse] allocates for the token of a call:
    for an array of rank [r], the vector of the [r] dimensions and the
    block of [r + 2] words; nothing for the other calls. *)
Definition item_served (heap : Z -> bool) (it : item) : Prop :=
  match it with
  | PushPackedArray _ dims _ | PushNumericArray _ dims _ =>
      serves heap (8 * (Z.of_nat (length dims) + 2))
  | _ => True
  end.

(** The number of bytes of the value that [push_integer] writes. *)
Definition int_width (val : Z) : nat :=
  match minimal_signed_bits val with
  | 0 => 1
  | 1 => 2
  | 2 => 4
  | _ => 8
  end.

(** The number of bytes of the varint of [n]. *)
Definition varint_length (n : Z) : Z :=
  Z.of_nat (length (varint_groups (u64 n))).

(** The tokens that stand for a call whose bytes start at offset [o] of the
    buffer. *)
Definition tokens_of_item (o : Z) (it : item) : list Token.t :=
  match it with
  | PushInteger val =>
      [Token.make (int_head (int_width val)) (Z.of_nat (int_width val)) (o + 1)]
  | PushReal _ => [Token.make f64 8 (o + 1)]
  | PushString type str =>
      let len := Z.of_nat (length str) in
      [Token.make type len (o + 1 + varint_length len)]
  | PushFunction head num_vars =>
      let len := Z.of_nat (length head) in
      let o' := o + 1 + varint_length num_vars in
      [Token.make func num_vars o';
       Token.make symbol len (o' + 1 + varint_length len)]
  | PushAssociation num_rules =>
      [Token.make association num_rules (o + 1 + varint_length num_rules)]
  | PushRule => [Token.make rule 2 (o + 1)]
  | PushDelayRule => [Token.make delay_rule 2 (o + 1)]
  | PushPackedArray ty dims data =>
      let nt := array_num_type ty in
      [array_token array dims nt (Z.of_nat (length data))
         (o + Z.of_nat (length (array_info dims array nt)))]
  | PushNumericArray ty dims data =>
      let nt := array_num_type ty in
      [array_token narray dims nt (Z.of_nat (length data))
         (o + Z.of_nat (length (array_info dims narray nt)))]
  end.

(** The tokens of a sequence of calls whose bytes start at offset [o]. *)
Fixpoint tokens_of_items (o : Z) (its : list item) : list Token.t :=
  match its with
  | [] => []
  | it :: its' =>
      tokens_of_item o it
      ++ tokens_of_items (o + Z.of_nat (length (item_bytes it))) its'
  end.

(** The bytes that a view of [n] bytes at offset [d] covers. *)
Definition view_bytes (buf : list Z) (d : option Z) (n : Z) : outcome (list Z) :=
  match d with
  | None => if n =? 0 then Ok [] else Undefined OutOfBounds
  | Some off => Token.read_bytes buf off (Z.to_nat n)
  end.

(** The templates that [fullform_to_wxf] encodes as such: integer and real
    atoms whose text converts, strings, symbols, functions of one or more
    such arguments, and rules of two; no null atom and no expression id.
    The number of arguments is a [size_t]. *)
#[warnings="-register-all"]
Inductive wf_expr (stod : list Z -> exception + Z)
    : FullForm.expression -> Prop :=
| wf_integer (s : list Z) (v : Z) :
    stoll s = inr v ->
    wf_expr stod (FullForm.mk_expression (FullForm.mk_atom FullForm.Integer s) [])
| wf_real (s : list Z) (v : Z) :
    stod s = inr v -> 0 <= v < 2 ^ 64 ->
    wf_expr stod (FullForm.mk_expression (FullForm.mk_atom FullForm.Real s) [])
| wf_string (s : list Z) :
    wf_expr stod (FullForm.mk_expression (FullForm.mk_atom FullForm.String s) [])
| wf_symbol (s : list Z) :
    wf_expr stod (FullForm.mk_expression (FullForm.mk_atom FullForm.Symbol s) [])
| wf_function (head : FullForm.atom_expression) (arg : FullForm.expression)
    (args : list FullForm.expression) :
    FullForm.value_ head <> Rule ->
    FullForm.value_ head <> RuleDelayed ->
    Z.of_nat (length (arg :: args)) < 2 ^ 64 ->
    Forall (wf_expr stod) (arg :: args) ->
    wf_expr stod (FullForm.mk_expression head (arg :: args))
| wf_rule (head : FullForm.atom_expression) (lhs rhs : FullForm.expression) :
    FullForm.value_ head = Rule \/ FullForm.value_ head = RuleDelayed ->
    wf_expr stod lhs ->
    wf_expr stod rhs ->
    wf_expr stod (FullForm.mk_expression head [lhs; rhs]).

(** The calls that [fullform_to_wxf] makes on the encoder for such a
    template, in order. *)
Fixpoint expr_items (stod : list Z -> exception + Z)
    (expr : FullForm.expression) : list item :=
  match expr with
  | FullForm.mk_expression head args =>
      let value := FullForm.value_ head in
      match args with
      | [] =>
          match FullForm.type_ head with
          | FullForm.Integer =>
              match stoll value with
              | inr v => [PushInteger v]
              | inl _ => []
              end
          | FullForm.Real =>
              match stod value with
              | inr v => [PushReal v]
              | inl _ => []
              end
          | FullForm.String => [PushString string value]
          | FullForm.Symbol => [PushString symbol value]
          | _ => []
          end
      | _ :: _ =>
          (if list_eq_dec Z.eq_dec value Rule then PushRule
           else if list_eq_dec Z.eq_dec value RuleDelayed then PushDelayRule
           else PushFunction value (Z.of_nat (length args)))
          :: flat_map (expr_items stod) args
      end
  end.

(** The text that the view of a token covers. *)
Definition token_text (buf : list Z) (tk : Token.t) : outcome (list Z) :=
  let '(d, n) := Token.get_string_view tk in view_bytes buf d n.

(** A node of the tree mirrors a template, over the buffer [buf] and the
    tokens [toks]: the node of an atom is childless and the getter of its
    token returns the value of the atom; the node of a function has the
    type [func], its token is the head symbol, whose text is the name, and
    its children mirror the arguments one by one; the node of a rule has
    the type of the rule and two children that mirror its two sides. *)
#[warnings="-register-all"]
Inductive mirrors (stod : list Z -> exception + Z) (buf : list Z)
    (toks : list Token.t) : FullForm.expression -> ExprNode -> Prop :=
| mirrors_integer (s : list Z) (v idx : Z) (tk : Token.t) :
    stoll s = inr v ->
    token_at toks idx = Ok tk ->
    is_integer_head (Token.type tk) = true ->
    Token.get_integer buf tk = Ok v ->
    mirrors stod buf toks
      (FullForm.mk_expression (FullForm.mk_atom FullForm.Integer s) [])
      (mkExprNode idx 0 [] (Token.type tk))
| mirrors_real (s : list Z) (v idx : Z) (tk : Token.t) :
    stod s = inr v ->
    token_at toks idx = Ok tk ->
    Token.type tk = f64 ->
    Token.get_real buf tk = Ok v ->
    mirrors stod buf toks
      (FullForm.mk_expression (FullForm.mk_atom FullForm.Real s) [])
      (mkExprNode idx 0 [] f64)
| mirrors_string (s : list Z) (idx : Z) (tk : Token.t) :
    token_at toks idx = Ok tk ->
    Token.type tk = string ->
    token_text buf tk = Ok s ->
    mirrors stod buf toks
      (FullForm.mk_expression (FullForm.mk_atom FullForm.String s) [])
      (mkExprNode idx 0 [] string)
| mirrors_symbol (s : list Z) (idx : Z) (tk : Token.t) :
    token_at toks idx = Ok tk ->
    Token.type tk = symbol ->
    token_text buf tk = Ok s ->
    mirrors stod buf toks
      (FullForm.mk_expression (FullForm.mk_atom FullForm.Symbol s) [])
      (mkExprNode idx 0 [] symbol)
| mirrors_function (head : FullForm.atom_expression)
    (args : list FullForm.expression) (idx : Z) (tk : Token.t)
    (nds : list ExprNode) :
    args <> [] ->
    FullForm.value_ head <> Rule ->
    FullForm.value_ head <> RuleDelayed ->
    token_at toks idx = Ok tk ->
    Token.type tk = symbol ->
    token_text buf tk = Ok (FullForm.value_ head) ->
    Forall2 (mirrors stod buf toks) args nds ->
    mirrors stod buf toks (FullForm.mk_expression head args)
      (mkExprNode idx (Z.of_nat (length args)) nds func)
| mirrors_rule (head : FullForm.atom_expression)
    (lhs rhs : FullForm.expression) (idx : Z) (l r : ExprNode) :
    FullForm.value_ head = Rule \/ FullForm.value_ head = RuleDelayed ->
    mirrors stod buf toks lhs l ->
    mirrors stod buf toks rhs r ->
    mirrors stod buf toks (FullForm.mk_expression head [lhs; rhs])
      (mkExprNode idx 2 [l; r]
         (if list_eq_dec Z.eq_dec (FullForm.value_ head) Rule then rule
          else delay_rule)).

(** The template can be the root of a tree: an atom or a function. *)
Definition root_expr (expr : FullForm.expression) : Prop :=
  FullForm.args_ expr = []
  \/ (FullForm.value_ (FullForm.head_ expr) <> Rule
      /\ FullForm.value_ (FullForm.head_ expr) <> RuleDelayed).

(** The tokens of the calls of a template, lying at [tpre] in the token
    vector [toks] while their bytes lie at [pre] in the buffer [buf], are
    one sub-expression whose node mirrors the template. *)
Definition mirrored (stod : list Z -> exception + Z) (buf : list Z)
    (toks : list Token.t) (e : FullForm.expression) : Prop :=
  forall (pre post : list Z) (tpre tpost : list Token.t),
    buf = pre ++ concat (map item_bytes (expr_items stod e)) ++ post ->
    toks = tpre ++ tokens_of_items (Z.of_nat (length pre)) (expr_items stod e)
                ++ tpost ->
    exists nd : ExprNode,
      subexpr (Z.of_nat (length tpre))
        (tokens_of_items (Z.of_nat (length pre)) (expr_items stod e)) nd
      /\ mirrors stod buf toks e nd.

(** The same for the arguments of a function or the sides of a rule. *)
Definition mirrored_args (stod : list Z -> exception + Z) (buf : list Z)
    (toks : list Token.t) (args : list FullForm.expression) : Prop :=
  forall (pre post : list Z) (tpre tpost : list Token.t),
    buf = pre ++ concat (map item_bytes (flat_map (expr_items stod) args))
              ++ post ->
    toks = tpre ++ tokens_of_items (Z.of_nat (length pre))
                     (flat_map (expr_items stod) args)
                ++ tpost ->
    exists nds : list ExprNode,
      subexprs (Z.of_nat (length tpre))
        (tokens_of_items (Z.of_nat (length pre))
           (flat_map (expr_items stod) args)) nds
      /\ Forall2 (mirrors stod buf toks) args nds.

(** The result [r] of a run on the empty encoder and an empty log, replayed
    after the encoder [enc] and the log [cerr]. *)
Definition appended (enc : Encoder.t) (cerr : list ff_diag)
    (r : (Encoder.t * list ff_diag) * option exception)
    : (Encoder.t * list ff_diag) * option exception :=
  let '((e0, c0), x) := r in
  ((Encoder.mk (Encoder.buffer enc ++ Encoder.buffer e0), cerr ++ c0), x).

(** Every node of the tree under [nd] satisfies [P]. *)
#[warnings="-register-all"]
Inductive all_nodes (P : ExprNode -> Prop) : ExprNode -> Prop :=
| all_nodes_intro (nd : ExprNode) :
    P nd -> Forall (all_nodes P) (node_children nd) -> all_nodes P nd.

(** The node can be used with the token vector [toks]: [size] is the
    number of children that [children] holds, [tokens[node.index]] (the
    [operator[]] of the tree) is inside the vector, and that token has the
    type of the node unless the node is a function, whose token is its
    head. *)
Definition node_in (toks : list Token.t) (n : ExprNode) : Prop :=
  node_size n = Z.of_nat (length (node_children n))
  /\ exists tk : Token.t,
       token_at toks (node_index n) = Ok tk
       /\ (node_type n = func \/ Token.type tk = node_type n).

(** The texts that the lexer reads as one atom of each type: a symbol is a
    letter or [$] followed by letters, digits and [$]; a label is [#]
    followed by such characters; an integer is an optional minus sign and
    digits; a real, here, is an optional minus sign and digits, followed by
    a fraction, an exponent or both; the value of a string holds no double
    quote, no backslash and no brace. *)
Definition digits_text (ds : list Z) : bool :=
  match ds with
  | [] => false
  | _ :: _ => forallb isdigit ds
  end.

(** A dot and digits, or nothing. *)
Definition fraction_text (f : list Z) : Prop :=
  f = [] \/ exists ds, f = 46 :: ds /\ forallb isdigit ds = true.

(** [e] or [E], an optional sign and digits, or nothing. *)
Definition exponent_text (x : list Z) : Prop :=
  x = []
  \/ exists e sg ds,
       x = e :: sg ++ ds
       /\ (e = 101 \/ e = 69)
       /\ (sg = [] \/ sg = [43] \/ sg = [45])
       /\ digits_text ds = true.

Definition printable_atom (a : FullForm.atom_expression) : Prop :=
  let v := FullForm.value_ a in
  match FullForm.type_ a with
  | FullForm.Symbol =>
      exists c cs, v = c :: cs
                   /\ isalpha c || (c =? 36) = true
                   /\ forallb lexer.ident_char cs = true
  | FullForm.Expression =>
      exists cs, v = 35 :: cs /\ forallb lexer.ident_char cs = true
  | FullForm.Integer =>
      exists s ds, v = s ++ ds /\ (s = [] \/ s = [45]) /\ digits_text ds = true
  | FullForm.Real =>
      exists s ds f x,
        v = s ++ ds ++ f ++ x
        /\ (s = [] \/ s = [45])
        /\ digits_text ds = true
        /\ fraction_text f
        /\ exponent_text x
        /\ (f <> [] \/ x <> [])
  | FullForm.String =>
      forallb (fun c => negb ((c =? 34) || (c =? 92) || (c =? 123) || (c =? 125)))
        v = true
  | FullForm.Null => False
  end.

(** The expressions whose atoms are all of these forms. *)
#[warnings="-register-all"]
Inductive printable : FullForm.expression -> Prop :=
| printable_intro (head : FullForm.atom_expression)
    (args : list FullForm.expression) :
    printable_atom head ->
    Forall printable args ->
    printable (FullForm.mk_expression head args).

(** The type of the token of an atom. *)
Definition atom_token (ty : FullForm.atom_type) : lexer.token_type :=
  match ty with
  | FullForm.Integer => lexer.INTEGER
  | FullForm.Real => lexer.REAL
  | FullForm.String => lexer.STRING
  | FullForm.Symbol => lexer.IDENTIFIER
  | FullForm.Expression => lexer.EXPRESSION
  | FullForm.Null => lexer.END
  end.

(** What can follow an atom, and what can follow an expression, in the
    text of an expression: nothing, a bracket or a comma. *)
Definition delimited (post : list Z) : Prop :=
  match post with
  | [] => True
  | c :: _ => c = 91 \/ c = 93 \/ c = 44
  end.

Definition closed (post : list Z) : Prop :=
  match post with
  | [] => True
  | c :: _ => c = 93 \/ c = 44
  end.

(** The parser whose lexer, at [pos], has just read the first token of
    [s]. *)
Definition start (pos : nat) (s : list Z) : parser.t :=
  let '(tok, lx, _) := lexer.nextToken (lexer.mk pos s) [] in
  parser.mk lx tok.

(** The text of the arguments after the first. *)
Definition arguments_text (l : list FullForm.expression) : list Z :=
  flat_map (fun a => [44; 32] ++ to_FullForm a) l.

(** The number of atoms and calls of an expression. *)
Fixpoint expr_size (e : FullForm.expression) : nat :=
  match e with
  | FullForm.mk_expression _ args => S (list_sum (map expr_size args))
  end.

(** The lexer reads the first token of [r] without writing to
    [std::cerr]. *)
Definition quiet (r : list Z) : Prop :=
  forall (pos : nat) (cerr : list ff_diag),
    lexer.nextToken (lexer.mk pos r) cerr
    = (parser.currentToken_ (start pos r), parser.lexer_ (start pos r), cerr).

(** The characters that [parse_FullForm] rewrites. *)
Definition brace (c : Z) : bool := (c =? 123) || (c =? 125).

(** The number of characters that the lexer has not read, and what is left
    for the parser to read: one more when the current token is not the
    end. *)
Definition unread (lx : lexer.t) : nat := length (lexer.rest_ lx).

Definition pending (ps : parser.t) : nat :=
  unread (parser.lexer_ ps)
  + (if lexer.token_type_eqb (parser.current_type ps) lexer.END then 0 else 1).

(** The characters that can be part of the value of a printed string. *)
Definition string_char (c : Z) : bool :=
  negb ((c =? 34) || (c =? 92) || (c =? 123) || (c =? 125)).


(** The escaped form of a character in a string literal: a backslash
    before a double quote and a backslash, and the letters [n], [t] and
    [r] for a line feed, a tab and a carriage return. *)
Definition escape_char (c : Z) : list Z :=
  if c =? 34 then [92; 34]
  else if c =? 92 then [92; 92]
  else if c =? 10 then [92; 110]
  else if c =? 9 then [92; 116]
  else if c =? 13 then [92; 114]
  else [c].

Definition escape (v : list Z) : list Z := flat_map escape_char v.

(** * Properties *)

(** ** Fixed-width integers *)

Lemma le_value_le_bytes (n : nat) (v : Z) :
  Token.le_value (le_bytes n v) = v mod 2 ^ (8 * Z.of_nat n).
Proof.
  revert v. induction n as [|n IH]; intros v.
  - simpl. now rewrite Z.mod_1_r.
  - cbn [le_bytes Token.le_value]. rewrite IH.
    change 255 with (Z.ones 8). rewrite Z.land_ones by lia.
    rewrite Z.shiftr_div_pow2 by lia.
    replace (8 * Z.of_nat (S n)) with (8 + 8 * Z.of_nat n) by lia.
    rewrite Z.pow_add_r by lia.
    rewrite Z.rem_mul_r by (try apply Z.pow_nonzero; try apply Z.pow_pos_nonneg; lia).
    reflexivity.
Qed.

Lemma length_le_bytes (n : nat) (v : Z) : length (le_bytes n v) = n.
Proof. revert v. induction n; intros; simpl; auto. Qed.

Lemma read_bytes_app (pre bs post : list Z) :
  Token.read_bytes (pre ++ bs ++ post) (Z.of_nat (length pre)) (length bs) = Ok bs.
Proof.
  revert pre. induction bs as [|b bs IH]; intros pre; [reflexivity |].
  cbn [Token.read_bytes length].
  destruct (Z.ltb_spec (Z.of_nat (length pre)) 0); [lia |].
  rewrite Nat2Z.id, nth_error_app2, Nat.sub_diag by lia. cbn [nth_error app].
  specialize (IH (pre ++ [b])).
  rewrite <- app_assoc, length_app, Nat2Z.inj_add in IH. cbn [app length] in IH.
  change (Z.of_nat 1) with 1 in IH. rewrite IH. reflexivity.
Qed.

Lemma sint_fits (n : nat) (v : Z) :
  (0 < n)%nat -> fits n v -> sint (8 * Z.of_nat n) (v mod 2 ^ (8 * Z.of_nat n)) = v.
Proof.
  unfold fits, sint. intros Hn Hv.
  set (w := 8 * Z.of_nat n) in *.
  assert (Hw : 2 ^ w = 2 * 2 ^ (w - 1)).
  { rewrite <- Z.pow_succ_r by lia. f_equal. lia. }
  assert (0 < 2 ^ (w - 1)) by (apply Z.pow_pos_nonneg; lia).
  rewrite Z.mod_mod by lia.
  destruct (Z_lt_dec v 0).
  - assert (Hm : v mod 2 ^ w = v + 2 ^ w).
    { symmetry. apply Z.mod_unique with (q := -1); lia. }
    rewrite Hm. destruct (Z.ltb_spec (v + 2 ^ w) (2 ^ (w - 1))); lia.
  - rewrite Z.mod_small by lia.
    destruct (Z.ltb_spec v (2 ^ (w - 1))); lia.
Qed.

Lemma get_integer_le_bytes (n : nat) (v : Z) :
  In n [1; 2; 4; 8]%nat -> fits n v ->
  Token.get_integer (le_bytes n v) (Token.make (int_head n) (Z.of_nat n) 0) = Ok v.
Proof.
  intros Hn Hv.
  assert (Hread : Token.deref_int (le_bytes n v) (Some 0) n = Ok v).
  { unfold Token.deref_int.
    pose proof (read_bytes_app [] (le_bytes n v) []) as H.
    rewrite app_nil_r, length_le_bytes in H. cbn [app length] in H.
    change (Z.of_nat 0) with 0 in H. rewrite H. cbn [bind].
    rewrite le_value_le_bytes, sint_fits; auto.
    simpl in Hn; lia. }
  simpl in Hn.
  destruct Hn as [<- | [<- | [<- | [<- | []]]]]; exact Hread.
Qed.

(** C4. For every int64 value [v], [Encoder::push_integer] appends the tag
    of the narrowest of the signed widths of 1, 2, 4 and 8 bytes that holds
    [v], followed by [v] on that many bytes, little-endian (reading them back
    with [Token::get_integer] gives [v]); 127 is tagged int8 (67), 128 int16
    (106) and 2147483648 int64 (76). *)
Theorem push_integer_narrowest (e : Encoder.t) (v : Z) :
  INT64_MIN <= v <= INT64_MAX ->
  (exists n : nat,
      In n [1; 2; 4; 8]%nat /\
      fits n v /\
      (forall m : nat, In m [1; 2; 4; 8]%nat -> fits m v -> (n <= m)%nat) /\
      Encoder.buffer (Encoder.push_integer e v)
      = Encoder.buffer e ++ head_value (int_head n) :: le_bytes n v /\
      Token.get_integer (le_bytes n v) (Token.make (int_head n) (Z.of_nat n) 0)
      = Ok v) /\
  Encoder.push_integer (Encoder.mk []) 127 = Encoder.mk [67; 127] /\
  Encoder.push_integer (Encoder.mk []) 128 = Encoder.mk [106; 128; 0] /\
  Encoder.push_integer (Encoder.mk []) 2147483648
  = Encoder.mk [76; 0; 0; 0; 128; 0; 0; 0; 0].
Proof.
  intros Hv. split; [| repeat split; reflexivity].
  unfold INT64_MIN, INT64_MAX in Hv.
  assert (Hbytes : forall n : nat, (0 < n)%nat -> fits n v ->
            le_bytes n (sint (8 * Z.of_nat n) v) = le_bytes n v).
  { intros n Hn Hf. f_equal.
    rewrite <- (sint_fits n v Hn Hf) at 2.
    unfold sint. now rewrite Z.mod_mod by (apply Z.pow_nonzero; lia). }
  assert (Hcase : forall n : nat,
            In n [1; 2; 4; 8]%nat -> fits n v ->
            (forall m : nat, In m [1; 2; 4; 8]%nat -> fits m v -> (n <= m)%nat) ->
            Encoder.buffer (Encoder.push_integer e v)
            = serialize_binary (Encoder.buffer e ++ [head_value (int_head n)]) n v ->
            exists n : nat,
              In n [1; 2; 4; 8]%nat /\
              fits n v /\
              (forall m : nat, In m [1; 2; 4; 8]%nat -> fits m v -> (n <= m)%nat) /\
              Encoder.buffer (Encoder.push_integer e v)
              = Encoder.buffer e ++ head_value (int_head n) :: le_bytes n v /\
              Token.get_integer (le_bytes n v)
                (Token.make (int_head n) (Z.of_nat n) 0) = Ok v).
  { intros n Hn Hf Hmin Hbuf. exists n.
    split; [exact Hn |]. split; [exact Hf |]. split; [exact Hmin |]. split.
    - rewrite Hbuf. unfold serialize_binary.
      rewrite Hbytes, <- app_assoc by (auto; simpl in Hn; lia). reflexivity.
    - now apply get_integer_le_bytes. }
  assert (Hmin : forall n m : nat,
            In m [1; 2; 4; 8]%nat -> fits m v ->
            (forall k : nat, In k [1; 2; 4; 8]%nat -> (k < n)%nat -> ~ fits k v) ->
            In n [1; 2; 4; 8]%nat -> (n <= m)%nat).
  { intros n m Hm Hf Hno Hn.
    destruct (Nat.le_gt_cases n m) as [|Hlt]; [assumption |].
    exfalso. exact (Hno m Hm Hlt Hf). }
  assert (Hpush : Encoder.push_integer e v
                  = Encoder.push_integer e v) by reflexivity.
  unfold Encoder.push_integer at 2 in Hpush.
  unfold minimal_signed_bits,
    INT8_MIN, INT8_MAX, INT16_MIN, INT16_MAX, INT32_MIN, INT32_MAX in Hpush.
  destruct ((- 2 ^ 7 <=? v) && (v <=? 2 ^ 7 - 1)) eqn:E8 in Hpush |- *.
  { apply andb_true_iff in E8 as [A B]. apply Z.leb_le in A, B.
    apply (Hcase 1%nat); [simpl; auto | unfold fits; simpl; lia | | now rewrite Hpush].
    intros m Hm _. simpl in Hm. lia. }
  assert (N8 : ~ fits 1 v).
  { unfold fits; simpl. intros [A B].
    apply andb_false_iff in E8 as [E | E]; apply Z.leb_gt in E; lia. }
  destruct ((- 2 ^ 15 <=? v) && (v <=? 2 ^ 15 - 1)) eqn:E16.
  { apply andb_true_iff in E16 as [A B]. apply Z.leb_le in A, B.
    apply (Hcase 2%nat); [simpl; auto | unfold fits; simpl; lia | | now rewrite Hpush].
    intros m Hm Hf. apply Hmin; [assumption | assumption | | simpl; auto].
    intros k Hk Hlt. simpl in Hk.
    destruct Hk as [<- | [<- | [<- | [<- | []]]]]; try lia. exact N8. }
  assert (N16 : ~ fits 2 v).
  { unfold fits; simpl. intros [A B].
    apply andb_false_iff in E16 as [E | E]; apply Z.leb_gt in E; lia. }
  destruct ((- 2 ^ 31 <=? v) && (v <=? 2 ^ 31 - 1)) eqn:E32.
  { apply andb_true_iff in E32 as [A B]. apply Z.leb_le in A, B.
    apply (Hcase 4%nat); [simpl; auto | unfold fits; simpl; lia | | now rewrite Hpush].
    intros m Hm Hf. apply Hmin; [assumption | assumption | | simpl; auto].
    intros k Hk Hlt. simpl in Hk.
    destruct Hk as [<- | [<- | [<- | [<- | []]]]]; try lia; assumption. }
  assert (N32 : ~ fits 4 v).
  { unfold fits; simpl. intros [A B].
    apply andb_false_iff in E32 as [E | E]; apply Z.leb_gt in E; lia. }
  apply (Hcase 8%nat); [simpl; auto | unfold fits; simpl; lia | | now rewrite Hpush].
  intros m Hm Hf. apply Hmin; [assumption | assumption | | simpl; auto].
  intros k Hk Hlt. simpl in Hk.
  destruct Hk as [<- | [<- | [<- | [<- | []]]]]; try lia; assumption.
Qed.

Lemma push_integer_narrowest_witness :
  INT64_MIN <= 128 <= INT64_MAX /\
  exists n : nat,
    In n [1; 2; 4; 8]%nat /\
    fits n 128 /\
    (forall m : nat, In m [1; 2; 4; 8]%nat -> fits m 128 -> (n <= m)%nat) /\
    Encoder.buffer (Encoder.push_integer (Encoder.mk []) 128)
    = Encoder.buffer (Encoder.mk []) ++ head_value (int_head n) :: le_bytes n 128 /\
    Token.get_integer (le_bytes n 128) (Token.make (int_head n) (Z.of_nat n) 0)
    = Ok 128.
Proof.
  assert (H : INT64_MIN <= 128 <= INT64_MAX) by (unfold INT64_MIN, INT64_MAX; lia).
  split; [exact H |].
  exact (proj1 (push_integer_narrowest (Encoder.mk []) 128 H)).
Defined.

(** ** The header check *)

Lemma bad_header_spec (buf : list Z) :
  Parser.bad_header (Parser.make buf)
  = Ok (match buf with
        | b0 :: b1 :: _ => negb ((b0 =? 56) && (b1 =? 58))
        | _ => true
        end).
Proof.
  destruct buf as [|b0 [|b1 rest]]; try reflexivity.
  unfold Parser.bad_header, Parser.make. cbn [Parser.size Parser.buffer].
  destruct (Z.ltb_spec (Z.of_nat (length (b0 :: b1 :: rest))) 2) as [H|_].
  { cbn [length] in H. lia. }
  cbn. destruct (b0 =? 56); reflexivity.
Qed.

(** C7. For a buffer that does not start with the two bytes 0x38 0x3A (a
    buffer of fewer than two bytes included), [Parser::parse] on a fresh
    parser sets [err] to 1, writes the diagnostic and returns before the
    token loop: the cursor is still 0 and no token has been emitted, whatever
    the rest of the buffer is. *)
Theorem parse_bad_header (heap : Z -> bool) (buf : list Z) (fuel : nat)
    (cerr : list diag) :
  firstn 2 buf <> [56; 58] ->
  Parser.parse heap fuel (Parser.make buf) cerr
  = Ok (Parser.mk buf 0 (Z.of_nat (length buf)) 1 [], cerr ++ [InvalidWXFFile]).
Proof.
  intros Hhd. unfold Parser.parse.
  change (Parser.pos (Parser.make buf) =? 0) with true. cbv iota.
  rewrite bad_header_spec.
  destruct buf as [|b0 [|b1 rest]]; try reflexivity.
  destruct (Z.eqb_spec b0 56) as [-> |]; [| reflexivity].
  destruct (Z.eqb_spec b1 58) as [-> |]; [| reflexivity].
  now contradiction Hhd.
Qed.

Lemma parse_bad_header_witness :
  firstn 2 [56; 59; 67; 1] <> [56; 58] /\
  Parser.parse small_heap 0 (Parser.make [56; 59; 67; 1]) []
  = Ok (Parser.mk [56; 59; 67; 1] 0 4 1 [], [InvalidWXFFile]).
Proof.
  assert (H : firstn 2 [56; 59; 67; 1] <> [56; 58]) by (simpl; congruence).
  split; [exact H |].
  exact (parse_bad_header small_heap [56; 59; 67; 1] 0 [] H).
Defined.

(** ** The tree builder on an empty token list *)

(** C9. [MakeExprTree] does not check that the token list is non-empty: on
    a parser with [err == 0] and no token it reads [tokens[0]] outside the
    vector. Parsing the two-byte buffer that holds only the header gives such
    a parser, so [MakeExprTree] of that buffer makes the out-of-bounds
    access instead of returning a tree or an error. *)
Theorem MakeExprTree_no_token (heap : Z -> bool) (buf : list Z) (pos size : Z)
    (fuel : nat) (cerr : list diag) :
  MakeExprTree heap (Parser.mk buf pos size 0 []) cerr = Undefined OutOfBounds /\
  Parser.parse heap fuel (Parser.make [56; 58]) cerr
  = Ok (Parser.mk [56; 58] 2 2 0 [], cerr) /\
  MakeExprTree_bytes heap fuel [56; 58] cerr = Undefined OutOfBounds.
Proof.
  assert (Hparse : Parser.parse heap fuel (Parser.make [56; 58]) cerr
                   = Ok (Parser.mk [56; 58] 2 2 0 [], cerr))
    by (destruct fuel; reflexivity).
  split; [reflexivity |]. split; [exact Hparse |].
  unfold MakeExprTree_bytes. rewrite Hparse. reflexivity.
Qed.

(** ** Typed extraction on a token of another type *)

(** C10. Typed extraction on a token of another type does not fail and
    returns a fixed default, without reading the buffer: [get_integer] gives
    0 unless the type is one of the four signed-integer tags, [get_real]
    gives 0 unless the type is f64, and [get_string_view] gives the empty
    view unless the type is one of the five textual tags. *)
Theorem getters_default (buf : list Z) (tk : Token.t) :
  (is_integer_head (Token.type tk) = false -> Token.get_integer buf tk = Ok 0) /\
  (Token.type tk <> f64 -> Token.get_real buf tk = Ok 0) /\
  (is_textual_head (Token.type tk) = false ->
   Token.get_string_view tk = Token.empty_view).
Proof.
  unfold Token.get_integer, Token.get_real, Token.get_string_view.
  destruct (Token.type tk); cbn; repeat split; intros; congruence.
Qed.

Lemma getters_default_witness :
  let tk := Token.make func 2 4 in
  Token.get_integer [56; 58; 102; 2] tk = Ok 0 /\
  Token.get_real [56; 58; 102; 2] tk = Ok 0 /\
  Token.get_string_view tk = Token.empty_view.
Proof.
  intros tk.
  destruct (getters_default [56; 58; 102; 2] tk) as (Hi & Hr & Hs).
  split; [apply Hi; reflexivity |].
  split; [apply Hr; discriminate | apply Hs; reflexivity].
Defined.

(** ** Unknown tags *)

(** C1 (the code at the failing input). After a valid header, the byte 0 is
    no tag: the [default] label sets [err] to 2 and writes a diagnostic, but
    its [break] only leaves the [switch], so the loop goes on and emits the
    int8 token that follows, and the last statement of [parse] sets [err]
    back to 0: the caller sees no error. *)
Theorem parse_unknown_tag_not_reported (heap : Z -> bool) (fuel : nat)
    (cerr : list diag) :
  Parser.parse heap (S (S fuel)) (Parser.make [56; 58; 0; 67; 5]) cerr
  = Ok (Parser.mk [56; 58; 0; 67; 5] 5 5 0 [Token.make i8 1 4],
        cerr ++ [UnknownHeadType 0 3]).
Proof. destruct fuel; reflexivity. Qed.

(** ** Varints *)

Lemma varint_groups_step (val : Z) :
  varint_groups val
  = if Z_lt_dec 0 (Z.shiftr val 7)
    then Z.lor (Z.land val 127) 128 :: varint_groups (Z.shiftr val 7)
    else [Z.land val 127].
Proof.
  rewrite varint_groups_equation_1. unfold varint_groups_unfold_clause_1.
  destruct (Z_lt_dec 0 (Z.shiftr val 7)); reflexivity.
Qed.

Lemma shiftr7_bound (k : nat) (v : Z) :
  0 <= v < 2 ^ (7 * Z.of_nat (S k)) -> 0 <= Z.shiftr v 7 < 2 ^ (7 * Z.of_nat k).
Proof.
  intros Hv. rewrite Z.shiftr_div_pow2 by lia.
  replace (7 * Z.of_nat (S k)) with (7 * Z.of_nat k + 7) in Hv by lia.
  rewrite Z.pow_add_r in Hv by lia.
  split; [apply Z.div_pos; lia |].
  apply Z.div_lt_upper_bound; lia.
Qed.

Lemma shiftr7_zero (v : Z) : 0 <= v -> ~ 0 < Z.shiftr v 7 -> v < 2 ^ 7.
Proof.
  intros Hv Hn. rewrite Z.shiftr_div_pow2 in Hn by lia.
  destruct (Z_lt_dec v (2 ^ 7)); [assumption |].
  assert (1 <= v / 2 ^ 7) by (apply Z.div_le_lower_bound; lia). lia.
Qed.

(** [k] groups are enough below [2 ^ (7 k)]: ten for a [uint64_t]. *)
Lemma length_varint_groups (k : nat) (v : Z) :
  0 <= v < 2 ^ (7 * Z.of_nat k) -> (length (varint_groups v) <= Nat.max 1 k)%nat.
Proof.
  revert v. induction k as [|k IH]; intros v Hv; rewrite varint_groups_step.
  - change (2 ^ (7 * Z.of_nat 0)) with 1 in Hv.
    assert (v = 0) as -> by lia. reflexivity.
  - destruct (Z_lt_dec 0 (Z.shiftr v 7)) as [Hpos|Hz]; [| simpl; lia].
    cbn [length]. specialize (IH _ (shiftr7_bound k v Hv)).
    destruct k; [| lia].
    change (2 ^ (7 * Z.of_nat 1)) with (2 ^ 7) in Hv.
    rewrite Z.shiftr_div_pow2 in Hpos by lia.
    rewrite Z.div_small in Hpos by lia. lia.
Qed.

(** Byte [i] of the encoding is the [i]-th group of seven bits, with the
    high bit set when another byte follows. *)
Lemma nth_varint_groups (i : nat) (v : Z) :
  0 <= v -> (i < length (varint_groups v))%nat ->
  nth i (varint_groups v) 0
  = Z.lor (Z.land (Z.shiftr v (7 * Z.of_nat i)) 127)
          (if (S i <? length (varint_groups v))%nat then 128 else 0).
Proof.
  revert v. induction i as [|i IH]; intros v Hv Hi.
  - rewrite varint_groups_step in *. change (7 * Z.of_nat 0) with 0.
    rewrite Z.shiftr_0_r.
    destruct (Z_lt_dec 0 (Z.shiftr v 7)).
    + cbn [nth length]. rewrite (varint_groups_step (Z.shiftr v 7)).
      destruct (Z_lt_dec 0 (Z.shiftr (Z.shiftr v 7) 7)); reflexivity.
    + cbn. now rewrite Z.lor_0_r.
  - rewrite varint_groups_step in *.
    destruct (Z_lt_dec 0 (Z.shiftr v 7)) as [Hpos|]; [| simpl in Hi; lia].
    cbn [nth length] in *.
    rewrite IH by (try apply Z.shiftr_nonneg; lia).
    rewrite Z.shiftr_shiftr by lia.
    replace (7 + 7 * Z.of_nat i) with (7 * Z.of_nat (S i)) by lia.
    reflexivity.
Qed.

Lemma byte_at_app (pre : list Z) (b : Z) (post : list Z) :
  Parser.byte_at (pre ++ b :: post) (Z.of_nat (length pre)) = Ok b.
Proof.
  unfold Parser.byte_at.
  destruct (Z.ltb_spec (Z.of_nat (length pre)) 0); [lia |].
  now rewrite Nat2Z.id, nth_error_app2, Nat.sub_diag by lia.
Qed.

Lemma split_low7 (v s : Z) :
  0 <= v -> 0 <= s ->
  Z.lor (Z.shiftl (Z.land v 127) s) (Z.shiftl (Z.shiftr v 7) (s + 7))
  = Z.shiftl v s.
Proof.
  intros Hv Hs. apply Z.bits_inj'. intros n Hn.
  rewrite Z.lor_spec, !Z.shiftl_spec by lia.
  change 127 with (Z.ones 7).
  destruct (Z_lt_dec (n - s) 0) as [Hneg|Hnn].
  - rewrite !Z.testbit_neg_r by lia. reflexivity.
  - destruct (Z_lt_dec (n - s) 7).
    + rewrite Z.land_spec, Z.ones_spec_low by lia.
      rewrite (Z.testbit_neg_r _ (n - (s + 7))) by lia.
      now rewrite andb_true_r, orb_false_r.
    + rewrite Z.land_spec, Z.ones_spec_high by lia.
      rewrite Z.shiftr_spec by lia.
      rewrite andb_false_r, orb_false_l. f_equal. lia.
Qed.

Lemma low7_of_group (v : Z) : Z.land (Z.lor (Z.land v 127) 128) 127 = Z.land v 127.
Proof.
  rewrite Z.land_lor_distr_l. change (Z.land 128 127) with 0.
  rewrite Z.lor_0_r, <- Z.land_assoc. reflexivity.
Qed.

Lemma high_bit_of_group (v : Z) : Z.land (Z.lor (Z.land v 127) 128) 128 = 128.
Proof.
  rewrite Z.land_lor_distr_l, <- Z.land_assoc. change (Z.land 127 128) with 0.
  rewrite Z.land_0_r. reflexivity.
Qed.

Lemma high_bit_of_last (v : Z) : Z.land (Z.land v 127) 128 = 0.
Proof.
  rewrite <- Z.land_assoc. change (Z.land 127 128) with 0. apply Z.land_0_r.
Qed.

(** Reading back the groups of [v] with the lines of shifts [s, s+7, ...],
    when they are enough for [v] and [v << s] fits in 64 bits. *)
Lemma read_groups_next (buf : list Z) (end_ s s' : Z) (k : nat) (ptr result : Z) :
  Parser.read_groups buf end_ (s :: shifts_from s' (S k)) ptr result
  = (b <- Parser.byte_at buf ptr ;;
     if (Z.land b 128 =? 0) || (ptr + 1 >=? end_)
     then Ok (Z.lor result (u64 (Z.shiftl (Z.land b 127) s)), ptr + 1)
     else Parser.read_groups buf end_ (shifts_from s' (S k)) (ptr + 1)
            (Z.lor result (u64 (Z.shiftl (Z.land b 127) s)))).
Proof. reflexivity. Qed.

Lemma read_groups_varint (k : nat) :
  forall (s v result : Z) (pre post : list Z) (end_ ptr : Z),
    0 <= s -> 0 <= v < 2 ^ (7 * Z.of_nat (S k)) -> v * 2 ^ s < 2 ^ 64 ->
    end_ = Z.of_nat (length (pre ++ varint_groups v ++ post)) ->
    ptr = Z.of_nat (length pre) ->
    Parser.read_groups (pre ++ varint_groups v ++ post) end_
      (shifts_from s (S k)) ptr result
    = Ok (Z.lor result (Z.shiftl v s),
          ptr + Z.of_nat (length (varint_groups v))).
Proof.
  induction k as [|k IH]; intros s v result pre post end_ ptr Hs Hv Hfit He ->.
  - (* the last line: [v] is a single group *)
    assert (0 <= v * 2 ^ s) by (apply Z.mul_nonneg_nonneg; [| apply Z.pow_nonneg]; lia).
    rewrite varint_groups_step.
    change (2 ^ (7 * Z.of_nat 1)) with (2 ^ 7) in Hv.
    destruct (Z_lt_dec 0 (Z.shiftr v 7)) as [Hpos|_].
    { rewrite Z.shiftr_div_pow2, Z.div_small in Hpos by lia. lia. }
    cbn [shifts_from Parser.read_groups app].
    rewrite byte_at_app. cbn [bind length].
    rewrite <- Z.land_assoc. change (Z.land 127 127) with (Z.ones 7).
    rewrite Z.land_ones, Z.mod_small by lia.
    unfold u64. rewrite Z.shiftl_mul_pow2, Z.mod_small by lia.
    reflexivity.
  - rewrite varint_groups_step in *.
    assert (Hp : 0 < 2 ^ s) by (apply Z.pow_pos_nonneg; lia).
    assert (0 <= v * 2 ^ s) by (apply Z.mul_nonneg_nonneg; lia).
    change (shifts_from s (S (S k))) with (s :: shifts_from (s + 7) (S k)).
    rewrite read_groups_next.
    destruct (Z_lt_dec 0 (Z.shiftr v 7)) as [Hpos|Hz].
    + cbn [app]. rewrite byte_at_app.
      cbn [bind]. rewrite low7_of_group, high_bit_of_group.
      change (128 =? 0) with false. cbn [orb].
      assert (Hlen : (1 <= length (varint_groups (Z.shiftr v 7)))%nat).
      { rewrite varint_groups_step.
        destruct (Z_lt_dec 0 (Z.shiftr (Z.shiftr v 7) 7)); simpl; lia. }
      destruct (Z.geb_spec (Z.of_nat (length pre) + 1) end_) as [Hge|_].
      { rewrite length_app in He. cbn [app length] in He.
        rewrite length_app in He. lia. }
      assert (Hg : 0 <= Z.land v 127 <= v).
      { change 127 with (Z.ones 7). rewrite Z.land_ones by lia.
        split; [apply Z.mod_pos_bound; lia | apply Z.mod_le; lia]. }
      assert (Hu : u64 (Z.shiftl (Z.land v 127) s) = Z.shiftl (Z.land v 127) s).
      { unfold u64. rewrite Z.shiftl_mul_pow2 by lia.
        apply Z.mod_small. nia. }
      rewrite Hu.
      assert (Hv' : Z.shiftr v 7 * 2 ^ (s + 7) < 2 ^ 64).
      { rewrite Z.shiftr_div_pow2, Z.pow_add_r by lia.
        assert (2 ^ 7 * (v / 2 ^ 7) <= v) by (apply Z.mul_div_le; lia). nia. }
      pose proof (IH (s + 7) (Z.shiftr v 7)
                    (Z.lor result (Z.shiftl (Z.land v 127) s))
                    (pre ++ [Z.lor (Z.land v 127) 128]) post end_
                    (Z.of_nat (length pre) + 1)
                    ltac:(lia) (shiftr7_bound _ _ Hv) Hv') as IH'.
      rewrite <- !app_assoc in IH'. cbn [app] in IH'.
      rewrite IH'.
      * rewrite <- Z.lor_assoc, split_low7 by lia.
        f_equal. f_equal. cbn [length]. lia.
      * rewrite He. reflexivity.
      * rewrite length_app. cbn [length]. lia.
    + cbn [app]. rewrite byte_at_app.
      cbn [bind]. rewrite high_bit_of_last. cbn [Z.eqb orb length].
      pose proof (shiftr7_zero v ltac:(lia) Hz) as Hsmall.
      rewrite <- Z.land_assoc. change (Z.land 127 127) with (Z.ones 7).
      rewrite Z.land_ones, Z.mod_small by lia.
      unfold u64. rewrite Z.shiftl_mul_pow2, Z.mod_small by lia.
      reflexivity.
Qed.

(** C6. For every [uint64_t] value [v], [serialize_varint] appends at most
    10 bytes; byte [i] holds bits [7i .. 7i+6] of [v] (little-endian groups
    of seven bits) and has its high bit set exactly when it is not the last
    one; and [Parser::read_varint], placed on that encoding anywhere in a
    buffer, returns [v] and leaves the cursor just after it. *)
Theorem varint_roundtrip (v : Z) (pre post : list Z) :
  0 <= v < 2 ^ 64 ->
  let enc := varint_groups (u64 v) in
  serialize_varint pre v = pre ++ enc /\
  (1 <= length enc <= 10)%nat /\
  (forall i : nat, (i < length enc)%nat ->
     nth i enc 0
     = Z.lor (Z.land (Z.shiftr v (7 * Z.of_nat i)) 127)
             (if (S i <? length enc)%nat then 128 else 0)) /\
  let p := Parser.mk (serialize_varint pre v ++ post)
             (Z.of_nat (length pre))
             (Z.of_nat (length (serialize_varint pre v ++ post))) 0 [] in
  Parser.read_varint p
  = Ok (v, Parser.set_pos p (Z.of_nat (length pre) + Z.of_nat (length enc))).
Proof.
  intros Hv enc. subst enc. unfold serialize_varint, u64.
  rewrite Z.mod_small by lia.
  split; [reflexivity |]. split; [| split].
  - split.
    + rewrite varint_groups_step.
      destruct (Z_lt_dec 0 (Z.shiftr v 7)); simpl; lia.
    + apply (length_varint_groups 10). simpl Z.of_nat.
      assert (2 ^ 64 <= 2 ^ (7 * 10)) by (apply Z.pow_le_mono_r; lia). lia.
  - intros i Hi. apply nth_varint_groups; [lia | assumption].
  - cbv zeta. unfold Parser.read_varint.
    cbn [Parser.pos Parser.size Parser.buffer].
    assert (Hlen : (1 <= length (varint_groups v))%nat).
    { rewrite varint_groups_step.
      destruct (Z_lt_dec 0 (Z.shiftr v 7)); simpl; lia. }
    destruct (Z.geb_spec (Z.of_nat (length pre))
                (Z.of_nat (length ((pre ++ varint_groups v) ++ post)))) as [Hge|_].
    { rewrite !length_app in Hge. lia. }
    rewrite <- app_assoc.
    pose proof (read_groups_varint 9 0 v 0 pre post
                  (Z.of_nat (length (pre ++ varint_groups v ++ post)))
                  (Z.of_nat (length pre)) ltac:(lia)) as H.
    change (shifts_from 0 10) with Parser.varint_shifts in H.
    rewrite H.
    + cbn [bind]. rewrite Z.shiftl_0_r, Z.lor_0_l. reflexivity.
    + assert (2 ^ 64 <= 2 ^ (7 * Z.of_nat 10)) by (apply Z.pow_le_mono_r; lia).
      lia.
    + lia.
    + reflexivity.
    + reflexivity.
Qed.

Lemma varint_roundtrip_witness :
  0 <= 300 < 2 ^ 64 /\
  Parser.read_varint (Parser.mk (serialize_varint [83] 300 ++ [7]) 1 4 0 [])
  = Ok (300, Parser.mk (serialize_varint [83] 300 ++ [7]) 3 4 0 []).
Proof.
  assert (H : 0 <= 300 < 2 ^ 64) by lia.
  split; [exact H |].
  exact (proj2 (proj2 (proj2 (varint_roundtrip 300 [83] [7] H)))).
Defined.

(** ** Arrays on the encoder side *)

Lemma push_dims_spec (d : list Z) (b : list Z) (all_len : Z) :
  u64 all_len = all_len ->
  fold_left
    (fun '(e, all_len) dim =>
       (Encoder.mk (serialize_varint (Encoder.buffer e) dim), u64 (all_len * dim)))
    d (Encoder.mk b, all_len)
  = (Encoder.mk (b ++ concat (map (fun dim => varint_groups (u64 dim)) d)),
     u64 (all_len * product d)).
Proof.
  revert b all_len. induction d as [|dim d IH]; intros b all_len Hlen.
  - cbn. now rewrite app_nil_r, Z.mul_1_r, Hlen.
  - cbn [fold_left map concat product fold_right Encoder.buffer].
    rewrite IH by (unfold u64; apply Z.mod_mod; lia).
    unfold serialize_varint. rewrite <- app_assoc. f_equal.
    unfold u64. fold (product d).
    rewrite Z.mul_mod_idemp_l by lia. f_equal. lia.
Qed.

Lemma push_array_info_spec (e : Encoder.t) (d : list Z) (type : WXF_HEAD)
    (num_type : Z) :
  Encoder.push_array_info e d type num_type
  = (Encoder.mk (Encoder.buffer e ++ array_info d type num_type), u64 (product d)).
Proof.
  unfold Encoder.push_array_info, Encoder.push_back. cbn [Encoder.buffer].
  rewrite push_dims_spec by reflexivity.
  unfold array_info, serialize_varint. rewrite Z.mul_1_l, <- !app_assoc.
  reflexivity.
Qed.

(** What [Encoder::push_array] does on every input: the product of the
    dimensions is computed in [size_t] arithmetic and compared with the
    element count. *)
Lemma push_array_spec (T : Type) (repr : T -> list Z)
    (e : Encoder.t) (d : list Z) (data : list T) (type : WXF_HEAD)
    (num_type : Z) (cerr : list diag) :
  Encoder.push_array T repr e d data type num_type cerr
  = if u64 (product d) =? Z.of_nat (length data)
    then (Encoder.mk (Encoder.buffer e ++ array_info d type num_type
                      ++ concat (map repr data)), cerr)
    else (e, cerr ++ [DataSizeMismatch]).
Proof.
  unfold Encoder.push_array. rewrite push_array_info_spec.
  destruct (u64 (product d) =? Z.of_nat (length data)); cbn [negb].
  - unfold Encoder.push_ustr. cbn [Encoder.buffer]. now rewrite <- app_assoc.
  - unfold Encoder.resize. cbn [Encoder.buffer].
    rewrite Nat2Z.id, firstn_app, firstn_all, Nat.sub_diag, firstn_O, app_nil_r.
    rewrite length_app.
    replace (length (Encoder.buffer e)
             - (length (Encoder.buffer e) + length (array_info d type num_type)))%nat
      with 0%nat by lia.
    cbn [repeat]. rewrite app_nil_r. now destruct e.
Qed.

Lemma product_nonneg (d : list Z) : Forall (fun dim => 0 <= dim) d -> 0 <= product d.
Proof.
  induction 1 as [|dim d Hdim _ IH]; cbn; [lia |].
  fold (product d). now apply Z.mul_nonneg_nonneg.
Qed.

(** C5 (amended). For every list [d] of dimensions whose product is below
    [2 ^ 64], so that it is not reduced by the [size_t] arithmetic, and every
    element buffer, [Encoder::push_array] succeeds iff the product of [d] is
    the element count: then the array header and the element bytes are
    appended and nothing is written to [std::cerr]. Otherwise the call fails:
    it writes a diagnostic to [std::cerr] and returns the encoder with its
    buffer byte-identical to the one before the call. *)
Theorem push_array_checks_length (T : Type) (repr : T -> list Z)
    (e : Encoder.t) (d : list Z) (data : list T) (type : WXF_HEAD)
    (num_type : Z) (cerr : list diag) :
  Forall (fun dim => 0 <= dim) d ->
  product d < 2 ^ 64 ->
  (product d = Z.of_nat (length data) ->
   Encoder.push_array T repr e d data type num_type cerr
   = (Encoder.mk (Encoder.buffer e ++ array_info d type num_type
                  ++ concat (map repr data)), cerr))
  /\ (product d <> Z.of_nat (length data) ->
      Encoder.push_array T repr e d data type num_type cerr
      = (e, cerr ++ [DataSizeMismatch])).
Proof.
  intros Hd Hp. rewrite push_array_spec.
  assert (Hu : u64 (product d) = product d)
    by (apply Z.mod_small; split; [now apply product_nonneg | assumption]).
  rewrite Hu.
  destruct (Z.eqb_spec (product d) (Z.of_nat (length data))); split; intros;
    congruence.
Qed.

Lemma push_array_checks_length_witness :
  let e := Encoder.mk [56; 58] in
  (Forall (fun dim => 0 <= dim) [2; 2] /\ product [2; 2] < 2 ^ 64)
  /\ Encoder.push_array Z (fun z => [z]) e [2; 2] [1; 2; 3; 4] array 0 []
     = (Encoder.mk [56; 58; 193; 0; 2; 2; 2; 1; 2; 3; 4], [])
  /\ Encoder.push_array Z (fun z => [z]) e [2; 2] [1; 2; 3] array 0 []
     = (e, [DataSizeMismatch]).
Proof.
  intros e.
  assert (Hd : Forall (fun dim => 0 <= dim) [2; 2])
    by (repeat constructor; lia).
  assert (Hp : product [2; 2] < 2 ^ 64) by (simpl; lia).
  split; [split; assumption |]. split.
  - exact (proj1 (push_array_checks_length Z (fun z => [z]) e [2; 2]
                    [1; 2; 3; 4] array 0 [] Hd Hp) eq_refl).
  - apply (proj2 (push_array_checks_length Z (fun z => [z]) e [2; 2]
                    [1; 2; 3] array 0 [] Hd Hp)).
    simpl. lia.
Defined.

(** C5 (counterexample). With the dimensions [2^32; 2^32] and no element,
    the product of the dimensions is [2 ^ 64], not 0, and yet the call
    appends the array header and reports nothing. *)
Lemma push_array_overflow_accepted :
  let d := [2 ^ 32; 2 ^ 32] in
  let data : list Z := [] in
  product d <> Z.of_nat (length data) /\
  Encoder.push_array Z (fun z => [z]) (Encoder.mk [1; 2]) d data array 0 []
  = (Encoder.mk [1; 2; 193; 0; 2; 128; 128; 128; 128; 16; 128; 128; 128; 128; 16],
     []).
Proof. split; [discriminate | reflexivity]. Qed.

(** ** The token loop: what it reads and what it emits *)

Lemma u64_range (z : Z) : 0 <= u64 z < 2 ^ 64.
Proof. unfold u64. apply Z.mod_pos_bound. lia. Qed.

Lemma u64_idem (z : Z) : u64 (u64 z) = u64 z.
Proof. unfold u64. apply Z.mod_mod. lia. Qed.


Lemma byte_at_in_bounds (buf : list Z) (i : Z) :
  0 <= i < Z.of_nat (length buf) -> exists b, Parser.byte_at buf i = Ok b.
Proof.
  intros Hi. unfold Parser.byte_at.
  destruct (Z.ltb_spec i 0); [lia |].
  destruct (nth_error buf (Z.to_nat i)) as [b|] eqn:E; [now exists b |].
  apply nth_error_None in E. lia.
Qed.

(** The lines of [read_varint] stay inside the buffer. *)
Lemma read_groups_in_bounds (buf : list Z) (shifts : list Z) :
  forall ptr result : Z,
    shifts <> [] -> 0 <= ptr < Z.of_nat (length buf) ->
    exists r ptr',
      Parser.read_groups buf (Z.of_nat (length buf)) shifts ptr result = Ok (r, ptr')
      /\ ptr < ptr' <= Z.of_nat (length buf).
Proof.
  induction shifts as [|s rest IH]; intros ptr result Hne Hptr; [congruence |].
  cbn [Parser.read_groups].
  destruct (byte_at_in_bounds buf ptr Hptr) as [b ->]. cbn [bind].
  destruct rest as [|s' rest]; [eexists _, _; split; [reflexivity | lia] |].
  destruct (Z.land b 128 =? 0); cbn [orb];
    [eexists _, _; split; [reflexivity | lia] |].
  destruct (Z.geb_spec (ptr + 1) (Z.of_nat (length buf)));
    [eexists _, _; split; [reflexivity | lia] |].
  destruct (IH (ptr + 1) (Z.lor result (u64 (Z.shiftl (Z.land b 127) s))))
    as (r & ptr' & -> & Hb); [congruence | lia |].
  eexists _, _; split; [reflexivity | lia].
Qed.

Lemma read_varint_in_bounds (p : Parser.t) :
  in_buffer p ->
  exists r pos',
    Parser.read_varint p = Ok (r, Parser.set_pos p pos')
    /\ Parser.pos p <= pos' <= Parser.size p.
Proof.
  intros [Hsz Hpos]. unfold Parser.read_varint.
  destruct (Z.geb_spec (Parser.pos p) (Parser.size p)).
  - exists 0, (Parser.pos p). split; [now destruct p | lia].
  - rewrite Hsz.
    destruct (read_groups_in_bounds (Parser.buffer p) Parser.varint_shifts
                (Parser.pos p) 0) as (r & ptr' & -> & Hb);
      [discriminate | lia |].
    exists r, ptr'. split; [reflexivity | lia].
Qed.

Lemma in_buffer_set_pos (p : Parser.t) (n : Z) :
  in_buffer p -> 0 <= n <= Parser.size p -> in_buffer (Parser.set_pos p n).
Proof. intros [Hsz Hpos] Hn. split; cbn; [exact Hsz | exact Hn]. Qed.

(** The dimension loop: it stays inside the buffer, and the flattened
    length it returns is the product of the dimensions read, reduced modulo
    [2 ^ 64] at each step. *)
Lemma read_dims_spec (r : nat) :
  forall (p : Parser.t) (dims : list Z) (all_len : Z),
    in_buffer p -> u64 all_len = all_len ->
    exists ds pos',
      Parser.read_dims r p dims all_len
      = Ok (dims ++ ds, u64 (all_len * product ds), Parser.set_pos p pos')
      /\ length ds = r
      /\ Parser.pos p <= pos' <= Parser.size p.
Proof.
  induction r as [|r IH]; intros p dims all_len Hin Hlen.
  - exists [], (Parser.pos p). cbn.
    rewrite app_nil_r, Z.mul_1_r, Hlen. destruct Hin as [_ Hin].
    split; [now destruct p | split; [reflexivity | lia]].
  - cbn [Parser.read_dims].
    destruct (read_varint_in_bounds p Hin) as (d & pos1 & -> & Hb1). cbn [bind].
    destruct (IH (Parser.set_pos p pos1) (dims ++ [d]) (u64 (all_len * d)))
      as (ds & pos' & -> & Hds & Hb);
      [apply in_buffer_set_pos; [assumption | destruct Hin; lia]
      | apply u64_idem |].
    cbn in Hb. exists (d :: ds), pos'.
    rewrite <- app_assoc. cbn [app product fold_right length]. fold (product ds).
    split; [| split; [cbn; lia | lia]].
    f_equal. f_equal. f_equal. unfold u64.
    rewrite Z.mul_mod_idemp_l by lia. f_equal. lia.
Qed.

(** *** The allocator *)

Lemma served_le (heap : Z -> bool) (n : Z) :
  served heap n = true -> n <= PTRDIFF_MAX.
Proof.
  unfold served. intros H. apply andb_true_iff in H as [H _].
  now apply Z.leb_le.
Qed.

Lemma serves_le (heap : Z -> bool) (b b' : Z) :
  serves heap b -> b' <= b -> serves heap b'.
Proof. intros H Hle n Hn. apply H. lia. Qed.

Lemma serves_bound (heap : Z -> bool) (b : Z) :
  serves heap b -> 0 <= b -> b <= PTRDIFF_MAX.
Proof. intros H Hb. apply (served_le heap), H. lia. Qed.

Lemma serves_small_heap (b : Z) : b <= 2 ^ 20 -> serves small_heap b.
Proof.
  intros Hb n Hn. unfold served, small_heap, PTRDIFF_MAX.
  apply andb_true_iff. split; apply Z.leb_le; lia.
Qed.

Lemma new_vector_served (heap : Z -> bool) (r : Z) :
  0 <= r -> serves heap (8 * (r + 2)) -> new_vector heap r = Ok tt.
Proof.
  intros Hr Hs. unfold new_vector.
  pose proof (serves_bound heap _ Hs ltac:(lia)) as Hb.
  unfold vector_max_size, PTRDIFF_MAX in *.
  destruct (Z.gtb_spec r ((2 ^ 63 - 1) / 8)) as [Hbig|_].
  { change ((2 ^ 63 - 1) / 8) with 1152921504606846975 in Hbig. lia. }
  rewrite (Hs (8 * r)) by lia. now rewrite orb_true_r.
Qed.

(** *** The constructor of an array token *)

Lemma sint32_small (n : Z) : 0 <= n <= INT32_MAX -> sint 32 n = n.
Proof.
  unfold INT32_MAX, sint. intros H.
  change (2 ^ 31 - 1) with 2147483647 in H.
  change (2 ^ (32 - 1)) with 2147483648. change (2 ^ 32) with 4294967296.
  rewrite Z.mod_small by lia.
  destruct (Z.ltb_spec n 2147483648); [reflexivity | lia].
Qed.

(** With fewer than [2^31 - 2] dimensions and its block served, the
    constructor stores the rank and every dimension. *)
Lemma make_array_small (heap : Z -> bool) (h : WXF_HEAD) (dims : list Z)
    (nt len d : Z) :
  Z.of_nat (length dims) <= INT32_MAX - 2 ->
  served heap (8 * (Z.of_nat (length dims) + 2)) = true ->
  Token.make_array heap h dims nt len d = Ok (array_token h dims nt len d).
Proof.
  intros Hr Hs. unfold Token.make_array, array_token.
  assert (Hmax : INT32_MAX = 2147483647) by reflexivity.
  rewrite sint32_small by lia.
  set (r := Z.of_nat (length dims)) in *.
  destruct (Z.gtb_spec (r + 2) INT32_MAX) as [Hbig|_]; [lia |].
  assert (Hu : u64 ((r + 2) * 8) = 8 * (r + 2)).
  { replace ((r + 2) * 8) with (8 * (r + 2)) by lia.
    unfold u64. apply Z.mod_small. change (2 ^ 64) with 18446744073709551616.
    lia. }
  rewrite Hu, Hs.
  destruct (Z.leb_spec 16 (8 * (r + 2))) as [_|Hlt]; [| lia].
  cbn [andb]. subst r. now rewrite Nat2Z.id, firstn_all.
Qed.


(** *** The array case *)

Lemma read_groups_nonneg (buf : list Z) (end_ : Z) (shifts : list Z) :
  forall ptr result r ptr' : Z,
    0 <= result ->
    Parser.read_groups buf end_ shifts ptr result = Ok (r, ptr') -> 0 <= r.
Proof.
  induction shifts as [|s rest IH]; intros ptr result r ptr' Hres H;
    cbn [Parser.read_groups] in H.
  - injection H as <- _. exact Hres.
  - destruct (Parser.byte_at buf ptr) as [b| | | |]; try discriminate.
    cbn [bind] in H.
    assert (Hlor : 0 <= Z.lor result (u64 (Z.shiftl (Z.land b 127) s)))
      by (apply Z.lor_nonneg; split; [exact Hres | apply u64_range]).
    destruct rest as [|s' rest]; [injection H as <- _; exact Hlor |].
    destruct ((Z.land b 128 =? 0) || (ptr + 1 >=? end_));
      [injection H as <- _; exact Hlor |].
    exact (IH _ _ _ _ Hlor H).
Qed.

Lemma read_varint_nonneg (p p' : Parser.t) (r : Z) :
  Parser.read_varint p = Ok (r, p') -> 0 <= r.
Proof.
  unfold Parser.read_varint. intros H.
  destruct (Parser.pos p >=? Parser.size p); [injection H as <- _; lia |].
  destruct (Parser.read_groups (Parser.buffer p) (Parser.size p)
              Parser.varint_shifts (Parser.pos p) 0)
    as [[r' ptr']| | | |] eqn:E; try discriminate.
  cbn [bind] in H. injection H as <- _.
  exact (read_groups_nonneg _ _ _ _ _ _ _ (Z.le_refl 0) E).
Qed.

(** The array case of the [switch]: the element type, the rank and the
    dimensions are used as they are read; the rank sizes the vector of the
    dimensions and the block of the token. *)
Lemma parse_switch_array (heap : Z -> bool) (h : WXF_HEAD) (p : Parser.t)
    (cerr : list diag) :
  in_buffer p -> h = array \/ h = narray ->
  exists nt r dims pos1 pos2 pos',
    let all_len := u64 (product dims) in
    let num_type := sint 32 nt in
    Parser.read_varint p = Ok (nt, Parser.set_pos p pos1)
    /\ Parser.read_varint (Parser.set_pos p pos1) = Ok (r, Parser.set_pos p pos2)
    /\ Parser.read_dims (Z.to_nat r) (Parser.set_pos p pos2) [] 1
       = Ok (dims, all_len, Parser.set_pos p pos')
    /\ Z.of_nat (length dims) = r
    /\ Parser.parse_switch heap (head_value h) p cerr
       = (_ <- new_vector heap r ;;
          tk <- Token.make_array heap h dims num_type all_len pos' ;;
          Ok (Parser.set_pos
                (Parser.emplace_back (Parser.set_pos p pos') tk)
                (u64 (pos' + u64 (all_len * size_of_arr_num_type num_type))),
              cerr))
    /\ Parser.pos p <= pos' <= Parser.size p.
Proof.
  intros Hin Hh.
  destruct (read_varint_in_bounds p Hin) as (nt & pos1 & E1 & Hb1).
  assert (Hin1 : in_buffer (Parser.set_pos p pos1))
    by (apply in_buffer_set_pos; [assumption | destruct Hin; lia]).
  destruct (read_varint_in_bounds _ Hin1) as (r & pos2 & E2 & Hb2).
  cbn in Hb2, E2.
  pose proof (read_varint_nonneg _ _ _ E2) as Hr.
  assert (Hin2 : in_buffer (Parser.set_pos p pos2))
    by (apply in_buffer_set_pos; [assumption | destruct Hin; lia]).
  destruct (read_dims_spec (Z.to_nat r) (Parser.set_pos p pos2) [] 1 Hin2
              eq_refl) as (ds & pos' & E3 & Hlen & Hb3).
  cbn in Hb3. rewrite Z.mul_1_l in E3. cbn [app] in E3.
  change (Parser.set_pos (Parser.set_pos p pos1) pos2)
    with (Parser.set_pos p pos2) in E2.
  change (Parser.set_pos (Parser.set_pos p pos2) pos')
    with (Parser.set_pos p pos') in E3.
  exists nt, r, ds, pos1, pos2, pos'. cbv zeta.
  split; [exact E1 |]. split; [exact E2 |]. split; [exact E3 |].
  split; [lia |]. split; [| lia].
  unfold Parser.parse_switch.
  destruct Hh as [-> | ->]; cbn [head_value head_of_byte];
    rewrite E1; cbn [bind]; rewrite E2; cbn [bind];
    destruct (new_vector heap r) as [[]| | | |]; cbn [bind]; try reflexivity;
    rewrite E3; reflexivity.
Qed.






Lemma parse_unfold (heap : Z -> bool) (buf : list Z) (fuel : nat)
    (cerr : list diag) :
  Parser.parse heap fuel (Parser.make buf) cerr
  = if valid_header buf then
      '(p, cerr) <- Parser.parse_loop heap fuel
                      (Parser.set_pos (Parser.make buf) 2) cerr ;;
      Ok (Parser.set_err p 0, cerr)
    else Ok (Parser.set_err (Parser.make buf) 1, cerr ++ [InvalidWXFFile]).
Proof.
  unfold Parser.parse. change (Parser.pos (Parser.make buf) =? 0) with true.
  cbv iota. rewrite bad_header_spec. unfold valid_header.
  destruct buf as [|b0 [|b1 rest]]; try reflexivity.
  cbn [bind]. destruct ((b0 =? 56) && (b1 =? 58)); reflexivity.
Qed.



(** A rank above [max_size()] of the dimension vector: an array of rank
    [2^61] in a buffer of 15 bytes. The constructor of the vector throws and
    [parse] does not return. *)
Lemma parse_rank_length_error :
  let buf := [56; 58; 193; 0; 128; 128; 128; 128; 128; 128; 128; 128; 32; 1; 1] in
  Parser.parse small_heap 1 (Parser.make buf) [] = LengthError.
Proof. reflexivity. Qed.

(** An array of rank 0 when [malloc] has nothing to give: the constructor
    of the token writes the element type through the null pointer. *)
Lemma parse_array_null_block :
  Parser.parse (fun _ => false) 1 (Parser.make [56; 58; 193; 0; 0; 1]) []
  = Undefined BadBlock.
Proof. reflexivity. Qed.

(** C8 (amended). In the array and numeric-array case of [Parser::parse]
    the element type [nt], the rank [r] and the [r] dimensions [dims] are
    used as [read_varint] returns them, without validation.
    - The rank sizes the vector of the dimensions: above [max_size()] its
      constructor throws [std::length_error], and [std::bad_alloc] when the
      allocator refuses its [8 * r] bytes; no token is stored.
    - With a rank of at most [2^31 - 3], the vector and the block of the
      token being served, the case succeeds: the flattened element count
      stored in the token is the product of the dimensions reduced modulo
      [2 ^ 64], the cursor advances by that count times the element width,
      again modulo [2 ^ 64], [err] is left as it was and nothing is written
      to [std::cerr]. *)
Theorem parse_array_product_wraps (heap : Z -> bool) (h : WXF_HEAD)
    (p : Parser.t) (cerr : list diag) :
  in_buffer p -> h = array \/ h = narray ->
  exists nt r pos1 pos2,
    Parser.read_varint p = Ok (nt, Parser.set_pos p pos1)
    /\ Parser.read_varint (Parser.set_pos p pos1) = Ok (r, Parser.set_pos p pos2)
    /\ (vector_max_size < r ->
        Parser.parse_switch heap (head_value h) p cerr = LengthError)
    /\ (0 < r <= vector_max_size -> served heap (8 * r) = false ->
        Parser.parse_switch heap (head_value h) p cerr = BadAlloc)
    /\ (r <= INT32_MAX - 2 -> serves heap (8 * (r + 2)) ->
        exists dims pos' p',
          let all_len := u64 (product dims) in
          let num_type := sint 32 nt in
          Parser.read_dims (Z.to_nat r) (Parser.set_pos p pos2) [] 1
          = Ok (dims, all_len, Parser.set_pos p pos')
          /\ Parser.parse_switch heap (head_value h) p cerr = Ok (p', cerr)
          /\ Parser.tokens p'
             = Parser.tokens p ++ [array_token h dims num_type all_len pos']
          /\ Parser.pos p'
             = u64 (pos' + u64 (all_len * size_of_arr_num_type num_type))
          /\ Parser.err p' = Parser.err p
          /\ Parser.pos p <= pos' <= Parser.size p).
Proof.
  intros Hin Hh.
  destruct (parse_switch_array heap h p cerr Hin Hh)
    as (nt & r & dims & pos1 & pos2 & pos' & E1 & E2 & E3 & Hlen & E & Hb).
  cbv zeta in *. exists nt, r, pos1, pos2.
  split; [exact E1 |]. split; [exact E2 |].
  pose proof (read_varint_nonneg _ _ _ E2) as Hr.
  split; [| split].
  - intros Hbig. rewrite E. unfold new_vector.
    destruct (Z.gtb_spec r vector_max_size); [reflexivity | lia].
  - intros Hsmall Href. rewrite E. unfold new_vector.
    destruct (Z.gtb_spec r vector_max_size); [lia |].
    destruct (Z.eqb_spec r 0); [lia |]. now rewrite Href.
  - intros Hrank Hs. exists dims, pos'. eexists. cbv zeta.
    split; [exact E3 |].
    rewrite E, (new_vector_served heap r Hr Hs). cbn [bind].
    rewrite make_array_small;
      [| rewrite Hlen; lia | rewrite Hlen; apply Hs; lia].
    cbn [bind]. split; [reflexivity |].
    repeat split; try reflexivity; apply Hb.
Qed.

Lemma parse_array_product_wraps_witness :
  let buf := [56; 58; 193; 0; 2; 128; 128; 128; 128; 16; 128; 128; 128; 128; 16] in
  let p := Parser.mk buf 3 15 0 [] in
  in_buffer p /\ (array = array \/ array = narray) /\
  exists nt r pos1 pos2,
    Parser.read_varint p = Ok (nt, Parser.set_pos p pos1)
    /\ Parser.read_varint (Parser.set_pos p pos1) = Ok (r, Parser.set_pos p pos2)
    /\ (vector_max_size < r ->
        Parser.parse_switch small_heap (head_value array) p [] = LengthError)
    /\ (0 < r <= vector_max_size -> served small_heap (8 * r) = false ->
        Parser.parse_switch small_heap (head_value array) p [] = BadAlloc)
    /\ (r <= INT32_MAX - 2 -> serves small_heap (8 * (r + 2)) ->
        exists dims pos' p',
          Parser.read_dims (Z.to_nat r) (Parser.set_pos p pos2) [] 1
          = Ok (dims, u64 (product dims), Parser.set_pos p pos')
          /\ Parser.parse_switch small_heap (head_value array) p [] = Ok (p', [])
          /\ Parser.tokens p'
             = Parser.tokens p
               ++ [array_token array dims (sint 32 nt) (u64 (product dims)) pos']
          /\ Parser.pos p'
             = u64 (pos' + u64 (u64 (product dims)
                                * size_of_arr_num_type (sint 32 nt)))
          /\ Parser.err p' = Parser.err p
          /\ Parser.pos p <= pos' <= Parser.size p).
Proof.
  intros buf p.
  assert (Hin : in_buffer p) by (split; cbn; [reflexivity | lia]).
  split; [exact Hin |]. split; [now left |].
  exact (parse_array_product_wraps small_heap array p [] Hin (or_introl eq_refl)).
Defined.

(** C8 (counterexample). A packed array of rank 2 with the dimensions
    [2^32] and [2^32]: their product is [2 ^ 64], the token is emitted with
    the flattened length 0 and [parse] returns with [err] 0 and no
    diagnostic. *)
Lemma parse_array_overflow_accepted :
  let buf := [56; 58; 193; 0; 2; 128; 128; 128; 128; 16; 128; 128; 128; 128; 16] in
  let dims := [2 ^ 32; 2 ^ 32] in
  product dims = 2 ^ 64
  /\ Parser.parse small_heap 1 (Parser.make buf) []
     = Ok (Parser.mk buf 15 15 0 [array_token array dims 0 0 15], []).
Proof. split; reflexivity. Qed.

(** ** Pointers into the tree *)

Lemma list_set_length {A : Type} (l : list A) (i : nat) (x : A) :
  length (list_set l i x) = length l.
Proof.
  revert i. induction l as [|y l IH]; intros [|i]; cbn; auto.
Qed.

Lemma nth_error_list_set {A : Type} (l : list A) (i : nat) (x : A) :
  (i < length l)%nat -> nth_error (list_set l i x) i = Some x.
Proof.
  revert i. induction l as [|y l IH]; intros [|i] H; cbn in *; try lia; auto.
  apply IH. lia.
Qed.

Lemma list_set_twice {A : Type} (l : list A) (i : nat) (x y : A) :
  list_set (list_set l i x) i y = list_set l i y.
Proof.
  revert i. induction l as [|z l IH]; intros [|i]; cbn; auto.
  now rewrite IH.
Qed.

Lemma list_set_same {A : Type} (l : list A) (i : nat) (x : A) :
  nth_error l i = Some x -> list_set l i x = l.
Proof.
  revert i. induction l as [|z l IH]; intros [|i] H; cbn in *; try congruence.
  now rewrite IH.
Qed.

(** Filling the first free slot of a child array. *)
Lemma list_set_next {A : Type} (done : list A) (d x : A) (k : nat) :
  list_set (done ++ repeat d (S k)) (length done) x
  = (done ++ [x]) ++ repeat d k.
Proof.
  induction done as [|y done IH]; cbn [app length list_set]; [reflexivity |].
  now rewrite IH.
Qed.

Lemma node_eta (n : ExprNode) :
  mkExprNode (node_index n) (node_size n) (node_children n) (node_type n) = n.
Proof. now destruct n. Qed.

Lemma node_at_app (rt : ExprNode) (p q : node_ptr) :
  node_at rt (p ++ q)
  = match node_at rt p with
    | Some n => node_at n q
    | None => None
    end.
Proof.
  revert rt. induction p as [|i p IH]; intros rt; cbn; [reflexivity |].
  destruct (nth_error (node_children rt) i); [apply IH | reflexivity].
Qed.

Lemma assign_at_app (rt : ExprNode) (p q : node_ptr) (n : ExprNode) :
  assign_at rt (p ++ q) n
  = match node_at rt p with
    | Some m =>
        match assign_at m q n with
        | Some m' => assign_at rt p m'
        | None => None
        end
    | None => None
    end.
Proof.
  revert rt. induction p as [|i p IH]; intros rt; cbn.
  - destruct (assign_at rt q n); reflexivity.
  - destruct (nth_error (node_children rt) i) as [c|]; [| reflexivity].
    rewrite IH. destruct (node_at c p) as [m|]; [| reflexivity].
    destruct (assign_at m q n); reflexivity.
Qed.

(** A live pointer can be assigned through. *)
Lemma assign_at_live (rt : ExprNode) (p : node_ptr) (a n : ExprNode) :
  node_at rt p = Some a -> exists rt', assign_at rt p n = Some rt'.
Proof.
  revert rt. induction p as [|i p IH]; intros rt H; cbn in *; [eauto |].
  destruct (nth_error (node_children rt) i) as [c|]; [| discriminate].
  destruct (IH c H) as [c' ->]. eauto.
Qed.

Lemma node_at_assign (rt rt' : ExprNode) (p : node_ptr) (n : ExprNode) :
  assign_at rt p n = Some rt' -> node_at rt' p = Some n.
Proof.
  revert rt rt'. induction p as [|i p IH]; intros rt rt' H; cbn in *.
  - congruence.
  - destruct (nth_error (node_children rt) i) as [c|] eqn:E; [| discriminate].
    destruct (assign_at c p n) as [c'|] eqn:E'; [| discriminate].
    injection H as <-. cbn.
    rewrite nth_error_list_set by (apply nth_error_Some; congruence).
    eapply IH, E'.
Qed.

Lemma assign_at_twice (rt rt' : ExprNode) (p : node_ptr) (a b : ExprNode) :
  assign_at rt p a = Some rt' -> assign_at rt' p b = assign_at rt p b.
Proof.
  revert rt rt'. induction p as [|i p IH]; intros rt rt' H; cbn in *.
  - reflexivity.
  - destruct (nth_error (node_children rt) i) as [c|] eqn:E; [| discriminate].
    destruct (assign_at c p a) as [c'|] eqn:E'; [| discriminate].
    injection H as <-. cbn.
    rewrite nth_error_list_set by (apply nth_error_Some; congruence).
    rewrite (IH _ _ E').
    destruct (assign_at c p b); [| reflexivity].
    now rewrite list_set_twice.
Qed.

Lemma assign_at_same (rt : ExprNode) (p : node_ptr) (a : ExprNode) :
  node_at rt p = Some a -> assign_at rt p a = Some rt.
Proof.
  revert rt. induction p as [|i p IH]; intros rt H; cbn in *.
  - congruence.
  - destruct (nth_error (node_children rt) i) as [c|] eqn:E; [| discriminate].
    rewrite (IH _ H), (list_set_same _ _ _ E), node_eta. reflexivity.
Qed.

(** Assigning child [k] of the node at [q] is assigning the node at [q]
    with that child replaced. *)
Lemma assign_child (rt : ExprNode) (q : node_ptr) (idx n : Z)
    (ch : list ExprNode) (t : WXF_HEAD) (k : nat) (nd : ExprNode) :
  node_at rt q = Some (mkExprNode idx n ch t) -> (k < length ch)%nat ->
  exists rt',
    assign_at rt (q ++ [k]) nd = Some rt'
    /\ assign_at rt q (mkExprNode idx n (list_set ch k nd) t) = Some rt'.
Proof.
  intros Hq Hk. rewrite assign_at_app, Hq. cbn.
  destruct (nth_error ch k) eqn:E; [| apply nth_error_None in E; lia].
  destruct (assign_at_live rt q _ (mkExprNode idx n (list_set ch k nd) t) Hq)
    as [rt' Hrt'].
  exists rt'. now rewrite Hrt'.
Qed.

(** Every sub-expression has at least one token. *)
Lemma subexpr_length :
  (forall i toks nd, subexpr i toks nd -> (1 <= length toks)%nat)
  /\ (forall i toks nds, subexprs i toks nds -> (length nds <= length toks)%nat).
Proof.
  apply subexpr_subexprs_ind; intros; cbn [length]; try lia.
  rewrite length_app. lia.
Qed.

Lemma subexprs_nil_inv (i : Z) (toks : list Token.t) :
  subexprs i toks [] -> toks = [].
Proof. now inversion 1. Qed.

(** ** The loop of the tree builder on well-formed sub-expressions *)

Lemma bind_assoc {A B C : Type} (m : outcome A) (g : A -> outcome B)
    (k : B -> outcome C) :
  bind (bind m g) k = bind m (fun x => bind (g x) k).
Proof. now destruct m. Qed.

Lemma u64_small (z : Z) : 0 <= z <= MAX_ALLOC + 1 -> u64 z = z.
Proof.
  unfold MAX_ALLOC, INT64_MAX, u64. intros H. apply Z.mod_small. lia.
Qed.

Lemma token_at_app (pre : list Token.t) (tk : Token.t) (post : list Token.t) :
  token_at (pre ++ tk :: post) (Z.of_nat (length pre)) = Ok tk.
Proof.
  unfold token_at. destruct (Z.ltb_spec (Z.of_nat (length pre)) 0); [lia |].
  now rewrite Nat2Z.id, nth_error_app2, Nat.sub_diag by lia.
Qed.

Lemma child_slot_live (i : Z) (rt : ExprNode) (p : node_ptr) (es : list node_ptr)
    (c : nat) (ns : list Z) (parent : ExprNode) :
  node_at rt p = Some parent -> (c < length (node_children parent))%nat ->
  child_slot (mkBuilder i rt (p :: es) (Z.of_nat c :: ns)) = Ok (p ++ [c]).
Proof.
  intros Hp Hc. unfold child_slot. cbn [node_stack expr_stack b_root].
  rewrite Hp, Nat2Z.id.
  destruct (nth_error (node_children parent) c) eqn:E; [reflexivity |].
  apply nth_error_None in E. lia.
Qed.

Lemma store_child (rt : ExprNode) (p : node_ptr) (c : nat) (parent nd : ExprNode) :
  node_at rt p = Some parent -> (c < length (node_children parent))%nat ->
  exists rt', assign_at rt (p ++ [c]) nd = Some rt'
              /\ store rt (p ++ [c]) nd = Ok rt'.
Proof.
  intros Hp Hc. rewrite <- (node_eta parent) in Hp.
  destruct (assign_child rt p _ _ _ _ c nd Hp Hc) as (rt' & H & _).
  exists rt'. unfold store. now rewrite H.
Qed.

Section Builder.

Variable heap : Z -> bool.
Variable tokens : list Token.t.

(** The allocator serves a child array of as many nodes as there are
    tokens. *)
Hypothesis heap_serves : serves heap (node_bytes (Z.of_nat (length tokens))).

Lemma tokens_small : Z.of_nat (length tokens) <= MAX_ALLOC.
Proof.
  pose proof (serves_bound heap _ heap_serves) as H.
  unfold node_bytes, PTRDIFF_MAX, MAX_ALLOC, INT64_MAX in *. lia.
Qed.

Lemma slots_served (n : nat) :
  (n <= length tokens)%nat -> served heap (node_bytes (Z.of_nat n)) = true.
Proof. intros H. apply heap_serves. unfold node_bytes. lia. Qed.

Lemma loop_next (f : nat) (b : builder) :
  b_pos b < Z.of_nat (length tokens) ->
  loop heap tokens (S f) b = (b' <- loop_body heap tokens b ;; loop heap tokens f b').
Proof.
  intros H. cbn [loop].
  destruct (Z.ltb_spec (b_pos b) (Z.of_nat (length tokens))); [reflexivity | lia].
Qed.

Lemma loop_end (f : nat) (b : builder) :
  Z.of_nat (length tokens) <= b_pos b -> loop heap tokens f b = Ok b.
Proof.
  intros H. destruct f; cbn [loop];
    destruct (Z.ltb_spec (b_pos b) (Z.of_nat (length tokens)));
    try reflexivity; lia.
Qed.

Lemma pos_in_tokens (pre toks post : list Token.t) :
  tokens = pre ++ toks ++ post ->
  0 <= Z.of_nat (length pre) + Z.of_nat (length toks) <= MAX_ALLOC.
Proof.
  intros E. pose proof tokens_small as H. rewrite E, !length_app in H. lia.
Qed.

Lemma sim_leaf (i : Z) (tk : Token.t) :
  is_leaf (Token.type tk) = true ->
  sub_sim heap tokens i [tk] (mkExprNode i 0 [] (Token.type tk)).
Proof.
  intros Hleaf pre post rt p es c ns parent Etok -> Hp Hc.
  destruct (store_child rt p c parent
              (mkExprNode (Z.of_nat (length pre)) 0 [] (Token.type tk)) Hp Hc)
    as (rt' & Hassign & Hstore).
  exists rt', 1%nat. split; [exact Hassign |]. split; [cbn; lia |].
  intros f. pose proof (pos_in_tokens _ _ _ Etok) as Hpos. cbn [length] in Hpos.
  change (1 + f)%nat with (S f).
  rewrite loop_next by (cbn [b_pos]; rewrite Etok, !length_app; cbn; lia).
  unfold loop_body. cbn [b_pos b_root expr_stack node_stack].
  rewrite Etok at 1. cbn [app]. rewrite token_at_app. cbn [bind].
  unfold is_leaf in Hleaf. apply andb_true_iff in Hleaf as [H1 H2].
  apply negb_true_iff in H1, H2. rewrite H1, H2.
  rewrite (child_slot_live _ _ _ _ _ _ _ Hp Hc). cbn [bind].
  unfold new_node. change (0 >? MAX_ALLOC) with false. cbn [Z.gtb Z.compare bind].
  rewrite Hstore. cbn [bind]. rewrite bind_assoc.
  destruct (move_to_next_node rt' (p :: es) (Z.of_nat c :: ns))
    as [[es' ns'] | | | |]; cbn [bind]; try reflexivity.
  rewrite u64_small by lia. cbn [length]. reflexivity.
Qed.

Lemma sim_nil (i : Z) : subs_sim heap tokens i [] [].
Proof.
  intros pre post rt q es0 ns0 idx n t done Etok -> Hn Hq Hlt Hle.
  exists rt, 0%nat. cbn [length]. rewrite !Nat.add_0_r, Nat.sub_0_r, app_nil_r.
  split; [now apply assign_at_same |]. split; [lia |].
  intros f. cbn [Nat.add].
  destruct (Nat.ltb_spec (length done) n); [| lia].
  cbn [bind]. now rewrite Z.add_0_r.
Qed.

Lemma sim_cons (i : Z) (toks toks' : list Token.t) (nd : ExprNode)
    (nds : list ExprNode) :
  sub_sim heap tokens i toks nd ->
  subexprs (i + Z.of_nat (length toks)) toks' nds ->
  subs_sim heap tokens (i + Z.of_nat (length toks)) toks' nds ->
  subs_sim heap tokens i (toks ++ toks') (nd :: nds).
Proof.
  intros IHnd Hsub IHnds pre post rt q es0 ns0 idx n t done Etok -> Hn Hq Hlt Hle.
  cbn [length] in Hle.
  set (k := length done) in *.
  set (ch := done ++ repeat default_node (n - k)) in *.
  assert (Hch : length ch = n)
    by (subst ch; rewrite length_app, repeat_length; lia).
  rewrite <- app_assoc in Etok.
  (* the first child, in slot [k] *)
  destruct (IHnd pre (toks' ++ post) rt q es0 k ns0 _ Etok eq_refl Hq)
    as (rt1 & m1 & Hassign1 & Hm1 & Hloop1); [cbn; lia |].
  destruct (assign_child rt q idx (Z.of_nat n) ch t k nd Hq ltac:(lia))
    as (rt1' & Hc1 & Hc2).
  rewrite Hassign1 in Hc1. injection Hc1 as <-.
  assert (Hset : list_set ch k nd
                 = (done ++ [nd]) ++ repeat default_node (n - S k)).
  { subst ch. replace (n - k)%nat with (S (n - S k)) by lia.
    apply list_set_next. }
  rewrite Hset in Hc2.
  pose proof (node_at_assign _ _ _ _ Hc2) as Hq1.
  assert (Hmove : move_to_next_node rt1 (q :: es0) (Z.of_nat k :: ns0)
                  = if (S k <? n)%nat
                    then Ok (q :: es0, Z.of_nat (S k) :: ns0)
                    else move_to_next_node rt1 es0 ns0).
  { cbn [move_to_next_node]. rewrite Hq1. cbn [node_size].
    rewrite u64_small by lia.
    destruct (Nat.ltb_spec (S k) n), (Z.geb_spec (Z.of_nat k + 1) (Z.of_nat n));
      try lia; [| reflexivity].
    do 2 f_equal. f_equal. lia. }
  destruct (Nat.ltb_spec (S k) n) as [Hmore|Hlast].
  - (* more slots: the other children follow *)
    destruct (IHnds (pre ++ toks) post rt1 q es0 ns0 idx n t (done ++ [nd]))
      as (rt' & m2 & Hassign2 & Hm2 & Hloop2).
    + now rewrite <- app_assoc.
    + rewrite length_app. lia.
    + exact Hn.
    + rewrite length_app. cbn [length]. fold k.
      replace (n - (k + 1))%nat with (n - S k)%nat by lia. exact Hq1.
    + rewrite length_app. cbn [length]. fold k. lia.
    + rewrite length_app. cbn [length]. fold k. lia.
    + rewrite length_app in Hassign2, Hloop2. cbn [length] in Hassign2, Hloop2.
      fold k in Hassign2, Hloop2.
      exists rt', (m1 + m2)%nat. split; [| split].
      * rewrite (assign_at_twice _ _ _ _ _ Hc2) in Hassign2.
        fold k. cbn [length].
        replace ((done ++ nd :: nds)
                 ++ repeat default_node (n - k - S (length nds)))
          with (((done ++ [nd]) ++ nds)
                ++ repeat default_node (n - (k + 1) - length nds));
          [exact Hassign2 |].
        rewrite <- (app_assoc done [nd] nds). cbn [app].
        do 2 f_equal. lia.
      * rewrite length_app. lia.
      * intros f. rewrite <- Nat.add_assoc, Hloop1, Hmove. cbn [bind].
        replace (Z.of_nat (S k)) with (Z.of_nat (k + 1)) by lia.
        rewrite Hloop2.
        replace (k + 1 + length nds)%nat with (k + S (length nds))%nat by lia.
        replace (Z.of_nat (length pre) + Z.of_nat (length (toks ++ toks')))
          with (Z.of_nat (length pre) + Z.of_nat (length toks)
                + Z.of_nat (length toks'))
          by (rewrite length_app; lia).
        reflexivity.
  - (* the last slot: the frame is popped *)
    assert (nds = []) as -> by (destruct nds; [reflexivity | cbn in Hle; lia]).
    apply subexprs_nil_inv in Hsub as ->.
    exists rt1, m1. rewrite app_nil_r. split; [| split].
    + fold k. cbn [length].
      replace (n - k - 1)%nat with (n - S k)%nat by lia. exact Hc2.
    + exact Hm1.
    + intros f. rewrite Hloop1, Hmove. cbn [length].
      destruct (Nat.ltb_spec (k + 1) n); [lia | reflexivity].
Qed.

Lemma sim_composite (i idx : Z) (t : WXF_HEAD) (front toks : list Token.t)
    (nds : list ExprNode) :
  nds <> [] ->
  (1 <= length front)%nat ->
  opens heap tokens i front idx (length nds) t ->
  subexprs (i + Z.of_nat (length front)) toks nds ->
  subs_sim heap tokens (i + Z.of_nat (length front)) toks nds ->
  sub_sim heap tokens i (front ++ toks) (mkExprNode idx (Z.of_nat (length nds)) nds t).
Proof.
  intros Hne Hfront Hopen Hsub IH pre post rt p es c ns parent Etok -> Hp Hc.
  set (n := length nds) in *.
  assert (Hn0 : (0 < n)%nat) by (subst n; destruct nds; [congruence | cbn; lia]).
  assert (Hle : (n <= length tokens)%nat).
  { pose proof (proj2 subexpr_length _ _ _ Hsub) as Hlen. fold n in Hlen.
    rewrite Etok, !length_app. lia. }
  assert (Hn : Z.of_nat n <= MAX_ALLOC) by (pose proof tokens_small; lia).
  pose proof (slots_served n Hle) as Hsv.
  destruct (store_child rt p c parent
              (mkExprNode idx (Z.of_nat n) (repeat default_node n) t) Hp Hc)
    as (rt1 & Hassign1 & _).
  rewrite <- app_assoc in Etok.
  destruct (IH (pre ++ front) post rt1 (p ++ [c]) (p :: es) (Z.of_nat c :: ns)
              idx n t []) as (rt' & m & Hassign & Hm & Hloop).
  - now rewrite <- app_assoc.
  - rewrite length_app. lia.
  - exact Hn.
  - cbn [app length]. rewrite Nat.sub_0_r. eapply node_at_assign, Hassign1.
  - cbn [length]. exact Hn0.
  - cbn [length]. fold n. lia.
  - cbn [app length] in Hassign, Hloop. fold n in Hassign, Hloop.
    replace (n - 0 - n)%nat with 0%nat in Hassign by lia.
    cbn [repeat] in Hassign. rewrite app_nil_r in Hassign.
    rewrite (assign_at_twice _ _ _ _ _ Hassign1) in Hassign.
    exists rt', (S m). split; [exact Hassign |]. split.
    + rewrite length_app.
      lia.
    + intros f. cbn [Nat.add].
      rewrite (Hopen pre (toks ++ post) rt rt1 p es c ns parent (m + f)%nat
                 Etok eq_refl Hn0 Hn Hsv Hp Hc Hassign1).
      rewrite Hloop. change (0 + n)%nat with n.
      destruct (Nat.ltb_spec n n); [lia |].
      replace (Z.of_nat (length pre) + Z.of_nat (length (front ++ toks)))
        with (Z.of_nat (length pre) + Z.of_nat (length front)
              + Z.of_nat (length toks))
        by (rewrite length_app; lia).
      reflexivity.
Qed.

Lemma new_node_slots (idx : Z) (n : nat) (t : WXF_HEAD) :
  (0 < n)%nat -> Z.of_nat n <= MAX_ALLOC ->
  served heap (node_bytes (Z.of_nat n)) = true ->
  new_node heap idx (Z.of_nat n) t
  = Ok (mkExprNode idx (Z.of_nat n) (repeat default_node n) t).
Proof.
  intros H0 Hn Hsv. unfold new_node.
  destruct (Z.gtb_spec (Z.of_nat n) MAX_ALLOC); [lia |].
  destruct (Z.gtb_spec (Z.of_nat n) 0); [| lia].
  now rewrite Hsv, Nat2Z.id.
Qed.

Lemma opens_func (i : Z) (tk hd : Token.t) (n : nat) :
  Token.type tk = func -> Token.length tk = Z.of_nat n ->
  opens heap tokens i [tk; hd] (i + 1) n func.
Proof.
  intros Hty Hlen pre post rt rt1 p es c ns parent f Etok -> H0 Hn Hsv Hp Hc Hassign.
  pose proof (pos_in_tokens _ _ _ Etok) as Hpos. cbn [length] in Hpos.
  rewrite loop_next by (cbn [b_pos]; rewrite Etok, !length_app; cbn; lia).
  unfold loop_body. cbn [b_pos b_root expr_stack node_stack].
  rewrite Etok at 1. cbn [app]. rewrite token_at_app. cbn [bind].
  rewrite Hty. cbn [is_func_or_assoc WXF_HEAD_eqb orb].
  rewrite (child_slot_live _ _ _ _ _ _ _ Hp Hc). cbn [bind].
  rewrite Hlen, !u64_small by lia.
  rewrite new_node_slots by assumption. cbn [bind].
  unfold store. rewrite Hassign. cbn [bind].
  rewrite u64_small by lia.
  do 2 f_equal. cbn [length]. lia.
Qed.

Lemma opens_assoc (i : Z) (tk : Token.t) (n : nat) :
  Token.type tk = association -> Token.length tk = Z.of_nat n ->
  opens heap tokens i [tk] i n association.
Proof.
  intros Hty Hlen pre post rt rt1 p es c ns parent f Etok -> H0 Hn Hsv Hp Hc Hassign.
  pose proof (pos_in_tokens _ _ _ Etok) as Hpos. cbn [length] in Hpos.
  rewrite loop_next by (cbn [b_pos]; rewrite Etok, !length_app; cbn; lia).
  unfold loop_body. cbn [b_pos b_root expr_stack node_stack].
  rewrite Etok at 1. cbn [app]. rewrite token_at_app. cbn [bind].
  rewrite Hty. cbn [is_func_or_assoc WXF_HEAD_eqb orb].
  rewrite (child_slot_live _ _ _ _ _ _ _ Hp Hc). cbn [bind].
  rewrite Hlen.
  rewrite new_node_slots by assumption. cbn [bind].
  unfold store. rewrite Hassign. cbn [bind].
  rewrite u64_small by lia. reflexivity.
Qed.

Lemma opens_rule (i : Z) (tk : Token.t) :
  is_rule (Token.type tk) = true ->
  opens heap tokens i [tk] i 2 (Token.type tk).
Proof.
  intros Hty pre post rt rt1 p es c ns parent f Etok -> H0 Hn Hsv Hp Hc Hassign.
  pose proof (pos_in_tokens _ _ _ Etok) as Hpos. cbn [length] in Hpos.
  rewrite loop_next by (cbn [b_pos]; rewrite Etok, !length_app; cbn; lia).
  unfold loop_body. cbn [b_pos b_root expr_stack node_stack].
  rewrite Etok at 1. cbn [app]. rewrite token_at_app. cbn [bind].
  assert (Hfa : is_func_or_assoc (Token.type tk) = false)
    by (destruct (Token.type tk); try discriminate; reflexivity).
  rewrite Hfa, Hty.
  rewrite (child_slot_live _ _ _ _ _ _ _ Hp Hc). cbn [bind].
  change 2 with (Z.of_nat 2) at 1.
  rewrite new_node_slots by assumption. cbn [bind].
  unfold store. rewrite Hassign. cbn [bind].
  rewrite u64_small by lia. reflexivity.
Qed.

(** The loop builds the node of every well-formed sub-expression. *)
Lemma loop_builds :
  (forall i toks nd, subexpr i toks nd -> sub_sim heap tokens i toks nd)
  /\ (forall i toks nds, subexprs i toks nds -> subs_sim heap tokens i toks nds).
Proof.
  apply subexpr_subexprs_ind.
  - intros i tk Hleaf. now apply sim_leaf.
  - intros i tk hd toks nds Hty Hlen Hne Hsub IH.
    apply (sim_composite i (i + 1) func [tk; hd] toks nds);
      [exact Hne | cbn; lia | now apply opens_func | exact Hsub | exact IH].
  - intros i tk toks nds Hty Hlen Hne Hsub IH.
    apply (sim_composite i i association [tk] toks nds);
      [exact Hne | cbn; lia | now apply opens_assoc | exact Hsub | exact IH].
  - intros i tk toks nds Hty Hlen Hsub IH.
    change 2 with (Z.of_nat 2). rewrite <- Hlen.
    apply (sim_composite i i (Token.type tk) [tk] toks nds);
      [destruct nds; [discriminate | congruence] | cbn; lia
      | rewrite Hlen; now apply opens_rule | exact Hsub | exact IH].
  - intros i. apply sim_nil.
  - intros i toks toks' nd nds _ IHnd Hsub IHnds. now apply sim_cons.
Qed.

End Builder.

(** ** Arity closure *)

(** An iteration that starts with no frame on the stacks is undefined. *)
Lemma loop_body_needs_frame (heap : Z -> bool) (tokens : list Token.t)
    (b b' : builder) :
  loop_body heap tokens b = Ok b' -> node_stack b <> [].
Proof.
  intros H E. unfold loop_body in H.
  destruct (token_at tokens (b_pos b)) as [tk| | | |]; try discriminate.
  cbn [bind] in H. unfold child_slot in H. rewrite E in H.
  destruct (is_func_or_assoc (Token.type tk)); [discriminate |].
  destruct (is_rule (Token.type tk)); discriminate.
Qed.

(** A run of the loop that returns is a sequence of iterations, each of
    which started before the end of the tokens with a frame on the stacks. *)
Lemma loop_trace (heap : Z -> bool) (tokens : list Token.t) (fuel : nat) :
  forall b final : builder,
    loop heap tokens fuel b = Ok final ->
    exists m : nat,
      steps heap tokens m b = Ok final
      /\ Z.of_nat (length tokens) <= b_pos final
      /\ forall j : nat, (j < m)%nat ->
           exists bj, steps heap tokens j b = Ok bj
                      /\ b_pos bj < Z.of_nat (length tokens)
                      /\ node_stack bj <> [].
Proof.
  induction fuel as [|fuel IH]; intros b final H; cbn [loop] in H;
    destruct (Z.ltb_spec (b_pos b) (Z.of_nat (length tokens))) as [Hlt|Hge];
    try discriminate.
  1, 3: injection H as <-; exists 0%nat; repeat split; [assumption | lia].
  destruct (loop_body heap tokens b) as [b'| | | |] eqn:Ebody; try discriminate.
  cbn [bind] in H. destruct (IH b' final H) as (m & Hsteps & Hend & Hbefore).
  exists (S m). cbn [steps]. rewrite Ebody. cbn [bind].
  split; [exact Hsteps |]. split; [exact Hend |].
  intros [|j] Hj.
  - exists b. repeat split; [assumption |].
    eapply loop_body_needs_frame, Ebody.
  - cbn [steps]. rewrite Ebody. cbn [bind]. apply Hbefore. lia.
Qed.

(** C3 (amended). Let the token list be a function token declaring
    [n >= 1] children, its head token, and [k <= n] well-formed
    sub-expressions in which every function and association declares at
    least one child, the allocator serving a child array of as many nodes
    as there are tokens.
    - When the allocator refuses the [n] slots of the root (as it does from
      [2^58] slots on, whatever memory there is), the constructor of the
      root throws [std::bad_alloc]: [MakeExprTree] does not return and
      writes nothing.
    - Otherwise, when [k = n], [MakeExprTree] returns the tree whose root
      has the index of the head token, the size [n] and exactly [n]
      children, the nodes of the [n] sub-expressions in order; the loop ends
      on the last token with both stacks empty, and every iteration before
      started with a frame still open.
    - Otherwise, when [k < n], the tokens are exhausted with the root frame
      still open: [MakeExprTree] writes a diagnostic to [std::cerr] and
      returns a tree whose root has been reset by [clear()] (index 0, size
      0, no children, type i8); the return value carries no error. *)
Theorem MakeExprTree_arity_closure (heap : Z -> bool) (tk hd : Token.t)
    (toks : list Token.t) (nds : list ExprNode) (n : nat) (buf : list Z)
    (pos size : Z) (cerr : list diag) :
  let tokens := tk :: hd :: toks in
  let start := mkBuilder 2 (mkExprNode 1 (Z.of_nat n) (repeat default_node n) func)
                 [[]] [0] in
  Token.type tk = func ->
  Token.length tk = Z.of_nat n ->
  (1 <= n)%nat ->
  subexprs 2 toks nds ->
  (length nds <= n)%nat ->
  serves heap (node_bytes (Z.of_nat (length tokens))) ->
  if negb (served heap (node_bytes (Z.of_nat n))) then
    MakeExprTree heap (Parser.mk buf pos size 0 tokens) cerr = BadAlloc
  else if (length nds =? n)%nat then
    MakeExprTree heap (Parser.mk buf pos size 0 tokens) cerr
    = Ok (mkExprTree tokens (mkExprNode 1 (Z.of_nat n) nds func), cerr)
    /\ exists m : nat,
         steps heap tokens m start
         = Ok (mkBuilder (Z.of_nat (length tokens))
                 (mkExprNode 1 (Z.of_nat n) nds func) [] [])
         /\ forall j : nat, (j < m)%nat ->
              exists bj, steps heap tokens j start = Ok bj
                         /\ b_pos bj < Z.of_nat (length tokens)
                         /\ node_stack bj <> []
  else
    MakeExprTree heap (Parser.mk buf pos size 0 tokens) cerr
    = Ok (mkExprTree tokens default_node, cerr ++ [NotAllNodesParsed]).
Proof.
  intros tokens start Hty Hlen Hn Hsub Hk Hserves.
  assert (Hroot : find_root heap tokens
                  = (nd <- new_node heap 1 (Z.of_nat n) func ;; Ok (nd, Some 2))).
  { unfold find_root. subst tokens. cbn [token_at Z.ltb Z.compare
      Z.to_nat nth_error bind].
    rewrite Hty. cbn [WXF_HEAD_eqb]. now rewrite Hlen. }
  destruct (served heap (node_bytes (Z.of_nat n))) eqn:Hsv; cbn [negb].
  2: { unfold MakeExprTree. cbn [Parser.err Parser.tokens Z.eqb negb].
       fold tokens. unfold run_loop. rewrite Hroot. unfold new_node.
       rewrite Hsv.
       destruct (Z.of_nat n >? MAX_ALLOC); [reflexivity |].
       destruct (Z.gtb_spec (Z.of_nat n) 0); [reflexivity | lia]. }
  assert (Hmax : Z.of_nat n <= MAX_ALLOC).
  { pose proof (served_le heap _ Hsv) as H.
    unfold node_bytes, PTRDIFF_MAX, MAX_ALLOC, INT64_MAX in *. lia. }
  destruct (proj2 (loop_builds heap tokens Hserves) 2 toks nds Hsub
              [tk; hd] [] (mkExprNode 1 (Z.of_nat n) (repeat default_node n) func)
              [] [] [] 1 n func [])
    as (rt' & m & Hassign & Hm & Hloop).
  { subst tokens. now rewrite app_nil_r. }
  { reflexivity. }
  { exact Hmax. }
  { cbn [node_at app length]. now rewrite Nat.sub_0_r. }
  { cbn [length]. lia. }
  { cbn [length]. lia. }
  cbn [assign_at app length] in Hassign, Hloop.
  injection Hassign as <-.
  rewrite Nat.sub_0_r in Hloop. change (0 + length nds)%nat with (length nds) in Hloop.
  change (Z.of_nat 0) with 0 in Hloop.
  assert (Hrun : run_loop heap tokens = loop heap tokens (length tokens) start).
  { unfold run_loop. rewrite Hroot, new_node_slots by (assumption || lia).
    reflexivity. }
  assert (Hfuel : length tokens = (m + (length tokens - m))%nat)
    by (subst tokens; cbn [length]; lia).
  assert (Hpos : 2 + Z.of_nat (length toks) = Z.of_nat (length tokens))
    by (subst tokens; cbn [length]; lia).
  unfold MakeExprTree. cbn [Parser.err Parser.tokens Z.eqb negb].
  fold tokens. rewrite Hrun.
  destruct (Nat.eqb_spec (length nds) n) as [Heq|Hneq].
  - assert (Hfinal : loop heap tokens (length tokens) start
                     = Ok (mkBuilder (Z.of_nat (length tokens))
                             (mkExprNode 1 (Z.of_nat n) nds func) [] [])).
    { replace (n - length nds)%nat with 0%nat in Hloop by lia.
      cbn [repeat] in Hloop. rewrite app_nil_r in Hloop.
      specialize (Hloop (length tokens - m)%nat). rewrite <- Hfuel in Hloop.
      unfold start. etransitivity; [exact Hloop |].
      destruct (Nat.ltb_spec (length nds) n); [lia |].
      cbn [move_to_next_node bind]. rewrite loop_end by (cbn [b_pos]; lia).
      now rewrite Hpos. }
    rewrite Hfinal. cbn [bind node_stack b_root]. split; [reflexivity |].
    destruct (loop_trace heap tokens _ _ _ Hfinal) as (m' & Hsteps & _ & Hbefore).
    exists m'. split; [exact Hsteps | exact Hbefore].
  - specialize (Hloop (length tokens - m)%nat). rewrite <- Hfuel in Hloop.
    unfold start.
    replace (loop heap tokens (length tokens)
               (mkBuilder 2 (mkExprNode 1 (Z.of_nat n) (repeat default_node n) func)
                  [[]] [0]))
      with (loop heap tokens (length tokens)
              (mkBuilder 2 (mkExprNode 1 (Z.of_nat n) (repeat default_node n) func)
                 [([] : node_ptr)] [0])) by reflexivity.
    rewrite Hloop.
    destruct (Nat.ltb_spec (length nds) n); [| lia].
    cbn [bind]. rewrite loop_end by (cbn [b_pos]; lia).
    cbn [bind node_stack b_root expr_stack rev app clear_all clear_at node_at
         store assign_at].
    reflexivity.
Qed.

Lemma MakeExprTree_arity_closure_witness :
  let buf := [56; 58; 102; 2; 115; 1; 102; 67; 1; 83; 1; 97] in
  let tk := Token.make func 2 4 in
  let hd := Token.make symbol 1 6 in
  let toks := [Token.make i8 1 8; Token.make string 1 11] in
  let nds := [mkExprNode 2 0 [] i8; mkExprNode 3 0 [] string] in
  subexprs 2 toks nds
  /\ serves small_heap (node_bytes 4)
  /\ MakeExprTree small_heap (Parser.mk buf 12 12 0 (tk :: hd :: toks)) []
     = Ok (mkExprTree (tk :: hd :: toks) (mkExprNode 1 2 nds func), []).
Proof.
  intros buf tk hd toks nds.
  assert (Hsub : subexprs 2 toks nds).
  { apply (subs_cons 2 [Token.make i8 1 8] [Token.make string 1 11]).
    - apply (sub_leaf 2 (Token.make i8 1 8)). reflexivity.
    - apply (subs_cons 3 [Token.make string 1 11] []).
      + apply (sub_leaf 3 (Token.make string 1 11)). reflexivity.
      + apply subs_nil. }
  assert (Hheap : serves small_heap (node_bytes 4))
    by (apply serves_small_heap; vm_compute; discriminate).
  split; [exact Hsub |]. split; [exact Hheap |].
  pose proof (MakeExprTree_arity_closure small_heap tk hd toks nds 2 buf 12 12 [])
    as H.
  cbv zeta in H.
  specialize (H eq_refl eq_refl ltac:(lia) Hsub ltac:(simpl; lia) Hheap).
  exact (proj1 H).
Defined.

(** A function that declares [2^60] children, and one that declares
    [2^40] children to an allocator that has one mebibyte to give, in
    buffers of 15 and 12 bytes: the constructor of the root throws, and
    [MakeExprTree] returns no tree and writes nothing. *)
Lemma MakeExprTree_root_refused :
  MakeExprTree_bytes small_heap 2
    [56; 58; 102; 128; 128; 128; 128; 128; 128; 128; 128; 16; 115; 1; 102] []
  = BadAlloc
  /\ MakeExprTree_bytes small_heap 2
       [56; 58; 102; 128; 128; 128; 128; 128; 32; 115; 1; 102] []
     = BadAlloc.
Proof. split; reflexivity. Qed.

(** C3 (counterexamples), on the tokens that [Parser::parse] produces.
    - [f[g[]]] is a function with one child, the well-formed sub-expression
      [g[]]: no frame of arity 0 is ever popped, both frames are left on the
      stack, and the clean-up clears the child through a pointer into the
      child array that clearing the root has just destroyed.
    - [f[]] alone: the root frame is never popped, and the root is reset.
    - [f] declaring one child and no child following: the stack is not
      empty when the tokens are exhausted, and a tree is returned, with a
      diagnostic on [std::cerr] but no error.
    - [f[1]] followed by one more token: the stack is empty when that
      token is reached, and [node_stack.back()] is called on it. *)
Lemma MakeExprTree_arity_counterexamples :
  MakeExprTree_bytes small_heap 4 [56; 58; 102; 1; 115; 1; 102; 102; 0; 115; 1; 103] []
  = Undefined Dangling
  /\ MakeExprTree_bytes small_heap 4 [56; 58; 102; 0; 115; 1; 102] []
     = Ok (mkExprTree [Token.make func 0 4; Token.make symbol 1 6] default_node,
           [NotAllNodesParsed])
  /\ MakeExprTree_bytes small_heap 4 [56; 58; 102; 1; 115; 1; 102] []
     = Ok (mkExprTree [Token.make func 1 4; Token.make symbol 1 6] default_node,
           [NotAllNodesParsed])
  /\ MakeExprTree_bytes small_heap 4 [56; 58; 102; 1; 115; 1; 102; 67; 1; 67; 2] []
     = Undefined EmptyBack.
Proof. repeat split. Qed.

(** ** A run of the token loop that does not end

    A string token whose declared length is [2^64 - 11] brings the cursor
    back, modulo [2^64], to the tag it has just read: the loop emits the
    same token for ever. *)
Lemma parse_loop_wraps_for_ever (heap : Z -> bool) (fuel : nat) :
  forall (tokens : list Token.t) (cerr : list diag),
    Parser.parse_loop heap fuel
      (Parser.mk [56; 58; 83; 245; 255; 255; 255; 255; 255; 255; 255; 255; 1; 0]
         2 14 0 tokens) cerr
    = OutOfFuel.
Proof.
  induction fuel as [|fuel IH]; intros tokens cerr; [reflexivity |].
  cbn [Parser.parse_loop Parser.pos Parser.size Z.ltb Z.compare Pos.compare
       Pos.compare_cont].
  change (Parser.byte_at _ _) with (Ok 83 : outcome Z). cbn [bind].
  exact (IH (tokens ++ [Token.make string (2 ^ 64 - 11) 13]) cerr).
Qed.

(** * Further properties *)

(** ** What [read_varint] can return *)

Lemma lor_u64 (a b : Z) :
  0 <= a < 2 ^ 64 -> 0 <= b < 2 ^ 64 -> 0 <= Z.lor a b < 2 ^ 64.
Proof.
  intros Ha Hb.
  assert (Hn : 0 <= Z.lor a b) by (apply Z.lor_nonneg; lia).
  split; [exact Hn |].
  destruct (Z.eq_dec (Z.lor a b) 0) as [-> | Hz]; [lia |].
  apply Z.log2_lt_pow2; [lia |].
  rewrite Z.log2_lor by lia.
  assert (La : Z.log2 a < 64).
  { destruct (Z.eq_dec a 0) as [-> | ]; [cbn; lia |].
    apply Z.log2_lt_pow2; lia. }
  assert (Lb : Z.log2 b < 64).
  { destruct (Z.eq_dec b 0) as [-> | ]; [cbn; lia |].
    apply Z.log2_lt_pow2; lia. }
  lia.
Qed.

Lemma read_groups_bounds (buf : list Z) (shifts : list Z) :
  forall ptr result : Z,
    shifts <> [] -> 0 <= ptr < Z.of_nat (length buf) -> 0 <= result < 2 ^ 64 ->
    exists r ptr',
      Parser.read_groups buf (Z.of_nat (length buf)) shifts ptr result = Ok (r, ptr')
      /\ ptr < ptr' <= Z.of_nat (length buf)
      /\ ptr' <= ptr + Z.of_nat (length shifts)
      /\ 0 <= r < 2 ^ 64.
Proof.
  induction shifts as [|s rest IH]; intros ptr result Hne Hptr Hres; [congruence |].
  cbn [Parser.read_groups].
  destruct (byte_at_in_bounds buf ptr Hptr) as [b ->]. cbn [bind].
  pose proof (lor_u64 result (u64 (Z.shiftl (Z.land b 127) s)) Hres
                (u64_range _)) as Hlor.
  cbn [length]. rewrite Nat2Z.inj_succ.
  destruct rest as [|s' rest]; [eexists _, _; split; [reflexivity | lia] |].
  destruct (Z.land b 128 =? 0); cbn [orb];
    [eexists _, _; split; [reflexivity | lia] |].
  destruct (Z.geb_spec (ptr + 1) (Z.of_nat (length buf)));
    [eexists _, _; split; [reflexivity | lia] |].
  destruct (IH (ptr + 1) (Z.lor result (u64 (Z.shiftl (Z.land b 127) s))))
    as (r & ptr' & -> & Hb & Hc & Hr); [congruence | lia | lia |].
  eexists _, _; split; [reflexivity | lia].
Qed.

(** X1. On a parser whose cursor is inside its buffer, [read_varint] always
    returns: it changes nothing but the cursor, which it advances by at most
    10 bytes and never past the end of the buffer (it does not move when the
    cursor is already at the end, and the value is then 0), and the value is
    below [2 ^ 64] whatever the bytes are. *)
Theorem read_varint_bounds (p : Parser.t) :
  in_buffer p ->
  exists r pos',
    Parser.read_varint p = Ok (r, Parser.set_pos p pos')
    /\ Parser.pos p <= pos' <= Parser.size p
    /\ pos' <= Parser.pos p + 10
    /\ 0 <= r < 2 ^ 64
    /\ (Parser.pos p = Parser.size p -> r = 0 /\ pos' = Parser.pos p).
Proof.
  intros [Hsz Hpos]. unfold Parser.read_varint.
  destruct (Z.geb_spec (Parser.pos p) (Parser.size p)).
  - exists 0, (Parser.pos p). split; [now destruct p |].
    repeat split; lia.
  - rewrite Hsz.
    destruct (read_groups_bounds (Parser.buffer p) Parser.varint_shifts
                (Parser.pos p) 0) as (r & ptr' & -> & Hb & Hc & Hr);
      [discriminate | lia | lia |].
    exists r, ptr'. cbn [bind]. split; [reflexivity |].
    cbn [length Parser.varint_shifts] in Hc. repeat split; lia.
Qed.

Lemma read_varint_bounds_witness :
  let p := Parser.mk [56; 58; 83; 255; 255] 3 5 0 [] in
  in_buffer p /\
  exists r pos',
    Parser.read_varint p = Ok (r, Parser.set_pos p pos')
    /\ Parser.pos p <= pos' <= Parser.size p
    /\ pos' <= Parser.pos p + 10
    /\ 0 <= r < 2 ^ 64
    /\ (Parser.pos p = Parser.size p -> r = 0 /\ pos' = Parser.pos p).
Proof.
  intros p.
  assert (Hin : in_buffer p) by (split; cbn; [reflexivity | lia]).
  split; [exact Hin |]. exact (read_varint_bounds p Hin).
Defined.

(** ** A tag on the last byte of the buffer *)

(** X2. When the cursor is on the last byte of the buffer, one iteration of
    the token loop reads that byte as a tag, finds the end of the buffer and
    leaves the loop: no token is emitted for it, whichever byte it is (the
    tag of a rule, or no tag at all), [err] is not set and nothing is
    written to [std::cerr]. *)
Theorem parse_loop_drops_last_byte (heap : Z -> bool) (fuel : nat) (p : Parser.t)
    (cerr : list diag) :
  Parser.size p = Z.of_nat (length (Parser.buffer p)) ->
  Parser.size p < 2 ^ 64 ->
  0 <= Parser.pos p ->
  Parser.pos p + 1 = Parser.size p ->
  Parser.parse_loop heap (S fuel) p cerr = Ok (Parser.set_pos p (Parser.size p), cerr).
Proof.
  intros Hsz Hsmall Hpos Hlast. cbn [Parser.parse_loop].
  destruct (Z.ltb_spec (Parser.pos p) (Parser.size p)); [| lia].
  destruct (byte_at_in_bounds (Parser.buffer p) (Parser.pos p)) as [b ->]; [lia |].
  cbn [bind Parser.set_pos Parser.pos Parser.size].
  assert (Hu : u64 (Parser.pos p + 1) = Parser.size p)
    by (unfold u64; rewrite Z.mod_small; lia).
  rewrite Hu, Z.eqb_refl. reflexivity.
Qed.

Lemma parse_loop_drops_last_byte_witness :
  let p := Parser.mk [56; 58; 67; 1; 45] 4 5 0 [Token.make i8 1 3] in
  (Parser.size p = Z.of_nat (length (Parser.buffer p))
   /\ Parser.size p < 2 ^ 64 /\ 0 <= Parser.pos p
   /\ Parser.pos p + 1 = Parser.size p)
  /\ Parser.parse_loop small_heap 1 p [] = Ok (Parser.set_pos p 5, []).
Proof.
  intros p.
  assert (H1 : Parser.size p = Z.of_nat (length (Parser.buffer p))) by reflexivity.
  assert (H2 : Parser.size p < 2 ^ 64) by (cbn; lia).
  assert (H3 : 0 <= Parser.pos p) by (cbn; lia).
  assert (H4 : Parser.pos p + 1 = Parser.size p) by reflexivity.
  split; [repeat split; assumption |].
  exact (parse_loop_drops_last_byte small_heap 0 p [] H1 H2 H3 H4).
Defined.

(** ** The bytes of the push functions *)

Lemma le_bytes_shift (n : nat) (v k : Z) :
  le_bytes n (v + k * 2 ^ (8 * Z.of_nat n)) = le_bytes n v.
Proof.
  revert v k. induction n as [|n IH]; intros v k; [reflexivity |].
  cbn [le_bytes].
  replace (8 * Z.of_nat (S n)) with (8 + 8 * Z.of_nat n) by lia.
  rewrite Z.pow_add_r by lia. change (2 ^ 8) with 256.
  change 255 with (Z.ones 8). rewrite !Z.land_ones by lia.
  change (2 ^ 8) with 256. rewrite !Z.shiftr_div_pow2 by lia.
  change (2 ^ 8) with 256.
  replace (v + k * (256 * 2 ^ (8 * Z.of_nat n)))
    with (v + (k * 2 ^ (8 * Z.of_nat n)) * 256) by lia.
  rewrite Z.mod_add, Z.div_add by lia.
  now rewrite IH.
Qed.

Lemma le_bytes_sint (n : nat) (v : Z) :
  le_bytes n (sint (8 * Z.of_nat n) v) = le_bytes n v.
Proof.
  unfold sint. set (w := 8 * Z.of_nat n).
  assert (Hp : 0 < 2 ^ w) by (apply Z.pow_pos_nonneg; lia).
  assert (Hm : v mod 2 ^ w = v + (- (v / 2 ^ w)) * 2 ^ w).
  { pose proof (Z.div_mod v (2 ^ w) ltac:(lia)). lia. }
  destruct (v mod 2 ^ w <? 2 ^ (w - 1)).
  - rewrite Hm. apply le_bytes_shift.
  - replace (v mod 2 ^ w - 2 ^ w) with (v + (- (v / 2 ^ w) - 1) * 2 ^ w) by lia.
    apply le_bytes_shift.
Qed.

Lemma int_width_cases (val : Z) :
  int_width val = 1%nat /\ minimal_signed_bits val = 0
  \/ int_width val = 2%nat /\ minimal_signed_bits val = 1
  \/ int_width val = 4%nat /\ minimal_signed_bits val = 2
  \/ int_width val = 8%nat /\ minimal_signed_bits val = 3.
Proof.
  unfold int_width, minimal_signed_bits.
  destruct ((INT8_MIN <=? val) && (val <=? INT8_MAX)); [tauto |].
  destruct ((INT16_MIN <=? val) && (val <=? INT16_MAX)); [tauto |].
  destruct ((INT32_MIN <=? val) && (val <=? INT32_MAX)); tauto.
Qed.

Lemma push_integer_bytes (e : Encoder.t) (val : Z) :
  Encoder.buffer (Encoder.push_integer e val)
  = Encoder.buffer e
    ++ head_value (int_head (int_width val)) :: le_bytes (int_width val) val.
Proof.
  unfold Encoder.push_integer, Encoder.push_back, serialize_binary.
  destruct (int_width_cases val) as [[-> ->] | [[-> ->] | [[-> ->] | [-> ->]]]];
    cbn [Encoder.buffer int_head]; rewrite le_bytes_sint, <- app_assoc;
    reflexivity.
Qed.

Lemma push_array_buffer (ty : elem_type) (e : Encoder.t) (d data : list Z)
    (h : WXF_HEAD) (nt : Z) (cerr : list diag) :
  Encoder.buffer (fst (Encoder.push_array Z (elem_repr ty) e d data h nt cerr))
  = Encoder.buffer e
    ++ Encoder.buffer
         (fst (Encoder.push_array Z (elem_repr ty) (Encoder.mk []) d data h nt [])).
Proof.
  rewrite !push_array_spec.
  destruct (u64 (product d) =? Z.of_nat (length data)); cbn [fst Encoder.buffer app].
  - reflexivity.
  - now rewrite app_nil_r.
Qed.

(** The bytes a call appends do not depend on the encoder it is made on. *)
Lemma push_item_buffer (e : Encoder.t) (cerr : list diag) (it : item) :
  Encoder.buffer (fst (push_item (e, cerr) it))
  = Encoder.buffer e ++ item_bytes it.
Proof.
  unfold item_bytes.
  destruct it as [val | val | type str | head n | n | | | ty d data | ty d data];
    cbn [push_item fst].
  - now rewrite !push_integer_bytes.
  - unfold Encoder.push_real, Encoder.push_back, serialize_binary.
    cbn [Encoder.buffer app]. now rewrite <- app_assoc.
  - unfold Encoder.push_string, Encoder.push_ustr, Encoder.push_back,
      serialize_varint. cbn [Encoder.buffer app]. now rewrite <- !app_assoc.
  - unfold Encoder.push_function, Encoder.push_string, Encoder.push_ustr,
      Encoder.push_back, serialize_varint. cbn [Encoder.buffer app].
    now rewrite <- !app_assoc.
  - unfold Encoder.push_association, Encoder.push_back, serialize_varint.
    cbn [Encoder.buffer app]. now rewrite <- !app_assoc.
  - reflexivity.
  - reflexivity.
  - unfold Encoder.push_packed_array.
    destruct ty; try apply push_array_buffer; cbn [fst Encoder.buffer];
      now rewrite app_nil_r.
  - unfold Encoder.push_numeric_array.
    destruct ty; try apply push_array_buffer; cbn [fst Encoder.buffer];
      now rewrite app_nil_r.
Qed.

Lemma push_items_buffer (e : Encoder.t) (cerr : list diag) (its : list item) :
  Encoder.buffer (fst (push_items (e, cerr) its))
  = Encoder.buffer e ++ concat (map item_bytes its).
Proof.
  unfold push_items. revert e cerr.
  induction its as [|it its IH]; intros e cerr; cbn [fold_left map concat].
  - now rewrite app_nil_r.
  - destruct (push_item (e, cerr) it) as [e' cerr'] eqn:E. rewrite IH.
    pose proof (push_item_buffer e cerr it) as H. rewrite E in H. cbn [fst] in H.
    now rewrite H, <- app_assoc.
Qed.

(** X3. The encoder is append-only, and what a push call appends depends on
    its arguments alone: after any sequence of push calls (an array call
    that fails included, which appends nothing) the buffer is the buffer
    before the calls followed by the bytes of each call, in order. *)
Theorem push_items_concat (e : Encoder.t) (cerr : list diag) (its : list item) :
  Encoder.buffer (fst (push_items (e, cerr) its))
  = Encoder.buffer e ++ concat (map item_bytes its).
Proof. apply push_items_buffer. Qed.

(** ** The parser on the bytes of the encoder *)

Lemma parser_ext (p : Parser.t) (buf : list Z) (pos size err : Z)
    (tokens : list Token.t) :
  Parser.buffer p = buf -> Parser.pos p = pos -> Parser.size p = size ->
  Parser.err p = err -> Parser.tokens p = tokens ->
  p = Parser.mk buf pos size err tokens.
Proof. destruct p; cbn; intros; subst; reflexivity. Qed.

Lemma varint_groups_nonempty (v : Z) : (1 <= length (varint_groups v))%nat.
Proof.
  rewrite varint_groups_step.
  destruct (Z_lt_dec 0 (Z.shiftr v 7)); cbn [length]; lia.
Qed.

Lemma read_varint_encoded (p : Parser.t) (v : Z) (pre post : list Z) :
  0 <= v < 2 ^ 64 ->
  Parser.buffer p = pre ++ varint_groups v ++ post ->
  Parser.pos p = Z.of_nat (length pre) ->
  Parser.size p = Z.of_nat (length (Parser.buffer p)) ->
  Parser.read_varint p
  = Ok (v, Parser.set_pos p (Parser.pos p + Z.of_nat (length (varint_groups v)))).
Proof.
  intros Hv Hbuf Hpos Hsize. unfold Parser.read_varint.
  pose proof (varint_groups_nonempty v) as Hlen.
  destruct (Z.geb_spec (Parser.pos p) (Parser.size p)) as [Hge|_].
  { rewrite Hsize, Hbuf, Hpos, !length_app in Hge. lia. }
  rewrite Hbuf.
  change Parser.varint_shifts with (shifts_from 0 10).
  rewrite (read_groups_varint 9 0 v 0 pre post (Parser.size p) (Parser.pos p)).
  - cbn [bind]. now rewrite Z.shiftl_0_r, Z.lor_0_l.
  - lia.
  - assert (2 ^ 64 <= 2 ^ (7 * Z.of_nat 10)) by (apply Z.pow_le_mono_r; lia).
    lia.
  - lia.
  - now rewrite Hsize, Hbuf.
  - exact Hpos.
Qed.

(** One iteration of the token loop on a tag that is not the last byte. *)
Lemma parse_loop_tag (heap : Z -> bool) (fuel : nat) (p : Parser.t) (cerr : list diag)
    (pre post : list Z) (tag : Z) :
  Parser.buffer p = pre ++ tag :: post ->
  post <> [] ->
  Parser.pos p = Z.of_nat (length pre) ->
  Parser.size p = Z.of_nat (length (Parser.buffer p)) ->
  Parser.size p < 2 ^ 64 ->
  Parser.parse_loop heap (S fuel) p cerr
  = ('(p', cerr') <- Parser.parse_switch heap tag
                       (Parser.set_pos p (Parser.pos p + 1)) cerr ;;
     Parser.parse_loop heap fuel p' cerr').
Proof.
  intros Hbuf Hpost Hpos Hsize Hsmall. cbn [Parser.parse_loop].
  assert (Hlen : Parser.pos p + 1 < Parser.size p).
  { rewrite Hsize, Hbuf, Hpos, length_app. cbn [length].
    destruct post; [congruence | cbn [length]; lia]. }
  destruct (Z.ltb_spec (Parser.pos p) (Parser.size p)); [| lia].
  rewrite Hbuf, Hpos, byte_at_app. cbn [bind].
  rewrite <- Hpos.
  assert (Hu : u64 (Parser.pos p + 1) = Parser.pos p + 1)
    by (unfold u64; apply Z.mod_small; lia).
  rewrite Hu.
  change (Parser.pos (Parser.set_pos p (Parser.pos p + 1))) with (Parser.pos p + 1).
  change (Parser.size (Parser.set_pos p (Parser.pos p + 1))) with (Parser.size p).
  destruct (Z.eqb_spec (Parser.pos p + 1) (Parser.size p)); [lia |].
  reflexivity.
Qed.

(** An array call that has an overload is [push_array] with the tag of
    the array kind and the element type tag. *)
Lemma array_call_spec (numeric : bool) (ty : elem_type) (e : Encoder.t)
    (d data : list Z) (cerr : list diag) :
  has_overload numeric ty = true ->
  (if numeric then Encoder.push_numeric_array ty e d data cerr
   else Encoder.push_packed_array ty e d data cerr)
  = Some (Encoder.push_array Z (elem_repr ty) e d data
            (if numeric then narray else array) (array_num_type ty) cerr).
Proof. destruct ty, numeric; intros H; try discriminate H; reflexivity. Qed.

Lemma array_num_type_size (numeric : bool) (ty : elem_type) :
  has_overload numeric ty = true ->
  size_of_arr_num_type (array_num_type ty) = Z.of_nat (sizeof ty)
  /\ 0 <= array_num_type ty < 128.
Proof.
  destruct ty, numeric; intros H; try discriminate H;
    (split; [reflexivity | vm_compute; split; congruence]).
Qed.

Lemma item_bytes_integer (val : Z) :
  item_bytes (PushInteger val)
  = head_value (int_head (int_width val)) :: le_bytes (int_width val) val.
Proof.
  unfold item_bytes. cbn [push_item fst]. now rewrite push_integer_bytes.
Qed.

Lemma item_bytes_real (val : Z) :
  item_bytes (PushReal val) = head_value f64 :: le_bytes 8 val.
Proof.
  unfold item_bytes. cbn [push_item fst].
  unfold Encoder.push_real, Encoder.push_back, serialize_binary.
  cbn [Encoder.buffer app]. now rewrite le_bytes_sint.
Qed.

Lemma item_bytes_string (type : WXF_HEAD) (str : list Z) :
  item_bytes (PushString type str)
  = head_value type :: varint_groups (u64 (Z.of_nat (length str))) ++ str.
Proof. reflexivity. Qed.

Lemma item_bytes_function (head : list Z) (n : Z) :
  item_bytes (PushFunction head n)
  = head_value func :: varint_groups (u64 n)
    ++ head_value symbol :: varint_groups (u64 (Z.of_nat (length head))) ++ head.
Proof.
  unfold item_bytes. cbn [push_item fst].
  unfold Encoder.push_function, Encoder.push_string, Encoder.push_ustr,
    Encoder.push_back, serialize_varint. cbn [Encoder.buffer app].
  now rewrite <- !app_assoc.
Qed.

Lemma item_bytes_association (n : Z) :
  item_bytes (PushAssociation n) = head_value association :: varint_groups (u64 n).
Proof. reflexivity. Qed.

Lemma item_bytes_array (numeric : bool) (ty : elem_type) (d data : list Z) :
  has_overload numeric ty = true ->
  product d = Z.of_nat (length data) ->
  Z.of_nat (length data) < 2 ^ 64 ->
  item_bytes (if numeric then PushNumericArray ty d data
              else PushPackedArray ty d data)
  = array_info d (if numeric then narray else array) (array_num_type ty)
    ++ concat (map (elem_repr ty) data).
Proof.
  intros Hty Hprod Hsmall. unfold item_bytes.
  assert (Hu : (u64 (product d) =? Z.of_nat (length data)) = true).
  { apply Z.eqb_eq. rewrite Hprod. unfold u64. apply Z.mod_small. lia. }
  pose proof (array_call_spec numeric ty (Encoder.mk []) d data [] Hty) as Hc.
  destruct numeric; cbn [push_item fst]; rewrite Hc, push_array_spec, Hu;
    reflexivity.
Qed.

Lemma u64_id (z : Z) : 0 <= z < 2 ^ 64 -> u64 z = z.
Proof. intros H. unfold u64. now apply Z.mod_small. Qed.

Lemma varint_groups_byte (b : Z) : 0 <= b < 128 -> varint_groups b = [b].
Proof.
  intros Hb. rewrite varint_groups_step.
  destruct (Z_lt_dec 0 (Z.shiftr b 7)) as [Hpos|_].
  - rewrite Z.shiftr_div_pow2, Z.div_small in Hpos by lia. lia.
  - change 127 with (Z.ones 7). rewrite Z.land_ones, Z.mod_small by lia.
    reflexivity.
Qed.

Lemma length_concat_repr (ty : elem_type) (data : list Z) :
  Z.of_nat (length (concat (map (elem_repr ty) data)))
  = Z.of_nat (length data) * Z.of_nat (sizeof ty).
Proof.
  induction data as [|x data IH]; cbn [map concat length]; [lia |].
  rewrite length_app, Nat2Z.inj_add, IH. unfold elem_repr.
  rewrite length_le_bytes. lia.
Qed.

(** ** The element width on the two sides *)

(** X4. An array call that compiles ([push_packed_array] for the signed
    integers, [float], [double] and the two complex types;
    [push_numeric_array] for [float], [double] and the two complex types),
    made with data of the length that the dimensions announce, appends the
    tag of the array kind, one byte [nt] below 128 for the element type (so
    that the parser, which reads it as a varint, reads that byte alone),
    the rank and the dimensions as varints, and the elements. The elements
    take [sizeof(T)] bytes each, and that is the width that
    [size_of_arr_num_type] gives the parser for [nt]: the data are exactly
    as long as what the parser skips. *)
Theorem array_num_type_width (numeric : bool) (ty : elem_type) (e : Encoder.t)
    (d data : list Z) (cerr : list diag) :
  has_overload numeric ty = true ->
  product d = Z.of_nat (length data) ->
  Z.of_nat (length data) < 2 ^ 64 ->
  exists nt : Z,
    0 <= nt < 128
    /\ (if numeric then Encoder.push_numeric_array ty e d data cerr
        else Encoder.push_packed_array ty e d data cerr)
       = Some (Encoder.mk
                 (Encoder.buffer e
                  ++ array_info d (if numeric then narray else array) nt
                  ++ concat (map (elem_repr ty) data)), cerr)
    /\ Z.of_nat (length (concat (map (elem_repr ty) data)))
       = Z.of_nat (length data) * size_of_arr_num_type nt.
Proof.
  intros Hty Hprod Hsmall. exists (array_num_type ty).
  destruct (array_num_type_size numeric ty Hty) as [Hw Hnt].
  split; [exact Hnt |]. split.
  - rewrite (array_call_spec numeric ty e d data cerr Hty), push_array_spec.
    assert (Hu : (u64 (product d) =? Z.of_nat (length data)) = true).
    { apply Z.eqb_eq. rewrite Hprod. unfold u64. apply Z.mod_small. lia. }
    now rewrite Hu.
  - now rewrite length_concat_repr, Hw.
Qed.

Lemma array_num_type_width_witness :
  has_overload false int16_t = true
  /\ product [2] = Z.of_nat (length [1; 513])
  /\ exists nt : Z,
       0 <= nt < 128
       /\ Encoder.push_packed_array int16_t (Encoder.mk [56; 58]) [2] [1; 513] []
          = Some (Encoder.mk ([56; 58] ++ array_info [2] array nt
                             ++ concat (map (elem_repr int16_t) [1; 513])), [])
       /\ Z.of_nat (length (concat (map (elem_repr int16_t) [1; 513])))
          = Z.of_nat (length [1; 513]) * size_of_arr_num_type nt.
Proof.
  split; [reflexivity |]. split; [reflexivity |].
  exact (array_num_type_width false int16_t (Encoder.mk [56; 58]) [2] [1; 513] []
           eq_refl eq_refl ltac:(cbn; lia)).
Defined.

Lemma read_dims_encoded (d : list Z) :
  forall (p : Parser.t) (pre post acc : list Z) (al : Z),
    Forall (fun x => 0 <= x < 2 ^ 64) d ->
    Parser.buffer p
    = pre ++ concat (map (fun dim => varint_groups (u64 dim)) d) ++ post ->
    Parser.pos p = Z.of_nat (length pre) ->
    Parser.size p = Z.of_nat (length (Parser.buffer p)) ->
    u64 al = al ->
    Parser.read_dims (length d) p acc al
    = Ok (acc ++ d, u64 (al * product d),
          Parser.set_pos p
            (Parser.pos p
             + Z.of_nat (length (concat (map (fun dim => varint_groups (u64 dim)) d))))).
Proof.
  induction d as [|dim d IH]; intros p pre post acc al Hd Hbuf Hpos Hsize Hal.
  - cbn. rewrite app_nil_r, Z.mul_1_r, Hal, Z.add_0_r. now destruct p.
  - inversion Hd as [|? ? Hdim Hd']; subst.
    cbn [length Parser.read_dims map concat] in *.
    rewrite <- app_assoc in Hbuf.
    rewrite (read_varint_encoded p (u64 dim) pre _ (u64_range dim) Hbuf Hpos Hsize).
    cbn [bind]. rewrite (u64_id dim Hdim).
    rewrite (IH _ (pre ++ varint_groups dim) post).
    + rewrite <- app_assoc. cbn [app product fold_right]. fold (product d).
      replace (u64 (u64 (al * dim) * product d))
        with (u64 (al * (dim * product d)))
        by (unfold u64; rewrite Z.mul_mod_idemp_l by lia; f_equal; lia).
      do 2 f_equal. unfold Parser.set_pos.
      cbn [Parser.pos Parser.buffer Parser.size Parser.err Parser.tokens].
      f_equal. rewrite length_app. lia.
    + exact Hd'.
    + cbn [Parser.set_pos Parser.buffer]. rewrite Hbuf, (u64_id dim Hdim).
      now rewrite <- app_assoc.
    + cbn [Parser.set_pos Parser.pos]. rewrite length_app. lia.
    + exact Hsize.
    + apply u64_idem.
Qed.

Lemma parse_scalar (heap : Z -> bool) (h : WXF_HEAD) (payload : list Z) (p : Parser.t)
    (pre post : list Z) (cerr : list diag) (f : nat) :
  0 < size_of_head_num_type h ->
  Z.of_nat (length payload) = size_of_head_num_type h ->
  Parser.buffer p = pre ++ head_value h :: payload ++ post ->
  Parser.pos p = Z.of_nat (length pre) ->
  Parser.size p = Z.of_nat (length (Parser.buffer p)) ->
  Parser.size p < 2 ^ 64 ->
  Parser.parse_loop heap (S f) p cerr
  = Parser.parse_loop heap f
      (Parser.mk (Parser.buffer p)
         (Parser.pos p + 1 + size_of_head_num_type h)
         (Parser.size p) (Parser.err p)
         (Parser.tokens p
          ++ [Token.make h (size_of_head_num_type h) (Parser.pos p + 1)])) cerr.
Proof.
  intros Hh Hlen Hbuf Hpos Hsize Hsmall.
  assert (Hne : payload ++ post <> []).
  { destruct payload; [cbn in Hlen; lia | discriminate]. }
  rewrite (parse_loop_tag heap f p cerr pre (payload ++ post) (head_value h)
             Hbuf Hne Hpos Hsize Hsmall).
  assert (Hfit : Parser.pos p + 1 + size_of_head_num_type h <= Parser.size p).
  { rewrite Hsize, Hbuf, Hpos, length_app. cbn [length].
    rewrite length_app. lia. }
  assert (Hu : u64 (Parser.pos p + 1 + size_of_head_num_type h)
               = Parser.pos p + 1 + size_of_head_num_type h)
    by (apply u64_id; lia).
  destruct h; cbn in Hh; try lia;
    unfold Parser.parse_switch; cbn [head_value head_of_byte bind];
    cbn [Parser.set_pos Parser.emplace_back Parser.pos Parser.buffer Parser.size
         Parser.err Parser.tokens];
    rewrite Hu; reflexivity.
Qed.

Lemma parse_text (heap : Z -> bool) (h : WXF_HEAD) (str : list Z) (p : Parser.t)
    (pre post : list Z) (cerr : list diag) (f : nat) :
  is_textual_head h = true ->
  Parser.buffer p
  = pre ++ head_value h :: varint_groups (u64 (Z.of_nat (length str))) ++ str ++ post ->
  Parser.pos p = Z.of_nat (length pre) ->
  Parser.size p = Z.of_nat (length (Parser.buffer p)) ->
  Parser.size p < 2 ^ 64 ->
  Parser.parse_loop heap (S f) p cerr
  = Parser.parse_loop heap f
      (Parser.mk (Parser.buffer p)
         (Parser.pos p + 1 + varint_length (Z.of_nat (length str))
          + Z.of_nat (length str))
         (Parser.size p) (Parser.err p)
         (Parser.tokens p
          ++ [Token.make h (Z.of_nat (length str))
                (Parser.pos p + 1 + varint_length (Z.of_nat (length str)))])) cerr.
Proof.
  intros Hh Hbuf Hpos Hsize Hsmall.
  set (l := Z.of_nat (length str)) in *.
  set (vg := varint_groups (u64 l)) in *.
  pose proof (varint_groups_nonempty (u64 l)) as Hvg. fold vg in Hvg.
  assert (Hne : vg ++ str ++ post <> []) by (destruct vg; [cbn in Hvg; lia | discriminate]).
  rewrite (parse_loop_tag heap f p cerr pre _ (head_value h) Hbuf Hne Hpos Hsize
             Hsmall).
  assert (Hfit : Parser.pos p + 1 + Z.of_nat (length vg) + l <= Parser.size p).
  { rewrite Hsize, Hbuf, Hpos, length_app. cbn [length].
    rewrite !length_app. lia. }
  assert (Hl : u64 l = l) by (apply u64_id; lia).
  assert (Hread : Parser.read_varint (Parser.set_pos p (Parser.pos p + 1))
                  = Ok (l, Parser.set_pos p (Parser.pos p + 1 + Z.of_nat (length vg)))).
  { rewrite <- Hl at 1.
    rewrite (read_varint_encoded _ (u64 l) (pre ++ [head_value h]) (str ++ post)
               (u64_range l)).
    - reflexivity.
    - cbn [Parser.set_pos Parser.buffer]. rewrite Hbuf, <- app_assoc. reflexivity.
    - cbn [Parser.set_pos Parser.pos]. rewrite length_app. cbn [length]. lia.
    - exact Hsize. }
  assert (Hu : u64 (Parser.pos p + 1 + Z.of_nat (length vg) + l)
               = Parser.pos p + 1 + Z.of_nat (length vg) + l)
    by (apply u64_id; lia).
  unfold varint_length. fold vg.
  destruct h; try discriminate Hh;
    unfold Parser.parse_switch; cbn [head_value head_of_byte];
    rewrite Hread; cbn [bind];
    cbn [Parser.set_pos Parser.emplace_back Parser.pos Parser.buffer Parser.size
         Parser.err Parser.tokens];
    rewrite Hu; reflexivity.
Qed.

Lemma parse_count (heap : Z -> bool) (h : WXF_HEAD) (n : Z) (p : Parser.t)
    (pre post : list Z) (cerr : list diag) (f : nat) :
  is_func_or_assoc h = true ->
  0 <= n < 2 ^ 64 ->
  Parser.buffer p = pre ++ head_value h :: varint_groups (u64 n) ++ post ->
  Parser.pos p = Z.of_nat (length pre) ->
  Parser.size p = Z.of_nat (length (Parser.buffer p)) ->
  Parser.size p < 2 ^ 64 ->
  Parser.parse_loop heap (S f) p cerr
  = Parser.parse_loop heap f
      (Parser.mk (Parser.buffer p) (Parser.pos p + 1 + varint_length n)
         (Parser.size p) (Parser.err p)
         (Parser.tokens p
          ++ [Token.make h n (Parser.pos p + 1 + varint_length n)])) cerr.
Proof.
  intros Hh Hn Hbuf Hpos Hsize Hsmall.
  set (vg := varint_groups (u64 n)) in *.
  pose proof (varint_groups_nonempty (u64 n)) as Hvg. fold vg in Hvg.
  assert (Hne : vg ++ post <> []) by (destruct vg; [cbn in Hvg; lia | discriminate]).
  rewrite (parse_loop_tag heap f p cerr pre _ (head_value h) Hbuf Hne Hpos Hsize
             Hsmall).
  assert (Hread : Parser.read_varint (Parser.set_pos p (Parser.pos p + 1))
                  = Ok (n, Parser.set_pos p (Parser.pos p + 1 + Z.of_nat (length vg)))).
  { rewrite <- (u64_id n Hn) at 1.
    rewrite (read_varint_encoded _ (u64 n) (pre ++ [head_value h]) post
               (u64_range n)).
    - reflexivity.
    - cbn [Parser.set_pos Parser.buffer]. rewrite Hbuf, <- app_assoc. reflexivity.
    - cbn [Parser.set_pos Parser.pos]. rewrite length_app. cbn [length]. lia.
    - exact Hsize. }
  unfold varint_length. fold vg.
  destruct h; try discriminate Hh;
    unfold Parser.parse_switch; cbn [head_value head_of_byte];
    rewrite Hread; cbn [bind]; reflexivity.
Qed.

Lemma parse_rule_tag (heap : Z -> bool) (h : WXF_HEAD) (p : Parser.t)
    (pre post : list Z) (cerr : list diag) (f : nat) :
  is_rule h = true ->
  post <> [] ->
  Parser.buffer p = pre ++ head_value h :: post ->
  Parser.pos p = Z.of_nat (length pre) ->
  Parser.size p = Z.of_nat (length (Parser.buffer p)) ->
  Parser.size p < 2 ^ 64 ->
  Parser.parse_loop heap (S f) p cerr
  = Parser.parse_loop heap f
      (Parser.mk (Parser.buffer p) (Parser.pos p + 1)
         (Parser.size p) (Parser.err p)
         (Parser.tokens p ++ [Token.make h 2 (Parser.pos p + 1)])) cerr.
Proof.
  intros Hh Hne Hbuf Hpos Hsize Hsmall.
  rewrite (parse_loop_tag heap f p cerr pre _ (head_value h) Hbuf Hne Hpos Hsize
             Hsmall).
  destruct h; try discriminate Hh; reflexivity.
Qed.

Lemma length_array_info (d : list Z) (h : WXF_HEAD) (nt : Z) :
  Z.of_nat (length (array_info d h nt))
  = 2 + varint_length (Z.of_nat (length d))
    + Z.of_nat (length (concat (map (fun dim => varint_groups (u64 dim)) d))).
Proof.
  unfold array_info, varint_length. rewrite !length_app. cbn [length]. lia.
Qed.

Lemma length_concat_dims (d : list Z) :
  (length d
   <= length (concat (map (fun dim => varint_groups (u64 dim)) d)))%nat.
Proof.
  induction d as [|x d IH]; cbn [map concat length]; [lia |].
  rewrite length_app. pose proof (varint_groups_nonempty (u64 x)). lia.
Qed.

Lemma parse_array (heap : Z -> bool) (h : WXF_HEAD) (ty : elem_type) (nt : Z)
    (d data : list Z) (p : Parser.t) (pre post : list Z) (cerr : list diag) (f : nat) :
  h = array \/ h = narray ->
  0 <= nt < 128 ->
  size_of_arr_num_type nt = Z.of_nat (sizeof ty) ->
  Forall (fun x => 0 <= x < 2 ^ 64) d ->
  product d = Z.of_nat (length data) ->
  Z.of_nat (length d) <= INT32_MAX - 2 ->
  serves heap (8 * (Z.of_nat (length d) + 2)) ->
  Parser.buffer p
  = pre ++ (array_info d h nt ++ concat (map (elem_repr ty) data)) ++ post ->
  Parser.pos p = Z.of_nat (length pre) ->
  Parser.size p = Z.of_nat (length (Parser.buffer p)) ->
  Parser.size p < 2 ^ 64 ->
  Parser.parse_loop heap (S f) p cerr
  = Parser.parse_loop heap f
      (Parser.mk (Parser.buffer p)
         (Parser.pos p
          + Z.of_nat (length (array_info d h nt ++ concat (map (elem_repr ty) data))))
         (Parser.size p) (Parser.err p)
         (Parser.tokens p
          ++ [array_token h d nt (Z.of_nat (length data))
                (Parser.pos p + Z.of_nat (length (array_info d h nt)))])) cerr.
Proof.
  intros Hh Hnt Hw Hd Hprod Hrk Hheap Hbuf Hpos Hsize Hsmall.
  set (vr := varint_groups (u64 (Z.of_nat (length d)))) in *.
  set (vd := concat (map (fun dim => varint_groups (u64 dim)) d)) in *.
  set (bytes := concat (map (elem_repr ty) data)) in *.
  assert (Hinfo : array_info d h nt = head_value h :: varint_groups nt ++ vr ++ vd)
    by (unfold array_info; rewrite (varint_groups_byte nt Hnt); reflexivity).
  pose proof (length_array_info d h nt) as Hli.
  unfold varint_length in Hli. fold vr vd in Hli.
  assert (Hbuf' : Parser.buffer p
                  = pre ++ head_value h
                      :: varint_groups nt ++ vr ++ vd ++ bytes ++ post).
  { rewrite Hbuf, Hinfo. f_equal. cbn [app]. f_equal.
    now rewrite <- !app_assoc. }
  clear Hbuf. rename Hbuf' into Hbuf.
  assert (Hne : varint_groups nt ++ vr ++ vd ++ bytes ++ post <> [])
    by (rewrite (varint_groups_byte nt Hnt); discriminate).
  rewrite (parse_loop_tag heap f p cerr pre _ (head_value h) Hbuf Hne Hpos Hsize
             Hsmall).
  assert (Hlen : Parser.size p
                 = Parser.pos p + Z.of_nat (length (array_info d h nt))
                   + Z.of_nat (length bytes) + Z.of_nat (length post)).
  { rewrite Hsize, Hbuf, Hpos, length_app. cbn [length].
    rewrite (varint_groups_byte nt Hnt) in *. cbn [app length].
    rewrite !length_app. lia. }
  pose proof (length_concat_dims d) as Hld. fold vd in Hld.
  pose proof (varint_groups_nonempty (u64 (Z.of_nat (length d)))) as Hvr.
  fold vr in Hvr.
  assert (Hrank : u64 (Z.of_nat (length d)) = Z.of_nat (length d))
    by (apply u64_id; lia).
  pose proof (length_concat_repr ty data) as Hbytes. fold bytes in Hbytes.
  assert (Hdata : Z.of_nat (length data) <= Z.of_nat (length bytes))
    by (rewrite Hbytes; destruct ty; cbn [sizeof]; lia).
  (* the element type *)
  assert (E1 : Parser.read_varint (Parser.set_pos p (Parser.pos p + 1))
               = Ok (nt, Parser.set_pos p (Parser.pos p + 2))).
  { rewrite (read_varint_encoded _ nt (pre ++ [head_value h])
               (vr ++ vd ++ bytes ++ post)).
    - rewrite (varint_groups_byte nt Hnt). do 2 f_equal. unfold Parser.set_pos.
      cbn [length Parser.pos Parser.buffer Parser.size Parser.err Parser.tokens].
      f_equal. lia.
    - lia.
    - cbn [Parser.set_pos Parser.buffer]. rewrite Hbuf, <- app_assoc. reflexivity.
    - cbn [Parser.set_pos Parser.pos]. rewrite length_app. cbn [length]. lia.
    - exact Hsize. }
  (* the rank *)
  assert (E2 : Parser.read_varint (Parser.set_pos p (Parser.pos p + 2))
               = Ok (Z.of_nat (length d),
                     Parser.set_pos p (Parser.pos p + 2 + Z.of_nat (length vr)))).
  { rewrite <- Hrank at 1.
    rewrite (read_varint_encoded _ (u64 (Z.of_nat (length d)))
               (pre ++ head_value h :: varint_groups nt) (vd ++ bytes ++ post)
               (u64_range _)).
    - reflexivity.
    - cbn [Parser.set_pos Parser.buffer]. rewrite Hbuf, <- app_assoc. reflexivity.
    - cbn [Parser.set_pos Parser.pos]. rewrite length_app.
      rewrite (varint_groups_byte nt Hnt). cbn [length]. lia.
    - exact Hsize. }
  (* the dimensions *)
  assert (E3 : Parser.read_dims (length d)
                 (Parser.set_pos p (Parser.pos p + 2 + Z.of_nat (length vr))) [] 1
               = Ok (d, Z.of_nat (length data),
                     Parser.set_pos p
                       (Parser.pos p + Z.of_nat (length (array_info d h nt))))).
  { rewrite (read_dims_encoded d _
               (pre ++ head_value h :: varint_groups nt ++ vr) (bytes ++ post)).
    - cbn [app]. rewrite Z.mul_1_l, Hprod, u64_id by lia.
      do 2 f_equal. unfold Parser.set_pos.
      cbn [Parser.pos Parser.buffer Parser.size Parser.err Parser.tokens].
      f_equal. fold vd. lia.
    - exact Hd.
    - cbn [Parser.set_pos Parser.buffer]. rewrite Hbuf. fold vd.
      rewrite <- !app_assoc. cbn [app]. rewrite <- !app_assoc. reflexivity.
    - cbn [Parser.set_pos Parser.pos]. rewrite length_app. cbn [length].
      rewrite length_app, (varint_groups_byte nt Hnt). cbn [length]. lia.
    - exact Hsize.
    - reflexivity. }
  assert (Hs32 : sint 32 nt = nt).
  { unfold sint. rewrite Z.mod_small by lia.
    destruct (Z.ltb_spec nt (2 ^ (32 - 1))); [reflexivity | cbn in *; lia]. }
  assert (Hu : u64 (Parser.pos p + Z.of_nat (length (array_info d h nt))
                    + u64 (Z.of_nat (length data) * size_of_arr_num_type nt))
               = Parser.pos p
                 + Z.of_nat (length (array_info d h nt ++ bytes))).
  { rewrite Hw, <- Hbytes, length_app, (u64_id (Z.of_nat (length bytes))) by lia.
    rewrite u64_id by lia. lia. }
  assert (Ev : new_vector heap (Z.of_nat (length d)) = Ok tt)
    by (apply new_vector_served; [lia | exact Hheap]).
  assert (Emk : forall off,
            Token.make_array heap h d nt (Z.of_nat (length data)) off
            = Ok (array_token h d nt (Z.of_nat (length data)) off)).
  { intros off. apply make_array_small; [exact Hrk |]. apply Hheap. lia. }
  unfold Parser.parse_switch.
  destruct Hh as [-> | ->]; cbn [head_value head_of_byte];
    rewrite E1; cbn [bind]; rewrite E2; cbn [bind]; rewrite Ev; cbn [bind];
    rewrite Nat2Z.id, E3; cbn [bind]; rewrite Hs32, Emk; cbn [bind];
    cbn [Parser.set_pos Parser.emplace_back Parser.pos Parser.buffer Parser.size
         Parser.err Parser.tokens];
    rewrite Hu; reflexivity.
Qed.

Lemma parser_mk_congr (b : list Z) (pos pos' size err : Z)
    (tokens new new' : list Token.t) :
  pos = pos' -> new = new' ->
  Parser.mk b pos size err (tokens ++ new)
  = Parser.mk b pos' size err (tokens ++ new').
Proof. intros -> ->. reflexivity. Qed.

Lemma size_of_int_head (val : Z) :
  size_of_head_num_type (int_head (int_width val)) = Z.of_nat (int_width val).
Proof.
  destruct (int_width_cases val) as [[-> _] | [[-> _] | [[-> _] | [-> _]]]];
    reflexivity.
Qed.

(** The token loop on the bytes of one call. *)
Lemma parse_item (heap : Z -> bool) (it : item) (p : Parser.t) (pre post : list Z)
    (cerr : list diag) (f : nat) :
  valid_item it ->
  item_served heap it ->
  Parser.buffer p = pre ++ item_bytes it ++ post ->
  Parser.pos p = Z.of_nat (length pre) ->
  Parser.size p = Z.of_nat (length (Parser.buffer p)) ->
  Parser.size p < 2 ^ 64 ->
  (it = PushRule \/ it = PushDelayRule -> post <> []) ->
  Parser.parse_loop heap (length (tokens_of_item 0 it) + f) p cerr
  = Parser.parse_loop heap f
      (Parser.mk (Parser.buffer p)
         (Parser.pos p + Z.of_nat (length (item_bytes it)))
         (Parser.size p) (Parser.err p)
         (Parser.tokens p ++ tokens_of_item (Parser.pos p) it)) cerr.
Proof.
  intros Hvalid Hheap Hbuf Hpos Hsize Hsmall Hrule.
  destruct it as [val | val | type str | head n | n | | | ty d data | ty d data];
    cbn [tokens_of_item length Nat.add valid_item] in *.
  - (* push_integer *)
    rewrite item_bytes_integer in *. cbn [app] in Hbuf.
    rewrite (parse_scalar heap (int_head (int_width val)) (le_bytes (int_width val) val)
               p pre post cerr f); try assumption.
    + rewrite size_of_int_head.
      apply (f_equal (fun q => Parser.parse_loop heap f q cerr)).
      apply parser_mk_congr; [| reflexivity].
      cbn [length]. rewrite length_le_bytes. lia.
    + rewrite size_of_int_head.
      destruct (int_width_cases val) as [[-> _] | [[-> _] | [[-> _] | [-> _]]]];
        cbn; lia.
    + now rewrite length_le_bytes, size_of_int_head.
  - (* push_real *)
    rewrite item_bytes_real in *. cbn [app] in Hbuf.
    rewrite (parse_scalar heap f64 (le_bytes 8 val) p pre post cerr f); try assumption.
    + apply (f_equal (fun q => Parser.parse_loop heap f q cerr)).
      apply parser_mk_congr; [| reflexivity].
      cbn [length size_of_head_num_type]. rewrite length_le_bytes. lia.
    + cbn; lia.
    + reflexivity.
  - (* push_string *)
    rewrite item_bytes_string in *. cbn [app] in Hbuf. rewrite <- app_assoc in Hbuf.
    rewrite (parse_text heap type str p pre post cerr f); try assumption.
    apply (f_equal (fun q => Parser.parse_loop heap f q cerr)).
    apply parser_mk_congr; [| reflexivity].
    cbn [length]. rewrite length_app. unfold varint_length. lia.
  - (* push_function *)
    rewrite item_bytes_function in *. cbn [app] in Hbuf.
    rewrite <- !app_assoc in Hbuf. cbn [app] in Hbuf. rewrite <- !app_assoc in Hbuf.
    rewrite (parse_count heap func n p pre _ cerr (S f) eq_refl Hvalid Hbuf Hpos
               Hsize Hsmall).
    rewrite (parse_text heap symbol head _
               (pre ++ head_value func :: varint_groups (u64 n)) post cerr f eq_refl).
    + cbn [Parser.buffer Parser.pos Parser.size Parser.err Parser.tokens].
      rewrite <- app_assoc. cbn [app].
      apply (f_equal (fun q => Parser.parse_loop heap f q cerr)).
      apply parser_mk_congr; [| reflexivity].
      cbn [length]. rewrite length_app. cbn [length]. rewrite length_app.
      unfold varint_length. lia.
    + cbn [Parser.buffer]. rewrite Hbuf, <- app_assoc. reflexivity.
    + cbn [Parser.pos]. rewrite length_app. cbn [length].
      unfold varint_length. lia.
    + exact Hsize.
    + exact Hsmall.
  - (* push_association *)
    rewrite item_bytes_association in *. cbn [app] in Hbuf.
    rewrite (parse_count heap association n p pre post cerr f eq_refl Hvalid Hbuf
               Hpos Hsize Hsmall).
    apply (f_equal (fun q => Parser.parse_loop heap f q cerr)).
    apply parser_mk_congr; [| reflexivity].
    cbn [length]. unfold varint_length. lia.
  - (* push_rule *)
    change (item_bytes PushRule) with [head_value rule] in *. cbn [app] in Hbuf.
    rewrite (parse_rule_tag heap rule p pre post cerr f eq_refl
               (Hrule (or_introl eq_refl)) Hbuf Hpos Hsize Hsmall).
    reflexivity.
  - (* push_delay_rule *)
    change (item_bytes PushDelayRule) with [head_value delay_rule] in *.
    cbn [app] in Hbuf.
    rewrite (parse_rule_tag heap delay_rule p pre post cerr f eq_refl
               (Hrule (or_intror eq_refl)) Hbuf Hpos Hsize Hsmall).
    reflexivity.
  - (* push_packed_array *)
    destruct Hvalid as (Hty & Hrk & Hd & Hdata & Hprod).
    pose proof (item_bytes_array false ty d data Hty Hprod Hdata) as Hb.
    cbv iota in Hb. rewrite Hb in *.
    destruct (array_num_type_size false ty Hty) as [Hw Hnt].
    rewrite (parse_array heap array ty (array_num_type ty) d data p pre post
               cerr f (or_introl eq_refl) Hnt Hw Hd Hprod Hrk Hheap
               Hbuf Hpos Hsize Hsmall).
    reflexivity.
  - (* push_numeric_array *)
    destruct Hvalid as (Hty & Hrk & Hd & Hdata & Hprod).
    pose proof (item_bytes_array true ty d data Hty Hprod Hdata) as Hb.
    cbv iota in Hb. rewrite Hb in *.
    destruct (array_num_type_size true ty Hty) as [Hw Hnt].
    rewrite (parse_array heap narray ty (array_num_type ty) d data p pre post
               cerr f (or_intror eq_refl) Hnt Hw Hd Hprod Hrk Hheap
               Hbuf Hpos Hsize Hsmall).
    reflexivity.
Qed.


Lemma item_bytes_nonempty (it : item) :
  valid_item it -> (1 <= length (item_bytes it))%nat.
Proof.
  destruct it as [val | val | type str | head n | n | | | ty d data | ty d data];
    cbn [valid_item]; intros Hv.
  - rewrite item_bytes_integer. cbn [length]. lia.
  - rewrite item_bytes_real. cbn [length]. lia.
  - rewrite item_bytes_string. cbn [length]. lia.
  - rewrite item_bytes_function. cbn [length]. lia.
  - rewrite item_bytes_association. cbn [length]. lia.
  - cbn. lia.
  - cbn. lia.
  - destruct Hv as (Hty & _ & _ & Hdata & Hprod).
    pose proof (item_bytes_array false ty d data Hty Hprod Hdata) as Hb.
    cbv iota in Hb. rewrite Hb. unfold array_info. cbn [app length]. lia.
  - destruct Hv as (Hty & _ & _ & Hdata & Hprod).
    pose proof (item_bytes_array true ty d data Hty Hprod Hdata) as Hb.
    cbv iota in Hb. rewrite Hb. unfold array_info. cbn [app length]. lia.
Qed.

Lemma length_tokens_of_items (o o' : Z) (its : list item) :
  length (tokens_of_items o its) = length (tokens_of_items o' its).
Proof.
  revert o o'. induction its as [|it its IH]; intros o o'; [reflexivity |].
  cbn [tokens_of_items]. rewrite !length_app.
  rewrite (IH _ (o' + Z.of_nat (length (item_bytes it)))).
  destruct it; reflexivity.
Qed.

(** The token loop on the bytes of a sequence of calls. *)
Lemma parse_items (heap : Z -> bool) (its : list item) :
  forall (p : Parser.t) (pre post : list Z) (cerr : list diag) (f : nat),
    Forall valid_item its ->
    Forall (item_served heap) its ->
    Parser.buffer p = pre ++ concat (map item_bytes its) ++ post ->
    Parser.pos p = Z.of_nat (length pre) ->
    Parser.size p = Z.of_nat (length (Parser.buffer p)) ->
    Parser.size p < 2 ^ 64 ->
    (post = [] ->
     last its (PushInteger 0) <> PushRule
     /\ last its (PushInteger 0) <> PushDelayRule) ->
    Parser.parse_loop heap (length (tokens_of_items 0 its) + f) p cerr
    = Parser.parse_loop heap f
        (Parser.mk (Parser.buffer p)
           (Parser.pos p + Z.of_nat (length (concat (map item_bytes its))))
           (Parser.size p) (Parser.err p)
           (Parser.tokens p ++ tokens_of_items (Parser.pos p) its)) cerr.
Proof.
  induction its as [|it its IH];
    intros p pre post cerr f Hv Hheap Hbuf Hpos Hsize Hsmall Hlast.
  - cbn. rewrite Z.add_0_r, app_nil_r. now destruct p.
  - inversion Hv as [|? ? Hit Hits]; subst.
    cbn [map concat tokens_of_items] in *.
    rewrite <- app_assoc in Hbuf.
    rewrite length_app, <- Nat.add_assoc.
    inversion Hheap as [|? ? Hheap1 Hheap2]; subst.
    rewrite (parse_item heap it p pre (concat (map item_bytes its) ++ post) cerr _
               Hit Hheap1 Hbuf Hpos Hsize Hsmall).
    + rewrite (length_tokens_of_items _ 0).
      rewrite (IH _ (pre ++ item_bytes it) post cerr f Hits Hheap2).
      * cbn [Parser.buffer Parser.pos Parser.size Parser.err Parser.tokens].
        rewrite <- app_assoc.
        apply (f_equal (fun q => Parser.parse_loop heap f q cerr)).
        apply parser_mk_congr; [| reflexivity].
        rewrite length_app. lia.
      * cbn [Parser.buffer]. now rewrite Hbuf, <- app_assoc.
      * cbn [Parser.pos]. rewrite length_app. lia.
      * exact Hsize.
      * exact Hsmall.
      * intros Hp. specialize (Hlast Hp). destruct its as [|it' its'].
        -- cbn. split; discriminate.
        -- exact Hlast.
    + intros Hr Hnil. apply app_eq_nil in Hnil as [Hc Hp].
      destruct its as [|it' its'].
      * specialize (Hlast Hp). cbn in Hlast. tauto.
      * cbn [map concat] in Hc. apply app_eq_nil in Hc as [Hc _].
        inversion Hits as [|? ? Hit' _]; subst.
        pose proof (item_bytes_nonempty it' Hit') as Hn.
        rewrite Hc in Hn. cbn in Hn. lia.
Qed.

Lemma parse_item_bytes (heap : Z -> bool) (its : list item) (buf : list Z) (fuel : nat)
    (cerr : list diag) :
  buf = [56; 58] ++ concat (map item_bytes its) ->
  Forall valid_item its ->
  Forall (item_served heap) its ->
  Z.of_nat (length buf) < 2 ^ 64 ->
  last its (PushInteger 0) <> PushRule ->
  last its (PushInteger 0) <> PushDelayRule ->
  (length (tokens_of_items 0 its) <= fuel)%nat ->
  Parser.parse heap fuel (Parser.make buf) cerr
  = Ok (Parser.mk buf (Z.of_nat (length buf)) (Z.of_nat (length buf)) 0
          (tokens_of_items 2 its), cerr).
Proof.
  intros Hbuf0 Hv Hheap Hsmall Hl1 Hl2 Hfuel.
  assert (Hbuf : buf = [56; 58] ++ concat (map item_bytes its) ++ [])
    by (now rewrite app_nil_r).
  rewrite parse_unfold.
  assert (Hh : valid_header buf = true) by (rewrite Hbuf; reflexivity).
  rewrite Hh.
  replace fuel with (length (tokens_of_items 0 its)
                     + (fuel - length (tokens_of_items 0 its)))%nat by lia.
  rewrite (parse_items heap its _ [56; 58] [] cerr _ Hv Hheap); try assumption;
    try reflexivity; [| intros _; split; assumption].
  cbn [Parser.set_pos Parser.make Parser.buffer Parser.pos Parser.size
       Parser.err Parser.tokens app].
  assert (Hend : 2 + Z.of_nat (length (concat (map item_bytes its)))
                 = Z.of_nat (length buf)).
  { rewrite Hbuf. rewrite app_nil_r, length_app. cbn [length]. lia. }
  rewrite Hend.
  destruct (fuel - length (tokens_of_items 0 its))%nat; cbn [Parser.parse_loop
    Parser.pos Parser.size]; rewrite Z.ltb_irrefl; reflexivity.
Qed.

(** X5. Encoder and parser agree. After the header, let any sequence of
    push calls be made with arguments in the range of their types (a textual
    tag for [push_string]; for an array, an element type that has the
    overload, data of the announced length and at most [2^31 - 3]
    dimensions), the last call not being [push_rule] or [push_delay_rule],
    into a buffer shorter than [2 ^ 64] bytes, and let the allocator serve,
    for every array call of rank [r], the requests of up to [8 (r + 2)]
    bytes. Then [Parser::parse]
    on that buffer returns, after one iteration per token, with [err] 0,
    the cursor at the end of the buffer, nothing on [std::cerr], and
    exactly the tokens of the calls in order: for each call the tag, the
    declared length, count or dimensions, and the offset at which its value
    bytes start. *)
Theorem parse_pushed_items (heap : Z -> bool) (its : list item) (fuel : nat)
    (cerr : list diag) :
  let buf := Encoder.buffer (fst (push_items (Encoder.mk [56; 58], []) its)) in
  Forall valid_item its ->
  Forall (item_served heap) its ->
  Z.of_nat (length buf) < 2 ^ 64 ->
  last its (PushInteger 0) <> PushRule ->
  last its (PushInteger 0) <> PushDelayRule ->
  (length (tokens_of_items 0 its) <= fuel)%nat ->
  Parser.parse heap fuel (Parser.make buf) cerr
  = Ok (Parser.mk buf (Z.of_nat (length buf)) (Z.of_nat (length buf)) 0
          (tokens_of_items 2 its), cerr).
Proof.
  intros buf Hv Hheap Hsmall Hl1 Hl2 Hfuel.
  apply parse_item_bytes; try assumption.
  subst buf. now rewrite push_items_buffer.
Qed.

Lemma parse_pushed_items_witness :
  let its := [PushFunction [102] 2; PushInteger 1;
              PushPackedArray int16_t [2] [1; 513]] in
  let buf := [56; 58; 102; 2; 115; 1; 102; 67; 1; 193; 1; 1; 2; 1; 0; 1; 2] in
  Forall valid_item its
  /\ Forall (item_served small_heap) its
  /\ Parser.parse small_heap 4 (Parser.make buf) []
     = Ok (Parser.mk buf 17 17 0
             [Token.make func 2 4; Token.make symbol 1 6; Token.make i8 1 8;
              Token.mk array 1 (Token.Dimensions [1; 2; 2]) (Some 13)], []).
Proof.
  intros its buf.
  assert (Hv : Forall valid_item its).
  { apply Forall_cons; [cbn; lia |].
    apply Forall_cons; [cbn; unfold INT64_MIN, INT64_MAX; lia |].
    apply Forall_cons; [| apply Forall_nil].
    cbn [valid_item]. split; [reflexivity |].
    split; [cbn; unfold INT32_MAX; lia |].
    split; [repeat constructor; lia |]. split; [cbn; lia | reflexivity]. }
  assert (Hheap : Forall (item_served small_heap) its).
  { apply Forall_cons; [exact I |]. apply Forall_cons; [exact I |].
    apply Forall_cons; [| apply Forall_nil].
    apply serves_small_heap. vm_compute. discriminate. }
  split; [exact Hv |]. split; [exact Hheap |].
  refine (parse_pushed_items small_heap its 4 [] Hv Hheap _ _ _ _);
    [vm_compute; reflexivity | discriminate | discriminate | vm_compute; lia].
Defined.

(** ** Reading the values back from the tokens *)

Lemma view_bytes_at (pre mid bs post : list Z) (n : Z) :
  n = Z.of_nat (length bs) ->
  view_bytes (pre ++ mid ++ bs ++ post)
    (Some (Z.of_nat (length pre) + Z.of_nat (length mid))) n = Ok bs.
Proof.
  intros ->. unfold view_bytes. rewrite Nat2Z.id.
  pose proof (read_bytes_app (pre ++ mid) bs post) as H.
  rewrite <- app_assoc, length_app, Nat2Z.inj_add in H. exact H.
Qed.

Lemma int_width_fits (val : Z) :
  INT64_MIN <= val <= INT64_MAX -> fits (int_width val) val.
Proof.
  intros Hv. unfold int_width, minimal_signed_bits, fits.
  destruct (Z.leb_spec INT8_MIN val), (Z.leb_spec val INT8_MAX);
    cbn [andb]; try (unfold INT8_MIN, INT8_MAX in *; cbn; lia);
  destruct (Z.leb_spec INT16_MIN val), (Z.leb_spec val INT16_MAX);
    cbn [andb]; try (unfold INT16_MIN, INT16_MAX in *; cbn; lia);
  destruct (Z.leb_spec INT32_MIN val), (Z.leb_spec val INT32_MAX);
    cbn [andb]; try (unfold INT32_MIN, INT32_MAX in *; cbn; lia);
  unfold INT64_MIN, INT64_MAX in *; cbn; lia.
Qed.

Lemma int_width_pos (val : Z) : (0 < int_width val)%nat.
Proof.
  destruct (int_width_cases val) as [[-> _] | [[-> _] | [[-> _] | [-> _]]]]; lia.
Qed.

Lemma get_integer_at (val : Z) (pre post : list Z) (tk : Token.t) :
  INT64_MIN <= val <= INT64_MAX ->
  In tk (tokens_of_item (Z.of_nat (length pre)) (PushInteger val)) ->
  Token.get_integer
    (pre ++ Encoder.buffer (Encoder.push_integer (Encoder.mk []) val) ++ post) tk
  = Ok val.
Proof.
  intros Hv [<- | []].
  rewrite push_integer_bytes. cbn [Encoder.buffer app].
  pose proof (int_width_fits val Hv) as Hfit.
  pose proof (int_width_pos val) as Hpos.
  assert (Hread : Token.deref_int
                    (pre ++ head_value (int_head (int_width val))
                         :: le_bytes (int_width val) val ++ post)
                    (Some (Z.of_nat (length pre) + 1)) (int_width val) = Ok val).
  { unfold Token.deref_int.
    pose proof (read_bytes_app (pre ++ [head_value (int_head (int_width val))])
                  (le_bytes (int_width val) val) post) as H.
    rewrite <- app_assoc, length_app, Nat2Z.inj_add, length_le_bytes in H.
    cbn [app length] in H. change (Z.of_nat 1) with 1 in H. rewrite H.
    cbn [bind]. now rewrite le_value_le_bytes, sint_fits. }
  unfold Token.get_integer, Token.make. cbn [Token.type Token.data].
  destruct (int_width_cases val) as [[Hw _] | [[Hw _] | [[Hw _] | [Hw _]]]];
    rewrite Hw in *; exact Hread.
Qed.

(** X6. [push_integer] and [get_integer] are inverse. Wherever the bytes of
    [push_integer(val)] lie in a buffer, [get_integer] on the token that
    stands for them (tag of the chosen width, data pointer just after the
    tag byte) returns [val], for every [val] of [int64_t]: the narrowing
    cast of the encoder and the sign extension of the getter cancel. *)
Theorem get_integer_pushed (val : Z) (pre post : list Z) (tk : Token.t) :
  INT64_MIN <= val <= INT64_MAX ->
  In tk (tokens_of_item (Z.of_nat (length pre)) (PushInteger val)) ->
  Token.get_integer
    (pre ++ Encoder.buffer (Encoder.push_integer (Encoder.mk []) val) ++ post) tk
  = Ok val.
Proof. apply get_integer_at. Qed.

Lemma get_integer_pushed_witness :
  Token.get_integer [56; 58; 106; 0; 128] (Token.make i16 2 3) = Ok (-32768).
Proof.
  refine (get_integer_pushed (-32768) [56; 58] [] _ _ _);
    [unfold INT64_MIN, INT64_MAX; lia | left; reflexivity].
Defined.

Lemma get_real_at (val : Z) (pre post : list Z) (tk : Token.t) :
  0 <= val < 2 ^ 64 ->
  In tk (tokens_of_item (Z.of_nat (length pre)) (PushReal val)) ->
  Token.get_real
    (pre ++ Encoder.buffer (Encoder.push_real (Encoder.mk []) val) ++ post) tk
  = Ok val.
Proof.
  intros Hv [<- | []].
  change (Encoder.buffer (Encoder.push_real (Encoder.mk []) val))
    with (item_bytes (PushReal val)).
  rewrite item_bytes_real. cbn [app].
  unfold Token.get_real, Token.make. cbn [Token.type Token.data WXF_HEAD_eqb].
  pose proof (read_bytes_app (pre ++ [head_value f64]) (le_bytes 8 val) post) as H.
  rewrite <- app_assoc, length_app, Nat2Z.inj_add, length_le_bytes in H.
  cbn [app length] in H. change (Z.of_nat 1) with 1 in H.
  replace (Token.read_bytes _ _ 8) with (Ok (le_bytes 8 val)).
  cbn [bind]. rewrite le_value_le_bytes. f_equal. apply Z.mod_small.
  change (8 * Z.of_nat 8) with 64. lia.
Qed.

(** X7. [push_real] and [get_real] are inverse: wherever the nine bytes of
    [push_real(val)] lie in a buffer, [get_real] on their token returns the
    bit pattern of [val]. *)
Theorem get_real_pushed (val : Z) (pre post : list Z) (tk : Token.t) :
  0 <= val < 2 ^ 64 ->
  In tk (tokens_of_item (Z.of_nat (length pre)) (PushReal val)) ->
  Token.get_real
    (pre ++ Encoder.buffer (Encoder.push_real (Encoder.mk []) val) ++ post) tk
  = Ok val.
Proof. apply get_real_at. Qed.

Lemma get_real_pushed_witness :
  Token.get_real [56; 58; 114; 0; 0; 0; 0; 0; 0; 240; 63] (Token.make f64 8 3)
  = Ok 4607182418800017408.
Proof.
  refine (get_real_pushed 4607182418800017408 [56; 58] [] _ _ _);
    [lia | left; reflexivity].
Defined.

(** X8. [push_string] and [get_string_view] are inverse. For each of the
    five textual tags, wherever the bytes of [push_string(str, type)] lie in
    a buffer, the view that [get_string_view] returns on their token covers
    exactly the bytes of [str]; the same holds of the head symbol that
    [push_function] writes, read from the second of its two tokens. *)
Theorem get_string_view_pushed (type : WXF_HEAD) (str : list Z) (n : Z)
    (pre post : list Z) :
  is_textual_head type = true ->
  (forall tk,
     In tk (tokens_of_item (Z.of_nat (length pre)) (PushString type str)) ->
     let '(d, len) := Token.get_string_view tk in
     len = Z.of_nat (length str)
     /\ view_bytes
          (pre ++ Encoder.buffer (Encoder.push_string (Encoder.mk []) str type)
               ++ post) d len = Ok str)
  /\ (let tk := nth 1 (tokens_of_item (Z.of_nat (length pre))
                         (PushFunction str n)) Token.default in
      let '(d, len) := Token.get_string_view tk in
      len = Z.of_nat (length str)
      /\ view_bytes
           (pre ++ Encoder.buffer (Encoder.push_function (Encoder.mk []) str n)
                ++ post) d len = Ok str).
Proof.
  intros Hty. split.
  - intros tk [<- | []].
    change (Encoder.buffer (Encoder.push_string (Encoder.mk []) str type))
      with (item_bytes (PushString type str)).
    rewrite item_bytes_string.
    assert (Hview : Token.get_string_view
                      (Token.make type (Z.of_nat (length str))
                         (Z.of_nat (length pre) + 1
                          + varint_length (Z.of_nat (length str))))
                    = (Some (Z.of_nat (length pre) + 1
                             + varint_length (Z.of_nat (length str))),
                       Z.of_nat (length str))).
    { unfold Token.get_string_view, Token.make, Token.length.
      cbn [Token.type Token.data Token.content].
      destruct type; try discriminate Hty; reflexivity. }
    rewrite Hview. split; [reflexivity |].
    pose proof (view_bytes_at pre
                  (head_value type
                   :: varint_groups (u64 (Z.of_nat (length str)))) str post
                  (Z.of_nat (length str)) eq_refl) as H.
    cbn [length] in H. rewrite Nat2Z.inj_succ in H.
    unfold varint_length.
    replace (Z.of_nat (length pre) + 1
             + Z.of_nat (length (varint_groups (u64 (Z.of_nat (length str))))))
      with (Z.of_nat (length pre)
            + Z.succ (Z.of_nat (length (varint_groups
                                          (u64 (Z.of_nat (length str)))))))
      by lia.
    rewrite <- H. f_equal. cbn [app]. now rewrite <- app_assoc.
  - change (Encoder.buffer (Encoder.push_function (Encoder.mk []) str n))
      with (item_bytes (PushFunction str n)).
    rewrite item_bytes_function.
    cbn [tokens_of_item nth].
    unfold Token.get_string_view, Token.make, Token.length.
    cbn [Token.type Token.data Token.content WXF_HEAD_eqb orb].
    split; [reflexivity |].
    pose proof (view_bytes_at pre
                  (head_value func :: varint_groups (u64 n)
                   ++ head_value symbol
                   :: varint_groups (u64 (Z.of_nat (length str)))) str post
                  (Z.of_nat (length str)) eq_refl) as H.
    cbn [length] in H. rewrite length_app in H. cbn [length] in H.
    unfold varint_length.
    match goal with
    | |- view_bytes _ (Some ?a) _ = _ =>
        match type of H with
        | view_bytes _ (Some ?b) _ = _ => replace a with b by lia
        end
    end.
    rewrite <- H. f_equal.
    repeat first [rewrite <- app_assoc | progress cbn [app]]. reflexivity.
Qed.

Lemma get_string_view_pushed_witness :
  let buf := [56; 58; 83; 2; 104; 105] in
  Token.get_string_view (Token.make string 2 4) = (Some 4, 2)
  /\ view_bytes buf (Some 4) 2 = Ok [104; 105].
Proof.
  intros buf.
  pose proof (proj1 (get_string_view_pushed string [104; 105] 0 [56; 58] []
                       eq_refl)
                (Token.make string 2 4) (or_introl eq_refl)) as H.
  split; [reflexivity | exact (proj2 H)].
Defined.

Lemma array_token_views (h : WXF_HEAD) (nt : Z) (ty : elem_type)
    (dims data pre post : list Z) :
  h = array \/ h = narray ->
  let d := Z.of_nat (length pre) + Z.of_nat (length (array_info dims h nt)) in
  let tk := array_token h dims nt (Z.of_nat (length data)) d in
  Token.get_arr_span tk = Ok (Some d, Z.of_nat (length data))
  /\ view_bytes
       (pre ++ (array_info dims h nt ++ concat (map (elem_repr ty) data)) ++ post)
       (Some d) (Z.of_nat (length data) * Z.of_nat (sizeof ty))
     = Ok (concat (map (elem_repr ty) data))
  /\ (Z.of_nat (length dims) < 2 ^ 31 ->
      forall i : nat,
        (i < length dims)%nat ->
        Token.dim tk (Z.of_nat i) = Ok (Token.DimValue (nth i dims 0))).
Proof.
  intros Hh d tk. split; [| split].
  - unfold Token.get_arr_span, tk, array_token.
    cbn [Token.type Token.content Token.data].
    destruct Hh as [-> | ->]; reflexivity.
  - rewrite <- app_assoc. apply view_bytes_at.
    now rewrite length_concat_repr.
  - intros Hrank i Hi.
    unfold Token.dim, tk, array_token. cbn [Token.rank Token.content].
    destruct (Z.gtb_spec (Z.of_nat (length dims)) 0) as [_ | Hn]; [| lia].
    unfold u64. change (2 ^ 31) with 2147483648 in Hrank.
    change (2 ^ 64) with 18446744073709551616.
    rewrite (Z.mod_small (Z.of_nat i + 2)) by lia.
    replace (Z.to_nat (Z.of_nat i + 2)) with (S (S i)) by lia.
    cbn [nth_error].
    rewrite (nth_error_nth' dims 0 Hi). reflexivity.
Qed.

(** X9. The array functions and the array getters are inverse. Wherever
    the bytes of a [push_packed_array] or [push_numeric_array] call lie in a
    buffer (dimensions below [2 ^ 64], data of the announced length),
    [get_arr_span<T>] on their token returns a span of as many elements as
    were pushed whose [sizeof(T)]-byte elements are the object
    representations of the pushed values in order; and, for a rank between
    1 and [2 ^ 31 - 1], [dim(i)] returns the [i]-th pushed dimension. *)
Theorem get_arr_span_pushed (numeric : bool) (ty : elem_type)
    (dims data pre post : list Z) (tk : Token.t) :
  let it := if numeric then PushNumericArray ty dims data
            else PushPackedArray ty dims data in
  valid_item it ->
  In tk (tokens_of_item (Z.of_nat (length pre)) it) ->
  exists d : Z,
    Token.get_arr_span tk = Ok (Some d, Z.of_nat (length data))
    /\ view_bytes (pre ++ item_bytes it ++ post) (Some d)
         (Z.of_nat (length data) * Z.of_nat (sizeof ty))
       = Ok (concat (map (elem_repr ty) data))
    /\ (Z.of_nat (length dims) < 2 ^ 31 ->
        forall i : nat,
          (i < length dims)%nat ->
          Token.dim tk (Z.of_nat i) = Ok (Token.DimValue (nth i dims 0))).
Proof.
  intros it Hv Htk.
  assert (Hb : item_bytes it
               = array_info dims (if numeric then narray else array)
                   (array_num_type ty)
                 ++ concat (map (elem_repr ty) data)).
  { subst it. destruct numeric; cbn [valid_item] in Hv;
      destruct Hv as (Hty & _ & _ & Hdata & Hprod).
    - exact (item_bytes_array true ty dims data Hty Hprod Hdata).
    - exact (item_bytes_array false ty dims data Hty Hprod Hdata). }
  rewrite Hb.
  assert (Htk' : tk = array_token (if numeric then narray else array) dims
                        (array_num_type ty) (Z.of_nat (length data))
                        (Z.of_nat (length pre)
                         + Z.of_nat (length (array_info dims
                                               (if numeric then narray else array)
                                               (array_num_type ty))))).
  { subst it. destruct numeric; destruct Htk as [<- | []]; reflexivity. }
  rewrite Htk'. eexists.
  apply array_token_views. destruct numeric; auto.
Qed.

Lemma get_arr_span_pushed_witness :
  let buf := [56; 58; 193; 1; 2; 2; 1; 1; 0; 255; 255] in
  let tk := Token.mk array 2 (Token.Dimensions [1; 2; 2; 1]) (Some 7) in
  Token.make_array small_heap array [2; 1] 1 2 7 = Ok tk
  /\ Token.get_arr_span tk = Ok (Some 7, 2)
  /\ view_bytes buf (Some 7) 4 = Ok [1; 0; 255; 255]
  /\ Token.dim tk 0 = Ok (Token.DimValue 2)
  /\ Token.dim tk 1 = Ok (Token.DimValue 1).
Proof.
  intros buf tk.
  assert (Hv : valid_item (PushPackedArray int16_t [2; 1] [1; -1])).
  { cbn. repeat split; try lia; repeat constructor; lia. }
  destruct (get_arr_span_pushed false int16_t [2; 1] [1; -1] [56; 58] [] tk Hv
              (or_introl eq_refl)) as (d & Hspan & Hview & Hdim).
  assert (Hd : d = 7) by (cbv in Hspan; congruence).
  subst d. split; [reflexivity |].
  split; [exact Hspan | split; [exact Hview | split]].
  - exact (Hdim ltac:(cbn; lia) 0%nat ltac:(cbn; lia)).
  - exact (Hdim ltac:(cbn; lia) 1%nat ltac:(cbn; lia)).
Defined.

(** ** The width codes *)

(** X10. [minimal_unsigned_bits] returns the code of the narrowest
    unsigned type: for [x] of [uint64_t] and [k] the code returned, the
    element size that [size_of_arr_num_type] gives for the type tag
    [16 + k] holds [x], and the size for every smaller code does not. *)
Theorem minimal_unsigned_bits_least (x : Z) :
  0 <= x < 2 ^ 64 ->
  let k := minimal_unsigned_bits x in
  0 <= k <= 3
  /\ size_of_arr_num_type (16 + k) = 2 ^ k
  /\ x < 2 ^ (8 * size_of_arr_num_type (16 + k))
  /\ forall j : Z, 0 <= j < k -> 2 ^ (8 * size_of_arr_num_type (16 + j)) <= x.
Proof.
  intros Hx k. subst k. unfold minimal_unsigned_bits.
  destruct (Z.leb_spec x UINT8_MAX) as [H8 | H8];
    [| destruct (Z.leb_spec x UINT16_MAX) as [H16 | H16];
       [| destruct (Z.leb_spec x UINT32_MAX) as [H32 | H32]]];
    unfold UINT8_MAX, UINT16_MAX, UINT32_MAX in *;
    (split; [lia |]); (split; [reflexivity |]);
    (split; [cbn; cbn in *; lia |]);
    intros j Hj;
    assert (Hc : j = 0 \/ j = 1 \/ j = 2) by lia;
    destruct Hc as [-> | [-> | ->]]; try lia; cbn; cbn in *; lia.
Qed.

Lemma minimal_unsigned_bits_least_witness :
  minimal_unsigned_bits 65536 = 2
  /\ size_of_arr_num_type 18 = 4
  /\ 2 ^ (8 * size_of_arr_num_type 17) <= 65536 < 2 ^ (8 * size_of_arr_num_type 18).
Proof.
  destruct (minimal_unsigned_bits_least 65536 ltac:(lia)) as (_ & Hs & Hlt & Hge).
  split; [reflexivity |]. split; [exact Hs |].
  split; [exact (Hge 1 ltac:(cbn; lia)) | exact Hlt].
Defined.

(** X11. On the non-negative values of [int64_t],
    [minimal_pos_signed_bits] and [minimal_signed_bits] return the same
    code; above [INT64_MAX] the former returns 4, a code for which
    [size_of_arr_num_type] gives 16 bytes, not the 8 of [uint64_t]. *)
Theorem minimal_pos_signed_bits_agrees (x : Z) :
  0 <= x ->
  (x <= INT64_MAX -> minimal_pos_signed_bits x = minimal_signed_bits x)
  /\ (INT64_MAX < x ->
      minimal_pos_signed_bits x = 4
      /\ size_of_arr_num_type (minimal_pos_signed_bits x) = 16).
Proof.
  intros Hx. unfold minimal_pos_signed_bits, minimal_signed_bits.
  unfold INT8_MIN, INT8_MAX, INT16_MIN, INT16_MAX, INT32_MIN, INT32_MAX,
    INT64_MAX.
  split; intros H.
  - destruct (Z.leb_spec x (2 ^ 7 - 1)), (Z.leb_spec (- 2 ^ 7) x);
      cbn [andb]; try reflexivity; try lia.
    destruct (Z.leb_spec x (2 ^ 15 - 1)), (Z.leb_spec (- 2 ^ 15) x);
      cbn [andb]; try reflexivity; try lia.
    destruct (Z.leb_spec x (2 ^ 31 - 1)), (Z.leb_spec (- 2 ^ 31) x);
      cbn [andb]; try reflexivity; try lia.
    destruct (Z.leb_spec x (2 ^ 63 - 1)); [reflexivity | lia].
  - destruct (Z.leb_spec x (2 ^ 7 - 1)); [lia |].
    destruct (Z.leb_spec x (2 ^ 15 - 1)); [lia |].
    destruct (Z.leb_spec x (2 ^ 31 - 1)); [lia |].
    destruct (Z.leb_spec x (2 ^ 63 - 1)); [lia |].
    split; reflexivity.
Qed.

Lemma minimal_pos_signed_bits_agrees_witness :
  minimal_pos_signed_bits 40000 = minimal_signed_bits 40000
  /\ minimal_pos_signed_bits (2 ^ 63) = 4.
Proof.
  split.
  - exact (proj1 (minimal_pos_signed_bits_agrees 40000 ltac:(lia))
             ltac:(unfold INT64_MAX; lia)).
  - exact (proj1 (proj2 (minimal_pos_signed_bits_agrees (2 ^ 63) ltac:(lia))
                    ltac:(unfold INT64_MAX; lia))).
Defined.

(** ** The root of the tree *)

(** X12. When the first token is neither a function nor an association,
    [MakeExprTree] returns at once with a root of that token's type, index
    0 and no children: the tokens that follow are kept in the tree's token
    vector but no node is built for them, and nothing is reported. A rule
    token in first place is such a token, so a top-level rule gives a root
    without its two children. *)
Theorem MakeExprTree_leaf_root (heap : Z -> bool) (tk : Token.t) (rest : list Token.t)
    (buf : list Z) (pos size : Z) (cerr : list diag) :
  Token.type tk <> func ->
  Token.type tk <> association ->
  MakeExprTree heap (Parser.mk buf pos size 0 (tk :: rest)) cerr
  = Ok (mkExprTree (tk :: rest) (mkExprNode 0 0 [] (Token.type tk)), cerr).
Proof.
  intros Hf Ha. unfold MakeExprTree, run_loop, find_root.
  cbn [Parser.err Parser.tokens Z.eqb negb token_at Z.ltb Z.compare Z.to_nat
       nth_error bind].
  destruct (Token.type tk); try contradiction; reflexivity.
Qed.

Lemma MakeExprTree_leaf_root_witness :
  MakeExprTree_bytes small_heap 3 [56; 58; 45; 67; 1; 67; 2] []
  = Ok (mkExprTree [Token.make rule 2 3; Token.make i8 1 4; Token.make i8 1 6]
          (mkExprNode 0 0 [] rule), []).
Proof.
  exact (MakeExprTree_leaf_root small_heap (Token.make rule 2 3)
           [Token.make i8 1 4; Token.make i8 1 6] [56; 58; 45; 67; 1; 67; 2] 7 7 []
           ltac:(discriminate) ltac:(discriminate)).
Defined.

(** X13. The root of an association. Let the token list be an association
    token declaring [n >= 1] entries followed by [n] well-formed
    sub-expressions, the allocator serving a child array of as many nodes
    as there are tokens. [MakeExprTree] returns the tree whose root has
    size [n] and the nodes of the sub-expressions as children, in order,
    with nothing reported. The index of the root is 1, the index of its
    first child's token, while the node of an association below the root
    carries the index of its own token. *)
Theorem MakeExprTree_association_root (heap : Z -> bool) (tk : Token.t)
    (toks : list Token.t) (nds : list ExprNode) (n : nat) (buf : list Z)
    (pos size : Z) (cerr : list diag) :
  let tokens := tk :: toks in
  Token.type tk = association ->
  Token.length tk = Z.of_nat n ->
  (1 <= n)%nat ->
  subexprs 1 toks nds ->
  length nds = n ->
  serves heap (node_bytes (Z.of_nat (length tokens))) ->
  MakeExprTree heap (Parser.mk buf pos size 0 tokens) cerr
  = Ok (mkExprTree tokens (mkExprNode 1 (Z.of_nat n) nds association), cerr)
  /\ subexpr 0 tokens (mkExprNode 0 (Z.of_nat n) nds association).
Proof.
  intros tokens Hty Hlen Hn Hsub Hk Hserves.
  pose proof (tokens_small heap tokens Hserves) as Hsmall.
  assert (Hle : (n <= length tokens)%nat).
  { pose proof (proj2 subexpr_length _ _ _ Hsub) as Hl.
    subst tokens. cbn [length]. lia. }
  assert (Hmax : Z.of_nat n <= MAX_ALLOC) by lia.
  split.
  - destruct (proj2 (loop_builds heap tokens Hserves) 1 toks nds Hsub
                [tk] [] (mkExprNode 1 (Z.of_nat n) (repeat default_node n)
                           association)
                [] [] [] 1 n association [])
      as (rt' & m & Hassign & Hm & Hloop).
    { subst tokens. now rewrite app_nil_r. }
    { reflexivity. }
    { exact Hmax. }
    { cbn [node_at app length]. now rewrite Nat.sub_0_r. }
    { cbn [length]. lia. }
    { cbn [length]. lia. }
    cbn [assign_at app length] in Hassign, Hloop.
    injection Hassign as <-.
    rewrite Nat.sub_0_r in Hloop.
    change (0 + length nds)%nat with (length nds) in Hloop.
    change (Z.of_nat 0) with 0 in Hloop.
    assert (Hrun : run_loop heap tokens
                   = loop heap tokens (length tokens)
                       (mkBuilder 1
                          (mkExprNode 1 (Z.of_nat n) (repeat default_node n)
                             association) [([] : node_ptr)] [0])).
    { unfold run_loop, find_root. subst tokens. cbn [token_at Z.ltb Z.compare
        Z.to_nat nth_error bind].
      rewrite Hty. cbn [WXF_HEAD_eqb]. rewrite Hlen.
      change (0 + 1) with 1.
      rewrite new_node_slots;
        [reflexivity | lia | exact Hmax
        | exact (slots_served heap (tk :: toks) Hserves n Hle)]. }
    assert (Hfuel : length tokens = (m + (length tokens - m))%nat)
      by (subst tokens; cbn [length]; lia).
    assert (Hpos : 1 + Z.of_nat (length toks) = Z.of_nat (length tokens))
      by (subst tokens; cbn [length]; lia).
    unfold MakeExprTree. cbn [Parser.err Parser.tokens Z.eqb negb].
    fold tokens. rewrite Hrun.
    replace (n - length nds)%nat with 0%nat in Hloop by lia.
    cbn [repeat] in Hloop. rewrite app_nil_r in Hloop.
    specialize (Hloop (length tokens - m)%nat). rewrite <- Hfuel in Hloop.
    rewrite Hloop.
    destruct (Nat.ltb_spec (length nds) n); [lia |].
    cbn [move_to_next_node bind]. rewrite loop_end by (cbn [b_pos]; lia).
    cbn [bind node_stack b_root]. reflexivity.
  - subst tokens. rewrite <- Hk.
    apply sub_assoc; [exact Hty | lia | | exact Hsub].
    destruct nds; [cbn in Hk; lia | discriminate].
Qed.

Lemma MakeExprTree_association_root_witness :
  MakeExprTree_bytes small_heap 4 [56; 58; 65; 1; 45; 67; 1; 67; 2] []
  = Ok (mkExprTree
          [Token.make association 1 4; Token.make rule 2 5; Token.make i8 1 6;
           Token.make i8 1 8]
          (mkExprNode 1 1
             [mkExprNode 1 2 [mkExprNode 2 0 [] i8; mkExprNode 3 0 [] i8] rule]
             association), []).
Proof.
  assert (Hsub : subexprs 1
                   [Token.make rule 2 5; Token.make i8 1 6; Token.make i8 1 8]
                   [mkExprNode 1 2 [mkExprNode 2 0 [] i8; mkExprNode 3 0 [] i8]
                      rule]).
  { apply (subs_cons 1 [Token.make rule 2 5; Token.make i8 1 6; Token.make i8 1 8]
             []); [| apply subs_nil].
    apply (sub_rule 1 (Token.make rule 2 5)); [reflexivity | reflexivity |].
    apply (subs_cons 2 [Token.make i8 1 6] [Token.make i8 1 8]).
    - apply (sub_leaf 2 (Token.make i8 1 6)). reflexivity.
    - apply (subs_cons 3 [Token.make i8 1 8] []).
      + apply (sub_leaf 3 (Token.make i8 1 8)). reflexivity.
      + apply subs_nil. }
  exact (proj1 (MakeExprTree_association_root small_heap
                  (Token.make association 1 4) _ _ 1
                  [56; 58; 65; 1; 45; 67; 1; 67; 2] 9 9 [] eq_refl eq_refl
                  ltac:(lia) Hsub eq_refl
                  ltac:(apply serves_small_heap; vm_compute; discriminate))).
Defined.

(** X14. A buffer without the header gives the empty tree. When the buffer
    does not start with the two bytes 0x38 0x3A, [MakeExprTree(str, len)]
    returns the default tree (no tokens, default root) after the one
    diagnostic of the parser; it builds nothing and reads no token. *)
Theorem MakeExprTree_bytes_bad_header (heap : Z -> bool) (buf : list Z) (fuel : nat)
    (cerr : list diag) :
  valid_header buf = false ->
  MakeExprTree_bytes heap fuel buf cerr = Ok (empty_tree, cerr ++ [InvalidWXFFile]).
Proof.
  intros Hh. unfold MakeExprTree_bytes. rewrite parse_unfold, Hh.
  reflexivity.
Qed.

Lemma MakeExprTree_bytes_bad_header_witness :
  MakeExprTree_bytes small_heap 0 [56; 59; 67; 1] []
  = Ok (empty_tree, [InvalidWXFFile]).
Proof.
  exact (MakeExprTree_bytes_bad_header small_heap [56; 59; 67; 1] 0 [] eq_refl).
Defined.

(** ** From a template to its tree *)

Lemma expression_ind' (P : FullForm.expression -> Prop) :
  (forall head args, Forall P args -> P (FullForm.mk_expression head args)) ->
  forall e, P e.
Proof.
  intros H. fix IH 1. intros [head args]. apply H.
  induction args as [|a args IHargs]; constructor; [apply IH | exact IHargs].
Qed.

Lemma stoll_range (s : list Z) (v : Z) :
  stoll s = inr v -> INT64_MIN <= v <= INT64_MAX.
Proof.
  unfold stoll. intros H.
  destruct (match skip_space s with
            | 45 :: s' => (true, s')
            | 43 :: s' => (false, s')
            | _ => (false, skip_space s)
            end) as [neg s'].
  destruct (digits s') as [|d ds]; [discriminate |].
  destruct (Z.leb_spec INT64_MIN
              (if neg then - decimal (d :: ds) else decimal (d :: ds)));
    destruct (Z.leb_spec (if neg then - decimal (d :: ds) else decimal (d :: ds))
                INT64_MAX); cbn [andb] in H; try discriminate.
  injection H as <-. lia.
Qed.

Lemma encoder_eta (e : Encoder.t) : e = Encoder.mk (Encoder.buffer e).
Proof. now destruct e. Qed.

Lemma push_item_encoder (e : Encoder.t) (it : item) :
  fst (push_item (e, []) it) = Encoder.mk (Encoder.buffer e ++ item_bytes it).
Proof.
  rewrite (encoder_eta (fst _)). now rewrite push_item_buffer.
Qed.

Lemma concat_map_app {A B : Type} (f : A -> list B) (l l' : list A) :
  concat (map f (l ++ l')) = concat (map f l) ++ concat (map f l').
Proof. now rewrite map_app, concat_app. Qed.

Lemma tokens_of_items_app (o : Z) (its its' : list item) :
  tokens_of_items o (its ++ its')
  = tokens_of_items o its
    ++ tokens_of_items (o + Z.of_nat (length (concat (map item_bytes its)))) its'.
Proof.
  revert o. induction its as [|it its IH]; intros o.
  - cbn. now rewrite Z.add_0_r.
  - cbn [app tokens_of_items map concat]. rewrite IH, <- app_assoc.
    do 3 f_equal. rewrite length_app. lia.
Qed.

Lemma last_app_nonempty {A : Type} (l l' : list A) (d : A) :
  l' <> [] -> last (l ++ l') d = last l' d.
Proof.
  intros Hne. induction l as [|a l IH]; [reflexivity |].
  cbn [app last]. destruct (l ++ l') eqn:E; [| exact IH].
  apply app_eq_nil in E as [_ E]. contradiction.
Qed.

Section Templates.

Variable stod : list Z -> exception + Z.
Variable map : list Z -> option (Encoder.t -> Encoder.t).

Lemma expr_items_args (head : FullForm.atom_expression)
    (arg : FullForm.expression) (args : list FullForm.expression) :
  expr_items stod (FullForm.mk_expression head (arg :: args))
  = (if list_eq_dec Z.eq_dec (FullForm.value_ head) Rule then PushRule
     else if list_eq_dec Z.eq_dec (FullForm.value_ head) RuleDelayed
          then PushDelayRule
          else PushFunction (FullForm.value_ head)
                 (Z.of_nat (length (arg :: args))))
    :: flat_map (expr_items stod) (arg :: args).
Proof. reflexivity. Qed.

Lemma fullform_to_wxf_args (head : FullForm.atom_expression)
    (arg : FullForm.expression) (args : list FullForm.expression)
    (encoder : Encoder.t) (cerr : list ff_diag) :
  fullform_to_wxf stod map (FullForm.mk_expression head (arg :: args))
    (encoder, cerr)
  = let null0 :=
      FullForm.is_atom arg
      && match FullForm.type_ (FullForm.head_ arg) with
         | FullForm.Null => true
         | _ => false
         end in
    let len := if null0 then 0 else Z.of_nat (length (arg :: args)) in
    let encoder :=
      if list_eq_dec Z.eq_dec (FullForm.value_ head) Rule
      then Encoder.push_rule encoder
      else if list_eq_dec Z.eq_dec (FullForm.value_ head) RuleDelayed
           then Encoder.push_delay_rule encoder
           else Encoder.push_function encoder (FullForm.value_ head) len in
    if null0 then ((encoder, cerr), None)
    else for_each (fullform_to_wxf stod map) (arg :: args) (encoder, cerr).
Proof. reflexivity. Qed.

Lemma wf_not_null (e : FullForm.expression) :
  wf_expr stod e ->
  FullForm.is_atom e
  && match FullForm.type_ (FullForm.head_ e) with
     | FullForm.Null => true
     | _ => false
     end = false.
Proof. intros H. inversion H; reflexivity. Qed.

Lemma wf_items_valid (e : FullForm.expression) :
  wf_expr stod e -> Forall valid_item (expr_items stod e).
Proof.
  induction e as [head args IH] using expression_ind'. intros Hwf.
  inversion Hwf as [s v Hs | s v Hs Hv | s | s
                    | head' arg args' Hr Hd Hn Hargs | head' lhs rhs Hname Hl Hr];
    subst.
  - cbn. rewrite Hs. repeat constructor; apply (stoll_range s v Hs).
  - cbn. rewrite Hs. repeat constructor; cbn; lia.
  - cbn. repeat constructor.
  - cbn. repeat constructor.
  - rewrite expr_items_args. constructor.
    + destruct (list_eq_dec Z.eq_dec (FullForm.value_ head) Rule);
        [contradiction |].
      destruct (list_eq_dec Z.eq_dec (FullForm.value_ head) RuleDelayed);
        [contradiction |].
      cbn [valid_item]. lia.
    + apply Forall_flat_map. rewrite Forall_forall in *.
      intros a Ha. apply (IH a Ha), (Hargs a Ha).
  - rewrite expr_items_args. constructor.
    + destruct (list_eq_dec Z.eq_dec (FullForm.value_ head) Rule);
        [exact I |].
      destruct (list_eq_dec Z.eq_dec (FullForm.value_ head) RuleDelayed);
        [exact I |]. tauto.
    + apply Forall_flat_map. rewrite Forall_forall in *.
      intros a Ha. apply (IH a Ha).
      destruct Ha as [<- | [<- | []]]; assumption.
Qed.

Lemma last_flat_map {A B : Type} (f : A -> list B) (Q : B -> Prop) (d : B)
    (l : list A) :
  Forall (fun a => f a <> [] /\ Q (last (f a) d)) l ->
  l <> [] ->
  flat_map f l <> [] /\ Q (last (flat_map f l) d).
Proof.
  induction 1 as [|a l [Hne Hq] Hl IH]; intros Hnil; [contradiction |].
  cbn [flat_map]. destruct l as [|b l].
  - cbn [flat_map]. rewrite app_nil_r. now split.
  - destruct IH as [IHne IHq]; [discriminate |]. split.
    + intros E. apply app_eq_nil in E as [E _]. contradiction.
    + now rewrite last_app_nonempty.
Qed.

Lemma wf_items_last (e : FullForm.expression) (d : item) :
  wf_expr stod e ->
  expr_items stod e <> []
  /\ (last (expr_items stod e) d <> PushRule
      /\ last (expr_items stod e) d <> PushDelayRule).
Proof.
  induction e as [head args IH] using expression_ind'. intros Hwf.
  assert (Hargs' : forall arg args',
             args = arg :: args' -> Forall (wf_expr stod) args ->
             expr_items stod (FullForm.mk_expression head args) <> []
             /\ (last (expr_items stod (FullForm.mk_expression head args)) d
                 <> PushRule
                 /\ last (expr_items stod (FullForm.mk_expression head args)) d
                    <> PushDelayRule)).
  { intros arg args' -> Hall. rewrite expr_items_args.
    destruct (last_flat_map (expr_items stod)
                (fun it => it <> PushRule /\ it <> PushDelayRule) d
                (arg :: args')) as [Hne Hq]; [| discriminate |].
    - rewrite Forall_forall in *. intros a Ha. apply (IH a Ha), (Hall a Ha).
    - split; [discriminate |].
      cbn [last]. destruct (flat_map (expr_items stod) (arg :: args')) eqn:E;
        [contradiction | exact Hq]. }
  inversion Hwf as [s v Hs | s v Hs Hv | s | s
                    | head' arg args' Hr Hd Hn Hargs | head' lhs rhs Hname Hl Hr];
    subst.
  - cbn. rewrite Hs. cbn. repeat split; discriminate.
  - cbn. rewrite Hs. cbn. repeat split; discriminate.
  - cbn. repeat split; discriminate.
  - cbn. repeat split; discriminate.
  - apply (Hargs' arg args' eq_refl Hargs).
  - apply (Hargs' lhs [rhs] eq_refl). repeat constructor; assumption.
Qed.

Lemma for_each_items (args : list FullForm.expression) :
  Forall (fun a => forall enc cerr,
            fullform_to_wxf stod map a (enc, cerr)
            = ((Encoder.mk (Encoder.buffer enc
                            ++ concat (List.map item_bytes (expr_items stod a))),
                cerr), None)) args ->
  forall enc cerr,
    for_each (fullform_to_wxf stod map) args (enc, cerr)
    = ((Encoder.mk (Encoder.buffer enc
                    ++ concat (List.map item_bytes
                                 (flat_map (expr_items stod) args))),
        cerr), None).
Proof.
  induction 1 as [|a args Ha _ IH]; intros enc cerr.
  - cbn. rewrite app_nil_r. now rewrite <- encoder_eta.
  - cbn [for_each flat_map]. rewrite Ha.
    change ((fix loop (l : list FullForm.expression)
                 (st : Encoder.t * list ff_diag) {struct l} :=
               match l with
               | [] => (st, None)
               | a0 :: l' =>
                   match fullform_to_wxf stod map a0 st with
                   | (st', None) => loop l' st'
                   | (st', Some x) => (st', Some x)
                   end
               end) args)
      with (for_each (fullform_to_wxf stod map) args).
    rewrite IH. cbn [Encoder.buffer].
    now rewrite concat_map_app, app_assoc.
Qed.

(** On a template of [wf_expr], [fullform_to_wxf] makes the calls of
    [expr_items], throws nothing and writes nothing to [std::cerr]. *)
Lemma fullform_items (e : FullForm.expression) :
  wf_expr stod e ->
  forall enc cerr,
    fullform_to_wxf stod map e (enc, cerr)
    = ((Encoder.mk (Encoder.buffer enc
                    ++ concat (List.map item_bytes (expr_items stod e))),
        cerr), None).
Proof.
  induction e as [head args IH] using expression_ind'. intros Hwf enc cerr.
  assert (Hargs' : forall arg args',
             args = arg :: args' -> Forall (wf_expr stod) args ->
             fullform_to_wxf stod map (FullForm.mk_expression head args)
               (enc, cerr)
             = ((Encoder.mk (Encoder.buffer enc
                             ++ concat (List.map item_bytes
                                          (expr_items stod
                                             (FullForm.mk_expression head args)))),
                 cerr), None)).
  { intros arg args' -> Hall. rewrite fullform_to_wxf_args, expr_items_args.
    cbv zeta. rewrite (wf_not_null arg) by (now inversion Hall).
    rewrite for_each_items.
    - cbn [List.map concat]. do 3 f_equal. rewrite app_assoc. f_equal.
      destruct (list_eq_dec Z.eq_dec (FullForm.value_ head) Rule);
        [| destruct (list_eq_dec Z.eq_dec (FullForm.value_ head) RuleDelayed)];
        match goal with
        | |- _ = _ ++ item_bytes ?it =>
            rewrite <- (push_item_buffer enc [] it); reflexivity
        end.
    - rewrite Forall_forall in *. intros a Ha. apply (IH a Ha), (Hall a Ha). }
  inversion Hwf as [s v Hs | s v Hs Hv | s | s
                    | head' arg args' Hr Hd Hn Hargs | head' lhs rhs Hname Hl Hr];
    subst.
  - cbn [fullform_to_wxf expr_items FullForm.type_ FullForm.value_].
    rewrite Hs. cbn [List.map concat]. rewrite app_nil_r.
    now rewrite <- (push_item_encoder enc (PushInteger v)).
  - cbn [fullform_to_wxf expr_items FullForm.type_ FullForm.value_].
    rewrite Hs. cbn [List.map concat]. rewrite app_nil_r.
    now rewrite <- (push_item_encoder enc (PushReal v)).
  - cbn [fullform_to_wxf expr_items FullForm.type_ FullForm.value_].
    cbn [List.map concat]. rewrite app_nil_r.
    now rewrite <- (push_item_encoder enc (PushString string s)).
  - cbn [fullform_to_wxf expr_items FullForm.type_ FullForm.value_].
    cbn [List.map concat]. rewrite app_nil_r.
    now rewrite <- (push_item_encoder enc (PushString symbol s)).
  - apply (Hargs' arg args' eq_refl Hargs).
  - apply (Hargs' lhs [rhs] eq_refl). repeat constructor; assumption.
Qed.

End Templates.

(** The calls of a template have no array: the parser allocates nothing
    for their tokens. *)
Lemma expr_items_served (heap : Z -> bool) (stod : list Z -> exception + Z)
    (e : FullForm.expression) :
  Forall (item_served heap) (expr_items stod e).
Proof.
  induction e as [head args IH] using expression_ind'.
  destruct args as [|arg args].
  - cbn [expr_items]. destruct (FullForm.type_ head);
      try destruct (stoll (FullForm.value_ head));
      try destruct (stod (FullForm.value_ head));
      repeat constructor.
  - rewrite expr_items_args. constructor.
    + destruct (list_eq_dec Z.eq_dec (FullForm.value_ head) Rule); [exact I |].
      destruct (list_eq_dec Z.eq_dec (FullForm.value_ head) RuleDelayed);
        exact I.
    + apply Forall_flat_map. exact IH.
Qed.

Lemma string_text_at (type : WXF_HEAD) (str pre post : list Z) :
  is_textual_head type = true ->
  token_text (pre ++ item_bytes (PushString type str) ++ post)
    (Token.make type (Z.of_nat (length str))
       (Z.of_nat (length pre) + 1 + varint_length (Z.of_nat (length str))))
  = Ok str.
Proof.
  intros Hty. unfold token_text.
  assert (Hview : Token.get_string_view
                    (Token.make type (Z.of_nat (length str))
                       (Z.of_nat (length pre) + 1
                        + varint_length (Z.of_nat (length str))))
                  = (Some (Z.of_nat (length pre) + 1
                           + varint_length (Z.of_nat (length str))),
                     Z.of_nat (length str))).
  { unfold Token.get_string_view, Token.make, Token.length.
    cbn [Token.type Token.data Token.content].
    destruct type; try discriminate Hty; reflexivity. }
  rewrite Hview, item_bytes_string.
  pose proof (view_bytes_at pre
                (head_value type
                 :: varint_groups (u64 (Z.of_nat (length str)))) str post
                (Z.of_nat (length str)) eq_refl) as H.
  cbn [length] in H. rewrite Nat2Z.inj_succ in H.
  unfold varint_length.
  replace (Z.of_nat (length pre) + 1
           + Z.of_nat (length (varint_groups (u64 (Z.of_nat (length str))))))
    with (Z.of_nat (length pre)
          + Z.succ (Z.of_nat (length (varint_groups
                                        (u64 (Z.of_nat (length str)))))))
    by lia.
  rewrite <- H. f_equal. cbn [app]. now rewrite <- app_assoc.
Qed.

Lemma function_text_at (name : list Z) (n : Z) (pre post : list Z) :
  token_text (pre ++ item_bytes (PushFunction name n) ++ post)
    (Token.make symbol (Z.of_nat (length name))
       (Z.of_nat (length pre) + 1 + varint_length n + 1
        + varint_length (Z.of_nat (length name))))
  = Ok name.
Proof.
  unfold token_text, Token.get_string_view, Token.make, Token.length.
  cbn [Token.type Token.data Token.content WXF_HEAD_eqb orb].
  rewrite item_bytes_function.
  pose proof (view_bytes_at pre
                (head_value func :: varint_groups (u64 n)
                 ++ head_value symbol
                 :: varint_groups (u64 (Z.of_nat (length name)))) name post
                (Z.of_nat (length name)) eq_refl) as H.
  cbn [length] in H. rewrite length_app in H. cbn [length] in H.
  unfold varint_length.
  match goal with
  | |- view_bytes _ (Some ?a) _ = _ =>
      match type of H with
      | view_bytes _ (Some ?b) _ = _ => replace a with b by lia
      end
  end.
  rewrite <- H. f_equal.
  repeat first [rewrite <- app_assoc | progress cbn [app]]. reflexivity.
Qed.

Section Mirror.

Variable stod : list Z -> exception + Z.
Variable buf : list Z.
Variable toks : list Token.t.

Lemma args_mirrored (args : list FullForm.expression) :
  Forall (mirrored stod buf toks) args -> mirrored_args stod buf toks args.
Proof.
  induction 1 as [|a args Ha _ IH]; intros pre post tpre tpost Hbuf Htoks.
  - exists []. split; [apply subs_nil | constructor].
  - cbn [flat_map] in *.
    rewrite concat_map_app, <- app_assoc in Hbuf.
    rewrite tokens_of_items_app, <- app_assoc in Htoks.
    destruct (Ha pre _ tpre _ Hbuf Htoks) as (nd & Hnd & Hm).
    destruct (IH (pre ++ concat (map item_bytes (expr_items stod a))) post
                (tpre ++ tokens_of_items (Z.of_nat (length pre))
                           (expr_items stod a)) tpost)
      as (nds & Hnds & Hms).
    { now rewrite <- app_assoc. }
    { rewrite <- app_assoc, length_app, Nat2Z.inj_add. exact Htoks. }
    exists (nd :: nds). split; [| now constructor].
    rewrite tokens_of_items_app. apply subs_cons; [exact Hnd |].
    rewrite !length_app, !Nat2Z.inj_add in Hnds. exact Hnds.
Qed.

Lemma atom_mirrored (e : FullForm.expression) (it : item) (nd : Z -> ExprNode) :
  expr_items stod e = [it] ->
  (forall (pre post : list Z) (tpre tpost : list Token.t),
     buf = pre ++ item_bytes it ++ post ->
     toks = tpre ++ tokens_of_item (Z.of_nat (length pre)) it ++ tpost ->
     subexpr (Z.of_nat (length tpre))
       (tokens_of_item (Z.of_nat (length pre)) it) (nd (Z.of_nat (length tpre)))
     /\ mirrors stod buf toks e (nd (Z.of_nat (length tpre)))) ->
  mirrored stod buf toks e.
Proof.
  intros Hits H pre post tpre tpost Hbuf Htoks. rewrite Hits in *.
  cbn [map concat tokens_of_items] in *. rewrite app_nil_r in *.
  exists (nd (Z.of_nat (length tpre))).
  apply (H pre post tpre tpost); assumption.
Qed.

Lemma expr_mirrored (e : FullForm.expression) :
  wf_expr stod e -> mirrored stod buf toks e.
Proof.
  induction e as [head args IH] using expression_ind'. intros Hwf.
  inversion Hwf as [s v Hs | s v Hs Hv | s | s
                    | head' arg args' Hr Hd Hn Hargs | head' lhs rhs Hname Hl Hr];
    subst.
  - (* integer *)
    apply (atom_mirrored _ (PushInteger v)
             (fun i => mkExprNode i 0 [] (int_head (int_width v)))).
    { cbn. now rewrite Hs. }
    intros pre post tpre tpost Hbuf Htoks. cbn [tokens_of_item] in *.
    split.
    + apply (sub_leaf _ (Token.make (int_head (int_width v)) _ _)).
      destruct (int_width_cases v) as [[-> _] | [[-> _] | [[-> _] | [-> _]]]];
        reflexivity.
    + apply (mirrors_integer stod buf toks s v _
               (Token.make (int_head (int_width v)) (Z.of_nat (int_width v))
                  (Z.of_nat (length pre) + 1))).
      * exact Hs.
      * rewrite Htoks. apply token_at_app.
      * destruct (int_width_cases v) as [[-> _] | [[-> _] | [[-> _] | [-> _]]]];
          reflexivity.
      * rewrite Hbuf. apply get_integer_at;
          [apply (stoll_range s v Hs) | left; reflexivity].
  - (* real *)
    apply (atom_mirrored _ (PushReal v) (fun i => mkExprNode i 0 [] f64)).
    { cbn. now rewrite Hs. }
    intros pre post tpre tpost Hbuf Htoks. cbn [tokens_of_item] in *.
    split.
    + apply (sub_leaf _ (Token.make f64 8 _)). reflexivity.
    + apply (mirrors_real stod buf toks s v _
               (Token.make f64 8 (Z.of_nat (length pre) + 1))).
      * exact Hs.
      * rewrite Htoks. apply token_at_app.
      * reflexivity.
      * rewrite Hbuf. apply get_real_at; [exact Hv | left; reflexivity].
  - (* string *)
    apply (atom_mirrored _ (PushString string s)
             (fun i => mkExprNode i 0 [] string)).
    { reflexivity. }
    intros pre post tpre tpost Hbuf Htoks. cbn [tokens_of_item] in *.
    split.
    + apply (sub_leaf _ (Token.make string _ _)). reflexivity.
    + eapply mirrors_string.
      * rewrite Htoks. apply token_at_app.
      * reflexivity.
      * rewrite Hbuf. now apply string_text_at.
  - (* symbol *)
    apply (atom_mirrored _ (PushString symbol s)
             (fun i => mkExprNode i 0 [] symbol)).
    { reflexivity. }
    intros pre post tpre tpost Hbuf Htoks. cbn [tokens_of_item] in *.
    split.
    + apply (sub_leaf _ (Token.make symbol _ _)). reflexivity.
    + eapply mirrors_symbol.
      * rewrite Htoks. apply token_at_app.
      * reflexivity.
      * rewrite Hbuf. now apply string_text_at.
  - (* function *)
    assert (Hall : mirrored_args stod buf toks (arg :: args')).
    { apply args_mirrored. rewrite Forall_forall in *.
      intros a Ha. apply (IH a Ha), (Hargs a Ha). }
    intros pre post tpre tpost Hbuf Htoks.
    rewrite expr_items_args in *.
    destruct (list_eq_dec Z.eq_dec (FullForm.value_ head) Rule) as [? | _];
      [contradiction |].
    destruct (list_eq_dec Z.eq_dec (FullForm.value_ head) RuleDelayed)
      as [? | _]; [contradiction |].
    set (n := Z.of_nat (length (arg :: args'))) in *.
    set (name := FullForm.value_ head) in *.
    cbn [map concat tokens_of_items] in Hbuf, Htoks |- *.
    set (rest := flat_map (expr_items stod) (arg :: args')) in *.
    rewrite <- app_assoc in Hbuf.
    cbn [tokens_of_item app] in Htoks |- *.
    set (tkf := Token.make func n
                  (Z.of_nat (length pre) + 1 + varint_length n)) in *.
    set (hd := Token.make symbol (Z.of_nat (length name))
                 (Z.of_nat (length pre) + 1 + varint_length n + 1
                  + varint_length (Z.of_nat (length name)))) in *.
    destruct (Hall (pre ++ item_bytes (PushFunction name n)) post
                (tpre ++ [tkf; hd]) tpost) as (nds & Hnds & Hms).
    { now rewrite <- app_assoc. }
    { rewrite <- app_assoc, length_app, Nat2Z.inj_add. exact Htoks. }
    fold rest in Hnds.
    rewrite !length_app, !Nat2Z.inj_add in Hnds. cbn [length] in Hnds.
    pose proof (Forall2_length Hms) as Hlen.
    exists (mkExprNode (Z.of_nat (length tpre) + 1) (Z.of_nat (length nds)) nds
              func).
    split.
    + apply sub_func.
      * reflexivity.
      * unfold tkf, Token.length, Token.make. cbn [Token.content].
        subst n. now rewrite Hlen.
      * destruct nds; [discriminate Hlen | discriminate].
      * replace (Z.of_nat (length tpre) + 2)
          with (Z.of_nat (length tpre) + Z.of_nat 2) by lia. exact Hnds.
    + rewrite <- Hlen.
      apply (mirrors_function stod buf toks head (arg :: args') _ hd nds).
      * discriminate.
      * assumption.
      * assumption.
      * rewrite Htoks.
        replace (tpre ++ tkf :: hd
                      :: tokens_of_items
                           (Z.of_nat (length pre)
                            + Z.of_nat (length (item_bytes (PushFunction name n))))
                           rest ++ tpost)
          with ((tpre ++ [tkf]) ++ hd
                :: tokens_of_items
                     (Z.of_nat (length pre)
                      + Z.of_nat (length (item_bytes (PushFunction name n))))
                     rest ++ tpost)
          by (now rewrite <- app_assoc).
        replace (Z.of_nat (length tpre) + 1)
          with (Z.of_nat (length (tpre ++ [tkf])))
          by (rewrite length_app; cbn [length]; lia).
        apply token_at_app.
      * reflexivity.
      * rewrite Hbuf. apply function_text_at.
      * exact Hms.
  - (* rule *)
    assert (Hall : mirrored_args stod buf toks [lhs; rhs]).
    { apply args_mirrored. rewrite Forall_forall in *.
      intros a Ha. apply (IH a Ha).
      destruct Ha as [<- | [<- | []]]; assumption. }
    intros pre post tpre tpost Hbuf Htoks.
    rewrite expr_items_args in *.
    set (it := if list_eq_dec Z.eq_dec (FullForm.value_ head) Rule then PushRule
               else if list_eq_dec Z.eq_dec (FullForm.value_ head) RuleDelayed
                    then PushDelayRule
                    else PushFunction (FullForm.value_ head)
                           (Z.of_nat (length [lhs; rhs]))) in *.
    set (ty := if list_eq_dec Z.eq_dec (FullForm.value_ head) Rule then rule
               else delay_rule).
    assert (Hit : tokens_of_item (Z.of_nat (length pre)) it
                  = [Token.make ty 2 (Z.of_nat (length pre) + 1)]
                  /\ is_rule ty = true).
    { subst it ty.
      destruct (list_eq_dec Z.eq_dec (FullForm.value_ head) Rule);
        [split; reflexivity |].
      destruct (list_eq_dec Z.eq_dec (FullForm.value_ head) RuleDelayed);
        [split; reflexivity | tauto]. }
    destruct Hit as [Hit Hrule].
    cbn [map concat tokens_of_items] in Hbuf, Htoks |- *.
    set (rest := flat_map (expr_items stod) [lhs; rhs]) in *.
    rewrite <- app_assoc in Hbuf.
    rewrite Hit in Htoks |- *. cbn [app] in Htoks |- *.
    destruct (Hall (pre ++ item_bytes it) post
                (tpre ++ [Token.make ty 2 (Z.of_nat (length pre) + 1)]) tpost)
      as (nds & Hnds & Hms).
    { now rewrite <- app_assoc. }
    { rewrite <- app_assoc, length_app, Nat2Z.inj_add. exact Htoks. }
    fold rest in Hnds.
    rewrite !length_app, !Nat2Z.inj_add in Hnds. cbn [length] in Hnds.
    inversion Hms as [|? l ? ? Hml Hms']; subst.
    inversion Hms' as [|? r ? ? Hmr Hms'']; subst.
    inversion Hms''; subst.
    exists (mkExprNode (Z.of_nat (length tpre)) 2 [l; r] ty).
    split.
    + apply (sub_rule _ (Token.make ty 2 (Z.of_nat (length pre) + 1)));
        [exact Hrule | reflexivity | exact Hnds].
    + apply mirrors_rule; assumption.
Qed.

End Mirror.

Lemma tokens_le_bytes (its : list item) (o : Z) :
  Forall valid_item its ->
  (length (tokens_of_items o its) <= length (concat (map item_bytes its)))%nat.
Proof.
  intros Hv. revert o. induction Hv as [|it its Hit _ IH]; intros o; [cbn; lia |].
  cbn [tokens_of_items map concat]. rewrite !length_app.
  specialize (IH (o + Z.of_nat (length (item_bytes it)))).
  assert (length (tokens_of_item o it) <= length (item_bytes it))%nat; [| lia].
  pose proof (item_bytes_nonempty it Hit) as Hne.
  destruct it; try exact Hne.
  rewrite item_bytes_function. cbn [tokens_of_item length].
  rewrite length_app. cbn [length]. lia.
Qed.

(** [MakeExprTree] on the tokens of one well-formed sub-expression whose
    first token is not an association or a rule. *)
Lemma MakeExprTree_subexpr (heap : Z -> bool) (toks : list Token.t) (nd : ExprNode)
    (buf : list Z) (pos size : Z) (cerr : list diag) :
  subexpr 0 toks nd ->
  serves heap (node_bytes (Z.of_nat (length toks))) ->
  (forall tk rest, toks = tk :: rest ->
     Token.type tk <> association /\ is_rule (Token.type tk) = false) ->
  MakeExprTree heap (Parser.mk buf pos size 0 toks) cerr
  = Ok (mkExprTree toks nd, cerr).
Proof.
  intros Hsub Hserves Hfirst.
  pose proof (tokens_small heap toks Hserves) as Hsmall.
  inversion Hsub as
    [i tk Hleaf | i tk hd toks' nds Hty Hlen Hne Hsubs
    | i tk toks' nds Hty | i tk toks' nds Hrule]; subst.
  - unfold MakeExprTree, run_loop, find_root.
    cbn [Parser.err Parser.tokens Z.eqb negb token_at Z.ltb Z.compare Z.to_nat
         nth_error bind].
    unfold is_leaf, is_func_or_assoc in Hleaf.
    destruct (Token.type tk); try discriminate Hleaf; reflexivity.
  - set (tokens := tk :: hd :: toks') in *.
    set (n := length nds) in *.
    assert (Hn : (1 <= n)%nat) by (subst n; destruct nds; [contradiction | cbn; lia]).
    assert (Hle : (n <= length tokens)%nat).
    { pose proof (proj2 subexpr_length _ _ _ Hsubs) as Hle.
      subst tokens n. cbn [length]. lia. }
    assert (Hmax : Z.of_nat n <= MAX_ALLOC) by lia.
    destruct (proj2 (loop_builds heap tokens Hserves) 2 toks' nds Hsubs
                [tk; hd] [] (mkExprNode 1 (Z.of_nat n) (repeat default_node n) func)
                [] [] [] 1 n func [])
      as (rt' & m & Hassign & Hm & Hloop).
    { subst tokens. now rewrite app_nil_r. }
    { reflexivity. }
    { exact Hmax. }
    { cbn [node_at app length]. now rewrite Nat.sub_0_r. }
    { cbn [length]. lia. }
    { cbn [length]. subst n. lia. }
    cbn [assign_at app length] in Hassign, Hloop.
    injection Hassign as <-.
    rewrite Nat.sub_0_r in Hloop.
    change (0 + length nds)%nat with (length nds) in Hloop.
    change (Z.of_nat 0) with 0 in Hloop.
    assert (Hrun : run_loop heap tokens
                   = loop heap tokens (length tokens)
                       (mkBuilder 2
                          (mkExprNode 1 (Z.of_nat n) (repeat default_node n) func)
                          [([] : node_ptr)] [0])).
    { unfold run_loop, find_root. subst tokens. cbn [token_at Z.ltb Z.compare
        Z.to_nat nth_error bind].
      rewrite Hty. cbn [WXF_HEAD_eqb]. rewrite Hlen.
      change (0 + 1) with 1. change (0 + 2) with 2. fold n.
      rewrite new_node_slots;
        [reflexivity | lia | exact Hmax
        | exact (slots_served heap (tk :: hd :: toks') Hserves n Hle)]. }
    assert (Hfuel : length tokens = (m + (length tokens - m))%nat)
      by (subst tokens; cbn [length]; lia).
    assert (Hpos : 2 + Z.of_nat (length toks') = Z.of_nat (length tokens))
      by (subst tokens; cbn [length]; lia).
    unfold MakeExprTree. cbn [Parser.err Parser.tokens Z.eqb negb].
    rewrite Hrun.
    replace (n - length nds)%nat with 0%nat in Hloop by (subst n; lia).
    cbn [repeat] in Hloop. rewrite app_nil_r in Hloop.
    specialize (Hloop (length tokens - m)%nat). rewrite <- Hfuel in Hloop.
    rewrite Hloop.
    destruct (Nat.ltb_spec (length nds) n); [subst n; lia |].
    cbn [move_to_next_node bind]. rewrite loop_end by (cbn [b_pos]; lia).
    cbn [bind node_stack b_root]. reflexivity.
  - destruct (Hfirst tk toks' eq_refl) as [Hna _]. contradiction.
  - destruct (Hfirst tk toks' eq_refl) as [_ Hnr]. congruence.
Qed.

Lemma root_tokens (stod : list Z -> exception + Z) (e : FullForm.expression)
    (o : Z) :
  wf_expr stod e -> root_expr e ->
  forall tk rest,
    tokens_of_items o (expr_items stod e) = tk :: rest ->
    Token.type tk <> association /\ is_rule (Token.type tk) = false.
Proof.
  intros Hwf Hroot tk rest.
  inversion Hwf as [s v Hs | s v Hs Hv | s | s
                    | head' arg args' Hr Hd Hn Hargs | head' lhs rhs Hname Hl Hr];
    subst.
  - cbn. rewrite Hs. cbn. intros [= <- _]. cbn [Token.type].
    destruct (int_width_cases v) as [[-> _] | [[-> _] | [[-> _] | [-> _]]]];
      split; (discriminate || reflexivity).
  - cbn. rewrite Hs. cbn. intros [= <- _]. split; (discriminate || reflexivity).
  - cbn. intros [= <- _]. split; (discriminate || reflexivity).
  - cbn. intros [= <- _]. split; (discriminate || reflexivity).
  - rewrite expr_items_args.
    destruct (list_eq_dec Z.eq_dec (FullForm.value_ head') Rule) as [? | _];
      [contradiction |].
    destruct (list_eq_dec Z.eq_dec (FullForm.value_ head') RuleDelayed)
      as [? | _]; [contradiction |].
    cbn [tokens_of_items tokens_of_item app]. intros [= <- _].
    split; (discriminate || reflexivity).
  - destruct Hroot as [Hnil | [Hn1 Hn2]]; [discriminate Hnil |].
    cbn [FullForm.head_] in Hn1, Hn2. tauto.
Qed.

Lemma fullform_tree (heap : Z -> bool) (stod : list Z -> exception + Z)
    (map : list Z -> option (Encoder.t -> Encoder.t))
    (e : FullForm.expression) (fuel : nat) :
  wf_expr stod e ->
  root_expr e ->
  let r := fullform_to_wxf stod map e (Encoder.mk [56; 58], []) in
  let buf := Encoder.buffer (fst (fst r)) in
  serves heap (node_bytes (Z.of_nat (length buf))) ->
  (length buf <= fuel)%nat ->
  r = ((Encoder.mk buf, []), None)
  /\ exists (toks : list Token.t) (nd : ExprNode),
       MakeExprTree_bytes heap fuel buf [] = Ok (mkExprTree toks nd, [])
       /\ mirrors stod buf toks e nd.
Proof.
  intros Hwf Hroot r buf Hserves Hfuel.
  assert (Hr : r = ((Encoder.mk ([56; 58]
                                 ++ concat (List.map item_bytes
                                              (expr_items stod e))), []), None))
    by (subst r; now rewrite fullform_items).
  assert (Hbuf : buf = [56; 58] ++ concat (List.map item_bytes (expr_items stod e)))
    by (subst buf; now rewrite Hr).
  split; [now rewrite Hr, Hbuf |].
  clearbody buf. clear r Hr.
  set (its := expr_items stod e) in *.
  pose proof (wf_items_valid stod e Hwf) as Hvalid. fold its in Hvalid.
  destruct (wf_items_last stod e (PushInteger 0) Hwf) as (_ & Hl1 & Hl2).
  fold its in Hl1, Hl2.
  assert (Hcount : (length (tokens_of_items 0 its) <= fuel)%nat).
  { pose proof (tokens_le_bytes its 0 Hvalid) as Hle.
    rewrite Hbuf, length_app in Hfuel. lia. }
  assert (H64 : Z.of_nat (length buf) < 2 ^ 64).
  { pose proof (serves_bound heap _ Hserves ltac:(unfold node_bytes; lia)) as Hb.
    unfold node_bytes, PTRDIFF_MAX in Hb. lia. }
  pose proof (parse_item_bytes heap its buf fuel [] Hbuf Hvalid
                (expr_items_served heap stod e) H64 Hl1 Hl2 Hcount) as Hparse.
  destruct (expr_mirrored stod buf (tokens_of_items 2 its) e Hwf
              [56; 58] [] [] []) as (nd & Hsub & Hm).
  { fold its. now rewrite app_nil_r. }
  { fold its. now rewrite app_nil_r. }
  fold its in Hsub. cbn [length] in Hsub.
  change (Z.of_nat 2) with 2 in Hsub. change (Z.of_nat 0) with 0 in Hsub.
  exists (tokens_of_items 2 its), nd. split; [| exact Hm].
  unfold MakeExprTree_bytes. rewrite Hparse. cbn [bind].
  apply MakeExprTree_subexpr.
  - exact Hsub.
  - apply (serves_le heap _ _ Hserves). unfold node_bytes.
    rewrite (length_tokens_of_items 2 0).
    pose proof (tokens_le_bytes its 0 Hvalid) as Hle.
    rewrite Hbuf, length_app. lia.
  - apply (root_tokens stod e 2 Hwf Hroot).
Qed.

(** X15. From a template to its tree and back. Let a template consist of
    integer and real atoms whose text converts, strings, symbols,
    functions of one or more arguments and rules of two sides, its root
    being an atom or a function. [fullform_to_wxf] on an encoder that holds
    the header throws nothing and writes nothing to [std::cerr]; when the
    allocator serves a child array of as many nodes as the buffer it leaves
    has bytes, [MakeExprTree] on that buffer returns, with nothing
    reported, a tree that mirrors the template: every function node has
    the arity of its template, its token
    is the head symbol whose text is the function name, the children
    follow the arguments in order, and the getters on the token of every
    atom node return the integer, the real, or the text of the atom. *)
Theorem fullform_roundtrip (heap : Z -> bool) (stod : list Z -> exception + Z)
    (map : list Z -> option (Encoder.t -> Encoder.t))
    (e : FullForm.expression) (fuel : nat) :
  wf_expr stod e ->
  root_expr e ->
  let r := fullform_to_wxf stod map e (Encoder.mk [56; 58], []) in
  let buf := Encoder.buffer (fst (fst r)) in
  serves heap (node_bytes (Z.of_nat (length buf))) ->
  (length buf <= fuel)%nat ->
  r = ((Encoder.mk buf, []), None)
  /\ exists (toks : list Token.t) (nd : ExprNode),
       MakeExprTree_bytes heap fuel buf [] = Ok (mkExprTree toks nd, [])
       /\ mirrors stod buf toks e nd.
Proof. apply fullform_tree. Qed.

Lemma fullform_roundtrip_witness :
  let stod := fun _ : list Z => @inl exception Z invalid_argument in
  let e :=
    FullForm.mk_expression (FullForm.mk_atom FullForm.Symbol [102])
      [FullForm.mk_expression (FullForm.mk_atom FullForm.Integer [45; 55]) [];
       FullForm.mk_expression (FullForm.mk_atom FullForm.Symbol Rule)
         [FullForm.mk_expression (FullForm.mk_atom FullForm.Symbol [120]) [];
          FullForm.mk_expression (FullForm.mk_atom FullForm.String [97]) []]] in
  let buf := [56; 58; 102; 2; 115; 1; 102; 67; 249; 45; 115; 1; 120; 83; 1; 97] in
  wf_expr stod e
  /\ fullform_to_wxf stod (fun _ => None) e (Encoder.mk [56; 58], [])
     = ((Encoder.mk buf, []), None)
  /\ exists (toks : list Token.t) (nd : ExprNode),
       MakeExprTree_bytes small_heap 16 buf [] = Ok (mkExprTree toks nd, [])
       /\ mirrors stod buf toks e nd.
Proof.
  intros stod e buf.
  assert (Hwf : wf_expr stod e).
  { apply wf_function; [discriminate | discriminate | cbn; lia |].
    apply Forall_cons; [| apply Forall_cons; [| apply Forall_nil]].
    - apply (wf_integer stod [45; 55] (-7)). reflexivity.
    - apply wf_rule; [left; reflexivity | apply wf_symbol | apply wf_string]. }
  split; [exact Hwf |].
  refine (fullform_roundtrip small_heap stod (fun _ => None) e 16 Hwf _ _ _).
  - right. split; discriminate.
  - apply serves_small_heap. vm_compute. discriminate.
  - vm_compute. lia.
Defined.

(** ** Templates with a null argument *)

(** X16. A null first argument empties the call. When the first argument
    of a function template is the null atom (what the template parser puts
    in [f[]], and what it returns for an argument it cannot read),
    [fullform_to_wxf] emits the function with the count 0 and none of its
    arguments, whatever follows the null atom. The bytes it leaves are not
    read back as a tree: [MakeExprTree] never closes a function of arity 0,
    so it reports that not all nodes are parsed and returns a root that
    [clear()] has reset. *)
Theorem fullform_null_argument (heap : Z -> bool) (stod : list Z -> exception + Z)
    (map : list Z -> option (Encoder.t -> Encoder.t))
    (head : FullForm.atom_expression) (v : list Z)
    (rest : list FullForm.expression) (fuel : nat) :
  let e := FullForm.mk_expression head
             (FullForm.mk_expression (FullForm.mk_atom FullForm.Null v) []
              :: rest) in
  let r := fullform_to_wxf stod map e (Encoder.mk [56; 58], []) in
  let buf := Encoder.buffer (fst (fst r)) in
  FullForm.value_ head <> Rule ->
  FullForm.value_ head <> RuleDelayed ->
  Z.of_nat (length buf) < 2 ^ 64 ->
  (2 <= fuel)%nat ->
  r = ((Encoder.push_function (Encoder.mk [56; 58]) (FullForm.value_ head) 0, []),
       None)
  /\ exists tk hd : Token.t,
       Token.type tk = func /\ Token.length tk = 0
       /\ MakeExprTree_bytes heap fuel buf []
          = Ok (mkExprTree [tk; hd] default_node, [NotAllNodesParsed]).
Proof.
  intros e r buf Hr Hd Hsmall Hfuel.
  assert (Hres : r = ((Encoder.push_function (Encoder.mk [56; 58])
                         (FullForm.value_ head) 0, []), None)).
  { subst r e. rewrite fullform_to_wxf_args. cbv zeta.
    cbn [FullForm.is_atom FullForm.args_ FullForm.head_ FullForm.type_ length
         Nat.eqb andb].
    destruct (list_eq_dec Z.eq_dec (FullForm.value_ head) Rule) as [? | _];
      [contradiction |].
    destruct (list_eq_dec Z.eq_dec (FullForm.value_ head) RuleDelayed)
      as [? | _]; [contradiction |].
    reflexivity. }
  split; [exact Hres |].
  assert (Hbuf : buf = [56; 58]
                       ++ concat (List.map item_bytes
                                    [PushFunction (FullForm.value_ head) 0])).
  { subst buf. rewrite Hres. cbn [fst List.map concat]. rewrite app_nil_r.
    exact (push_item_buffer (Encoder.mk [56; 58]) []
             (PushFunction (FullForm.value_ head) 0)). }
  clearbody buf. clear r Hres.
  pose proof (parse_item_bytes heap [PushFunction (FullForm.value_ head) 0] buf
                fuel [] Hbuf ltac:(repeat constructor; cbn; lia)
                ltac:(repeat constructor) Hsmall
                ltac:(discriminate) ltac:(discriminate)
                ltac:(cbn [tokens_of_items tokens_of_item app length]; lia))
    as Hparse.
  cbn [tokens_of_items tokens_of_item app] in Hparse.
  eexists _, _. split; [| split];
    [| | unfold MakeExprTree_bytes; rewrite Hparse; reflexivity]; reflexivity.
Qed.

Lemma fullform_null_argument_witness :
  let stod := fun _ : list Z => @inl exception Z invalid_argument in
  let e :=
    FullForm.mk_expression (FullForm.mk_atom FullForm.Symbol [102])
      [FullForm.mk_expression (FullForm.mk_atom FullForm.Null []) [];
       FullForm.mk_expression (FullForm.mk_atom FullForm.Integer [49]) []] in
  fullform_to_wxf stod (fun _ => None) e (Encoder.mk [56; 58], [])
  = ((Encoder.mk [56; 58; 102; 0; 115; 1; 102], []), None)
  /\ MakeExprTree_bytes small_heap 2 [56; 58; 102; 0; 115; 1; 102] []
     = Ok (mkExprTree [Token.make func 0 4; Token.make symbol 1 6] default_node,
           [NotAllNodesParsed]).
Proof.
  intros stod e.
  destruct (fullform_null_argument small_heap stod (fun _ => None)
              (FullForm.mk_atom FullForm.Symbol [102]) []
              [FullForm.mk_expression (FullForm.mk_atom FullForm.Integer [49]) []]
              2 ltac:(discriminate) ltac:(discriminate)
              ltac:(vm_compute; reflexivity) ltac:(lia))
    as (Hr & _).
  split; [exact Hr | reflexivity].
Defined.

(** ** What a template appends *)

Lemma appended_appended (enc e1 : Encoder.t) (cerr c1 : list ff_diag)
    (r : (Encoder.t * list ff_diag) * option exception) :
  appended enc cerr (appended e1 c1 r)
  = appended (Encoder.mk (Encoder.buffer enc ++ Encoder.buffer e1)) (cerr ++ c1) r.
Proof.
  destruct r as [[e0 c0] x]. unfold appended. cbn [Encoder.buffer].
  now rewrite !app_assoc.
Qed.

Lemma appended_nil (enc : Encoder.t) (cerr : list ff_diag)
    (x : option exception) :
  appended enc cerr ((Encoder.mk [], []), x) = ((enc, cerr), x).
Proof.
  unfold appended. cbn [Encoder.buffer]. rewrite !app_nil_r.
  now rewrite <- encoder_eta.
Qed.

Lemma appended_push (enc : Encoder.t) (cerr : list ff_diag) (it : item)
    (x : option exception) :
  appended enc cerr ((fst (push_item (Encoder.mk [], []) it), []), x)
  = ((fst (push_item (enc, []) it), cerr), x).
Proof.
  unfold appended. rewrite app_nil_r.
  rewrite (encoder_eta (fst (push_item (enc, []) it))).
  rewrite (push_item_buffer enc [] it). reflexivity.
Qed.

Section Appends.

Variable stod : list Z -> exception + Z.
Variable map : list Z -> option (Encoder.t -> Encoder.t).
Hypothesis map_appends :
  forall key f enc,
    map key = Some f ->
    f enc = Encoder.mk (Encoder.buffer enc ++ Encoder.buffer (f (Encoder.mk []))).

Lemma for_each_appends (args : list FullForm.expression) :
  Forall (fun a => forall enc cerr,
            fullform_to_wxf stod map a (enc, cerr)
            = appended enc cerr
                (fullform_to_wxf stod map a (Encoder.mk [], []))) args ->
  forall enc cerr,
    for_each (fullform_to_wxf stod map) args (enc, cerr)
    = appended enc cerr
        (for_each (fullform_to_wxf stod map) args (Encoder.mk [], [])).
Proof.
  induction 1 as [|a args Ha _ IH]; intros enc cerr.
  - cbn [for_each]. now rewrite appended_nil.
  - cbn [for_each]. rewrite Ha.
    change (fix loop (l : list FullForm.expression)
                (st : Encoder.t * list ff_diag) {struct l} :=
              match l with
              | [] => (st, None)
              | a0 :: l' =>
                  match fullform_to_wxf stod map a0 st with
                  | (st', None) => loop l' st'
                  | (st', Some x) => (st', Some x)
                  end
              end)
      with (for_each (fullform_to_wxf stod map)).
    destruct (fullform_to_wxf stod map a (Encoder.mk [], []))
      as [[e0 c0] [x |]]; cbn [appended].
    + reflexivity.
    + rewrite IH, (IH e0 c0), appended_appended. reflexivity.
Qed.

Lemma fullform_to_wxf_appends (e : FullForm.expression) :
  forall enc cerr,
    fullform_to_wxf stod map e (enc, cerr)
    = appended enc cerr (fullform_to_wxf stod map e (Encoder.mk [], [])).
Proof.
  induction e as [head args IH] using expression_ind'. intros enc cerr.
  destruct args as [|arg args].
  - cbn [fullform_to_wxf].
    destruct (FullForm.type_ head).
    + destruct (stoll (FullForm.value_ head)) as [x | v].
      * now rewrite appended_nil.
      * symmetry. apply (appended_push enc cerr (PushInteger v)).
    + destruct (stod (FullForm.value_ head)) as [x | v].
      * now rewrite appended_nil.
      * symmetry. apply (appended_push enc cerr (PushReal v)).
    + symmetry.
      apply (appended_push enc cerr (PushString string (FullForm.value_ head))).
    + symmetry.
      apply (appended_push enc cerr (PushString symbol (FullForm.value_ head))).
    + destruct (map (FullForm.value_ head)) as [f |] eqn:Ef.
      * cbn [appended]. rewrite app_nil_r.
        now rewrite (map_appends _ f enc Ef).
      * cbn [appended Encoder.buffer]. rewrite app_nil_r.
        now rewrite <- encoder_eta.
    + now rewrite appended_nil.
  - rewrite !fullform_to_wxf_args. cbv zeta.
    set (null0 := FullForm.is_atom arg
                  && match FullForm.type_ (FullForm.head_ arg) with
                     | FullForm.Null => true
                     | _ => false
                     end).
    set (len := if null0 then 0 else Z.of_nat (length (arg :: args))).
    set (it := if list_eq_dec Z.eq_dec (FullForm.value_ head) Rule then PushRule
               else if list_eq_dec Z.eq_dec (FullForm.value_ head) RuleDelayed
                    then PushDelayRule
                    else PushFunction (FullForm.value_ head) len).
    assert (Hit : forall enc',
               (if list_eq_dec Z.eq_dec (FullForm.value_ head) Rule
                then Encoder.push_rule enc'
                else if list_eq_dec Z.eq_dec (FullForm.value_ head) RuleDelayed
                     then Encoder.push_delay_rule enc'
                     else Encoder.push_function enc' (FullForm.value_ head) len)
               = fst (push_item (enc', []) it)).
    { intros enc'. subst it.
      destruct (list_eq_dec Z.eq_dec (FullForm.value_ head) Rule);
        [reflexivity |].
      destruct (list_eq_dec Z.eq_dec (FullForm.value_ head) RuleDelayed);
        reflexivity. }
    rewrite !Hit. destruct null0.
    + symmetry. apply appended_push.
    + rewrite (for_each_appends (arg :: args) IH).
      rewrite (for_each_appends (arg :: args) IH
                 (fst (push_item (Encoder.mk [], []) it)) []).
      rewrite appended_appended, app_nil_r.
      rewrite (encoder_eta (fst (push_item (enc, []) it))).
      rewrite (push_item_buffer enc [] it). reflexivity.
Qed.

End Appends.

(** X17. What a template appends does not depend on the encoder. For
    every template, ill-formed ones included, and every map from
    expression ids to encoders, [fullform_to_wxf] leaves the bytes that the
    encoder held and the lines that [std::cerr] held in place and appends
    to them what the same call appends to an empty encoder and an empty
    log; it throws in the one case if and only if it throws in the other,
    and then the bytes appended before the exception stay in the buffer. *)
Theorem fullform_to_wxf_append_only (stod : list Z -> exception + Z)
    (map : list Z -> option Encoder.t) (e : FullForm.expression)
    (enc : Encoder.t) (cerr : list ff_diag) :
  fullform_to_wxf_encoders stod map e (enc, cerr)
  = appended enc cerr
      (fullform_to_wxf_encoders stod map e (Encoder.mk [], [])).
Proof.
  unfold fullform_to_wxf_encoders. apply fullform_to_wxf_appends.
  intros key f enc' Hkey. destruct (map key) as [value |]; [| discriminate].
  injection Hkey as <-. reflexivity.
Qed.

(** ** The nodes of a tree and its token vector *)

Lemma subexpr_nodes_in :
  (forall i toks nd, subexpr i toks nd ->
     forall pre post, i = Z.of_nat (length pre) ->
       all_nodes (node_in (pre ++ toks ++ post)) nd)
  /\ (forall i toks nds, subexprs i toks nds ->
        forall pre post, i = Z.of_nat (length pre) ->
          Forall (all_nodes (node_in (pre ++ toks ++ post))) nds).
Proof.
  apply subexpr_subexprs_ind.
  - intros i tk Hleaf pre post ->. constructor; [| constructor].
    split; [reflexivity |]. exists tk. split; [| now right].
    cbn [node_index app]. apply token_at_app.
  - intros i tk hd toks nds Hty Hlen Hne Hsub IH pre post ->.
    constructor.
    + split; [reflexivity |]. exists hd. split; [| now left].
      cbn [node_index app].
      replace (pre ++ tk :: hd :: toks ++ post)
        with ((pre ++ [tk]) ++ hd :: toks ++ post) by (now rewrite <- app_assoc).
      replace (Z.of_nat (length pre) + 1) with (Z.of_nat (length (pre ++ [tk])))
        by (rewrite length_app; cbn [length]; lia).
      apply token_at_app.
    + cbn [node_children].
      specialize (IH (pre ++ [tk; hd]) post).
      rewrite <- app_assoc in IH. cbn [app] in IH |- *. apply IH.
      rewrite length_app. cbn [length]. lia.
  - intros i tk toks nds Hty Hlen Hne Hsub IH pre post ->.
    constructor.
    + split; [reflexivity |]. exists tk. split; [| now right].
      cbn [node_index app]. apply token_at_app.
    + cbn [node_children].
      specialize (IH (pre ++ [tk]) post).
      rewrite <- app_assoc in IH. cbn [app] in IH |- *. apply IH.
      rewrite length_app. cbn [length]. lia.
  - intros i tk toks nds Hrule Hlen Hsub IH pre post ->.
    constructor.
    + split; [cbn [node_size node_children]; now rewrite Hlen |].
      exists tk. split; [| now right].
      cbn [node_index app]. apply token_at_app.
    + cbn [node_children].
      specialize (IH (pre ++ [tk]) post).
      rewrite <- app_assoc in IH. cbn [app] in IH |- *. apply IH.
      rewrite length_app. cbn [length]. lia.
  - intros i pre post _. constructor.
  - intros i toks toks' nd nds Hsub IHnd Hsubs IHnds pre post ->.
    constructor.
    + rewrite <- app_assoc. now apply IHnd.
    + specialize (IHnds (pre ++ toks) post).
      rewrite <- !app_assoc in IHnds |- *. apply IHnds.
      rewrite length_app. lia.
Qed.

(** X18. The tree of a well-formed token list can be traversed. Let the
    tokens be one well-formed sub-expression that starts with a leaf or a
    function token, the allocator serving a child array of as many nodes as
    there are tokens. [MakeExprTree] returns the node of that
    sub-expression, with nothing reported, and in the tree it returns every
    node has as many children as its [size] says and an [index] inside the
    token vector; the token there has the type of the node, except for a
    function node, whose index is that of its head. *)
Theorem MakeExprTree_nodes_in_tokens (heap : Z -> bool) (toks : list Token.t)
    (nd : ExprNode) (buf : list Z) (pos size : Z) (cerr : list diag) :
  subexpr 0 toks nd ->
  serves heap (node_bytes (Z.of_nat (length toks))) ->
  (forall tk rest, toks = tk :: rest ->
     Token.type tk <> association /\ is_rule (Token.type tk) = false) ->
  MakeExprTree heap (Parser.mk buf pos size 0 toks) cerr
  = Ok (mkExprTree toks nd, cerr)
  /\ all_nodes (node_in toks) nd.
Proof.
  intros Hsub Hsmall Hfirst. split.
  - now apply MakeExprTree_subexpr.
  - pose proof (proj1 subexpr_nodes_in 0 toks nd Hsub [] [] eq_refl) as H.
    cbn [app] in H. now rewrite app_nil_r in H.
Qed.

Lemma MakeExprTree_nodes_in_tokens_witness :
  let toks := [Token.make func 2 4; Token.make symbol 1 6; Token.make i8 1 8;
               Token.make string 1 11] in
  let nd := mkExprNode 1 2 [mkExprNode 2 0 [] i8; mkExprNode 3 0 [] string] func in
  MakeExprTree_bytes small_heap 4 [56; 58; 102; 2; 115; 1; 102; 67; 1; 83; 1; 97] []
  = Ok (mkExprTree toks nd, [])
  /\ all_nodes (node_in toks) nd.
Proof.
  intros toks nd.
  assert (Hsub : subexpr 0 toks nd).
  { apply (sub_func 0 (Token.make func 2 4) (Token.make symbol 1 6)
             [Token.make i8 1 8; Token.make string 1 11]
             [mkExprNode 2 0 [] i8; mkExprNode 3 0 [] string]);
      [reflexivity | reflexivity | discriminate |].
    apply (subs_cons 2 [Token.make i8 1 8] [Token.make string 1 11]).
    - apply (sub_leaf 2 (Token.make i8 1 8)). reflexivity.
    - apply (subs_cons 3 [Token.make string 1 11] []).
      + apply (sub_leaf 3 (Token.make string 1 11)). reflexivity.
      + apply subs_nil. }
  refine (MakeExprTree_nodes_in_tokens small_heap toks nd
            [56; 58; 102; 2; 115; 1; 102; 67; 1; 83; 1; 97] 12 12 [] Hsub _ _).
  - apply serves_small_heap. vm_compute. discriminate.
  - intros tk rest [= <- _]. split; [discriminate | reflexivity].
Defined.

(** ** The lexer on the text of an expression *)

Lemma skip_ws_run (ws r : list Z) (pos : nat) :
  forallb isspace ws = true ->
  match r with [] => True | c :: _ => isspace c = false end ->
  lexer.skip_ws (lexer.mk pos (ws ++ r)) = lexer.mk (pos + length ws) r.
Proof.
  unfold lexer.skip_ws. cbn [lexer.rest_ lexer.position_].
  revert pos. induction ws as [|w ws IH]; intros pos Hws Hr.
  - cbn [app length]. rewrite Nat.add_0_r.
    destruct r as [|c r]; [reflexivity |]. cbn [lexer.skip_ws_from].
    now rewrite Hr.
  - cbn [forallb] in Hws. apply andb_true_iff in Hws as [Hw Hws].
    cbn [app lexer.skip_ws_from length]. rewrite Hw, IH by assumption.
    f_equal. lia.
Qed.

Lemma scan_run (p : Z -> bool) (run r : list Z) (pos : nat) (value : list Z) :
  forallb p run = true ->
  match r with [] => True | c :: _ => p c = false end ->
  lexer.scan p (lexer.mk pos (run ++ r)) value
  = (lexer.mk (pos + length run) r, value ++ run).
Proof.
  unfold lexer.scan. cbn [lexer.rest_ lexer.position_].
  revert pos value. induction run as [|c run IH]; intros pos value Hrun Hr.
  - cbn [app length]. rewrite Nat.add_0_r, app_nil_r.
    destruct r as [|c r]; [reflexivity |]. cbn [lexer.scan_from].
    now rewrite Hr.
  - cbn [forallb] in Hrun. apply andb_true_iff in Hrun as [Hc Hrun].
    cbn [app lexer.scan_from length]. rewrite Hc, IH by assumption.
    rewrite <- app_assoc. cbn [app]. do 2 f_equal. lia.
Qed.

Lemma scan_string_run (run r : list Z) (pos : nat) (value : list Z) :
  forallb (fun c => negb ((c =? 34) || (c =? 92) || (c =? 123) || (c =? 125)))
    run = true ->
  lexer.scan_string (lexer.mk pos (run ++ 34 :: r)) value
  = (lexer.mk (pos + length run) (34 :: r), value ++ run).
Proof.
  unfold lexer.scan_string. cbn [lexer.rest_ lexer.position_].
  revert pos value. induction run as [|c run IH]; intros pos value Hrun.
  - cbn [app length lexer.scan_string_from]. rewrite Nat.add_0_r, app_nil_r.
    reflexivity.
  - cbn [forallb] in Hrun. apply andb_true_iff in Hrun as [Hc Hrun].
    apply negb_true_iff in Hc.
    apply orb_false_iff in Hc as [Hc _]. apply orb_false_iff in Hc as [Hc _].
    apply orb_false_iff in Hc as [Hq Hb].
    cbn [app lexer.scan_string_from length]. rewrite Hq.
    destruct (run ++ 34 :: r) as [|next rest''] eqn:E.
    { destruct run; discriminate E. }
    rewrite Hb, IH by assumption.
    rewrite <- app_assoc. cbn [app]. do 2 f_equal. lia.
Qed.

(** The tests of [nextToken] on the first character of a token. *)
Ltac char_tests :=
  unfold lexer.ident_char, isalnum, isalpha, isdigit, isspace in *;
  repeat match goal with
         | H : _ && _ = true |- _ => apply andb_true_iff in H as [? ?]
         | H : _ || _ = true |- _ => apply orb_true_iff in H
         | H : _ \/ _ |- _ => destruct H
         | H : (_ <=? _) = true |- _ => apply Z.leb_le in H
         | H : (_ =? _) = true |- _ => apply Z.eqb_eq in H
         end;
  repeat match goal with
         | |- context [?a <=? ?b] => destruct (Z.leb_spec a b)
         | |- context [?a =? ?b] => destruct (Z.eqb_spec a b)
         end;
  cbn [andb orb negb]; try lia; try reflexivity; try discriminate.

Lemma delimited_not_ident (post : list Z) :
  delimited post ->
  match post with [] => True | c :: _ => lexer.ident_char c = false end.
Proof.
  destruct post as [|c post]; [trivial |]. cbn [delimited].
  intros [-> | [-> | ->]]; reflexivity.
Qed.

Lemma delimited_not_digit (post : list Z) :
  delimited post ->
  match post with [] => True | c :: _ => isdigit c = false end.
Proof.
  destruct post as [|c post]; [trivial |]. cbn [delimited].
  intros [-> | [-> | ->]]; reflexivity.
Qed.

Lemma nextToken_symbol (c : Z) (cs ws post : list Z) (pos : nat)
    (cerr : list ff_diag) :
  isalpha c || (c =? 36) = true ->
  forallb lexer.ident_char cs = true ->
  forallb isspace ws = true ->
  delimited post ->
  lexer.nextToken (lexer.mk pos (ws ++ (c :: cs) ++ post)) cerr
  = (lexer.mk_token lexer.IDENTIFIER (c :: cs) (pos + length ws),
     lexer.mk (pos + length ws + length (c :: cs)) post, cerr).
Proof.
  intros Hc Hcs Hws Hpost. unfold lexer.nextToken.
  rewrite skip_ws_run; [| assumption | cbn [app]; clear - Hc; char_tests].
  cbn [lexer.at_end lexer.rest_ app lexer.current_char lexer.position_].
  rewrite Hc.
  change (c :: cs ++ post) with ((c :: cs) ++ post).
  rewrite scan_run; [reflexivity | | now apply delimited_not_ident].
  cbn [forallb]. rewrite Hcs, andb_true_r. clear - Hc. char_tests.
Qed.

Lemma nextToken_label (cs ws post : list Z) (pos : nat) (cerr : list ff_diag) :
  forallb lexer.ident_char cs = true ->
  forallb isspace ws = true ->
  delimited post ->
  lexer.nextToken (lexer.mk pos (ws ++ (35 :: cs) ++ post)) cerr
  = (lexer.mk_token lexer.EXPRESSION (35 :: cs) (pos + length ws),
     lexer.mk (pos + length ws + length (35 :: cs)) post, cerr).
Proof.
  intros Hcs Hws Hpost. unfold lexer.nextToken.
  rewrite skip_ws_run; [| assumption | reflexivity].
  cbn [lexer.at_end lexer.rest_ app lexer.current_char lexer.position_].
  change (isalpha 35 || (35 =? 36)) with false. cbv iota.
  change (35 =? 35) with true. cbv iota.
  unfold lexer.advance. cbn [lexer.rest_ lexer.position_].
  rewrite scan_run; [| assumption | now apply delimited_not_ident].
  cbn [length app]. do 2 f_equal. f_equal. lia.
Qed.

Lemma digits_text_inv (ds : list Z) :
  digits_text ds = true ->
  exists d ds', ds = d :: ds' /\ isdigit d = true /\ forallb isdigit ds = true.
Proof.
  destruct ds as [|d ds']; [discriminate |]. intros H. exists d, ds'.
  cbn [digits_text] in H. split; [reflexivity |]. split; [| exact H].
  cbn [forallb] in H. now apply andb_true_iff in H as [H _].
Qed.

Lemma head_not_digit_app (l post : list Z) :
  match l with [] => True | c :: _ => isdigit c = false end ->
  match post with [] => True | c :: _ => isdigit c = false end ->
  match l ++ post with [] => True | c :: _ => isdigit c = false end.
Proof. destruct l; cbn [app]; auto. Qed.

Lemma exponent_head (x : list Z) :
  exponent_text x ->
  match x with [] => True | c :: _ => isdigit c = false /\ c <> 46 end.
Proof.
  intros [-> | (e & sg & ds & -> & He & _)]; [exact I |].
  destruct He as [-> | ->]; split; (reflexivity || discriminate).
Qed.

(** The exponent block on the text of an exponent. *)
Lemma number_exponent_text (x post value : list Z) (p start : nat)
    (hasDot : bool) (cerr : list ff_diag) :
  exponent_text x ->
  delimited post ->
  lexer.number_exponent (lexer.mk p (x ++ post)) cerr start hasDot value
  = (lexer.mk_token
       (match x with
        | [] => if hasDot then lexer.REAL else lexer.INTEGER
        | _ :: _ => lexer.REAL
        end) (value ++ x) start,
     lexer.mk (p + length x) post, cerr).
Proof.
  intros Hx Hpost. unfold lexer.number_exponent.
  pose proof (delimited_not_digit post Hpost) as Hnd.
  destruct Hx as [-> | (e & sg & ds & -> & He & Hsg & Hds)].
  - cbn [app length]. rewrite Nat.add_0_r, app_nil_r.
    assert (Hexp : negb (lexer.at_end (lexer.mk p post))
                   && ((lexer.current_char (lexer.mk p post) =? 101)
                       || (lexer.current_char (lexer.mk p post) =? 69)) = false).
    { destruct post as [|c post]; [reflexivity |].
      cbn [delimited] in Hpost. destruct Hpost as [-> | [-> | ->]]; reflexivity. }
    now rewrite Hexp.
  - destruct (digits_text_inv ds Hds) as (d & dt & Eds & Hd & Hall).
    cbn [app lexer.at_end lexer.rest_ lexer.current_char negb andb].
    assert (He' : (e =? 101) || (e =? 69) = true)
      by (destruct He as [-> | ->]; reflexivity).
    rewrite He'. cbv zeta.
    change (lexer.advance (lexer.mk p (e :: (sg ++ ds) ++ post)))
      with (lexer.mk (S p) ((sg ++ ds) ++ post)).
    assert (Hsign : (if negb (lexer.at_end (lexer.mk (S p) ((sg ++ ds) ++ post)))
                        && ((lexer.current_char
                               (lexer.mk (S p) ((sg ++ ds) ++ post)) =? 43)
                            || (lexer.current_char
                                  (lexer.mk (S p) ((sg ++ ds) ++ post)) =? 45))
                     then (lexer.advance (lexer.mk (S p) ((sg ++ ds) ++ post)),
                           (value ++ [e])
                           ++ [lexer.current_char
                                 (lexer.mk (S p) ((sg ++ ds) ++ post))])
                     else (lexer.mk (S p) ((sg ++ ds) ++ post), value ++ [e]))
                    = (lexer.mk (S p + length sg) (ds ++ post),
                       value ++ e :: sg)).
    { destruct Hsg as [-> | [-> | ->]].
      - cbn [app length]. rewrite Nat.add_0_r, Eds.
        cbn [app lexer.at_end lexer.rest_ lexer.current_char negb andb].
        assert (E : (d =? 43) || (d =? 45) = false) by (clear - Hd; char_tests).
        rewrite E. reflexivity.
      - cbn [app lexer.at_end lexer.rest_ lexer.current_char negb andb].
        change ((43 =? 43) || (43 =? 45)) with true. cbv iota.
        unfold lexer.advance. cbn [lexer.rest_ lexer.position_ length].
        rewrite <- app_assoc. do 2 f_equal. lia.
      - cbn [app lexer.at_end lexer.rest_ lexer.current_char negb andb].
        change ((45 =? 43) || (45 =? 45)) with true. cbv iota.
        unfold lexer.advance. cbn [lexer.rest_ lexer.position_ length].
        rewrite <- app_assoc. do 2 f_equal. lia. }
    rewrite Hsign.
    assert (Hfirst : lexer.at_end (lexer.mk (S p + length sg) (ds ++ post))
                     || negb (isdigit
                                (lexer.current_char
                                   (lexer.mk (S p + length sg) (ds ++ post))))
                     = false)
      by (rewrite Eds; cbn; now rewrite Hd).
    rewrite Hfirst, scan_run by assumption.
    rewrite <- app_assoc. cbn [app length]. rewrite length_app.
    replace (S p + length sg + length ds)%nat
      with (p + S (length sg + length ds))%nat by lia.
    reflexivity.
Qed.

(** The blocks after the sign on digits, a fraction and an exponent. *)
Lemma number_digits_text (ds f x post value : list Z) (p start : nat)
    (cerr : list ff_diag) :
  digits_text ds = true ->
  fraction_text f ->
  exponent_text x ->
  delimited post ->
  lexer.number_digits (lexer.mk p (ds ++ f ++ x ++ post)) cerr start value
  = (lexer.mk_token
       (match f, x with
        | [], [] => lexer.INTEGER
        | _, _ => lexer.REAL
        end) (value ++ ds ++ f ++ x) start,
     lexer.mk (p + length (ds ++ f ++ x)) post, cerr).
Proof.
  intros Hds Hf Hx Hpost. unfold lexer.number_digits.
  destruct (digits_text_inv ds Hds) as (d & dt & Eds & Hd & Hall).
  pose proof (delimited_not_digit post Hpost) as Hnd.
  pose proof (exponent_head x Hx) as Hxh.
  assert (Hxd : match x ++ post with
                | [] => True
                | c :: _ => isdigit c = false
                end).
  { apply head_not_digit_app; [| exact Hnd]. destruct x; tauto. }
  assert (Hx46 : negb (lexer.at_end (lexer.mk (p + length ds) (x ++ post)))
                 && (lexer.current_char (lexer.mk (p + length ds) (x ++ post))
                     =? 46) = false).
  { destruct x as [|c x].
    - destruct post as [|c post]; [reflexivity |].
      cbn [delimited] in Hpost. destruct Hpost as [-> | [-> | ->]]; reflexivity.
    - destruct Hxh as [_ Hne]. cbn. now apply Z.eqb_neq. }
  destruct Hf as [-> | (ds' & -> & Hds')].
  - cbn [app]. rewrite scan_run by assumption.
    rewrite Hx46, number_exponent_text by assumption.
    rewrite <- app_assoc. rewrite !length_app.
    replace (p + length ds + length x)%nat with (p + (length ds + length x))%nat
      by lia.
    destruct x; reflexivity.
  - cbn [app]. rewrite scan_run; [| assumption | reflexivity].
    cbn [lexer.at_end lexer.rest_ lexer.current_char negb andb].
    change (46 =? 46) with true. cbv iota.
    unfold lexer.advance. cbn [lexer.rest_ lexer.position_].
    rewrite scan_run by assumption.
    rewrite number_exponent_text by assumption.
    rewrite <- !app_assoc. cbn [app length]. rewrite !length_app. cbn [length].
    rewrite length_app.
    replace (S (p + length ds) + length ds' + length x)%nat
      with (p + (length ds + S (length ds' + length x)))%nat by lia.
    destruct x; reflexivity.
Qed.

(** The branch for a number on a sign, digits, a fraction and an
    exponent. *)
Lemma number_text (s ds f x post : list Z) (pos start : nat)
    (cerr : list ff_diag) (ch : Z) :
  (s = [] /\ isdigit ch = true) \/ (s = [45] /\ ch = 45) ->
  digits_text ds = true ->
  fraction_text f ->
  exponent_text x ->
  delimited post ->
  lexer.number (lexer.mk pos (s ++ ds ++ f ++ x ++ post)) cerr start ch
  = (lexer.mk_token
       (match f, x with
        | [], [] => lexer.INTEGER
        | _, _ => lexer.REAL
        end) (s ++ ds ++ f ++ x) start,
     lexer.mk (pos + length (s ++ ds ++ f ++ x)) post, cerr).
Proof.
  intros Hs Hds Hf Hx Hpost.
  destruct (digits_text_inv ds Hds) as (d & dt & Eds & Hd & Hall).
  unfold lexer.number.
  destruct Hs as [[-> Hch] | [-> ->]].
  - assert (E45 : (ch =? 45) = false) by (clear - Hch; char_tests).
    rewrite E45. cbn [app]. now apply number_digits_text.
  - change (45 =? 45) with true. cbv iota.
    unfold lexer.advance. cbn [app lexer.rest_ lexer.position_].
    assert (Hfirst : lexer.at_end (lexer.mk (S pos) (ds ++ f ++ x ++ post))
                     || negb (isdigit
                                (lexer.current_char
                                   (lexer.mk (S pos) (ds ++ f ++ x ++ post))))
                     = false)
      by (rewrite Eds; cbn; now rewrite Hd).
    rewrite Hfirst, number_digits_text by assumption.
    cbn [app length].
    replace (S pos + length (ds ++ f ++ x))%nat
      with (pos + S (length (ds ++ f ++ x)))%nat by lia.
    reflexivity.
Qed.

Lemma nextToken_number (s ds tail ws : list Z) (pos : nat)
    (cerr : list ff_diag) :
  s = [] \/ s = [45] ->
  digits_text ds = true ->
  forallb isspace ws = true ->
  exists ch,
    ((s = [] /\ isdigit ch = true) \/ (s = [45] /\ ch = 45))
    /\ lexer.nextToken (lexer.mk pos (ws ++ s ++ ds ++ tail)) cerr
       = lexer.number (lexer.mk (pos + length ws) (s ++ ds ++ tail)) cerr
           (pos + length ws) ch.
Proof.
  intros Hs Hds Hws.
  destruct (digits_text_inv ds Hds) as (d & ds' & Eds & Hd & Hall).
  exists (match s with [] => d | c :: _ => c end).
  unfold lexer.nextToken.
  destruct Hs as [-> | ->].
  - split; [now left |]. cbn [app]. rewrite Eds.
    rewrite skip_ws_run; [| assumption | cbn [app]; clear - Hd; char_tests].
    cbn [lexer.at_end lexer.rest_ app lexer.current_char lexer.position_].
    assert (E1 : isalpha d || (d =? 36) = false) by (clear - Hd; char_tests).
    assert (E2 : (d =? 35) = false) by (clear - Hd; char_tests).
    rewrite E1, E2, Hd. reflexivity.
  - split; [now right |].
    rewrite skip_ws_run; [| assumption | reflexivity].
    reflexivity.
Qed.

Lemma nextToken_string (v ws post : list Z) (pos : nat) (cerr : list ff_diag) :
  forallb (fun c => negb ((c =? 34) || (c =? 92) || (c =? 123) || (c =? 125)))
    v = true ->
  forallb isspace ws = true ->
  lexer.nextToken (lexer.mk pos (ws ++ ([34] ++ v ++ [34]) ++ post)) cerr
  = (lexer.mk_token lexer.STRING v (pos + length ws),
     lexer.mk (pos + length ws + length ([34] ++ v ++ [34])) post, cerr).
Proof.
  intros Hv Hws. unfold lexer.nextToken.
  rewrite skip_ws_run; [| assumption | reflexivity].
  cbn [lexer.at_end lexer.rest_ app lexer.current_char lexer.position_].
  change (isalpha 34 || (34 =? 36)) with false.
  change (34 =? 35) with false.
  change (isdigit 34 || (34 =? 46) || (34 =? 45)) with false.
  change (34 =? 34) with true. cbv iota.
  unfold lexer.advance at 1. cbn [lexer.rest_ lexer.position_].
  rewrite <- app_assoc. cbn [app].
  rewrite scan_string_run by assumption.
  cbn [lexer.at_end lexer.rest_ lexer.current_char orb negb].
  change (34 =? 34) with true. cbn [orb negb].
  unfold lexer.advance. cbn [lexer.rest_ lexer.position_ app].
  cbn [length]. rewrite length_app. cbn [length].
  do 2 f_equal. f_equal. lia.
Qed.

Lemma nextToken_bracket (c : Z) (ws r : list Z) (pos : nat)
    (cerr : list ff_diag) :
  c = 91 \/ c = 93 \/ c = 44 ->
  forallb isspace ws = true ->
  lexer.nextToken (lexer.mk pos (ws ++ c :: r)) cerr
  = (lexer.mk_token
       (if c =? 91 then lexer.LBRACKET
        else if c =? 93 then lexer.RBRACKET else lexer.COMMA)
       [c] (pos + length ws),
     lexer.mk (S (pos + length ws)) r, cerr).
Proof.
  intros Hc Hws. unfold lexer.nextToken.
  rewrite skip_ws_run;
    [| assumption | destruct Hc as [-> | [-> | ->]]; reflexivity].
  destruct Hc as [-> | [-> | ->]]; reflexivity.
Qed.

Lemma nextToken_end (ws : list Z) (pos : nat) (cerr : list ff_diag) :
  forallb isspace ws = true ->
  lexer.nextToken (lexer.mk pos ws) cerr
  = (lexer.mk_token lexer.END [] (pos + length ws),
     lexer.mk (pos + length ws) [], cerr).
Proof.
  intros Hws. unfold lexer.nextToken.
  pose proof (skip_ws_run ws [] pos Hws I) as H. rewrite app_nil_r in H.
  rewrite H. reflexivity.
Qed.

(** The lexer reads the text of an atom back as the token of the atom. *)
Lemma nextToken_atom (a : FullForm.atom_expression) (ws post : list Z)
    (pos : nat) (cerr : list ff_diag) :
  printable_atom a ->
  forallb isspace ws = true ->
  delimited post ->
  lexer.nextToken (lexer.mk pos (ws ++ atom_to_FullForm a ++ post)) cerr
  = (lexer.mk_token (atom_token (FullForm.type_ a)) (FullForm.value_ a)
       (pos + length ws),
     lexer.mk (pos + length ws + length (atom_to_FullForm a)) post, cerr).
Proof.
  destruct a as [ty v]. unfold printable_atom, atom_to_FullForm.
  cbn [FullForm.type_ FullForm.value_]. intros Ha Hws Hpost.
  destruct ty; cbn [atom_token].
  - destruct Ha as (s & ds & -> & Hs & Hds).
    destruct (nextToken_number s ds post ws pos cerr Hs Hds Hws)
      as (ch & Hch & E).
    rewrite <- app_assoc, E.
    pose proof (number_text s ds [] [] post (pos + length ws) (pos + length ws)
                  cerr ch Hch Hds (or_introl eq_refl) (or_introl eq_refl) Hpost)
      as H.
    cbn [app] in H. rewrite app_nil_r in H. exact H.
  - destruct Ha as (s & ds & f & x & -> & Hs & Hds & Hf & Hx & Hne).
    destruct (nextToken_number s ds (f ++ x ++ post) ws pos cerr Hs Hds Hws)
      as (ch & Hch & E).
    replace ((s ++ ds ++ f ++ x) ++ post) with (s ++ ds ++ f ++ x ++ post)
      by (now rewrite <- !app_assoc).
    rewrite E, number_text by assumption.
    destruct f, x; try reflexivity. destruct Hne; contradiction.
  - now apply nextToken_string.
  - destruct Ha as (c & cs & -> & Hc & Hcs). now apply nextToken_symbol.
  - destruct Ha as (cs & -> & Hcs). now apply nextToken_label.
  - contradiction.
Qed.

(** ** The parser on the text of an expression *)

Lemma to_FullForm_args (head : FullForm.atom_expression)
    (a : FullForm.expression) (l : list FullForm.expression) :
  to_FullForm (FullForm.mk_expression head (a :: l))
  = atom_to_FullForm head ++ [91] ++ to_FullForm a ++ arguments_text l ++ [93].
Proof.
  cbn [to_FullForm]. apply f_equal. apply f_equal.
  rewrite <- app_assoc. apply f_equal.
  apply (f_equal (fun x => x ++ [93])).
  clear a. induction l as [|b l IH]; [reflexivity |].
  cbn [arguments_text flat_map app]. do 2 apply f_equal.
  apply f_equal. exact IH.
Qed.

Lemma start_atom (a : FullForm.atom_expression) (ws post : list Z) (pos : nat) :
  printable_atom a ->
  forallb isspace ws = true ->
  delimited post ->
  start pos (ws ++ atom_to_FullForm a ++ post)
  = parser.mk (lexer.mk (pos + length ws + length (atom_to_FullForm a)) post)
      (lexer.mk_token (atom_token (FullForm.type_ a)) (FullForm.value_ a)
         (pos + length ws))
  /\ quiet (ws ++ atom_to_FullForm a ++ post).
Proof.
  intros Ha Hws Hpost.
  assert (E : forall p,
             start p (ws ++ atom_to_FullForm a ++ post)
             = parser.mk
                 (lexer.mk (p + length ws + length (atom_to_FullForm a)) post)
                 (lexer.mk_token (atom_token (FullForm.type_ a))
                    (FullForm.value_ a) (p + length ws))).
  { intros p. unfold start. now rewrite nextToken_atom. }
  split; [apply E |].
  intros p cerr. rewrite E. cbn [parser.currentToken_ parser.lexer_].
  now apply nextToken_atom.
Qed.

Lemma start_bracket (c : Z) (ws r : list Z) (pos : nat) :
  c = 91 \/ c = 93 \/ c = 44 ->
  forallb isspace ws = true ->
  start pos (ws ++ c :: r)
  = parser.mk (lexer.mk (S (pos + length ws)) r)
      (lexer.mk_token
         (if c =? 91 then lexer.LBRACKET
          else if c =? 93 then lexer.RBRACKET else lexer.COMMA)
         [c] (pos + length ws))
  /\ quiet (ws ++ c :: r).
Proof.
  intros Hc Hws.
  assert (E : forall p,
             start p (ws ++ c :: r)
             = parser.mk (lexer.mk (S (p + length ws)) r)
                 (lexer.mk_token
                    (if c =? 91 then lexer.LBRACKET
                     else if c =? 93 then lexer.RBRACKET else lexer.COMMA)
                    [c] (p + length ws))).
  { intros p. unfold start. now rewrite nextToken_bracket. }
  split; [apply E |].
  intros p cerr. rewrite E. cbn [parser.currentToken_ parser.lexer_].
  now apply nextToken_bracket.
Qed.

Lemma start_end (ws : list Z) (pos : nat) :
  forallb isspace ws = true ->
  start pos ws
  = parser.mk (lexer.mk (pos + length ws) [])
      (lexer.mk_token lexer.END [] (pos + length ws))
  /\ quiet ws.
Proof.
  intros Hws.
  assert (E : forall p,
             start p ws
             = parser.mk (lexer.mk (p + length ws) [])
                 (lexer.mk_token lexer.END [] (p + length ws))).
  { intros p. unfold start. now rewrite nextToken_end. }
  split; [apply E |].
  intros p cerr. rewrite E. cbn [parser.currentToken_ parser.lexer_].
  now apply nextToken_end.
Qed.

(** What follows an expression is read as a closing bracket, a comma or
    the end of the input. *)
Lemma start_closed (post : list Z) (pos : nat) :
  closed post ->
  quiet post
  /\ lexer.token_type_eqb (parser.current_type (start pos post)) lexer.LBRACKET
     = false
  /\ (lexer.token_type_eqb (parser.current_type (start pos post)) lexer.COMMA
      = match post with
        | 44 :: _ => true
        | _ => false
        end)
  /\ (lexer.token_type_eqb (parser.current_type (start pos post)) lexer.END
      = match post with
        | [] => true
        | _ => false
        end).
Proof.
  destruct post as [|c r]; cbn [closed]; intros Hc.
  - destruct (start_end [] pos eq_refl) as [E Hq]. rewrite E.
    split; [exact Hq |]. repeat split.
  - assert (Hc' : c = 91 \/ c = 93 \/ c = 44) by tauto.
    destruct (start_bracket c [] r pos Hc' eq_refl) as [E Hq].
    cbn [app] in E, Hq. rewrite E. split; [exact Hq |].
    destruct Hc as [-> | ->]; repeat split.
Qed.

Lemma consume_quiet (ty : lexer.token_type) (tok : lexer.token) (pos : nat)
    (r : list Z) (cerr : list ff_diag) :
  lexer.type tok = ty ->
  quiet r ->
  parser.consume ty (parser.mk (lexer.mk pos r) tok) cerr = (start pos r, cerr).
Proof.
  intros Hty Hq. unfold parser.consume, parser.current_type.
  cbn [parser.currentToken_ parser.lexer_]. rewrite Hty.
  assert (E : lexer.token_type_eqb ty ty = true)
    by (unfold lexer.token_type_eqb; apply Nat.eqb_refl).
  rewrite E, Hq. now destruct (start pos r).
Qed.

Lemma parse_expression_S (fuel' : nat) (ps : parser.t) (cerr : list ff_diag) :
  parser.parse_expression (S fuel') ps cerr
  = let '(head, ps, cerr) := parser.parse_atom ps cerr in
    if lexer.token_type_eqb (parser.current_type ps) lexer.LBRACKET then
      let '(ps, cerr) := parser.consume lexer.LBRACKET ps cerr in
      '(args, ps, cerr) <-
        (if negb (lexer.token_type_eqb (parser.current_type ps) lexer.RBRACKET)
         then
           '(a, ps, cerr) <- parser.parse_expression fuel' ps cerr ;;
           parser.parse_arguments fuel' [a] ps cerr
         else Ok ([], ps, cerr)) ;;
      let args :=
        if (length args =? 0)%nat then
          [FullForm.mk_expression (FullForm.mk_atom FullForm.Null []) []]
        else args in
      let '(ps, cerr) := parser.consume lexer.RBRACKET ps cerr in
      Ok (FullForm.mk_expression head args, ps, cerr)
    else Ok (FullForm.mk_expression head [], ps, cerr).
Proof. reflexivity. Qed.

Lemma parse_arguments_eq (fuel : nat) (args : list FullForm.expression)
    (ps : parser.t) (cerr : list ff_diag) :
  parser.parse_arguments fuel args ps cerr
  = if lexer.token_type_eqb (parser.current_type ps) lexer.COMMA then
      match fuel with
      | O => OutOfFuel
      | S fuel' =>
          let '(ps, cerr) := parser.consume lexer.COMMA ps cerr in
          '(a, ps, cerr) <- parser.parse_expression fuel' ps cerr ;;
          parser.parse_arguments fuel' (args ++ [a]) ps cerr
      end
    else Ok (args, ps, cerr).
Proof. destruct fuel; reflexivity. Qed.

(** [parse_atom] on the token of an atom. *)
Lemma parse_atom_token (a : FullForm.atom_expression) (pos start_pos : nat)
    (r : list Z) (cerr : list ff_diag) :
  printable_atom a ->
  quiet r ->
  parser.parse_atom
    (parser.mk (lexer.mk pos r)
       (lexer.mk_token (atom_token (FullForm.type_ a)) (FullForm.value_ a)
          start_pos)) cerr
  = (a, start pos r, cerr).
Proof.
  intros Ha Hq. destruct a as [ty v]. unfold parser.parse_atom.
  cbn [parser.current_type parser.currentToken_ lexer.type lexer.value
       FullForm.type_ FullForm.value_].
  destruct ty; cbn [atom_token];
    try (rewrite consume_quiet by (reflexivity || assumption); reflexivity).
  contradiction.
Qed.

Lemma to_FullForm_head (e : FullForm.expression) :
  printable e ->
  printable_atom (FullForm.head_ e)
  /\ exists rest,
       to_FullForm e = atom_to_FullForm (FullForm.head_ e) ++ rest
       /\ (FullForm.args_ e = [] -> rest = [])
       /\ forall post, closed post -> delimited (rest ++ post).
Proof.
  intros Hp. inversion Hp as [head args Hhead Hargs]; subst.
  cbn [FullForm.head_ FullForm.args_]. split; [exact Hhead |].
  destruct args as [|a l].
  - exists []. cbn [to_FullForm]. rewrite app_nil_r.
    split; [reflexivity |]. split; [reflexivity |].
    intros [|c post]; cbn; tauto.
  - exists ([91] ++ to_FullForm a ++ arguments_text l ++ [93]).
    split; [apply to_FullForm_args |]. split; [discriminate |].
    intros post _. cbn. tauto.
Qed.

Lemma quiet_expr (e : FullForm.expression) (ws post : list Z) :
  printable e ->
  forallb isspace ws = true ->
  closed post ->
  quiet (ws ++ to_FullForm e ++ post).
Proof.
  intros Hp Hws Hpost.
  destruct (to_FullForm_head e Hp) as (Hhead & rest & E & _ & Hd).
  rewrite E, <- app_assoc.
  apply (start_atom (FullForm.head_ e) ws (rest ++ post) 0 Hhead Hws), Hd, Hpost.
Qed.

Lemma closed_arguments (l : list FullForm.expression) (post : list Z) :
  closed (arguments_text l ++ 93 :: post).
Proof. destruct l; cbn; tauto. Qed.

Lemma expr_size_pos (e : FullForm.expression) : (1 <= expr_size e)%nat.
Proof. destruct e. cbn [expr_size]. lia. Qed.

Lemma parse_arguments_printed (l : list FullForm.expression) :
  Forall (fun e =>
            printable e
            /\ forall fuel pos ws post cerr,
                 (expr_size e <= fuel)%nat ->
                 forallb isspace ws = true ->
                 closed post ->
                 parser.parse_expression fuel
                   (start pos (ws ++ to_FullForm e ++ post)) cerr
                 = Ok (e, start (pos + length ws + length (to_FullForm e)) post,
                       cerr)) l ->
  forall fuel done pos post cerr,
    (list_sum (map expr_size l) < fuel)%nat ->
    parser.parse_arguments fuel done
      (start pos (arguments_text l ++ 93 :: post)) cerr
    = Ok (done ++ l,
          start (pos + length (arguments_text l)) (93 :: post), cerr).
Proof.
  induction 1 as [|b l [Hpb Hb] _ IH]; intros fuel done pos post cerr Hfuel.
  - cbn [arguments_text flat_map app length]. rewrite Nat.add_0_r, app_nil_r.
    rewrite parse_arguments_eq.
    destruct (start_closed (93 :: post) pos) as (_ & _ & Hc & _); [cbn; tauto |].
    now rewrite Hc.
  - cbn [map] in Hfuel.
    change (list_sum (expr_size b :: map expr_size l))
      with (expr_size b + list_sum (map expr_size l))%nat in Hfuel.
    pose proof (expr_size_pos b) as Hsb.
    destruct fuel as [|f]; [lia |].
    assert (Etext : arguments_text (b :: l) ++ 93 :: post
                    = [] ++ 44 :: [32] ++ to_FullForm b
                              ++ arguments_text l ++ 93 :: post).
    { cbn [arguments_text flat_map app]. now rewrite <- app_assoc. }
    rewrite Etext.
    destruct (start_bracket 44 [] ([32] ++ to_FullForm b
                                     ++ arguments_text l ++ 93 :: post) pos)
      as [Es _]; [tauto | reflexivity |].
    rewrite Es. cbn [length]. rewrite Nat.add_0_r.
    change (if 44 =? 91 then lexer.LBRACKET
            else if 44 =? 93 then lexer.RBRACKET else lexer.COMMA)
      with lexer.COMMA.
    rewrite parse_arguments_eq.
    cbn [parser.current_type parser.currentToken_ lexer.type].
    change (lexer.token_type_eqb lexer.COMMA lexer.COMMA) with true. cbv iota.
    rewrite consume_quiet;
      [| reflexivity
       | apply quiet_expr; [exact Hpb | reflexivity | apply closed_arguments]].
    rewrite Hb; [| lia | reflexivity | apply closed_arguments].
    cbn [bind]. rewrite IH by lia.
    rewrite <- app_assoc. cbn [app].
    assert (Hlen : length (arguments_text (b :: l))
                   = (2 + length (to_FullForm b) + length (arguments_text l))%nat).
    { cbn [arguments_text flat_map app length]. now rewrite length_app. }
    rewrite Hlen. cbn [length].
    match goal with
    | |- Ok (_, start ?x _, _) = Ok (_, start ?y _, _) =>
        replace x with y by lia
    end.
    reflexivity.
Qed.

(** The parser reads the text of an expression back as the expression. *)
Lemma parse_expression_printed (e : FullForm.expression) :
  printable e ->
  forall fuel pos ws post cerr,
    (expr_size e <= fuel)%nat ->
    forallb isspace ws = true ->
    closed post ->
    parser.parse_expression fuel (start pos (ws ++ to_FullForm e ++ post)) cerr
    = Ok (e, start (pos + length ws + length (to_FullForm e)) post, cerr).
Proof.
  induction e as [head args IH] using expression_ind'.
  intros Hp fuel pos ws post cerr Hfuel Hws Hpost.
  inversion Hp as [head' args' Hhead Hargs]; subst.
  destruct fuel as [|fuel']; [pose proof (expr_size_pos
    (FullForm.mk_expression head args)); lia |].
  rewrite parse_expression_S.
  destruct args as [|a l].
  - cbn [to_FullForm].
    destruct (start_atom head ws post pos Hhead Hws) as [Es _].
    { destruct post; cbn in *; tauto. }
    rewrite Es.
    destruct (start_closed post
                (pos + length ws + length (atom_to_FullForm head)) Hpost)
      as (Hq & Hl & _).
    rewrite parse_atom_token by assumption. now rewrite Hl.
  - rewrite to_FullForm_args.
    set (inner := to_FullForm a ++ arguments_text l ++ [93]).
    replace ((atom_to_FullForm head ++ [91] ++ inner) ++ post)
      with (atom_to_FullForm head ++ 91 :: inner ++ post)
      by (now rewrite <- !app_assoc).
    destruct (start_atom head ws (91 :: inner ++ post) pos Hhead Hws) as [Es _].
    { cbn. tauto. }
    rewrite Es.
    set (p1 := (pos + length ws + length (atom_to_FullForm head))%nat).
    destruct (start_bracket 91 [] (inner ++ post) p1) as [Eb Hqb];
      [tauto | reflexivity |].
    cbn [app length] in Eb, Hqb. rewrite Nat.add_0_r in Eb.
    change (if 91 =? 91 then lexer.LBRACKET
            else if 91 =? 93 then lexer.RBRACKET else lexer.COMMA)
      with lexer.LBRACKET in Eb.
    rewrite parse_atom_token by assumption.
    rewrite Eb.
    cbn [parser.current_type parser.currentToken_ lexer.type].
    change (lexer.token_type_eqb lexer.LBRACKET lexer.LBRACKET) with true.
    cbv iota.
    inversion Hargs as [|? ? Hpa Hpl]; subst.
    inversion IH as [|? ? IHa IHl]; subst.
    assert (Einner : inner ++ post
                     = [] ++ to_FullForm a ++ arguments_text l ++ 93 :: post).
    { subst inner. now rewrite <- !app_assoc. }
    rewrite Einner.
    rewrite consume_quiet;
      [| reflexivity
       | apply quiet_expr; [exact Hpa | reflexivity | apply closed_arguments]].
    assert (Hfirst : lexer.token_type_eqb
                       (parser.current_type
                          (start (S p1)
                             ([] ++ to_FullForm a
                                 ++ arguments_text l ++ 93 :: post)))
                       lexer.RBRACKET = false).
    { destruct (to_FullForm_head a Hpa) as (Hha & rest & E & _ & Hd).
      rewrite E, <- app_assoc.
      destruct (start_atom (FullForm.head_ a) []
                  (rest ++ arguments_text l ++ 93 :: post) (S p1) Hha eq_refl)
        as [Esa _]; [apply Hd, closed_arguments |].
      rewrite Esa. cbn [parser.current_type parser.currentToken_ lexer.type].
      destruct (FullForm.type_ (FullForm.head_ a)); reflexivity. }
    rewrite Hfirst. cbn [negb].
    cbn [expr_size map] in Hfuel.
    change (list_sum (expr_size a :: map expr_size l))
      with (expr_size a + list_sum (map expr_size l))%nat in Hfuel.
    pose proof (expr_size_pos a) as Hsa.
    rewrite (IHa Hpa fuel' (S p1) [] (arguments_text l ++ 93 :: post) cerr)
      by (lia || reflexivity || apply closed_arguments).
    cbn [bind].
    assert (Hl : Forall
                   (fun e =>
                      printable e
                      /\ forall fuel pos ws post cerr,
                           (expr_size e <= fuel)%nat ->
                           forallb isspace ws = true ->
                           closed post ->
                           parser.parse_expression fuel
                             (start pos (ws ++ to_FullForm e ++ post)) cerr
                           = Ok (e,
                                 start (pos + length ws
                                        + length (to_FullForm e)) post,
                                 cerr)) l).
    { clear - Hpl IHl. rewrite Forall_forall in *. intros x Hx.
      split; [apply (Hpl x Hx) | apply (IHl x Hx), (Hpl x Hx)]. }
    rewrite (parse_arguments_printed l Hl) by lia.
    cbn [bind app length Nat.eqb].
    match goal with
    | |- context [start ?p (93 :: post)] =>
        destruct (start_bracket 93 [] post p) as [Er _];
          [tauto | reflexivity |]
    end.
    cbn [app] in Er. rewrite Er.
    change (if 93 =? 91 then lexer.LBRACKET
            else if 93 =? 93 then lexer.RBRACKET else lexer.COMMA)
      with lexer.RBRACKET.
    destruct (start_closed post 0 Hpost) as (Hq & _).
    rewrite consume_quiet by (reflexivity || assumption).
    subst inner p1.
    rewrite !length_app. cbn [length]. rewrite !length_app. cbn [length].
    match goal with
    | |- Ok (_, start ?x _, _) = Ok (_, start ?y _, _) =>
        replace x with y by lia
    end.
    reflexivity.
Qed.

Lemma convert_braces_id (s : list Z) :
  forallb (fun c => negb (brace c)) s = true -> convert_braces s = s.
Proof.
  unfold convert_braces, brace. induction s as [|c s IH]; intros H; [reflexivity |].
  cbn [forallb] in H. apply andb_true_iff in H as [Hc Hs].
  apply negb_true_iff, orb_false_iff in Hc as [H1 H2].
  cbn [flat_map]. rewrite H1, H2, IH by assumption. reflexivity.
Qed.

Lemma forallb_weaken {A : Type} (p q : A -> bool) (l : list A) :
  (forall x, p x = true -> q x = true) ->
  forallb p l = true -> forallb q l = true.
Proof.
  intros Hpq. induction l as [|x l IH]; [reflexivity |]. cbn [forallb].
  intros H. apply andb_true_iff in H as [Hx Hl].
  now rewrite (Hpq x Hx), IH.
Qed.

Lemma ident_char_no_brace (c : Z) :
  lexer.ident_char c = true -> negb (brace c) = true.
Proof. unfold brace. intros H. char_tests. Qed.

Lemma isdigit_no_brace (c : Z) : isdigit c = true -> negb (brace c) = true.
Proof. unfold brace. intros H. char_tests. Qed.

Lemma atom_text_no_brace (a : FullForm.atom_expression) :
  printable_atom a ->
  forallb (fun c => negb (brace c)) (atom_to_FullForm a) = true
  /\ (1 <= length (atom_to_FullForm a))%nat.
Proof.
  destruct a as [ty v]. unfold printable_atom, atom_to_FullForm.
  cbn [FullForm.type_ FullForm.value_]. intros Ha.
  destruct ty.
  - destruct Ha as (s & ds & -> & Hs & Hds).
    destruct (digits_text_inv ds Hds) as (d & ds' & Eds & _ & Hall).
    split.
    + rewrite forallb_app. apply andb_true_iff. split.
      * destruct Hs as [-> | ->]; reflexivity.
      * apply (forallb_weaken isdigit _ _ isdigit_no_brace Hall).
    + rewrite length_app, Eds. cbn [length]. lia.
  - destruct Ha as (s & ds & f & x & -> & Hs & Hds & Hf & Hx & _).
    destruct (digits_text_inv ds Hds) as (d & dt & Eds & _ & Hall).
    split.
    + rewrite !forallb_app.
      rewrite (forallb_weaken isdigit _ _ isdigit_no_brace Hall).
      assert (Hfb : forallb (fun c => negb (brace c)) f = true).
      { destruct Hf as [-> | (ds' & -> & Hds')]; [reflexivity |].
        cbn [forallb].
        now rewrite (forallb_weaken isdigit _ _ isdigit_no_brace Hds'). }
      assert (Hxb : forallb (fun c => negb (brace c)) x = true).
      { destruct Hx as [-> | (e & sg & dse & -> & He & Hsg & Hdse)];
          [reflexivity |].
        destruct (digits_text_inv dse Hdse) as (? & ? & _ & _ & Hall').
        cbn [forallb]. rewrite forallb_app.
        rewrite (forallb_weaken isdigit _ _ isdigit_no_brace Hall').
        destruct He as [-> | ->]; destruct Hsg as [-> | [-> | ->]]; reflexivity. }
      rewrite Hfb, Hxb. destruct Hs as [-> | ->]; reflexivity.
    + rewrite !length_app, Eds. cbn [length]. lia.
  - split.
    + assert (Hv : forallb (fun c => negb (brace c)) v = true).
      { revert Ha. apply forallb_weaken. intros c Hc.
        apply negb_true_iff in Hc. unfold brace.
        apply orb_false_iff in Hc as [Hc H125].
        apply orb_false_iff in Hc as [_ H123].
        now rewrite H123, H125. }
      rewrite !forallb_app, Hv. reflexivity.
    + rewrite !length_app. cbn [length]. lia.
  - destruct Ha as (c & cs & -> & Hc & Hcs). split; [| cbn [length]; lia].
    cbn [forallb]. apply andb_true_iff. split.
    + unfold brace. clear - Hc. char_tests.
    + apply (forallb_weaken lexer.ident_char _ _ ident_char_no_brace Hcs).
  - destruct Ha as (cs & -> & Hcs). split; [| cbn [length]; lia].
    cbn [forallb]. apply andb_true_iff. split; [reflexivity |].
    apply (forallb_weaken lexer.ident_char _ _ ident_char_no_brace Hcs).
  - contradiction.
Qed.

Lemma printable_text (e : FullForm.expression) :
  printable e ->
  forallb (fun c => negb (brace c)) (to_FullForm e) = true
  /\ (expr_size e <= length (to_FullForm e))%nat.
Proof.
  induction e as [head args IH] using expression_ind'. intros Hp.
  inversion Hp as [head' args' Hhead Hargs]; subst.
  destruct (atom_text_no_brace head Hhead) as [Hnb Hlen].
  destruct args as [|a l].
  - cbn [to_FullForm expr_size map list_sum]. split; [exact Hnb |].
    change (list_sum []) with 0%nat. lia.
  - rewrite to_FullForm_args.
    inversion Hargs as [|? ? Hpa Hpl]; subst.
    inversion IH as [|? ? IHa IHl]; subst.
    destruct (IHa Hpa) as [Ha1 Ha2].
    assert (Hl : forallb (fun c => negb (brace c)) (arguments_text l) = true
                 /\ (list_sum (map expr_size l) <= length (arguments_text l))%nat).
    { clear - Hpl IHl. induction l as [|b l IHind].
      - split; [reflexivity | cbn; lia].
      - inversion Hpl as [|? ? Hpb Hpl']; subst.
        inversion IHl as [|? ? IHb IHl']; subst.
        destruct (IHb Hpb) as [Hb1 Hb2].
        destruct (IHind Hpl' IHl') as [Hl1 Hl2].
        cbn [arguments_text flat_map map]. fold (arguments_text l).
        change (list_sum (expr_size b :: map expr_size l))
          with (expr_size b + list_sum (map expr_size l))%nat.
        split.
        + rewrite !forallb_app. cbn [forallb]. rewrite Hb1, Hl1. reflexivity.
        + rewrite !length_app. cbn [length]. lia. }
    destruct Hl as [Hl1 Hl2].
    split.
    + rewrite !forallb_app. rewrite Hnb, Ha1, Hl1. reflexivity.
    + cbn [expr_size map].
      change (list_sum (expr_size a :: map expr_size l))
        with (expr_size a + list_sum (map expr_size l))%nat.
      rewrite !length_app. cbn [length]. lia.
Qed.

Lemma parse_FullForm_converted (e : FullForm.expression) (str : list Z)
    (fuel : nat) (cerr : list ff_diag) :
  printable e ->
  convert_braces str = to_FullForm e ->
  (length (to_FullForm e) <= fuel)%nat ->
  parse_FullForm fuel str cerr = Ok (e, cerr).
Proof.
  intros Hp Hconv Hfuel. destruct (printable_text e Hp) as [Hnb Hsize].
  unfold parse_FullForm. rewrite Hconv.
  pose proof (quiet_expr e [] [] Hp eq_refl I) as Hq.
  cbn [app] in Hq. rewrite app_nil_r in Hq.
  unfold parser.make, lexer.make. rewrite Hq.
  pose proof (parse_expression_printed e Hp fuel 0 [] [] cerr
                ltac:(lia) eq_refl I) as H.
  cbn [app] in H. rewrite app_nil_r in H.
  unfold parser.parse.
  replace (parser.mk (parser.lexer_ (start 0 (to_FullForm e)))
             (parser.currentToken_ (start 0 (to_FullForm e))))
    with (start 0 (to_FullForm e)) by (now destruct (start 0 (to_FullForm e))).
  rewrite H. cbn [bind].
  destruct (start_closed [] (0 + length ([] : list Z) + length (to_FullForm e)) I)
    as (_ & _ & _ & Hend).
  rewrite Hend. reflexivity.
Qed.

Lemma parse_FullForm_printed (e : FullForm.expression) (fuel : nat)
    (cerr : list ff_diag) :
  printable e ->
  (length (to_FullForm e) <= fuel)%nat ->
  parse_FullForm fuel (to_FullForm e) cerr = Ok (e, cerr).
Proof.
  intros Hp Hfuel. apply parse_FullForm_converted; [exact Hp | | exact Hfuel].
  apply convert_braces_id, (printable_text e Hp).
Qed.

(** X19. The template parser inverts [to_FullForm]. For an expression
    whose atoms are symbols (a letter or [$], then letters, digits and
    [$]), labels ([#] and such characters), integers (an optional minus
    sign and digits), reals (an optional minus sign and digits, then a
    fraction of a dot and digits, an exponent of [e] or [E], an optional
    sign and digits, or both) and strings without double quote, backslash
    or brace, [parse_FullForm] on the text that [to_FullForm] prints
    returns the expression itself and writes nothing to [std::cerr]. *)
Theorem parse_FullForm_to_FullForm (e : FullForm.expression) (fuel : nat) :
  printable e ->
  (length (to_FullForm e) <= fuel)%nat ->
  parse_FullForm fuel (to_FullForm e) [] = Ok (e, []).
Proof. intros Hp Hfuel. now apply parse_FullForm_printed. Qed.

Lemma parse_FullForm_to_FullForm_witness :
  let e :=
    FullForm.mk_expression (FullForm.mk_atom FullForm.Symbol [102])
      [FullForm.mk_expression (FullForm.mk_atom FullForm.Integer [45; 55]) [];
       FullForm.mk_expression (FullForm.mk_atom FullForm.Symbol Rule)
         [FullForm.mk_expression (FullForm.mk_atom FullForm.Expression [35; 49]) [];
          FullForm.mk_expression (FullForm.mk_atom FullForm.String [97]) []];
       FullForm.mk_expression
         (FullForm.mk_atom FullForm.Real [49; 46; 53; 101; 45; 51]) []] in
  to_FullForm e
  = [102; 91; 45; 55; 44; 32; 82; 117; 108; 101; 91; 35; 49; 44; 32; 34; 97; 34;
     93; 44; 32; 49; 46; 53; 101; 45; 51; 93]
  /\ parse_FullForm 28
       [102; 91; 45; 55; 44; 32; 82; 117; 108; 101; 91; 35; 49; 44; 32; 34; 97;
        34; 93; 44; 32; 49; 46; 53; 101; 45; 51; 93] []
     = Ok (e, []).
Proof.
  intros e. split; [reflexivity |].
  assert (Hp : printable e).
  { constructor.
    - exists 102, []. split; [| split]; reflexivity.
    - apply Forall_cons;
        [| apply Forall_cons; [| apply Forall_cons; [| apply Forall_nil]]].
      + constructor; [| apply Forall_nil].
        exists [45], [55]. split; [reflexivity | split; [now right | reflexivity]].
      + constructor.
        * exists 82, [117; 108; 101]. split; [| split]; reflexivity.
        * apply Forall_cons; [| apply Forall_cons; [| apply Forall_nil]].
          -- constructor; [| apply Forall_nil]. exists [49]. split; reflexivity.
          -- constructor; [reflexivity | apply Forall_nil].
      + constructor; [| apply Forall_nil].
        exists [], [49], [46; 53], [101; 45; 51].
        split; [reflexivity |]. split; [now left |]. split; [reflexivity |].
        split; [right; exists [53]; split; reflexivity |].
        split; [| left; discriminate].
        right. exists 101, [45], [51].
        split; [reflexivity |]. split; [now left |].
        split; [right; now right | reflexivity]. }
  exact (parse_FullForm_to_FullForm e 28 Hp ltac:(cbn; lia)).
Defined.

(** ** The lexer and the parser move forward *)

Lemma advance_unread (lx : lexer.t) :
  (unread (lexer.advance lx) <= unread lx)%nat
  /\ (lexer.at_end lx = false ->
      S (unread (lexer.advance lx)) = unread lx).
Proof.
  destruct lx as [pos [|c r]]; unfold unread, lexer.advance, lexer.at_end;
    cbn [lexer.rest_ lexer.position_ length]; split; try lia; discriminate.
Qed.

Lemma skip_ws_unread (lx : lexer.t) :
  (unread (lexer.skip_ws lx) <= unread lx)%nat.
Proof.
  destruct lx as [pos rest]. unfold lexer.skip_ws, unread.
  cbn [lexer.rest_ lexer.position_].
  revert pos. induction rest as [|c r IH]; intros pos; [cbn; lia |].
  cbn [lexer.skip_ws_from]. destruct (isspace c).
  - specialize (IH (S pos)). cbn [length]. lia.
  - cbn [lexer.rest_]. lia.
Qed.

Lemma scan_unread (p : Z -> bool) (lx lx' : lexer.t) (value value' : list Z) :
  lexer.scan p lx value = (lx', value') ->
  (unread lx' <= unread lx)%nat
  /\ (lexer.at_end lx = false -> p (lexer.current_char lx) = true ->
      (unread lx' < unread lx)%nat).
Proof.
  destruct lx as [pos rest]. unfold lexer.scan, unread, lexer.at_end,
    lexer.current_char. cbn [lexer.rest_ lexer.position_].
  revert pos value. induction rest as [|c r IH]; intros pos value H.
  - cbn in H. injection H as <- _. cbn. split; [lia | discriminate].
  - cbn [lexer.scan_from] in H. destruct (p c) eqn:Ec.
    + destruct (IH _ _ H) as [Hle _]. cbn [length]. split; [lia |]. intros _ _. lia.
    + injection H as <- _. cbn [lexer.rest_]. split; [lia |].
      intros _ Hc. congruence.
Qed.

Lemma scan_string_unread (lx lx' : lexer.t) (value value' : list Z) :
  lexer.scan_string lx value = (lx', value') ->
  (unread lx' <= unread lx)%nat.
Proof.
  destruct lx as [pos rest]. unfold lexer.scan_string, unread.
  cbn [lexer.rest_ lexer.position_].
  remember (length rest) as n eqn:En.
  assert (Hn : (length rest <= n)%nat) by lia. clear En.
  revert rest pos value Hn.
  induction n as [|n IH]; intros rest pos value Hn H.
  - destruct rest; [| cbn in Hn; lia]. cbn in H. injection H as <- _. cbn. lia.
  - destruct rest as [|c r]; [cbn in H; injection H as <- _; cbn; lia |].
    cbn [lexer.scan_string_from] in H. cbn [length] in Hn |- *.
    destruct (c =? 34).
    + injection H as <- _. cbn. lia.
    + destruct r as [|next r'].
      * cbn in H. injection H as <- _. cbn. lia.
      * destruct (c =? 92).
        -- apply IH in H; cbn [length] in *; lia.
        -- apply IH in H; cbn [length] in *; lia.
Qed.

Lemma scan_stop (p : Z -> bool) (lx : lexer.t) (value : list Z) :
  lexer.at_end lx = false -> p (lexer.current_char lx) = false ->
  lexer.scan p lx value = (lx, value).
Proof.
  destruct lx as [pos [|c r]]; [discriminate |].
  unfold lexer.scan, lexer.current_char. cbn [lexer.rest_ lexer.position_
    lexer.scan_from]. intros _ ->. reflexivity.
Qed.

Lemma number_exponent_unread (lx lx' : lexer.t) (cerr cerr' : list ff_diag)
    (start_pos : nat) (hasDot : bool) (value : list Z) (tok : lexer.token) :
  lexer.number_exponent lx cerr start_pos hasDot value = (tok, lx', cerr') ->
  (unread lx' <= unread lx)%nat.
Proof.
  unfold lexer.number_exponent. intros H.
  destruct (negb (lexer.at_end lx)
            && ((lexer.current_char lx =? 101)
                || (lexer.current_char lx =? 69)));
    [| injection H as _ <- _; lia].
  cbv zeta in H.
  pose proof (proj1 (advance_unread lx)) as Ha1.
  set (lx3 := lexer.advance lx) in *.
  assert (Hsign : exists lx4 v4,
             (if negb (lexer.at_end lx3)
                 && ((lexer.current_char lx3 =? 43)
                     || (lexer.current_char lx3 =? 45))
              then (lexer.advance lx3,
                    (value ++ [lexer.current_char lx])
                    ++ [lexer.current_char lx3])
              else (lx3, value ++ [lexer.current_char lx])) = (lx4, v4)
             /\ (unread lx4 <= unread lx3)%nat).
  { destruct (negb (lexer.at_end lx3)
              && ((lexer.current_char lx3 =? 43)
                  || (lexer.current_char lx3 =? 45))).
    - eexists _, _. split; [reflexivity |]. apply advance_unread.
    - eexists _, _. split; [reflexivity | lia]. }
  destruct Hsign as (lx4 & v4 & Esign & Hle4). rewrite Esign in H.
  destruct (lexer.at_end lx4 || negb (isdigit (lexer.current_char lx4))).
  - injection H as _ <- _. lia.
  - destruct (lexer.scan isdigit lx4 v4) as [lx5 v5] eqn:E5.
    destruct (scan_unread _ _ _ _ _ E5) as [Hle5 _].
    injection H as _ <- _. lia.
Qed.

Lemma number_digits_unread (lx lx' : lexer.t) (cerr cerr' : list ff_diag)
    (start_pos : nat) (value : list Z) (tok : lexer.token) :
  lexer.number_digits lx cerr start_pos value = (tok, lx', cerr') ->
  (unread lx' <= unread lx)%nat
  /\ (lexer.at_end lx = false ->
      isdigit (lexer.current_char lx) = true \/ lexer.current_char lx = 46 ->
      (unread lx' < unread lx)%nat).
Proof.
  unfold lexer.number_digits. intros H.
  destruct (lexer.scan isdigit lx value) as [lx1 v1] eqn:E1.
  assert (Hdot : exists lx2 v2 hasDot,
             (if negb (lexer.at_end lx1) && (lexer.current_char lx1 =? 46) then
                let '(lx, value) :=
                  lexer.scan isdigit (lexer.advance lx1) (v1 ++ [46]) in
                (true, lx, value)
              else (false, lx1, v1)) = (hasDot, lx2, v2)
             /\ (unread lx2 <= unread lx1)%nat
             /\ (lexer.at_end lx1 = false -> lexer.current_char lx1 = 46 ->
                 (unread lx2 < unread lx1)%nat)).
  { destruct (lexer.at_end lx1) eqn:Eend; cbn [negb andb].
    - exists lx1, v1, false. split; [reflexivity |]. split; [lia | discriminate].
    - destruct (Z.eqb_spec (lexer.current_char lx1) 46) as [E46 | N46].
      + destruct (lexer.scan isdigit (lexer.advance lx1) (v1 ++ [46]))
          as [lx2 v2] eqn:E2.
        exists lx2, v2, true. split; [reflexivity |].
        destruct (scan_unread _ _ _ _ _ E2) as [Hle _].
        destruct (advance_unread lx1) as [_ Hadv]. specialize (Hadv Eend).
        split; [lia | intros _ _; lia].
      + exists lx1, v1, false. split; [reflexivity |].
        split; [lia | intros _ Hc; contradiction]. }
  destruct Hdot as (lx2 & v2 & hasDot & Edot & Hle2 & Hlt2).
  rewrite Edot in H.
  destruct (scan_unread _ _ _ _ _ E1) as [Hle1 Hlt1].
  apply number_exponent_unread in H.
  split; [lia |].
  intros Hend [Hd | H46].
  - specialize (Hlt1 Hend Hd). lia.
  - assert (Hnd : isdigit (lexer.current_char lx) = false)
      by (rewrite H46; reflexivity).
    rewrite (scan_stop isdigit lx value Hend Hnd) in E1.
    injection E1 as <- <-. specialize (Hlt2 Hend H46). lia.
Qed.

Lemma number_unread (lx lx' : lexer.t) (cerr cerr' : list ff_diag)
    (start_pos : nat) (tok : lexer.token) :
  lexer.at_end lx = false ->
  isdigit (lexer.current_char lx) || (lexer.current_char lx =? 46)
  || (lexer.current_char lx =? 45) = true ->
  lexer.number lx cerr start_pos (lexer.current_char lx) = (tok, lx', cerr') ->
  (unread lx' <= unread lx)%nat
  /\ (lexer.type tok <> lexer.END -> (unread lx' < unread lx)%nat).
Proof.
  intros Hend Hch H. unfold lexer.number in H.
  destruct (advance_unread lx) as [_ Hadv]. specialize (Hadv Hend).
  destruct (Z.eqb_spec (lexer.current_char lx) 45) as [E45 | N45].
  - cbv zeta in H.
    destruct (lexer.at_end (lexer.advance lx)
              || negb (isdigit (lexer.current_char (lexer.advance lx)))).
    + injection H as _ <- _. split; [lia | intros _; lia].
    + apply number_digits_unread in H as [Hle _]. split; [lia | intros _; lia].
  - apply number_digits_unread in H as [Hle Hlt]. split; [exact Hle |].
    intros Hne. apply Hlt; [exact Hend |].
    apply orb_true_iff in Hch as [Hch | Hch]; [| discriminate Hch].
    apply orb_true_iff in Hch as [Hch | Hch]; [now left |].
    right. now apply Z.eqb_eq.
Qed.

(** A call of [nextToken] does not move the lexer back, and moves it
    forward unless it returns the end token. *)
Lemma nextToken_unread (lx lx' : lexer.t) (cerr cerr' : list ff_diag)
    (tok : lexer.token) :
  lexer.nextToken lx cerr = (tok, lx', cerr') ->
  (unread lx' <= unread lx)%nat
  /\ (lexer.type tok <> lexer.END -> (unread lx' < unread lx)%nat).
Proof.
  unfold lexer.nextToken. intros H.
  pose proof (skip_ws_unread lx) as Hws.
  set (lx0 := lexer.skip_ws lx) in *.
  destruct (lexer.at_end lx0) eqn:Eend.
  { injection H as <- <- _. cbn [lexer.type].
    split; [lia | intros Hne; contradiction]. }
  destruct (advance_unread lx0) as [_ Hadv]. specialize (Hadv Eend).
  destruct (isalpha (lexer.current_char lx0) || (lexer.current_char lx0 =? 36))
    eqn:Ealpha.
  { destruct (lexer.scan lexer.ident_char lx0 []) as [lx1 v1] eqn:E1.
    destruct (scan_unread _ _ _ _ _ E1) as [_ Hlt].
    injection H as _ <- _.
    assert (Hid : lexer.ident_char (lexer.current_char lx0) = true).
    { unfold lexer.ident_char, isalnum.
      apply orb_true_iff in Ealpha as [-> | ->]; [reflexivity |].
      apply orb_true_r. }
    specialize (Hlt Eend Hid). split; [lia | intros _; lia]. }
  destruct (lexer.current_char lx0 =? 35).
  { destruct (lexer.scan lexer.ident_char (lexer.advance lx0)
                [lexer.current_char lx0]) as [lx1 v1] eqn:E1.
    destruct (scan_unread _ _ _ _ _ E1) as [Hle _].
    injection H as _ <- _. split; [lia | intros _; lia]. }
  destruct (isdigit (lexer.current_char lx0) || (lexer.current_char lx0 =? 46)
            || (lexer.current_char lx0 =? 45)) eqn:Enum.
  { apply number_unread in H as [Hle Hlt]; [| assumption | assumption].
    split; [lia | intros Hne; specialize (Hlt Hne); lia]. }
  destruct (lexer.current_char lx0 =? 34).
  { destruct (lexer.scan_string (lexer.advance lx0) []) as [lx1 v1] eqn:E1.
    apply scan_string_unread in E1.
    destruct (lexer.at_end lx1
              || negb (lexer.current_char lx1 =? 34)).
    - injection H as <- <- _. cbn [lexer.type].
      split; [lia | intros Hne; contradiction].
    - injection H as _ <- _. pose proof (proj1 (advance_unread lx1)).
      split; [lia | intros _; lia]. }
  destruct (lexer.current_char lx0 =? 91);
    [injection H as _ <- _; split; [lia | intros _; lia] |].
  destruct (lexer.current_char lx0 =? 93);
    [injection H as _ <- _; split; [lia | intros _; lia] |].
  destruct (lexer.current_char lx0 =? 44);
    [injection H as _ <- _; split; [lia | intros _; lia] |].
  injection H as <- <- _. cbn [lexer.type].
  split; [lia | intros Hne; contradiction].
Qed.

Lemma token_type_eqb_eq (a b : lexer.token_type) :
  lexer.token_type_eqb a b = true -> a = b.
Proof. destruct a, b; (reflexivity || discriminate). Qed.

Lemma consume_pending (expected : lexer.token_type) (ps ps' : parser.t)
    (cerr cerr' : list ff_diag) :
  parser.consume expected ps cerr = (ps', cerr') ->
  (pending ps' <= pending ps)%nat
  /\ (lexer.token_type_eqb (parser.current_type ps) expected = true ->
      expected <> lexer.END ->
      (pending ps' < pending ps)%nat).
Proof.
  unfold parser.consume. intros H.
  destruct (lexer.token_type_eqb (parser.current_type ps) expected) eqn:E.
  - destruct (lexer.nextToken (parser.lexer_ ps) cerr) as [[tok lx] c] eqn:Et.
    injection H as <- _.
    destruct (nextToken_unread _ _ _ _ _ Et) as [Hle Hlt].
    apply token_type_eqb_eq in E.
    unfold pending.
    change (parser.current_type (parser.mk lx tok)) with (lexer.type tok).
    cbn [parser.lexer_].
    destruct (lexer.token_type_eqb (lexer.type tok) lexer.END) eqn:Eb'.
    + split.
      * destruct (lexer.token_type_eqb (parser.current_type ps) lexer.END); lia.
      * intros _ Hne.
        destruct (lexer.token_type_eqb (parser.current_type ps) lexer.END)
          eqn:Eb; [apply token_type_eqb_eq in Eb; congruence | lia].
    + assert (Hs : (unread lx < unread (parser.lexer_ ps))%nat).
      { apply Hlt. intros Heq. rewrite Heq in Eb'. discriminate. }
      split.
      * destruct (lexer.token_type_eqb (parser.current_type ps) lexer.END); lia.
      * intros _ Hne.
        destruct (lexer.token_type_eqb (parser.current_type ps) lexer.END)
          eqn:Eb; [apply token_type_eqb_eq in Eb; congruence | lia].
  - injection H as <- _. split; [lia | discriminate].
Qed.

Lemma parse_atom_pending (ps ps' : parser.t) (cerr cerr' : list ff_diag)
    (a : FullForm.atom_expression) :
  parser.parse_atom ps cerr = (a, ps', cerr') ->
  (pending ps' <= pending ps)%nat.
Proof.
  unfold parser.parse_atom. intros H.
  destruct (parser.current_type ps);
    try (match type of H with
         | context [parser.consume ?ty ps cerr] =>
             destruct (parser.consume ty ps cerr) as [ps1 c1] eqn:Ec;
             injection H as _ <- _;
             apply (consume_pending _ _ _ _ _ Ec)
         end);
    injection H as _ <- _; lia.
Qed.

(** X20. The lexer and the token functions of the parser move forward on
    every input. Whatever the state of the lexer and the content of
    [std::cerr], [nextToken] does not move the lexer back, and it reads at
    least one character unless the token it returns is the end token (the
    end of the text, an unterminated string, a malformed exponent or an
    unknown character); [consume] and [parse_atom] do not move the parser
    back, and [consume] of the expected token, unless that is the end
    token, leaves strictly less to read. Here what is left to read is the
    number of unread characters, plus one when the current token is not
    the end token. *)
Theorem lexer_parser_progress :
  (forall (lx : lexer.t) (cerr : list ff_diag),
     let '(tok, lx', _) := lexer.nextToken lx cerr in
     (unread lx' <= unread lx)%nat
     /\ (lexer.type tok <> lexer.END -> (unread lx' < unread lx)%nat))
  /\ (forall (expected : lexer.token_type) (ps : parser.t)
             (cerr : list ff_diag),
        let '(ps', _) := parser.consume expected ps cerr in
        (pending ps' <= pending ps)%nat
        /\ (lexer.token_type_eqb (parser.current_type ps) expected = true ->
            expected <> lexer.END ->
            (pending ps' < pending ps)%nat))
  /\ (forall (ps : parser.t) (cerr : list ff_diag),
        let '(_, ps', _) := parser.parse_atom ps cerr in
        (pending ps' <= pending ps)%nat).
Proof.
  split; [| split].
  - intros lx cerr.
    destruct (lexer.nextToken lx cerr) as [[tok lx'] cerr'] eqn:E.
    exact (nextToken_unread _ _ _ _ _ E).
  - intros expected ps cerr.
    destruct (parser.consume expected ps cerr) as [ps' cerr'] eqn:E.
    exact (consume_pending _ _ _ _ _ E).
  - intros ps cerr.
    destruct (parser.parse_atom ps cerr) as [[a ps'] cerr'] eqn:E.
    exact (parse_atom_pending _ _ _ _ _ E).
Qed.

(** ** From the text of a template to the tree *)

(** X21. The whole chain on a printed template. Let an expression be
    printable (see X19) and encodable (see X15), its root an atom or a
    function. [fullform_to_wxf(ff_template, map, true)] on the text that
    [to_FullForm] prints returns an encoder whose buffer starts with the
    header, with nothing thrown and nothing on [std::cerr]; and
    [MakeExprTree] on that buffer, the allocator serving a child array of
    as many nodes as the buffer has bytes, returns a tree that mirrors the
    expression. *)
Theorem template_roundtrip (heap : Z -> bool) (stod : list Z -> exception + Z)
    (map : list Z -> option (Encoder.t -> Encoder.t))
    (e : FullForm.expression) (fuel fuel' : nat) :
  printable e ->
  wf_expr stod e ->
  root_expr e ->
  (length (to_FullForm e) <= fuel)%nat ->
  exists buf : list Z,
    fullform_to_wxf_template fuel stod map (to_FullForm e) true []
    = Ok ((Encoder.mk buf, []), None)
    /\ firstn 2 buf = [56; 58]
    /\ (serves heap (node_bytes (Z.of_nat (length buf))) ->
        (length buf <= fuel')%nat ->
        exists (toks : list Token.t) (nd : ExprNode),
          MakeExprTree_bytes heap fuel' buf [] = Ok (mkExprTree toks nd, [])
          /\ mirrors stod buf toks e nd).
Proof.
  intros Hp Hwf Hroot Hfuel.
  exists (Encoder.buffer
            (fst (fst (fullform_to_wxf stod map e (Encoder.mk [56; 58], []))))).
  pose proof (fullform_items stod map e Hwf (Encoder.mk [56; 58]) []) as Hitems.
  split; [| split].
  - unfold fullform_to_wxf_template.
    rewrite (parse_FullForm_printed e fuel [] Hp Hfuel). cbn [bind].
    change (Encoder.push_back (Encoder.push_back (Encoder.mk []) 56) 58)
      with (Encoder.mk [56; 58]).
    rewrite Hitems. reflexivity.
  - rewrite Hitems. reflexivity.
  - intros Hsmall Hfuel'.
    exact (proj2 (fullform_tree heap stod map e fuel' Hwf Hroot Hsmall Hfuel')).
Qed.

Lemma template_roundtrip_witness :
  let stod := fun _ : list Z => @inl exception Z invalid_argument in
  let e :=
    FullForm.mk_expression (FullForm.mk_atom FullForm.Symbol [102])
      [FullForm.mk_expression (FullForm.mk_atom FullForm.Integer [45; 55]) [];
       FullForm.mk_expression (FullForm.mk_atom FullForm.Symbol Rule)
         [FullForm.mk_expression (FullForm.mk_atom FullForm.Symbol [120]) [];
          FullForm.mk_expression (FullForm.mk_atom FullForm.String [97]) []]] in
  let text :=
    [102; 91; 45; 55; 44; 32; 82; 117; 108; 101; 91; 120; 44; 32; 34; 97; 34;
     93; 93] in
  let buf := [56; 58; 102; 2; 115; 1; 102; 67; 249; 45; 115; 1; 120; 83; 1; 97] in
  to_FullForm e = text
  /\ fullform_to_wxf_template 19 stod (fun _ => None) text true []
     = Ok ((Encoder.mk buf, []), None)
  /\ exists (toks : list Token.t) (nd : ExprNode),
       MakeExprTree_bytes small_heap 16 buf [] = Ok (mkExprTree toks nd, [])
       /\ mirrors stod buf toks e nd.
Proof.
  intros stod e text buf.
  assert (Hp : printable e).
  { constructor.
    - exists 102, []. split; [| split]; reflexivity.
    - apply Forall_cons; [| apply Forall_cons; [| apply Forall_nil]].
      + constructor; [| apply Forall_nil].
        exists [45], [55]. split; [reflexivity | split; [now right | reflexivity]].
      + constructor.
        * exists 82, [117; 108; 101]. split; [| split]; reflexivity.
        * apply Forall_cons; [| apply Forall_cons; [| apply Forall_nil]].
          -- constructor; [| apply Forall_nil].
             exists 120, []. split; [| split]; reflexivity.
          -- constructor; [reflexivity | apply Forall_nil]. }
  assert (Hwf : wf_expr stod e).
  { apply wf_function; [discriminate | discriminate | cbn; lia |].
    apply Forall_cons; [| apply Forall_cons; [| apply Forall_nil]].
    - apply (wf_integer stod [45; 55] (-7)). reflexivity.
    - apply wf_rule; [left; reflexivity | apply wf_symbol | apply wf_string]. }
  destruct (template_roundtrip small_heap stod (fun _ => None) e 19 16 Hp Hwf
              ltac:(right; split; discriminate) ltac:(cbn; lia))
    as (buf' & Hbuf & _ & Htree).
  assert (Ebuf : buf' = buf).
  { assert (Hc : fullform_to_wxf_template 19 stod (fun _ => None)
                   (to_FullForm e) true []
                 = Ok ((Encoder.mk buf, []), None)) by reflexivity.
    rewrite Hbuf in Hc. now injection Hc. }
  subst buf'.
  split; [reflexivity |]. split; [exact Hbuf |].
  apply Htree; [apply serves_small_heap; vm_compute; discriminate | cbn; lia].
Defined.

(** ** Braces, empty calls and unknown characters *)

Lemma convert_braces_app (s s' : list Z) :
  convert_braces (s ++ s') = convert_braces s ++ convert_braces s'.
Proof. unfold convert_braces. apply flat_map_app. Qed.

Lemma string_char_no_brace (v : list Z) :
  forallb string_char v = true -> forallb (fun c => negb (brace c)) v = true.
Proof.
  apply forallb_weaken. intros c Hc. unfold string_char, brace in *.
  apply negb_true_iff in Hc.
  apply orb_false_iff in Hc as [Hc H125].
  apply orb_false_iff in Hc as [_ H123].
  now rewrite H123, H125.
Qed.

(** X22. Braces are converted inside string literals too. The text of a
    string atom whose value holds an opening brace between two parts free
    of quotes, backslashes and braces is not read back as that atom:
    [parse_FullForm] returns, with nothing on [std::cerr], the string in
    which the brace is replaced by the five characters [List[]. *)
Theorem parse_FullForm_brace_in_string (v1 v2 : list Z) (fuel : nat) :
  forallb string_char v1 = true ->
  forallb string_char v2 = true ->
  (length v1 + length v2 + 7 <= fuel)%nat ->
  parse_FullForm fuel
    (to_FullForm
       (FullForm.mk_expression
          (FullForm.mk_atom FullForm.String (v1 ++ [123] ++ v2)) [])) []
  = Ok (FullForm.mk_expression
          (FullForm.mk_atom FullForm.String
             (v1 ++ [76; 105; 115; 116; 91] ++ v2)) [], []).
Proof.
  intros H1 H2 Hfuel.
  apply parse_FullForm_converted.
  - constructor; [| constructor].
    unfold printable_atom. cbn [FullForm.type_ FullForm.value_].
    change (fun c => negb ((c =? 34) || (c =? 92) || (c =? 123) || (c =? 125)))
      with string_char.
    rewrite !forallb_app, H1, H2. reflexivity.
  - cbn [to_FullForm atom_to_FullForm FullForm.type_ FullForm.value_].
    rewrite !convert_braces_app.
    rewrite (convert_braces_id v1) by now apply string_char_no_brace.
    rewrite (convert_braces_id v2) by now apply string_char_no_brace.
    reflexivity.
  - cbn [to_FullForm atom_to_FullForm FullForm.type_ FullForm.value_].
    rewrite !length_app. cbn [length]. lia.
Qed.

Lemma parse_FullForm_brace_in_string_witness :
  parse_FullForm 9 [34; 97; 123; 98; 34] []
  = Ok (FullForm.mk_expression
          (FullForm.mk_atom FullForm.String [97; 76; 105; 115; 116; 91; 98]) [],
        []).
Proof.
  exact (parse_FullForm_brace_in_string [97] [98] 9 eq_refl eq_refl
           ltac:(cbn; lia)).
Defined.

Lemma parse_FullForm_empty_call (head : FullForm.atom_expression)
    (fuel : nat) (cerr : list ff_diag) :
  printable_atom head ->
  (1 <= fuel)%nat ->
  parse_FullForm fuel (atom_to_FullForm head ++ [91; 93]) cerr
  = Ok (FullForm.mk_expression head
          [FullForm.mk_expression (FullForm.mk_atom FullForm.Null []) []],
        cerr).
Proof.
  intros Hhead Hfuel. destruct fuel as [|fuel']; [lia |].
  destruct (atom_text_no_brace head Hhead) as [Hnb _].
  unfold parse_FullForm.
  rewrite convert_braces_app, (convert_braces_id _ Hnb).
  change (convert_braces [91; 93]) with [91; 93].
  destruct (start_atom head [] [91; 93] 0 Hhead eq_refl) as [Es Hq];
    [cbn; tauto |].
  cbn [app length] in Es, Hq.
  unfold parser.make, lexer.make. rewrite Hq, Es.
  cbn [parser.currentToken_ parser.lexer_].
  unfold parser.parse. rewrite parse_expression_S.
  destruct (start_bracket 91 [] [93] (length (atom_to_FullForm head)))
    as [Eb Hqb]; [tauto | reflexivity |].
  destruct (start_bracket 93 [] [] (S (length (atom_to_FullForm head))))
    as [Er Hqr]; [tauto | reflexivity |].
  destruct (start_end [] (S (S (length (atom_to_FullForm head)))) eq_refl)
    as [Ee Hqe].
  cbn [app length] in Eb, Hqb, Er, Hqr, Ee.
  rewrite !Nat.add_0_r in *.
  change (if 91 =? 91 then lexer.LBRACKET
          else if 91 =? 93 then lexer.RBRACKET else lexer.COMMA)
    with lexer.LBRACKET in Eb.
  change (if 93 =? 91 then lexer.LBRACKET
          else if 93 =? 93 then lexer.RBRACKET else lexer.COMMA)
    with lexer.RBRACKET in Er.
  rewrite parse_atom_token by assumption.
  cbn [Nat.add].
  rewrite Eb. cbn [parser.current_type parser.currentToken_ lexer.type].
  change (lexer.token_type_eqb lexer.LBRACKET lexer.LBRACKET) with true.
  cbv iota.
  rewrite consume_quiet by (reflexivity || assumption).
  rewrite Er. cbn [parser.current_type parser.currentToken_ lexer.type].
  change (lexer.token_type_eqb lexer.RBRACKET lexer.RBRACKET) with true.
  cbn [negb bind length Nat.eqb].
  rewrite consume_quiet by (reflexivity || assumption).
  rewrite Ee. reflexivity.
Qed.

(** X23. The empty call. For a head that is a printable atom other than
    [Rule] and [RuleDelayed], the template [head[]] is parsed, with
    nothing on [std::cerr], as the head applied to one null atom, and
    [fullform_to_wxf] encodes it as the function of that name with the
    count 0 and no argument. *)
Theorem template_empty_call (stod : list Z -> exception + Z)
    (map : list Z -> option (Encoder.t -> Encoder.t))
    (head : FullForm.atom_expression) (fuel : nat) :
  printable_atom head ->
  FullForm.value_ head <> Rule ->
  FullForm.value_ head <> RuleDelayed ->
  (1 <= fuel)%nat ->
  parse_FullForm fuel (atom_to_FullForm head ++ [91; 93]) []
  = Ok (FullForm.mk_expression head
          [FullForm.mk_expression (FullForm.mk_atom FullForm.Null []) []], [])
  /\ fullform_to_wxf_template fuel stod map (atom_to_FullForm head ++ [91; 93])
       true []
     = Ok ((Encoder.push_function (Encoder.mk [56; 58]) (FullForm.value_ head) 0,
            []), None).
Proof.
  intros Hhead Hr Hd Hfuel.
  pose proof (parse_FullForm_empty_call head fuel [] Hhead Hfuel) as Hparse.
  split; [exact Hparse |].
  unfold fullform_to_wxf_template. rewrite Hparse. cbn [bind].
  rewrite fullform_to_wxf_args. cbv zeta.
  cbn [FullForm.is_atom FullForm.args_ FullForm.head_ FullForm.type_ length
       Nat.eqb andb].
  destruct (list_eq_dec Z.eq_dec (FullForm.value_ head) Rule) as [? | _];
    [contradiction |].
  destruct (list_eq_dec Z.eq_dec (FullForm.value_ head) RuleDelayed)
    as [? | _]; [contradiction |].
  reflexivity.
Qed.

Lemma template_empty_call_witness :
  let stod := fun _ : list Z => @inl exception Z invalid_argument in
  fullform_to_wxf_template 1 stod (fun _ => None) [102; 91; 93] true []
  = Ok ((Encoder.mk [56; 58; 102; 0; 115; 1; 102], []), None).
Proof.
  intros stod.
  refine (proj2 (template_empty_call stod (fun _ => None)
                   (FullForm.mk_atom FullForm.Symbol [102]) 1 _ _ _ _)).
  - exists 102, []. split; [| split]; reflexivity.
  - discriminate.
  - discriminate.
  - lia.
Defined.



(** ** Escape sequences *)

Lemma escape_char_cases (c : Z) :
  (exists x, escape_char c = [92; x] /\ lexer.unescape x = [c])
  \/ (escape_char c = [c] /\ (c =? 34) = false /\ (c =? 92) = false).
Proof.
  unfold escape_char.
  destruct (Z.eqb_spec c 34) as [-> | N34]; [left; now exists 34 |].
  destruct (Z.eqb_spec c 92) as [-> | N92]; [left; now exists 92 |].
  destruct (Z.eqb_spec c 10) as [-> | N10]; [left; now exists 110 |].
  destruct (Z.eqb_spec c 9) as [-> | N9]; [left; now exists 116 |].
  destruct (Z.eqb_spec c 13) as [-> | N13]; [left; now exists 114 |].
  right. split; [reflexivity |]. split; reflexivity.
Qed.

Lemma scan_string_from_escape (v tail : list Z) :
  forall (pos : nat) (value : list Z),
    lexer.scan_string_from (escape v ++ tail) pos value
    = lexer.scan_string_from tail (pos + length (escape v)) (value ++ v).
Proof.
  unfold escape.
  induction v as [|c v IH]; intros pos value.
  - cbn [flat_map app length]. now rewrite Nat.add_0_r, app_nil_r.
  - cbn [flat_map]. rewrite <- app_assoc, length_app.
    set (rest := flat_map escape_char v ++ tail) in *.
    assert (Hstep : lexer.scan_string_from (escape_char c ++ rest) pos value
                    = lexer.scan_string_from rest
                        (pos + length (escape_char c)) (value ++ [c])).
    { destruct (escape_char_cases c) as [(x & -> & Hx) | (-> & N34 & N92)].
      - cbn [app lexer.scan_string_from length].
        change (92 =? 34) with false. change (92 =? 92) with true. cbv iota.
        rewrite Hx. replace (pos + 2)%nat with (S (S pos)) by lia. reflexivity.
      - cbn [app lexer.scan_string_from length]. rewrite N34, N92.
        replace (pos + 1)%nat with (S pos) by lia.
        destruct rest; reflexivity. }
    rewrite Hstep, IH. rewrite <- app_assoc. cbn [app].
    f_equal. lia.
Qed.

Lemma scan_string_escaped (v r : list Z) :
  forall (pos : nat) (value : list Z),
    lexer.scan_string (lexer.mk pos (escape v ++ 34 :: r)) value
    = (lexer.mk (pos + length (escape v)) (34 :: r), value ++ v).
Proof.
  intros pos value. unfold lexer.scan_string.
  cbn [lexer.rest_ lexer.position_]. rewrite scan_string_from_escape.
  cbn [lexer.scan_string_from]. change (34 =? 34) with true. reflexivity.
Qed.

(** X25. The lexer undoes the escaping of a string literal. For every
    string, the literal made of a double quote, the string with a
    backslash before each double quote and backslash and with [\n], [\t]
    and [\r] for a line feed, a tab and a carriage return, and a closing
    double quote is read by [nextToken], after any white space, as one
    STRING token whose value is the string; the lexer stops just after the
    closing quote and writes nothing to [std::cerr]. *)
Theorem nextToken_escaped_string (v ws post : list Z) (pos : nat)
    (cerr : list ff_diag) :
  forallb isspace ws = true ->
  lexer.nextToken (lexer.mk pos (ws ++ [34] ++ escape v ++ [34] ++ post)) cerr
  = (lexer.mk_token lexer.STRING v (pos + length ws),
     lexer.mk (pos + length ws + length (escape v) + 2) post, cerr).
Proof.
  intros Hws. unfold lexer.nextToken.
  rewrite skip_ws_run; [| assumption | reflexivity].
  cbn [lexer.at_end lexer.rest_ app lexer.current_char lexer.position_].
  change (isalpha 34 || (34 =? 36)) with false.
  change (34 =? 35) with false.
  change (isdigit 34 || (34 =? 46) || (34 =? 45)) with false.
  change (34 =? 34) with true. cbv iota.
  unfold lexer.advance at 1. cbn [lexer.rest_ lexer.position_].
  rewrite scan_string_escaped.
  cbn [lexer.at_end lexer.rest_ lexer.current_char orb negb].
  change (34 =? 34) with true. cbn [orb negb].
  unfold lexer.advance. cbn [lexer.rest_ lexer.position_ app].
  do 2 f_equal. f_equal. lia.
Qed.

Lemma nextToken_escaped_string_witness :
  lexer.nextToken (lexer.mk 0 [32; 34; 97; 92; 34; 92; 110; 92; 92; 34; 93]) []
  = (lexer.mk_token lexer.STRING [97; 34; 10; 92] 1, lexer.mk 10 [93], []).
Proof.
  exact (nextToken_escaped_string [97; 34; 10; 92] [32] [93] 0 [] eq_refl).
Defined.


(** X26. A string literal that is not closed ends the text. When the
    input stops before the closing double quote of an escaped string,
    [nextToken] reads to the end of the input, writes
    "Unterminated string at position p" for the position [p] of the
    opening quote to [std::cerr] and returns an END token with an empty
    value: the characters read are dropped, and what the parser sees is
    the end of the text. *)
Theorem nextToken_unterminated_string (v ws : list Z) (pos : nat)
    (cerr : list ff_diag) :
  forallb isspace ws = true ->
  lexer.nextToken (lexer.mk pos (ws ++ [34] ++ escape v)) cerr
  = (lexer.mk_token lexer.END [] (pos + length ws),
     lexer.mk (pos + length ws + length (escape v) + 1) [],
     cerr ++ [UnterminatedString (pos + length ws)]).
Proof.
  intros Hws. unfold lexer.nextToken.
  rewrite skip_ws_run; [| assumption | reflexivity].
  cbn [lexer.at_end lexer.rest_ app lexer.current_char lexer.position_].
  change (isalpha 34 || (34 =? 36)) with false.
  change (34 =? 35) with false.
  change (isdigit 34 || (34 =? 46) || (34 =? 45)) with false.
  change (34 =? 34) with true. cbv iota.
  unfold lexer.advance at 1. cbn [lexer.rest_ lexer.position_].
  unfold lexer.scan_string. cbn [lexer.rest_ lexer.position_].
  rewrite <- (app_nil_r (escape v)) at 1. rewrite scan_string_from_escape.
  cbn [lexer.scan_string_from lexer.at_end lexer.rest_ orb].
  do 2 f_equal. f_equal. lia.
Qed.

Lemma nextToken_unterminated_string_witness :
  lexer.nextToken (lexer.mk 0 [32; 34; 97; 92; 110; 98]) []
  = (lexer.mk_token lexer.END [] 1, lexer.mk 6 [],
     [UnterminatedString 1]).
Proof.
  exact (nextToken_unterminated_string [97; 10; 98] [32] 0 [] eq_refl).
Defined.
